(** * NumBAT [backend/integration.py]: gain assembly and mode symmetries

    A shallow embedding of the two routines of [integration.py],
    [gain_and_qs] and [symmetries], together with the properties of the
    gain pipeline and of the symmetry classifier.

    - Python exceptions are an error monad ([result]); the statements of
      [gain_and_qs] that print or call into the Fortran library run in a
      writer over that monad ([prog]), whose log records every message and
      every Fortran call with its arguments.
    - NumPy arrays are nested lists, indexed with stdpp's [!!]; an item
      assignment out of bounds raises [IndexError].
    - Numbers are kept behind the interface [NumPy]; [Binary64] implements
      it with IEEE binary64 floats and pairs of them.
    - The interpolated fields of [symmetries] are masked arrays of
      [numpy.ma]: arrays of [element]s, each a datum and a mask bit. *)

From Stdlib Require Import ZArith Floats.PrimFloat.
From Stdlib Require Floats.SpecFloat Floats.FloatOps.
From Stdlib Require Numbers.Cyclic.Int63.Uint63.
From stdpp Require Import base tactics option list strings gmap.

Set Default Proof Using "Type".

(** ** Python outcomes *)

Inductive exn : Type :=
  | UnboundLocalError (var : string)
  | IndexError
  | KeyError
  | TypeError
  | ValueError.

Inductive result (A : Type) : Type :=
  | Ok (a : A)
  | Raise (e : exn).
Arguments Ok {A} a.
Arguments Raise {A} e.

#[global] Instance result_ret : MRet result := λ A a, Ok a.
#[global] Instance result_bind : MBind result := λ A B f m,
  match m with
  | Ok a => f a
  | Raise e => Raise e
  end.

Definition returns {A} (m : result A) (P : A → Prop) : Prop :=
  ∃ a, m = Ok a ∧ P a.

(** [l[i]] for a non-negative index. *)
Definition getitem {A} (l : list A) (i : nat) : result A :=
  match l !! i with
  | Some a => Ok a
  | None => Raise IndexError
  end.

(** [for i in iter: s = body(i, s)]. *)
Fixpoint for_in {St} (iter : list nat) (body : nat → St → result St) (s : St)
    : result St :=
  match iter with
  | [] => Ok s
  | i :: iter => s' ← body i s; for_in iter body s'
  end.

Definition range (n : nat) : list nat := seq 0 n.

(** ** Scalars

    The operations of Python's and NumPy's numbers that [integration.py]
    uses.  Python types its numbers at run time: one carrier holds the
    real and the complex ones, and an operation promotes its operands the
    way NumPy does. *)

Class NumPy (T : Type) : Type := {
  zero : T;                 (* 0.0 *)
  one : T;                  (* 1.0 *)
  two : T;                  (* 2 *)
  half : T;                 (* 0.5 *)
  minus_one : T;            (* -1 *)
  imag_unit : T;            (* 1j *)
  tenth : T;                (* 0.1 *)
  fifth : T;                (* 0.2 *)
  of_nat : nat → T;         (* an int used as a number *)
  add : T → T → T;
  sub : T → T → T;
  mul : T → T → T;
  div : T → T → T;
  pow2 : T → T;             (* x**2 *)
  complex128 : T → T;       (* the value as an array of dtype=complex stores it *)
  np_real : T → T;
  np_conj : T → T;
  np_abs : T → T;           (* abs and np.abs *)
  np_isnan : T → bool;
  np_maximum : T → T → T;
  less : T → T → bool;      (* x < y *)
  greater : T → T → bool;   (* x > y *)
}.

(** ** Arrays

    [array3] and [array4] are the arrays of rank 3 and 4, outermost axis
    first. *)

Abbreviation array2 T := (list (list T)).
Abbreviation array3 T := (list (list (list T))).
Abbreviation array4 T := (list (list (list (list T)))).

Section Arrays.
Context {T : Type}.

(** [np.zeros] and [np.ones] are [full] of the constant. *)
Definition full1 (d : nat) (v : T) : list T := replicate d v.
Definition full2 (d0 d1 : nat) (v : T) : array2 T :=
  replicate d0 (replicate d1 v).
Definition full3 (d0 d1 d2 : nat) (v : T) : array3 T :=
  replicate d0 (full2 d1 d2 v).
Definition full4 (d0 d1 d2 d3 : nat) (v : T) : array4 T :=
  replicate d0 (full3 d1 d2 d3 v).

Definition lookup2 (a : array2 T) (i j : nat) : option T :=
  r ← a !! i; r !! j.
Definition lookup3 (a : array3 T) (i j k : nat) : option T :=
  b ← a !! i; lookup2 b j k.
Definition lookup4 (a : array4 T) (x n i e : nat) : option T :=
  b ← a !! x; lookup3 b n i e.

Definition insert2 (a : array2 T) (i j : nat) (v : T) : array2 T :=
  alter (<[j:=v]>) i a.
Definition insert3 (a : array3 T) (i j k : nat) (v : T) : array3 T :=
  alter (λ b, insert2 b j k v) i a.
Definition insert4 (a : array4 T) (x n i e : nat) (v : T) : array4 T :=
  alter (λ b, insert3 b n i e v) x a.

(** [a[i,j]], [a[i,j,k]] and [a[x,n,i,e]] *)
Definition getitem2 (a : array2 T) (i j : nat) : result T :=
  match lookup2 a i j with
  | Some v => Ok v
  | None => Raise IndexError
  end.
Definition getitem3 (a : array3 T) (i j k : nat) : result T :=
  match lookup3 a i j k with
  | Some v => Ok v
  | None => Raise IndexError
  end.
Definition getitem4 (a : array4 T) (x n i e : nat) : result T :=
  match lookup4 a x n i e with
  | Some v => Ok v
  | None => Raise IndexError
  end.

(** [a[i,j] = v], [a[i,j,k] = v] and [a[x,n,i,e] = v] *)
Definition setitem2 (a : array2 T) (i j : nat) (v : T) : result (array2 T) :=
  match lookup2 a i j with
  | Some _ => Ok (insert2 a i j v)
  | None => Raise IndexError
  end.
Definition setitem3 (a : array3 T) (i j k : nat) (v : T) : result (array3 T) :=
  match lookup3 a i j k with
  | Some _ => Ok (insert3 a i j k v)
  | None => Raise IndexError
  end.
Definition setitem4 (a : array4 T) (x n i e : nat) (v : T) : result (array4 T) :=
  match lookup4 a x n i e with
  | Some _ => Ok (insert4 a x n i e v)
  | None => Raise IndexError
  end.

(** [np.shape(a) == (d0, ...)] *)
Definition shape1 (d : nat) (a : list T) : Prop := length a = d.
Definition shape2 (d0 d1 : nat) (a : array2 T) : Prop :=
  length a = d0 ∧ Forall (shape1 d1) a.
Definition shape3 (d0 d1 d2 : nat) (a : array3 T) : Prop :=
  length a = d0 ∧ Forall (shape2 d1 d2) a.
Definition shape4 (d0 d1 d2 d3 : nat) (a : array4 T) : Prop :=
  length a = d0 ∧ Forall (shape3 d1 d2 d3) a.

(** An operation on two arrays, element by element.  Along an axis the
    two extents are equal, or the one that is 1 is stretched; any other
    pair of extents is NumPy's [ValueError]. *)
Definition broadcast {A B C} (f : A → B → result C) (a : list A) (b : list B)
    : result (list C) :=
  if decide (length a = length b) then mapM (λ p, f p.1 p.2) (zip a b)
  else match a, b with
       | [x], _ => mapM (f x) b
       | _, [y] => mapM (λ x, f x y) a
       | _, _ => Raise ValueError
       end.
Definition broadcast1 (f : T → T → T) (a b : list T) : result (list T) :=
  broadcast (λ x y, Ok (f x y)) a b.
Definition broadcast2 (f : T → T → T) (a b : array2 T) : result (array2 T) :=
  broadcast (broadcast1 f) a b.
Definition broadcast3 (f : T → T → T) (a b : array3 T) : result (array3 T) :=
  broadcast (broadcast2 f) a b.

Definition map2 (f : T → T) (a : array2 T) : array2 T := map (map f) a.
Definition map3 (f : T → T) (a : array3 T) : array3 T := map (map2 f) a.
End Arrays.

(** ** Programs that print and call Fortran

    [prog] logs what the routine does in the order it does it: the messages
    it prints and the Fortran routines it calls. *)

Inductive outcome (A : Type) : Type :=
  | Returned (a : A)
  | KeyboardInterrupt.
Arguments Returned {A} a.
Arguments KeyboardInterrupt {A}.

Section Log.
Context {Call : Type}.

Inductive event : Type :=
  | Print (msg : string)   (* print(msg); the line feeds of msg are left out *)
  | PrintTime              (* print("     time (sec.)", end - start) *)
  | Invoke (c : Call).

Definition prog (A : Type) : Type := list event * result A.

#[global] Instance prog_ret : MRet prog := λ A a, ([], Ok a).
#[global] Instance prog_bind : MBind prog := λ A B f m,
  match m with
  | (log, Ok a) => let '(log', r) := f a in (log ++ log', r)
  | (log, Raise e) => (log, Raise e)
  end.

Definition lift {A} (r : result A) : prog A := ([], r).
Definition print (msg : string) : prog unit := ([Print msg], Ok tt).
Definition print_time : prog unit := ([PrintTime], Ok tt).

(** [try: v = NumBAT.routine(args)] followed by
    [except KeyboardInterrupt: print(msg)].  When the call is interrupted
    the assignment has not happened: [v] stays unbound. *)
Definition try_call {A} (c : Call) (o : outcome A) (msg : string)
    : prog (option A) :=
  match o with
  | Returned a => ([Invoke c], Ok (Some a))
  | KeyboardInterrupt => ([Invoke c; Print msg], Ok None)
  end.

(** Reading a local variable. *)
Definition local {A} (var : string) (v : option A) : result A :=
  match v with
  | Some a => Ok a
  | None => Raise (UnboundLocalError var)
  end.
End Log.
Arguments event Call : clear implicits.
Arguments prog Call A : clear implicits.

(** ** Arguments of Python type *)

(** A mode selection is an int or a string. *)
Inductive pyobj : Type :=
  | PyStr (s : string)
  | PyInt (z : Z).

(** [if ival == 'All': -1 else: ival+1]; a string plus an int is a
    [TypeError]. *)
Definition ival_fortran (ival : pyobj) : result Z :=
  match ival with
  | PyStr s => if String.eqb s "All" then Ok (-1)%Z else Raise TypeError
  | PyInt z => Ok (z + 1)%Z
  end.

(** ** Simulation objects and the Fortran library *)

Section Simulation.
Context {T : Type} {np : NumPy T}.
(** Mesh tables and material tensors: [gain_and_qs] only hands them to
    Fortran. *)
Context {Table Tensor : Type}.

Record Struct : Type := {
  nb_typ_el : nat;
  nb_typ_el_AC : Z;
  inc_shape : string;
  linear_element_shapes : list string;
  curvilinear_element_shapes : list string;
  eta_tensor : Tensor;
  p_tensor : Tensor;
}.

Record Simmo : Type := {
  structure : Struct;
  num_modes : nat;
  n_msh_el : nat;
  n_msh_pts : nat;
  table_nod : Table;
  type_el : Table;
  x_arr : Table;
  sol1 : array4 T;                (* [component, node, mode, element] *)
  el_convert_tbl : gmap nat nat;  (* dict: AC element number to EM element number *)
  typ_el_AC : list Z;
  n_list : list T;
  omega_EM : T;
  Omega_AC : list T;              (* one angular frequency per AC mode *)
  EM_mode_power : list T;
  AC_mode_power : list T;
  Eig_values : list T;
}.

(** The argument lists of the Fortran routines, in the order of the calls. *)
Record alpha_args : Type := {
  aa_num_modes : nat;
  aa_n_msh_el : nat;
  aa_n_msh_pts : nat;
  aa_nnodes : nat;
  aa_table_nod : Table;
  aa_type_el : Table;
  aa_x_arr : Table;
  aa_nb_typ_el_AC : Z;
  aa_eta_tensor : Tensor;
  aa_k_AC : T;
  aa_Omega_AC : list T;
  aa_sol1 : array4 T;
  aa_AC_mode_power : list T;
}.

Record overlap_args : Type := {
  oa_num_modes_pump : nat;
  oa_num_modes_Stokes : nat;
  oa_num_modes_AC : nat;
  oa_EM_ival_pump : Z;
  oa_EM_ival_Stokes : Z;
  oa_AC_ival : Z;
  oa_n_msh_el : nat;
  oa_n_msh_pts : nat;
  oa_nnodes : nat;
  oa_table_nod : Table;
  oa_type_el : Table;
  oa_x_arr : Table;
  oa_nb_typ_el_AC : Z;
  oa_pump_field : array4 T;
  oa_Stokes_field : array4 T;
  oa_AC_field : array4 T;
  oa_eps_effs : list T;
  oa_debug : Z;
}.

Inductive fortran_call : Type :=
  | ac_alpha_int_v2 (a : alpha_args)
  | ac_alpha_int (a : alpha_args) (debug : Z)
  | photoelastic_int_v2 (a : overlap_args) (p_tensor : Tensor) (k_AC : T)
  | photoelastic_int (a : overlap_args) (p_tensor : Tensor) (k_AC : T)
  | moving_boundary (a : overlap_args) (typ_select_in typ_select_out : Z).

(** What the library answers: the loss integrals, one per AC mode, or the
    overlaps, indexed [Stokes mode, pump mode, AC mode]; or the call is
    interrupted from the keyboard. *)
Record Fortran : Type := {
  run_alpha : fortran_call → outcome (list T);
  run_overlap : fortran_call → outcome (array3 T);
}.
End Simulation.
Arguments Struct Tensor : clear implicits.
Arguments Simmo T Table Tensor : clear implicits.
Arguments alpha_args T Table Tensor : clear implicits.
Arguments overlap_args T Table : clear implicits.
Arguments fortran_call T Table Tensor : clear implicits.
Arguments Fortran T Table Tensor : clear implicits.

(** ** [gain_and_qs] *)

Section GainAndQs.
Context {T : Type} {np : NumPy T} {Table Tensor : Type}.
Abbreviation Simmo := (Simmo T Table Tensor).
Abbreviation prog := (prog (fortran_call T Table Tensor)).

Variable NumBAT : Fortran T Table Tensor.

Definition Fortran_debug : Z := 0.
Definition ncomps : nat := 3.
Definition nnodes : nat := 6.

(** [tbl[key]] on a dict *)
Definition getkey (tbl : gmap nat nat) (key : nat) : result nat :=
  match tbl !! key with
  | Some v => Ok v
  | None => Raise KeyError
  end.

(** The EM fields on the elements of the AC mesh:
    [trimmed_EM_pump_field] and [trimmed_EM_Stokes_field]. *)
Definition trimmed_EM_fields (sim_EM_pump sim_EM_Stokes sim_AC : Simmo)
    : result (array4 T * array4 T) :=
  let num_modes_EM_pump := num_modes sim_EM_pump in
  let num_modes_EM_Stokes := num_modes sim_EM_Stokes in
  let n_msh_el_AC := n_msh_el sim_AC in
  let trimmed_EM_pump_field :=
    full4 ncomps nnodes num_modes_EM_pump n_msh_el_AC (complex128 zero) in
  let trimmed_EM_Stokes_field :=
    full4 ncomps nnodes num_modes_EM_Stokes n_msh_el_AC (complex128 zero) in
  for_in (range n_msh_el_AC) (λ el fields,
    new_el ← getkey (el_convert_tbl sim_AC) el;
    for_in (range nnodes) (λ n fields,
      for_in (range ncomps) (λ x '(pump_field, Stokes_field),
        pump_field ← for_in (range num_modes_EM_pump) (λ ival field,
          v ← getitem4 (sol1 sim_EM_pump) x n ival new_el;
          setitem4 field x n ival el (complex128 v)) pump_field;
        Stokes_field ← for_in (range num_modes_EM_Stokes) (λ ival field,
          v ← getitem4 (sol1 sim_EM_Stokes) x n ival new_el;
          setitem4 field x n ival el (complex128 v)) Stokes_field;
        mret (pump_field, Stokes_field)) fields) fields)
    (trimmed_EM_pump_field, trimmed_EM_Stokes_field).

Definition relevant_eps_effs (sim_EM_pump sim_AC : Simmo) : result (list T) :=
  for_in (range (nb_typ_el (structure sim_EM_pump))) (λ el_typ eps_effs,
    if bool_decide ((Z.of_nat el_typ + 1)%Z ∈ typ_el_AC sim_AC) then
      n ← getitem (n_list sim_EM_pump) el_typ;
      mret (eps_effs ++ [pow2 n])
    else mret eps_effs) [].

(** [inc_shape in linear_element_shapes] and
    [inc_shape not in curvilinear_element_shapes] *)
Definition linear_elements (sim : Simmo) : bool :=
  bool_decide (inc_shape (structure sim) ∈
               linear_element_shapes (structure sim)).
Definition curvilinear_unknown (sim : Simmo) : bool :=
  bool_decide (inc_shape (structure sim) ∉
               curvilinear_element_shapes (structure sim)).

Definition warn_quadrature (routine : string) : prog unit :=
  print ("Warning: " +:+ routine +:+
         " - not sure if mesh contains curvi-linear elements" +:+
         " using slow quadrature integration by default.").
Definition interrupted (routine : string) : string :=
  "Routine " +:+ routine +:+ " interrupted by keyboard.".

Definition alpha_call_args (sim_AC : Simmo) (k_AC : T)
    : alpha_args T Table Tensor :=
  {| aa_num_modes := num_modes sim_AC;
     aa_n_msh_el := n_msh_el sim_AC;
     aa_n_msh_pts := n_msh_pts sim_AC;
     aa_nnodes := nnodes;
     aa_table_nod := table_nod sim_AC;
     aa_type_el := type_el sim_AC;
     aa_x_arr := x_arr sim_AC;
     aa_nb_typ_el_AC := nb_typ_el_AC (structure sim_AC);
     aa_eta_tensor := eta_tensor (structure sim_AC);
     aa_k_AC := k_AC;
     aa_Omega_AC := Omega_AC sim_AC;
     aa_sol1 := sol1 sim_AC;
     aa_AC_mode_power := AC_mode_power sim_AC |}.

(** Eq. 45: [alpha] and [Q_factors]. *)
Definition acoustic_loss (sim_EM_pump sim_AC : Simmo) (k_AC : T)
    (fixed_Q : option T) : prog (list T * list T) :=
  let num_modes_AC := num_modes sim_AC in
  match fixed_Q with
  | None =>
      _ ← print "Acoustic loss calc";
      alpha ←
        (if linear_elements sim_EM_pump then
           let c := ac_alpha_int_v2 (alpha_call_args sim_AC k_AC) in
           try_call c (run_alpha NumBAT c) (interrupted "ac_alpha_int")
         else
           _ ← (if curvilinear_unknown sim_EM_pump
                then warn_quadrature "ac_alpha_int" else mret tt);
           let c := ac_alpha_int (alpha_call_args sim_AC k_AC)
                      Fortran_debug in
           try_call c (run_alpha NumBAT c) (interrupted "ac_alpha_int"));
      alpha ← lift (local "alpha" alpha);
      let alpha := map np_real alpha in
      Q_factors ← lift (broadcast1 mul
                          (map (mul half) (map (div k_AC) alpha))
                          (full1 num_modes_AC one));
      _ ← print_time;
      mret (alpha, Q_factors)
  | Some fixed_Q =>
      let alpha := map (mul (mul half (div k_AC fixed_Q)))
                       (full1 num_modes_AC one) in
      let Q_factors := map (mul fixed_Q) (full1 num_modes_AC one) in
      mret (alpha, Q_factors)
  end.

Definition overlap_call_args (sim_EM_pump sim_EM_Stokes sim_AC : Simmo)
    (EM_ival_pump_fortran EM_ival_Stokes_fortran AC_ival_fortran : Z)
    (trimmed_EM_pump_field trimmed_EM_Stokes_field : array4 T)
    (eps_effs : list T) : overlap_args T Table :=
  {| oa_num_modes_pump := num_modes sim_EM_pump;
     oa_num_modes_Stokes := num_modes sim_EM_Stokes;
     oa_num_modes_AC := num_modes sim_AC;
     oa_EM_ival_pump := EM_ival_pump_fortran;
     oa_EM_ival_Stokes := EM_ival_Stokes_fortran;
     oa_AC_ival := AC_ival_fortran;
     oa_n_msh_el := n_msh_el sim_AC;
     oa_n_msh_pts := n_msh_pts sim_AC;
     oa_nnodes := nnodes;
     oa_table_nod := table_nod sim_AC;
     oa_type_el := type_el sim_AC;
     oa_x_arr := x_arr sim_AC;
     oa_nb_typ_el_AC := nb_typ_el_AC (structure sim_AC);
     oa_pump_field := trimmed_EM_pump_field;
     oa_Stokes_field := trimmed_EM_Stokes_field;
     oa_AC_field := sol1 sim_AC;
     oa_eps_effs := eps_effs;
     oa_debug := Fortran_debug |}.

(** Eq. 33: [Q_PE], unbound after an interrupt. *)
Definition photoelastic (sim_EM_pump sim_AC : Simmo) (k_AC : T)
    (args : overlap_args T Table) : prog (option (array3 T)) :=
  _ ← print "Photoelastic calc";
  Q_PE ←
    (if linear_elements sim_EM_pump then
       let c := photoelastic_int_v2 args (p_tensor (structure sim_AC)) k_AC in
       try_call c (run_overlap NumBAT c) (interrupted "photoelastic_int")
     else
       _ ← (if curvilinear_unknown sim_EM_pump
            then warn_quadrature "photoelastic_int" else mret tt);
       let c := photoelastic_int args (p_tensor (structure sim_AC)) k_AC in
       try_call c (run_overlap NumBAT c) (interrupted "photoelastic_int"));
  _ ← print_time;
  mret Q_PE.

(** The material selectors of the moving-boundary integral. *)
Definition typ_select_in : Z := 1.
Definition select_out (eps_effs : list T) (typ_select_out : option Z) : Z :=
  if decide (length eps_effs = 2) then 2
  else match typ_select_out with
       | None => -1
       | Some typ => typ
       end.

(** Eq. 41: [Q_MB], unbound after an interrupt. *)
Definition moving_boundary_calc (args : overlap_args T Table)
    (typ_select_out : option Z) : prog (option (array3 T)) :=
  let typ_select_out := select_out (oa_eps_effs args) typ_select_out in
  _ ← print "Moving boundary calc";
  Q_MB ←
    (let c := moving_boundary args typ_select_in typ_select_out in
     try_call c (run_overlap NumBAT c) (interrupted "moving_boundary"));
  _ ← print_time;
  _ ← print "-----------------------------------------------";
  mret Q_MB.

(** [2*omega_EM*Omega_AC*np.real(Q*np.conj(Q))]: the vector [Omega_AC]
    runs along the last axis of [Q]. *)
Definition gain_of (sim_EM_pump sim_AC : Simmo) (Q : array3 T)
    : result (array3 T) :=
  QQ ← broadcast3 mul Q (map3 np_conj Q);
  broadcast3 mul
    [[map (mul (mul two (omega_EM sim_EM_pump))) (Omega_AC sim_AC)]]
    (map3 np_real QQ).

Definition normal_fact (sim_EM_pump sim_EM_Stokes sim_AC : Simmo)
    (alpha : list T) : result (array3 T) :=
  let num_modes_EM_pump := num_modes sim_EM_pump in
  let num_modes_EM_Stokes := num_modes sim_EM_Stokes in
  let num_modes_AC := num_modes sim_AC in
  for_in (range num_modes_EM_Stokes) (λ i fact,
    P1 ← getitem (EM_mode_power sim_EM_Stokes) i;
    for_in (range num_modes_EM_pump) (λ j fact,
      P2 ← getitem (EM_mode_power sim_EM_pump) j;
      for_in (range num_modes_AC) (λ k fact,
        P3 ← getitem (AC_mode_power sim_AC) k;
        a ← getitem alpha k;
        setitem3 fact i j k (complex128 (mul (mul (mul P1 P2) P3) a)))
        fact) fact)
    (full3 num_modes_EM_Stokes num_modes_EM_pump num_modes_AC
           (complex128 zero)).

(** [np.real(gain/normal_fact)] *)
Definition normalised (gain fact : array3 T) : result (array3 T) :=
  quotient ← broadcast3 div gain fact;
  mret (map3 np_real quotient).

Definition gain_and_qs (sim_EM_pump sim_EM_Stokes sim_AC : Simmo) (k_AC : T)
    (EM_ival_pump EM_ival_Stokes AC_ival : pyobj)
    (fixed_Q : option T) (typ_select_out : option Z)
    : prog (array3 T * array3 T * array3 T * list T * list T) :=
  EM_ival_pump_fortran ← lift (ival_fortran EM_ival_pump);
  EM_ival_Stokes_fortran ← lift (ival_fortran EM_ival_Stokes);
  AC_ival_fortran ← lift (ival_fortran AC_ival);
  '(trimmed_EM_pump_field, trimmed_EM_Stokes_field) ←
    lift (trimmed_EM_fields sim_EM_pump sim_EM_Stokes sim_AC);
  eps_effs ← lift (relevant_eps_effs sim_EM_pump sim_AC);
  _ ← print " -----------------------------------------------";
  '(alpha, Q_factors) ← acoustic_loss sim_EM_pump sim_AC k_AC fixed_Q;
  let args :=
    overlap_call_args sim_EM_pump sim_EM_Stokes sim_AC
      EM_ival_pump_fortran EM_ival_Stokes_fortran AC_ival_fortran
      trimmed_EM_pump_field trimmed_EM_Stokes_field eps_effs in
  Q_PE ← photoelastic sim_EM_pump sim_AC k_AC args;
  Q_MB ← moving_boundary_calc args typ_select_out;
  Q_PE ← lift (local "Q_PE" Q_PE);
  Q_MB ← lift (local "Q_MB" Q_MB);
  Q ← lift (broadcast3 add Q_PE Q_MB);
  gain ← lift (gain_of sim_EM_pump sim_AC Q);
  gain_PE ← lift (gain_of sim_EM_pump sim_AC Q_PE);
  gain_MB ← lift (gain_of sim_EM_pump sim_AC Q_MB);
  fact ← lift (normal_fact sim_EM_pump sim_EM_Stokes sim_AC alpha);
  SBS_gain ← lift (normalised gain fact);
  SBS_gain_PE ← lift (normalised gain_PE fact);
  SBS_gain_MB ← lift (normalised gain_MB fact);
  mret (SBS_gain, SBS_gain_PE, SBS_gain_MB, alpha, Q_factors).
End GainAndQs.


(** ** [symmetries] *)

Section Symmetries.
Context {T : Type} {np : NumPy T} {Table Tensor : Type}.
Abbreviation Simmo := (Simmo T Table Tensor).

(** *** Masked arrays

    The interpolators of [matplotlib.tri] return arrays of [numpy.ma].  An
    element of a masked array is its datum and its mask bit; an ndarray is
    an array whose elements are all [plain]. *)
Record element : Type := {
  data : T;
  mask : bool;
}.

Definition plain (v : T) : element := {| data := v; mask := false |}.

(** [numpy.ma.masked], the value of a masked element: its datum is 0.0. *)
Definition masked : element := {| data := zero; mask := true |}.

(** An element read as a scalar, [a[i, j]]: the number, or [masked]. *)
Definition item (e : element) : element :=
  if mask e then masked else plain (data e).

(** A binary operation of [numpy.ma] on two arrays, element by element,
    for a result of dtype complex: the element is masked when one of the
    operands is, and under the mask the datum of the first operand
    stays. *)
Definition ma_binary (f : T → T → T) (a b : element) : element :=
  if mask a || mask b
  then {| data := complex128 (data a); mask := true |}
  else plain (f (data a) (data b)).

(** [np.abs] of an array keeps the mask. *)
Definition ma_abs (e : element) : element :=
  {| data := np_abs (data e); mask := mask e |}.

(** The operations on scalars: the value is [masked] when an operand
    is. *)
Definition scalar_binary (f : T → T → T) (a b : element) : element :=
  if mask a || mask b then masked else plain (f (data a) (data b)).
Definition scalar_abs (a : element) : element :=
  if mask a then masked else plain (np_abs (data a)).

(** [if a < t:] and [if a > t:] take the branch when the comparison is
    true; the comparison of [masked] is [masked], which is not. *)
Definition holds (test : T → T → bool) (a : element) (t : T) : bool :=
  if mask a then false else test (data a) t.

(** What an item assignment [a[i, j] = v] stores in an array of
    [dtype=np.complex128]: the datum of [v], the mask is dropped. *)
Definition stored (v : element) : T := complex128 (data v).

(** [m[i, j]] *)
Definition getitem_ma (m : array2 element) (i j : nat) : result element :=
  e ← getitem2 m i j;
  mret (item e).

(** [np.max] of a flat masked array of floats: it refuses an empty one,
    and is [masked] when every element is; a masked element is filled
    with the least float, which no maximum keeps. *)
Definition np_max (a : list element) : result element :=
  match a with
  | [] => Raise ValueError
  | _ =>
      match map data (filter (λ e, ¬ mask e) a) with
      | [] => Ok masked
      | v :: l => Ok (plain (foldl np_maximum v l))
      end
  end.

(** *** [np.add.reduce] over floats

    NumPy adds a contiguous array pairwise: fewer than 8 numbers in
    turn, up to [PW_BLOCKSIZE] numbers with 8 accumulators, and a longer
    array as the sum of its two parts, the first a multiple of 8 long. *)
Definition PW_BLOCKSIZE : nat := 128.

Fixpoint unrolled (r0 r1 r2 r3 r4 r5 r6 r7 : T) (a : list T) : T :=
  match a with
  | a0 :: a1 :: a2 :: a3 :: a4 :: a5 :: a6 :: a7 :: a =>
      unrolled (add r0 a0) (add r1 a1) (add r2 a2) (add r3 a3)
               (add r4 a4) (add r5 a5) (add r6 a6) (add r7 a7) a
  | _ =>
      foldl add (add (add (add r0 r1) (add r2 r3))
                     (add (add r4 r5) (add r6 r7))) a
  end.

Definition block_sum (a : list T) : T :=
  match a with
  | a0 :: a1 :: a2 :: a3 :: a4 :: a5 :: a6 :: a7 :: a =>
      unrolled a0 a1 a2 a3 a4 a5 a6 a7 a
  | _ => foldl add zero a
  end.

(** [depth] bounds the halvings; the length of the array is enough. *)
Fixpoint pairwise_sum (depth : nat) (a : list T) : T :=
  match depth with
  | S depth =>
      if decide (length a ≤ PW_BLOCKSIZE) then block_sum a
      else
        let n2 := length a / 2 in
        let n2 := n2 - n2 `mod` 8 in
        add (pairwise_sum depth (take n2 a)) (pairwise_sum depth (drop n2 a))
  | 0 => block_sum a
  end.

(** The reduction starts from the identity 0.0. *)
Definition np_add_reduce (a : list T) : T :=
  add zero (pairwise_sum (length a) a).

(** [np.sum] of a grid: a masked element counts as 0.0, and the sum of a
    masked array without another element is [masked]. *)
Definition filled_with_zero (e : element) : T :=
  if mask e then zero else data e.

Definition np_sum (a : array2 element) : element :=
  let a := concat a in
  if forallb mask a then masked else plain (np_add_reduce (map filled_with_zero a)).

(** *** The interpolated fields

    What the interpolation step of [symmetries] produces with
    [matplotlib.tri]: the extents of the grid and, for a mode [ival], the
    four interpolated fields reshaped to [(n_pts_x, n_pts_y)].  A
    [LinearTriInterpolator] masks the values that are not finite; at a
    grid point outside the triangulated mesh the datum is NaN. *)
Record Interpolated : Type := {
  n_pts_x : nat;
  n_pts_y : nat;
  m_ReEx : nat → array2 element;
  m_ReEy : nat → array2 element;
  m_ImEx : nat → array2 element;
  m_ImEy : nat → array2 element;
}.

Variable interpolate : Simmo → nat → Interpolated.

(** [m_Re + 1j*m_Im] *)
Definition complex_field (m_Re m_Im : array2 element)
    : result (array2 element) :=
  broadcast2 (ma_binary add) m_Re
             (map2 (ma_binary mul (plain imag_unit)) m_Im).

(** [m[~np.isnan(m)]]: the elements whose datum is not NaN, as a flat
    array *)
Definition not_nan (m : array2 element) : list element :=
  filter (λ e, ¬ np_isnan (data e)) (concat m).

(** [if np.max(np.abs(m[~np.isnan(m)])) < negligible_threshold:
     m = np.zeros(np.shape(m))] *)
Definition zero_if_negligible (grid : Interpolated) (negligible_threshold : T)
    (m : array2 element) : result (array2 element) :=
  peak ← np_max (map ma_abs (not_nan m));
  mret (if holds less peak negligible_threshold
        then full2 (n_pts_x grid) (n_pts_y grid) (plain zero)
        else m).

(** [m_Ex] and [m_Ey] of a mode, as the scoring loop reads them. *)
Definition field_components (grid : Interpolated) (negligible_threshold : T)
    (ival : nat) : result (array2 element * array2 element) :=
  m_Ex ← complex_field (m_ReEx grid ival) (m_ImEx grid ival);
  m_Ey ← complex_field (m_ReEy grid ival) (m_ImEy grid ival);
  m_Ex ← zero_if_negligible grid negligible_threshold m_Ex;
  m_Ey ← zero_if_negligible grid negligible_threshold m_Ey;
  mret (m_Ex, m_Ey).

Record mirrors : Type := {
  m_Ex_ymirror : array2 T;
  m_Ex_xmirror : array2 T;
  m_Ex_rotated : array2 T;
  m_Ey_ymirror : array2 T;
  m_Ey_xmirror : array2 T;
  m_Ey_rotated : array2 T;
}.

(** [-1*(v)] *)
Definition negated (v : element) : element :=
  scalar_binary mul (plain minus_one) v.

(** The images of the two components under the three operations. *)
Definition transformed (n_pts_x n_pts_y : nat) (m_Ex m_Ey : array2 element)
    : result mirrors :=
  let blank := full2 n_pts_x n_pts_y (complex128 zero) in
  for_in (range n_pts_x) (λ ix m,
    for_in (range n_pts_y) (λ iy m,
      v ← getitem_ma m_Ex ix (n_pts_y - iy - 1);
      Ex_ymirror ← setitem2 (m_Ex_ymirror m) ix iy (stored v);
      v ← getitem_ma m_Ey ix (n_pts_y - iy - 1);
      Ey_ymirror ← setitem2 (m_Ey_ymirror m) ix iy (stored (negated v));
      v ← getitem_ma m_Ex (n_pts_x - ix - 1) iy;
      Ex_xmirror ← setitem2 (m_Ex_xmirror m) ix iy (stored (negated v));
      v ← getitem_ma m_Ey (n_pts_x - ix - 1) iy;
      Ey_xmirror ← setitem2 (m_Ey_xmirror m) ix iy (stored v);
      v ← getitem_ma m_Ex (n_pts_x - ix - 1) (n_pts_y - iy - 1);
      Ex_rotated ← setitem2 (m_Ex_rotated m) ix iy (stored (negated v));
      v ← getitem_ma m_Ey (n_pts_x - ix - 1) (n_pts_y - iy - 1);
      Ey_rotated ← setitem2 (m_Ey_rotated m) ix iy (stored (negated v));
      mret {| m_Ex_ymirror := Ex_ymirror; m_Ex_xmirror := Ex_xmirror;
              m_Ex_rotated := Ex_rotated; m_Ey_ymirror := Ey_ymirror;
              m_Ey_xmirror := Ey_xmirror; m_Ey_rotated := Ey_rotated |}) m)
    {| m_Ex_ymirror := blank; m_Ex_xmirror := blank; m_Ex_rotated := blank;
       m_Ey_ymirror := blank; m_Ey_xmirror := blank; m_Ey_rotated := blank |}.

(** [np.sum(np.abs(m - m_image))], with [m_image] an ndarray *)
Definition discrepancy (m : array2 element) (m_image : array2 T)
    : result element :=
  difference ← broadcast2 (ma_binary sub) m (map (map plain) m_image);
  mret (np_sum (map2 ma_abs difference)).

(** [(Ex_sum + Ey_sum)/(n_pts_x*n_pts_y)] *)
Definition score (n_pts_x n_pts_y : nat) (Ex_sum Ey_sum : element) : element :=
  scalar_binary div (scalar_binary add Ex_sum Ey_sum)
                    (plain (of_nat (n_pts_x * n_pts_y))).

(** [if abs(score) > threshold: -1 else: 1] *)
Definition symmetry_print (score : element) (threshold : T) : Z :=
  if holds greater (scalar_abs score) threshold then -1 else 1.

(** The scores [(C_2, sigma_y, sigma_x)] of a mode. *)
Definition symmetry_scores (n_pts_x n_pts_y : nat) (m_Ex m_Ey : array2 element)
    : result (element * element * element) :=
  m ← transformed n_pts_x n_pts_y m_Ex m_Ey;
  Ex_sigma_y ← discrepancy m_Ex (m_Ex_ymirror m);
  Ey_sigma_y ← discrepancy m_Ey (m_Ey_ymirror m);
  Ex_sigma_x ← discrepancy m_Ex (m_Ex_xmirror m);
  Ey_sigma_x ← discrepancy m_Ey (m_Ey_xmirror m);
  Ex_C_2 ← discrepancy m_Ex (m_Ex_rotated m);
  Ey_C_2 ← discrepancy m_Ey (m_Ey_rotated m);
  let sigma_y := score n_pts_x n_pts_y Ex_sigma_y Ey_sigma_y in
  let sigma_x := score n_pts_x n_pts_y Ex_sigma_x Ey_sigma_x in
  let C_2 := score n_pts_x n_pts_y Ex_C_2 Ey_C_2 in
  mret (C_2, sigma_y, sigma_x).

Definition symmetry_labels (scores : element * element * element) : list Z :=
  let '(C_2, sigma_y, sigma_x) := scores in
  [symmetry_print C_2 fifth; symmetry_print sigma_y tenth;
   symmetry_print sigma_x tenth].

Definition symmetries (sim_wguide : Simmo) (n_points : nat)
    (negligible_threshold : T) : result (list (list Z)) :=
  let grid := interpolate sim_wguide n_points in
  for_in (range (length (Eig_values sim_wguide))) (λ ival sym_list,
    '(m_Ex, m_Ey) ← field_components grid negligible_threshold ival;
    scores ← symmetry_scores (n_pts_x grid) (n_pts_y grid) m_Ex m_Ey;
    mret (sym_list ++ [symmetry_labels scores])) [].
End Symmetries.
Arguments element T : clear implicits.
Arguments Interpolated T : clear implicits.
Arguments mirrors T : clear implicits.


(** ** IEEE binary64 numbers

    A [float64] is [Real], a [complex128] is [Complex]; an operation on a
    real and a complex number first makes the real one complex. *)

Module Binary64.
Import PrimFloat.

Inductive num : Type :=
  | Real (x : float)
  | Complex (re im : float).

Definition re (z : num) : float :=
  match z with Real x => x | Complex a _ => a end.
Definition im (z : num) : float :=
  match z with Real _ => 0%float | Complex _ b => b end.

Definition lift2 (f : float → float → float)
    (g : float → float → float → float → num) (z w : num) : num :=
  match z, w with
  | Real x, Real y => Real (f x y)
  | _, _ => g (re z) (im z) (re w) (im w)
  end.

Definition cadd (a b c d : float) : num := Complex (a + c) (b + d).
Definition csub (a b c d : float) : num := Complex (a - c) (b - d).
Definition cmul (a b c d : float) : num :=
  Complex (a * c - b * d) (a * d + b * c).

(** NumPy's quotient of two [complex128]: it scales by the larger part of
    the divisor, and a zero divisor divides both parts by zero. *)
Definition cdiv (a b c d : float) : num :=
  if (abs d <=? abs c)%float then
    if ((abs c =? 0) && (abs d =? 0))%float then Complex (a / abs c) (b / abs c)
    else
      let rat := (d / c)%float in
      let scl := (1 / (c + d * rat))%float in
      Complex ((a + b * rat) * scl) ((b - a * rat) * scl)
  else
    let rat := (c / d)%float in
    let scl := (1 / (d + c * rat))%float in
    Complex ((a * rat + b) * scl) ((b * rat - a) * scl).

(** The modulus of a complex number is C's [hypot]: the square root of
    the exact [a*a + b*b], rounded once.  The squares are added as
    integers on the smaller exponent.  A libm may differ from the rounded
    value in the last bit. *)
Definition sum_of_squares (ma : positive) (ea : Z) (mb : positive) (eb : Z)
    : positive * Z :=
  let e := Z.min ea eb in
  let a := Pos.shiftl ma (Z.to_N (ea - e)) in
  let b := Pos.shiftl mb (Z.to_N (eb - e)) in
  ((a * a + b * b)%positive, (2 * e)%Z).

Definition hypot (a b : float) : float :=
  if is_infinity a || is_infinity b then infinity
  else match FloatOps.Prim2SF a, FloatOps.Prim2SF b with
       | SpecFloat.S754_finite _ ma ea, SpecFloat.S754_finite _ mb eb =>
           let '(m, e) := sum_of_squares ma ea mb eb in
           FloatOps.SF2Prim
             (SpecFloat.SFsqrt FloatOps.prec FloatOps.emax
                (SpecFloat.S754_finite false m e))
       | SpecFloat.S754_finite _ _ _, SpecFloat.S754_zero _ => abs a
       | SpecFloat.S754_zero _, SpecFloat.S754_finite _ _ _ => abs b
       | SpecFloat.S754_zero _, SpecFloat.S754_zero _ => 0
       | _, _ => nan
       end.

(** [np.maximum] hands a NaN operand on. *)
Definition fmaximum (x y : float) : float :=
  if is_nan x then x else if is_nan y then y
  else if (x <? y)%float then y else x.

Definition literal (x : float) : num := Real x.
Definition num_of_nat (n : nat) : num :=
  Real (of_uint63 (Uint63.of_Z (Z.of_nat n))).
Definition num_add : num → num → num := lift2 add cadd.
Definition num_sub : num → num → num := lift2 sub csub.
Definition num_mul : num → num → num := lift2 mul cmul.
Definition num_div : num → num → num := lift2 div cdiv.
Definition num_complex128 (z : num) : num := Complex (re z) (im z).
Definition num_real (z : num) : num := Real (re z).
Definition num_conj (z : num) : num :=
  match z with
  | Real x => Real x
  | Complex a b => Complex a (- b)
  end.
Definition num_abs (z : num) : num :=
  match z with
  | Real x => Real (abs x)
  | Complex a b => Real (hypot a b)
  end.
Definition num_isnan (z : num) : bool := is_nan (re z) || is_nan (im z).
Definition num_maximum (z w : num) : num := Real (fmaximum (re z) (re w)).
Definition num_less (z w : num) : bool := (re z <? re w)%float.

Definition lit_0_1 : float := 0x1.999999999999ap-4.  (* 0.1 *)
Definition lit_0_2 : float := 0x1.999999999999ap-3.  (* 0.2 *)
Definition lit_0_5 : float := 0.5.
End Binary64.

#[global] Instance binary64 : NumPy Binary64.num := {|
  zero := Binary64.literal PrimFloat.zero;
  one := Binary64.literal PrimFloat.one;
  two := Binary64.literal PrimFloat.two;
  half := Binary64.literal Binary64.lit_0_5;
  minus_one := Binary64.literal (PrimFloat.opp PrimFloat.one);
  imag_unit := Binary64.Complex PrimFloat.zero PrimFloat.one;
  tenth := Binary64.literal Binary64.lit_0_1;
  fifth := Binary64.literal Binary64.lit_0_2;
  of_nat := Binary64.num_of_nat;
  add := Binary64.num_add;
  sub := Binary64.num_sub;
  mul := Binary64.num_mul;
  div := Binary64.num_div;
  pow2 z := Binary64.num_mul z z;
  complex128 := Binary64.num_complex128;
  np_real := Binary64.num_real;
  np_conj := Binary64.num_conj;
  np_abs := Binary64.num_abs;
  np_isnan := Binary64.num_isnan;
  np_maximum := Binary64.num_maximum;
  less := Binary64.num_less;
  greater z w := Binary64.num_less w z;
|}.


(** * The interpolation grid of [symmetries] and the scripts

    The part of [symmetries] that prepares the interpolation: the sample
    points, the two triangulations handed to [matplotlib.tri], and the
    reshaping of the interpolated values; and the statements of the two
    scripts that use [symmetries] and [gain_and_qs]. *)

(** [for x in iter: s = body(x, s)] over the items of an array. *)
Fixpoint for_each {A St} (iter : list A) (body : A → St → result St) (s : St)
    : result St :=
  match iter with
  | [] => Ok s
  | x :: iter => s' ← body x s; for_each iter body s'
  end.

(** [l[i]] for an integer index: a negative one counts from the end. *)
Definition getitem_int {A} (l : list A) (i : Z) : result A :=
  if decide (0 ≤ i)%Z then getitem l (Z.to_nat i)
  else if decide (- Z.of_nat (length l) ≤ i)%Z
       then getitem l (Z.to_nat (Z.of_nat (length l) + i))
       else Raise IndexError.

(** The further operations on numbers of the interpolation grid and of
    the scripts. *)
Class NumPyScalar (T : Type) : Type := {
  float64 : T → T;          (* the value as an array of dtype float stores it *)
  np_imag : T → T;
  nano : T;                 (* 1e-9 *)
  ten_micro : T;            (* 1e-5 *)
}.

Section SamplingGrid.
Context {T : Type} {np : NumPy T} {sc : NumPyScalar T}.

(** [a[i] = v] *)
Definition setitem1 (a : list T) (i : nat) (v : T) : result (list T) :=
  match a !! i with
  | Some _ => Ok (<[i:=v]> a)
  | None => Raise IndexError
  end.

(** The sample points [v_x], [v_y]: the pairs of an abscissa of [xs] and
    an ordinate of [ys], where [xs] is [np.linspace(x_min,x_max,n_pts_x)]
    and [ys] is [np.linspace(y_min,y_max,n_pts_y)]. *)
Definition sample_points (xs ys : list T) (n_pts_x n_pts_y : nat)
    : result (list T * list T) :=
  let v_x := full1 (n_pts_x * n_pts_y) zero in
  let v_y := full1 (n_pts_x * n_pts_y) zero in
  '(v_x, v_y, _) ←
    for_each xs (λ x s,
      for_each ys (λ y '(v_x, v_y, i),
        v_x ← setitem1 v_x i (float64 x);
        v_y ← setitem1 v_y i (float64 y);
        mret (v_x, v_y, S i)) s)
      (v_x, v_y, 0);
  mret (v_x, v_y).

(** [a.reshape(n0, n1)] of a flat array *)
Definition reshape (n0 n1 : nat) (a : list T) : result (array2 T) :=
  if decide (length a = n0 * n1)
  then Ok (map (λ i, take n1 (drop (i * n1) a)) (seq 0 n0))
  else Raise ValueError.

(** [f(v_x,v_y).reshape(n_pts_x,n_pts_y)] for an interpolator [f] of
    [matplotlib.tri], which takes the points one by one. *)
Definition on_grid (f : T → T → T) (v_x v_y : list T) (n_pts_x n_pts_y : nat)
    : result (array2 T) :=
  reshape n_pts_x n_pts_y (zip_with f v_x v_y).
End SamplingGrid.

Section Triangulations.
Context {T : Type} {np : NumPy T} {sc : NumPyScalar T} {Table Tensor : Type}.
Abbreviation Simmo := (Simmo T Table Tensor).

(** The mesh tables as arrays: the node numbers of [table_nod], of shape
    [(6, n_msh_el)], and the coordinates of [x_arr], of shape
    [(2, n_msh_pts)]. *)
Variable nodes : Table → array2 Z.
Variable coordinates : Table → array2 T.

(** [table_nod[i_el, i_node] - 1], with [table_nod = sim_wguide.table_nod.T] *)
Definition node_index (sim_wguide : Simmo) (i_el i_node : nat) : result Z :=
  number ← getitem2 (nodes (table_nod sim_wguide)) i_node i_el;
  mret (number - 1)%Z.

(** [x_arr[i_ex, c]], with [x_arr = sim_wguide.x_arr.T] *)
Definition coordinate (sim_wguide : Simmo) (i_ex : Z) (c : nat) : result T :=
  row ← getitem (coordinates (x_arr sim_wguide)) c;
  getitem_int row i_ex.

(** The triangulation with six points of its own for every element. *)
Record dense : Type := {
  v_x6p : list T;
  v_y6p : list T;
  v_Ex6p : list T;
  v_Ey6p : list T;
  v_triang6p : list (list nat);
}.

(** The four triangles of element [i_el], on [idx[k] = 6*i_el + k]. *)
Definition triangles6p (i_el : nat) : list (list nat) :=
  let idx k := 6 * i_el + k in
  [[idx 0; idx 3; idx 5];
   [idx 1; idx 4; idx 3];
   [idx 2; idx 5; idx 4];
   [idx 3; idx 4; idx 5]].

Definition dense_triangulation (sim_wguide : Simmo) (ival : nat)
    : result dense :=
  let mode_fields := sol1 sim_wguide in
  let size := 6 * n_msh_el sim_wguide in
  '(d, _) ←
    for_in (range (n_msh_el sim_wguide)) (λ i_el '(d, i),
      let d := {| v_x6p := v_x6p d; v_y6p := v_y6p d;
                  v_Ex6p := v_Ex6p d; v_Ey6p := v_Ey6p d;
                  v_triang6p := v_triang6p d ++ triangles6p i_el |} in
      for_in (range 6) (λ i_node '(d, i),
        i_ex ← node_index sim_wguide i_el i_node;
        x ← coordinate sim_wguide i_ex 0;
        x6p ← setitem1 (v_x6p d) i (float64 x);
        y ← coordinate sim_wguide i_ex 1;
        y6p ← setitem1 (v_y6p d) i (float64 y);
        Ex ← getitem4 mode_fields 0 i_node ival i_el;
        Ex6p ← setitem1 (v_Ex6p d) i (complex128 Ex);
        Ey ← getitem4 mode_fields 1 i_node ival i_el;
        Ey6p ← setitem1 (v_Ey6p d) i (complex128 Ey);
        mret ({| v_x6p := x6p; v_y6p := y6p; v_Ex6p := Ex6p; v_Ey6p := Ey6p;
                 v_triang6p := v_triang6p d |}, S i)) (d, i))
      ({| v_x6p := full1 size zero; v_y6p := full1 size zero;
          v_Ex6p := full1 size (complex128 zero);
          v_Ey6p := full1 size (complex128 zero);
          v_triang6p := [] |}, 0);
  mret d.

(** [[table_nod[i_el,a]-1, table_nod[i_el,b]-1, table_nod[i_el,c]-1]] *)
Definition triangle1p (sim_wguide : Simmo) (i_el a b c : nat)
    : result (list Z) :=
  p ← node_index sim_wguide i_el a;
  q ← node_index sim_wguide i_el b;
  r ← node_index sim_wguide i_el c;
  mret [p; q; r].

(** The triangulation on the points of the mesh: [v_triang1p]. *)
Definition unique_triangulation (sim_wguide : Simmo) : result (list (list Z)) :=
  for_in (range (n_msh_el sim_wguide)) (λ i_el v_triang1p,
    t0 ← triangle1p sim_wguide i_el 0 3 5;
    t1 ← triangle1p sim_wguide i_el 1 4 3;
    t2 ← triangle1p sim_wguide i_el 2 5 4;
    t3 ← triangle1p sim_wguide i_el 3 4 5;
    mret (v_triang1p ++ [t0; t1; t2; t3])) [].
End Triangulations.
Arguments dense T : clear implicits.

Module Binary64Scalar.
Import PrimFloat.

Definition lit_1e_9 : float := 0x1.12e0be826d695p-30.  (* 1e-9 *)
Definition lit_1e_5 : float := 0x1.4f8b588e368f1p-17.  (* 1e-5 *)
Definition num_float64 (z : Binary64.num) : Binary64.num :=
  Binary64.Real (Binary64.re z).
Definition num_imag (z : Binary64.num) : Binary64.num :=
  Binary64.Real (Binary64.im z).
End Binary64Scalar.

#[global] Instance binary64_scalar : NumPyScalar Binary64.num := {|
  float64 := Binary64Scalar.num_float64;
  np_imag := Binary64Scalar.num_imag;
  nano := Binary64.literal Binary64Scalar.lit_1e_9;
  ten_micro := Binary64.literal Binary64Scalar.lit_1e_5;
|}.


(** ** Scripts *)

(** *** [tutorials/simo-tut_03-dispersion.py]: the loop over the
    propagating modes of a wavevector (lines 65 to 77) *)

Module Tut03.
Section Dispersion.
Context {T : Type} {np : NumPy T} {sc : NumPyScalar T} {Table Tensor : Type}.
Abbreviation Simmo := (Simmo T Table Tensor).

(** The interpolation of [symmetries]. *)
Variable interpolate : Simmo → nat → Interpolated T.

(** The four names bound by the plot calls, and the marker of each. *)
Inductive handle : Type := sym_A | sym_B | sym_C | sym_D.

#[global] Instance handle_eq_dec : EqDecision handle.
Proof. solve_decision. Defined.

Definition marker (h : handle) : string :=
  match h with
  | sym_A => "or"
  | sym_B => "vc"
  | sym_C => "sb"
  | sym_D => "^g"
  end.

Record Line2D : Type := {
  xdata : T;
  ydata : T;
  fmt : string;
}.

(** The lines of the figure and the names bound so far. *)
Record session : Type := {
  lines : list Line2D;
  names : handle → option Line2D;
}.

Definition blank : session :=
  {| lines := []; names := λ _, None |}.

(** [h, = plt.plot(x, y, marker)] *)
Definition plot (h : handle) (x y : T) (s : session) : session :=
  let line := {| xdata := x; ydata := y; fmt := marker h |} in
  {| lines := lines s ++ [line];
     names := λ h', if decide (h' = h) then Some line else names s h' |}.

(** [[np.real(x) for x in Eig_values if abs(np.real(x)) > abs(np.imag(x))]] *)
Definition prop_AC_modes (sim_AC_wguide : Simmo) : list T :=
  map np_real
    (filter (λ x, greater (np_abs (np_real x)) (np_abs (np_imag x)))
            (Eig_values sim_AC_wguide)).

(** [sym_list[i][c] == v] *)
Definition label_is (sym_list : list (list Z)) (i c : nat) (v : Z)
    : result bool :=
  row ← getitem sym_list i;
  label ← getitem row c;
  mret (bool_decide (label = v)).

(** [sym_list[i][0] == a and sym_list[i][1] == b and sym_list[i][2] == c] *)
Definition labels_are (sym_list : list (list Z)) (i : nat) (a b c : Z)
    : result bool :=
  first ← label_is sym_list i 0 a;
  if first : bool then
    second ← label_is sym_list i 1 b;
    if second : bool then label_is sym_list i 2 c else mret false
  else mret false.

(** The statements of the loop over the propagating modes. *)
Definition mark_mode (sym_list : list (list Z)) (prop_AC_modes : list T)
    (q_ac k_AC : T) (i : nat) (s : session) : result session :=
  frequency ← getitem prop_AC_modes i;
  let Om := mul frequency nano in
  let x := np_real (div q_ac k_AC) in
  c ← labels_are sym_list i 1 1 1;
  let s := if c : bool then plot sym_A x Om s else s in
  c ← labels_are sym_list i (-1) 1 (-1);
  let s := if c : bool then plot sym_B x Om s else s in
  c ← labels_are sym_list i 1 (-1) (-1);
  let s := if c : bool then plot sym_C x Om s else s in
  c ← labels_are sym_list i (-1) (-1) 1;
  let s := if c : bool then plot sym_D x Om s else s in
  mret s.

(** The statements from [prop_AC_modes = ...] to the end of the loop
    over the propagating modes, for the modes [sim_AC_wguide] of a
    wavevector [q_ac]. *)
Definition mark_modes (sim_AC_wguide : Simmo) (q_ac k_AC : T) (s : session)
    : result session :=
  let prop_AC_modes := prop_AC_modes sim_AC_wguide in
  sym_list ← symmetries interpolate sim_AC_wguide 10 ten_micro;
  for_in (range (length prop_AC_modes))
    (mark_mode sym_list prop_AC_modes q_ac k_AC) s.
End Dispersion.
Arguments Line2D T : clear implicits.
Arguments session T : clear implicits.
End Tut03.

(** *** [lit_examples/simo-lit_08-Kittlaus-NatComm_2017.py]: the call of
    [gain_and_qs] *)

Module Lit08.
Section Gains.
Context {T : Type} {np : NumPy T} {Table Tensor : Type}.
Abbreviation Simmo := (Simmo T Table Tensor).
Variable NumBAT : Fortran T Table Tensor.

Definition EM_ival_pump : pyobj := PyInt 0.
Definition EM_ival_Stokes : pyobj := PyInt 1.
Definition AC_ival : pyobj := PyStr "All".

(** The values of a tuple. *)
Inductive pyvalue : Type :=
  | Array3 (a : array3 T)
  | Array1 (a : list T).

(** What [gain_and_qs] returns, as the tuple it is. *)
Definition returned
    (r : array3 T * array3 T * array3 T * list T * list T) : list pyvalue :=
  let '(SBS_gain, SBS_gain_PE, SBS_gain_MB, alpha, Q_factors) := r in
  [Array3 SBS_gain; Array3 SBS_gain_PE; Array3 SBS_gain_MB;
   Array1 alpha; Array1 Q_factors].

(** [a, b, c, d, e, f = values] *)
Definition unpack6 (values : list pyvalue)
    : result (pyvalue * pyvalue * pyvalue * pyvalue * pyvalue * pyvalue) :=
  match values with
  | [a; b; c; d; e; f] => Ok (a, b, c, d, e, f)
  | _ => Raise ValueError
  end.

(** [SBS_gain, SBS_gain_PE, SBS_gain_MB, linewidth_Hz, Q_factors, alpha =
     integration.gain_and_qs(sim_EM_pump, sim_EM_Stokes, sim_AC, k_AC,
       EM_ival_pump=EM_ival_pump, EM_ival_Stokes=EM_ival_Stokes,
       AC_ival=AC_ival, fixed_Q=set_q_factor)], with [set_q_factor = 460.] *)
Definition gains (sim_EM_pump sim_EM_Stokes sim_AC : Simmo)
    (k_AC set_q_factor : T)
    : prog (fortran_call T Table Tensor)
           (pyvalue * pyvalue * pyvalue * pyvalue * pyvalue * pyvalue) :=
  r ← gain_and_qs NumBAT sim_EM_pump sim_EM_Stokes sim_AC k_AC
        EM_ival_pump EM_ival_Stokes AC_ival (Some set_q_factor) None;
  lift (unpack6 (returned r)).
End Gains.
End Lit08.


(** * Specification vocabulary *)

Section TrimmedVocabulary.
Context {T : Type} {np : NumPy T} {Table Tensor : Type}.
Abbreviation Simmo := (Simmo T Table Tensor).

(** An array whose entries are stored as [complex128] already. *)
Definition complex_valued (a : array4 T) : Prop :=
  ∀ x n i e v, lookup4 a x n i e = Some v → complex128 v = v.

(** The element map sends every AC element to an element of the EM mesh. *)
Definition valid_element_map (sim_EM sim_AC : Simmo) : Prop :=
  ∀ el, el < n_msh_el sim_AC →
    ∃ new_el, el_convert_tbl sim_AC !! el = Some new_el ∧
              new_el < n_msh_el sim_EM.

Definition well_shaped_field (sim : Simmo) : Prop :=
  shape4 ncomps nnodes (num_modes sim) (n_msh_el sim) (sol1 sim).

(** The entries written when the loops stand at element [el], node [n],
    component [x] and mode [ival]. *)
Definition written (el n x ival : nat) (x' n' i' e' : nat) : Prop :=
  e' < el ∨ (e' = el ∧ (n' < n ∨ (n' = n ∧ (x' < x ∨ (x' = x ∧ i' < ival))))).

(** [field] has its shape and its written entries hold the EM field of
    the mapped element. *)
Definition filled (sim_EM sim_AC : Simmo) (D : nat → nat → nat → nat → Prop)
    (field : array4 T) : Prop :=
  shape4 ncomps nnodes (num_modes sim_EM) (n_msh_el sim_AC) field ∧
  ∀ x n i e new_el,
    D x n i e → x < ncomps → n < nnodes → i < num_modes sim_EM →
    e < n_msh_el sim_AC → el_convert_tbl sim_AC !! e = Some new_el →
    lookup4 field x n i e = complex128 <$> lookup4 (sol1 sim_EM) x n i new_el.
End TrimmedVocabulary.

Section PointwiseVocabulary.
Context {T : Type}.

(** The value of an element-wise operation at an index, for operands of
    one shape. *)
Definition pointwise1 (f : T → T → T) (a b c : list T) : Prop :=
  ∀ i x y, a !! i = Some x → b !! i = Some y → c !! i = Some (f x y).
Definition pointwise2 (f : T → T → T) (a b c : array2 T) : Prop :=
  ∀ i j x y, lookup2 a i j = Some x → lookup2 b i j = Some y →
             lookup2 c i j = Some (f x y).
Definition pointwise3 (f : T → T → T) (a b c : array3 T) : Prop :=
  ∀ i j k x y, lookup3 a i j k = Some x → lookup3 b i j k = Some y →
               lookup3 c i j k = Some (f x y).
End PointwiseVocabulary.


Section GainVocabulary.
Context {T : Type} {np : NumPy T} {Table Tensor : Type}.
Abbreviation Simmo := (Simmo T Table Tensor).

(** The entries of [normal_fact] written when its loops stand at Stokes
    mode [i], pump mode [j] and AC mode [k]. *)
Definition normalised_upto (i j k : nat) (i' j' k' : nat) : Prop :=
  i' < i ∨ (i' = i ∧ (j' < j ∨ (j' = j ∧ k' < k))).

(** [fact] has the shape of the gain tensors and its written entries hold
    the product of the three mode powers and the loss. *)
Definition power_products (sim_EM_pump sim_EM_Stokes sim_AC : Simmo)
    (alpha : list T) (D : nat → nat → nat → Prop) (fact : array3 T) : Prop :=
  shape3 (num_modes sim_EM_Stokes) (num_modes sim_EM_pump) (num_modes sim_AC)
         fact ∧
  ∀ i j k P1 P2 P3 a,
    D i j k →
    EM_mode_power sim_EM_Stokes !! i = Some P1 →
    EM_mode_power sim_EM_pump !! j = Some P2 →
    AC_mode_power sim_AC !! k = Some P3 →
    alpha !! k = Some a →
    i < num_modes sim_EM_Stokes → j < num_modes sim_EM_pump →
    k < num_modes sim_AC →
    lookup3 fact i j k = Some (complex128 (mul (mul (mul P1 P2) P3) a)).

(** Every mode has a power, and every AC mode a loss. *)
Definition powers_cover (sim_EM_pump sim_EM_Stokes sim_AC : Simmo)
    (alpha : list T) : Prop :=
  num_modes sim_EM_Stokes ≤ length (EM_mode_power sim_EM_Stokes) ∧
  num_modes sim_EM_pump ≤ length (EM_mode_power sim_EM_pump) ∧
  num_modes sim_AC ≤ length (AC_mode_power sim_AC) ∧
  num_modes sim_AC ≤ length alpha.
End GainVocabulary.


Section CallVocabulary.
Context {T : Type} {np : NumPy T} {Table Tensor : Type}.
Abbreviation Simmo := (Simmo T Table Tensor).
Abbreviation fortran_call := (fortran_call T Table Tensor).

(** The value an interrupted or completed call leaves in its variable. *)
Definition assigned {A} (o : outcome A) : option A :=
  match o with
  | Returned a => Some a
  | KeyboardInterrupt => None
  end.

(** The mode selectors a Fortran call receives; the two loss routines
    take none. *)
Definition mode_selectors (c : fortran_call) : option (Z * Z * Z) :=
  match c with
  | photoelastic_int_v2 a _ _ | photoelastic_int a _ _ | moving_boundary a _ _ =>
      Some (oa_EM_ival_pump a, oa_EM_ival_Stokes a, oa_AC_ival a)
  | ac_alpha_int_v2 _ | ac_alpha_int _ _ => None
  end.

Definition is_loss_call (c : fortran_call) : Prop :=
  match c with
  | ac_alpha_int_v2 _ | ac_alpha_int _ _ => True
  | _ => False
  end.

(** The calls [gain_and_qs] makes for the three integrals. *)
Definition loss_call (sim_EM_pump sim_AC : Simmo) (k_AC : T) : fortran_call :=
  if linear_elements sim_EM_pump
  then ac_alpha_int_v2 (alpha_call_args sim_AC k_AC)
  else ac_alpha_int (alpha_call_args sim_AC k_AC) Fortran_debug.

Definition photoelastic_call (sim_EM_pump sim_AC : Simmo) (k_AC : T)
    (args : overlap_args T Table) : fortran_call :=
  if linear_elements sim_EM_pump
  then photoelastic_int_v2 args (p_tensor (structure sim_AC)) k_AC
  else photoelastic_int args (p_tensor (structure sim_AC)) k_AC.

Definition moving_boundary_call (args : overlap_args T Table)
    (typ_select_out : option Z) : fortran_call :=
  moving_boundary args typ_select_in
    (select_out (oa_eps_effs args) typ_select_out).

(** A selector the caller may pass: ['All'] or a zero-based index. *)
Definition mode_selection (ival : pyobj) : Prop :=
  ival = PyStr "All" ∨ ∃ z, ival = PyInt z ∧ (0 ≤ z)%Z.

(** [v] is the Fortran form of [ival]. *)
Definition fortran_form (ival : pyobj) (v : Z) : Prop :=
  (ival = PyStr "All" ∧ v = (-1)%Z) ∨ (∃ z, ival = PyInt z ∧ v = (z + 1)%Z).
End CallVocabulary.


Section MaskVocabulary.
Context {T : Type} {np : NumPy T} {Table Tensor : Type}.
Abbreviation Simmo := (Simmo T Table Tensor).

(** The material types of the EM domain, in its enumeration order, whose
    one-based number is a type of the AC domain. *)
Definition relevant_types (sim_EM_pump sim_AC : Simmo) : list nat :=
  filter (λ el_typ, (Z.of_nat el_typ + 1)%Z ∈ typ_el_AC sim_AC)
         (seq 0 (nb_typ_el (structure sim_EM_pump))).

(** [eps] is the squared refractive index of material type [el_typ]. *)
Definition eps_of_type (sim_EM_pump : Simmo) (el_typ : nat) (eps : T) : Prop :=
  ∃ n, n_list sim_EM_pump !! el_typ = Some n ∧ eps = pow2 n.

(** The arguments common to the photoelastic and the moving-boundary
    call of a run. *)
Definition overlap_arguments (sim_EM_pump sim_EM_Stokes sim_AC : Simmo)
    (EM_ival_pump EM_ival_Stokes AC_ival : pyobj)
    : result (overlap_args T Table) :=
  pump ← ival_fortran EM_ival_pump;
  Stokes ← ival_fortran EM_ival_Stokes;
  AC ← ival_fortran AC_ival;
  '(pump_field, Stokes_field) ←
    trimmed_EM_fields sim_EM_pump sim_EM_Stokes sim_AC;
  eps_effs ← relevant_eps_effs sim_EM_pump sim_AC;
  mret (overlap_call_args sim_EM_pump sim_EM_Stokes sim_AC
          pump Stokes AC pump_field Stokes_field eps_effs).
End MaskVocabulary.


Section TensorVocabulary.
Context {T : Type} {np : NumPy T} {Table Tensor : Type}.
Abbreviation Simmo := (Simmo T Table Tensor).

(** [2*omega_EM*Omega_AC*Re(Q*conj(Q))] at one entry *)
Definition gain_value (sim_EM_pump : Simmo) (Omega Q : T) : T :=
  mul (mul (mul two (omega_EM sim_EM_pump)) Omega)
      (np_real (mul Q (np_conj Q))).

(** [P1*P2*P3*alpha], as the complex array [normal_fact] stores it *)
Definition normal_value (P1 P2 P3 alpha : T) : T :=
  complex128 (mul (mul (mul P1 P2) P3) alpha).

(** The three returned tensors hold, at every entry, the real part of the
    gain over the normalisation factor. *)
Definition normalised_gains (sim_EM_pump sim_EM_Stokes sim_AC : Simmo)
    (alpha : list T) (Q_PE Q_MB SBS_gain SBS_gain_PE SBS_gain_MB : array3 T)
    : Prop :=
  ∀ i j k q_PE q_MB P1 P2 P3 a Omega,
    lookup3 Q_PE i j k = Some q_PE →
    lookup3 Q_MB i j k = Some q_MB →
    EM_mode_power sim_EM_Stokes !! i = Some P1 →
    EM_mode_power sim_EM_pump !! j = Some P2 →
    AC_mode_power sim_AC !! k = Some P3 →
    alpha !! k = Some a →
    Omega_AC sim_AC !! k = Some Omega →
    let Q := add q_PE q_MB in
    let fact := normal_value P1 P2 P3 a in
    lookup3 SBS_gain i j k
      = Some (np_real (div (gain_value sim_EM_pump Omega Q) fact)) ∧
    lookup3 SBS_gain_PE i j k
      = Some (np_real (div (gain_value sim_EM_pump Omega q_PE) fact)) ∧
    lookup3 SBS_gain_MB i j k
      = Some (np_real (div (gain_value sim_EM_pump Omega q_MB) fact)).

Definition gain_shape (sim_EM_pump sim_EM_Stokes sim_AC : Simmo)
    (a : array3 T) : Prop :=
  shape3 (num_modes sim_EM_Stokes) (num_modes sim_EM_pump) (num_modes sim_AC) a.
End TensorVocabulary.


Section ReindexVocabulary.
Context {T : Type} {np : NumPy T} {Table Tensor : Type}.
Abbreviation Simmo := (Simmo T Table Tensor).

(** [trimmed] is the field of [sim_EM] renumbered to the elements of the
    AC mesh: same components, nodes and modes, complex entries, and at AC
    element [el] the field of EM element [el_convert_tbl[el]]. *)
Definition reindexed (sim_EM sim_AC : Simmo) (trimmed : array4 T) : Prop :=
  shape4 ncomps nnodes (num_modes sim_EM) (n_msh_el sim_AC) trimmed ∧
  complex_valued trimmed ∧
  ∀ x n ival el new_el,
    x < ncomps → n < nnodes → ival < num_modes sim_EM →
    el < n_msh_el sim_AC → el_convert_tbl sim_AC !! el = Some new_el →
    ∃ v, lookup4 trimmed x n ival el = Some v ∧
         lookup4 (sol1 sim_EM) x n ival new_el = Some v.
End ReindexVocabulary.


Section SummationVocabulary.
Context {T : Type} {np : NumPy T}.

(** The order in which [np.sum] adds the numbers of a contiguous array,
    told by their positions. *)
Definition summand (a : list T) (i : nat) : T := default zero (a !! i).

(** The [k]-th of the 8 partial sums of an array of 8 numbers or more:
    the numbers at the positions [k], [k + 8], [k + 16], ... of its whole
    blocks of 8, added in turn. *)
Definition partial_sum (a : list T) (k : nat) : T :=
  foldl (λ r j, add r (summand a (8 * j + k))) (summand a k)
        (seq 1 (length a / 8 - 1)).

(** Fewer than 8 numbers are added in turn, from 0.0.  Of 8 numbers or
    more the 8 partial sums are added in pairs, and the numbers after the
    last whole block are added to that in turn. *)
Definition block_total (a : list T) : T :=
  if decide (length a < 8) then foldl add zero a
  else
    let r := partial_sum a in
    foldl add (add (add (add (r 0) (r 1)) (add (r 2) (r 3)))
                   (add (add (r 4) (r 5)) (add (r 6) (r 7))))
          (drop (8 * (length a / 8)) a).

(** More than 128 numbers are halved, the first half cut to a multiple of
    8, and the totals of the halves are added; [depth] bounds the
    halvings. *)
Fixpoint halved_total (depth : nat) (a : list T) : T :=
  if decide (length a ≤ 128) then block_total a
  else
    match depth with
    | 0 => block_total a
    | S depth =>
        let n2 := length a / 2 in
        let n2 := n2 - n2 `mod` 8 in
        add (halved_total depth (take n2 a)) (halved_total depth (drop n2 a))
    end.

(** The sum of [a] as [np.sum] adds it up, from the initial 0.0. *)
Definition total (a : list T) : T := add zero (halved_total (length a) a).
End SummationVocabulary.


Section SymmetryVocabulary.
Context {T : Type} {np : NumPy T}.

(** [m[ix, iy]] of a grid: the number at the point, or [masked] when the
    point is outside the mesh. *)
Definition entry (m : array2 (element T)) (ix iy : nat) : element T :=
  match lookup2 m ix iy with
  | Some e => if mask e then masked else plain (data e)
  | None => masked
  end.

(** The sum of [f ix iy] over the grid, rows in turn, as [np.sum] adds. *)
Definition grid_sum (nx ny : nat) (f : nat → nat → T) : T :=
  total (concat (map (λ ix, map (f ix) (seq 0 ny)) (seq 0 nx))).

(** No point of the grid is inside the mesh. *)
Definition outside (nx ny : nat) (m : array2 (element T)) : bool :=
  forallb (λ ix, forallb (λ iy, mask (entry m ix iy)) (seq 0 ny)) (seq 0 nx).

(** What a grid point adds to the sum: [|m[ix,iy] - image[ix,iy]|] when
    it is inside the mesh, nothing when it is outside. *)
Definition discrepancy_term (m : array2 (element T)) (image : nat → nat → T)
    (ix iy : nat) : T :=
  if mask (entry m ix iy) then zero
  else np_abs (sub (data (entry m ix iy)) (image ix iy)).

(** The sum over the grid of these terms; [masked] when no point is
    inside the mesh. *)
Definition discrepancy_sum (nx ny : nat) (m : array2 (element T))
    (image : nat → nat → T) : element T :=
  if outside nx ny m then masked
  else plain (grid_sum nx ny (discrepancy_term m image)).

(** The image of a grid point as the mirror arrays hold it, a
    [complex128]: the value [v] of the field at the point it is taken
    from, as it is or negated, and 0 when that point is outside the
    mesh. *)
Definition image_of (v : element T) : T :=
  if mask v then complex128 zero else complex128 (data v).
Definition negated_image_of (v : element T) : T :=
  if mask v then complex128 zero else complex128 (mul minus_one (data v)).

(** The images of a component: the value across the mirror or the
    centre, as it is or negated. *)
Definition y_mirrored (ny : nat) (m : array2 (element T)) (ix iy : nat) : T :=
  image_of (entry m ix (ny - iy - 1)).
Definition y_mirrored_negated (ny : nat) (m : array2 (element T))
    (ix iy : nat) : T :=
  negated_image_of (entry m ix (ny - iy - 1)).
Definition x_mirrored (nx : nat) (m : array2 (element T)) (ix iy : nat) : T :=
  image_of (entry m (nx - ix - 1) iy).
Definition x_mirrored_negated (nx : nat) (m : array2 (element T))
    (ix iy : nat) : T :=
  negated_image_of (entry m (nx - ix - 1) iy).
Definition rotated_negated (nx ny : nat) (m : array2 (element T))
    (ix iy : nat) : T :=
  negated_image_of (entry m (nx - ix - 1) (ny - iy - 1)).

(** [(Ex_sum + Ey_sum)/(nx*ny)] of two sums that may be [masked]. *)
Definition mean (nx ny : nat) (Ex_sum Ey_sum : element T) : element T :=
  if mask Ex_sum || mask Ey_sum then masked
  else plain (div (add (data Ex_sum) (data Ey_sum)) (of_nat (nx * ny))).

(** The three discrepancy scores of the components [Ex] and [Ey]. *)
Definition sigma_y_score (nx ny : nat) (Ex Ey : array2 (element T))
    : element T :=
  mean nx ny (discrepancy_sum nx ny Ex (y_mirrored ny Ex))
             (discrepancy_sum nx ny Ey (y_mirrored_negated ny Ey)).
Definition sigma_x_score (nx ny : nat) (Ex Ey : array2 (element T))
    : element T :=
  mean nx ny (discrepancy_sum nx ny Ex (x_mirrored_negated nx Ex))
             (discrepancy_sum nx ny Ey (x_mirrored nx Ey)).
Definition C_2_score (nx ny : nat) (Ex Ey : array2 (element T)) : element T :=
  mean nx ny (discrepancy_sum nx ny Ex (rotated_negated nx ny Ex))
             (discrepancy_sum nx ny Ey (rotated_negated nx ny Ey)).

(** The label of a score: -1 when its absolute value is greater than the
    threshold, +1 otherwise; a [masked] score is not greater. *)
Definition labelled (score : element T) (threshold : T) (label : Z) : Prop :=
  if mask score then label = 1%Z
  else (greater (np_abs (data score)) threshold = true → label = (-1)%Z) ∧
       (greater (np_abs (data score)) threshold = false → label = 1%Z).

(** The grid points scanned when the loops stand at [(ix, iy)]. *)
Definition scanned (ix iy : nat) (ix' iy' : nat) : Prop :=
  ix' < ix ∨ (ix' = ix ∧ iy' < iy).

(** [a] has the shape of the grid and holds [image] at the points of [D]. *)
Definition tabulated {A} (nx ny : nat) (D : nat → nat → Prop)
    (image : nat → nat → A) (a : array2 A) : Prop :=
  shape2 nx ny a ∧
  ∀ ix iy, D ix iy → ix < nx → iy < ny → lookup2 a ix iy = Some (image ix iy).

(** The six images of a mode, at the points of [D]. *)
Definition images (nx ny : nat) (D : nat → nat → Prop)
    (Ex Ey : array2 (element T)) (m : mirrors T) : Prop :=
  tabulated nx ny D (y_mirrored ny Ex) (m_Ex_ymirror m) ∧
  tabulated nx ny D (x_mirrored_negated nx Ex) (m_Ex_xmirror m) ∧
  tabulated nx ny D (rotated_negated nx ny Ex) (m_Ex_rotated m) ∧
  tabulated nx ny D (y_mirrored_negated ny Ey) (m_Ey_ymirror m) ∧
  tabulated nx ny D (x_mirrored nx Ey) (m_Ey_xmirror m) ∧
  tabulated nx ny D (rotated_negated nx ny Ey) (m_Ey_rotated m).
End SymmetryVocabulary.


Section ClassifierVocabulary.
Context {T : Type} {np : NumPy T}.

(** The four interpolated fields of mode [ival] have the extents of the
    grid, and each component has a datum that is not NaN, so that the
    negligible-magnitude check returns. *)
Definition resampled (grid : Interpolated T) (negligible_threshold : T)
    (ival : nat) : Prop :=
  shape2 (n_pts_x grid) (n_pts_y grid) (m_ReEx grid ival) ∧
  shape2 (n_pts_x grid) (n_pts_y grid) (m_ImEx grid ival) ∧
  shape2 (n_pts_x grid) (n_pts_y grid) (m_ReEy grid ival) ∧
  shape2 (n_pts_x grid) (n_pts_y grid) (m_ImEy grid ival) ∧
  ∃ fields, field_components grid negligible_threshold ival = Ok fields.

(** The entry of [sym_list] for the components [Ex], [Ey]: the labels of
    the rotation, of the y-mirror and of the x-mirror, in this order. *)
Definition classified (nx ny : nat) (Ex Ey : array2 (element T))
    (labels : list Z) : Prop :=
  ∃ C_2 sigma_y sigma_x,
    labels = [C_2; sigma_y; sigma_x] ∧
    labelled (C_2_score nx ny Ex Ey) fifth C_2 ∧
    labelled (sigma_y_score nx ny Ex Ey) tenth sigma_y ∧
    labelled (sigma_x_score nx ny Ex Ey) tenth sigma_x.
End ClassifierVocabulary.


Section MaskVocabularyOfGrids.
Context {T : Type} {np : NumPy T}.

(** A point inside the mesh where the field is a number. *)
Definition inside (e : element T) : bool :=
  negb (mask e) && negb (np_isnan (data e)).

(** The grid has a point inside the mesh. *)
Definition meets_mesh (m : array2 (element T)) : Prop :=
  existsb inside (concat m) = true.

(** Two grids are the same inside the mesh: they have the same extents
    and masks, and the same numbers at the points that are not masked. *)
Definition same_element (e e' : element T) : Prop :=
  mask e = mask e' ∧ (mask e = false → data e = data e').
Definition same_on_mesh (m m' : array2 (element T)) : Prop :=
  Forall2 (Forall2 same_element) m m'.

(** Two grids whose elements read alike. *)
Definition read_alike (m m' : array2 (element T)) : Prop :=
  map (map item) m = map (map item) m'.

(** The greatest magnitude of the field over the points inside the
    mesh. *)
Definition mesh_peak (m : array2 (element T)) : option T :=
  match map (λ e, np_abs (data e)) (filter (λ e, inside e) (concat m)) with
  | [] => None
  | v :: l => Some (foldl np_maximum v l)
  end.

(** [E] is what the negligible-magnitude check leaves of [m], decided on
    the points inside the mesh. *)
Definition checked_on_mesh (grid : Interpolated T) (negligible_threshold : T)
    (m E : array2 (element T)) : Prop :=
  ∃ peak,
    mesh_peak m = Some peak ∧
    E = if less peak negligible_threshold
        then full2 (n_pts_x grid) (n_pts_y grid) (plain zero)
        else m.

(** The four interpolated fields of mode [ival] have the extents of the
    grid, and each component has a point inside the mesh. *)
Definition meets_the_mesh (grid : Interpolated T) (ival : nat) : Prop :=
  shape2 (n_pts_x grid) (n_pts_y grid) (m_ReEx grid ival) ∧
  shape2 (n_pts_x grid) (n_pts_y grid) (m_ImEx grid ival) ∧
  shape2 (n_pts_x grid) (n_pts_y grid) (m_ReEy grid ival) ∧
  shape2 (n_pts_x grid) (n_pts_y grid) (m_ImEy grid ival) ∧
  ∃ m_Ex m_Ey,
    complex_field (m_ReEx grid ival) (m_ImEx grid ival) = Ok m_Ex ∧
    complex_field (m_ReEy grid ival) (m_ImEy grid ival) = Ok m_Ey ∧
    meets_mesh m_Ex ∧ meets_mesh m_Ey.

(** Two interpolations of mode [ival] that differ only in what they hold
    at the points outside the mesh. *)
Definition same_inside_the_mesh (grid grid' : Interpolated T) (ival : nat)
    : Prop :=
  n_pts_x grid' = n_pts_x grid ∧
  n_pts_y grid' = n_pts_y grid ∧
  same_on_mesh (m_ReEx grid ival) (m_ReEx grid' ival) ∧
  same_on_mesh (m_ImEx grid ival) (m_ImEx grid' ival) ∧
  same_on_mesh (m_ReEy grid ival) (m_ReEy grid' ival) ∧
  same_on_mesh (m_ImEy grid ival) (m_ImEy grid' ival).

(** The scores [(C_2, sigma_y, sigma_x)] of mode [ival]. *)
Definition mode_scores (grid : Interpolated T) (negligible_threshold : T)
    (ival : nat) : result (element T * element T * element T) :=
  '(m_Ex, m_Ey) ← field_components grid negligible_threshold ival;
  symmetry_scores (n_pts_x grid) (n_pts_y grid) m_Ex m_Ey.
End MaskVocabularyOfGrids.


(** * Vocabulary of the run properties *)

Section RunVocabulary.
Context {T : Type} {np : NumPy T} {Table Tensor : Type}.
Abbreviation Simmo := (Simmo T Table Tensor).

(** The Fortran calls of a log, in the order they were made. *)
Definition calls {Call} (log : list (event Call)) : list Call :=
  omap (λ e, match e with Invoke c => Some c | _ => None end) log.

(** The message of [warn_quadrature]. *)
Definition quadrature_warning (routine : string) : string :=
  "Warning: " +:+ routine +:+
  " - not sure if mesh contains curvi-linear elements" +:+
  " using slow quadrature integration by default.".

(** The routines for meshes of linear elements, and those that integrate
    by quadrature. *)
Definition for_linear_elements (c : fortran_call T Table Tensor) : Prop :=
  match c with
  | ac_alpha_int_v2 _ | photoelastic_int_v2 _ _ _ => True
  | _ => False
  end.
Definition by_quadrature (c : fortran_call T Table Tensor) : Prop :=
  match c with
  | ac_alpha_int _ _ | photoelastic_int _ _ _ => True
  | _ => False
  end.

(** The statements of the loop over the elements of the AC mesh in
    [trimmed_EM_fields], for one element. *)
Definition trim_element (sim_EM_pump sim_EM_Stokes sim_AC : Simmo) (el : nat)
    (fields : array4 T * array4 T) : result (array4 T * array4 T) :=
  new_el ← getkey (el_convert_tbl sim_AC) el;
  for_in (range nnodes) (λ n fields,
    for_in (range ncomps) (λ x '(pump_field, Stokes_field),
      pump_field ← for_in (range (num_modes sim_EM_pump)) (λ ival field,
        v ← getitem4 (sol1 sim_EM_pump) x n ival new_el;
        setitem4 field x n ival el (complex128 v)) pump_field;
      Stokes_field ← for_in (range (num_modes sim_EM_Stokes)) (λ ival field,
        v ← getitem4 (sol1 sim_EM_Stokes) x n ival new_el;
        setitem4 field x n ival el (complex128 v)) Stokes_field;
      mret (pump_field, Stokes_field)) fields) fields.

(** The re-indexing loops read the field of [sim] at element [new_el]
    without an error: the element is in the mesh, or there is no mode to
    read. *)
Definition readable (sim : Simmo) (new_el : nat) : bool :=
  bool_decide (num_modes sim = 0 ∨ new_el < n_msh_el sim).

(** What goes wrong at AC element [el], if anything: no entry in
    [el_convert_tbl], or an entry outside an EM mesh. *)
Definition element_fault (sim_EM_pump sim_EM_Stokes sim_AC : Simmo)
    (el : nat) : option exn :=
  match el_convert_tbl sim_AC !! el with
  | None => Some KeyError
  | Some new_el =>
      if readable sim_EM_pump new_el && readable sim_EM_Stokes new_el
      then None else Some IndexError
  end.

(** The fault of the first faulty element, in the order of the loop. *)
Definition first_fault (sim_EM_pump sim_EM_Stokes sim_AC : Simmo)
    : option exn :=
  head (omap (element_fault sim_EM_pump sim_EM_Stokes sim_AC)
             (seq 0 (n_msh_el sim_AC))).

(** The two trimmed fields when the loop stands at element [el]. *)
Definition trimmed_upto (sim_EM_pump sim_EM_Stokes sim_AC : Simmo) (el : nat)
    (fields : array4 T * array4 T) : Prop :=
  filled sim_EM_pump sim_AC (written el 0 0 0) fields.1 ∧
  filled sim_EM_Stokes sim_AC (written el 0 0 0) fields.2.

(** The three Fortran selectors of a run, when every selection converts. *)
Definition mode_selectors_of (EM_ival_pump EM_ival_Stokes AC_ival : pyobj)
    : option (Z * Z * Z) :=
  match ival_fortran EM_ival_pump, ival_fortran EM_ival_Stokes,
        ival_fortran AC_ival with
  | Ok pump, Ok Stokes, Ok AC => Some (pump, Stokes, AC)
  | _, _, _ => None
  end.

(** Two simulations agree on what [gain_and_qs] reads of its Stokes
    argument, of its pump argument and of its acoustic argument. *)
Definition same_Stokes_data (sim sim' : Simmo) : Prop :=
  num_modes sim = num_modes sim' ∧
  sol1 sim = sol1 sim' ∧
  EM_mode_power sim = EM_mode_power sim'.

Definition same_pump_data (sim sim' : Simmo) : Prop :=
  nb_typ_el (structure sim) = nb_typ_el (structure sim') ∧
  inc_shape (structure sim) = inc_shape (structure sim') ∧
  linear_element_shapes (structure sim)
    = linear_element_shapes (structure sim') ∧
  curvilinear_element_shapes (structure sim)
    = curvilinear_element_shapes (structure sim') ∧
  num_modes sim = num_modes sim' ∧
  sol1 sim = sol1 sim' ∧
  n_list sim = n_list sim' ∧
  omega_EM sim = omega_EM sim' ∧
  EM_mode_power sim = EM_mode_power sim'.

Definition same_AC_data (sim sim' : Simmo) : Prop :=
  nb_typ_el_AC (structure sim) = nb_typ_el_AC (structure sim') ∧
  eta_tensor (structure sim) = eta_tensor (structure sim') ∧
  p_tensor (structure sim) = p_tensor (structure sim') ∧
  num_modes sim = num_modes sim' ∧
  n_msh_el sim = n_msh_el sim' ∧
  n_msh_pts sim = n_msh_pts sim' ∧
  table_nod sim = table_nod sim' ∧
  type_el sim = type_el sim' ∧
  x_arr sim = x_arr sim' ∧
  sol1 sim = sol1 sim' ∧
  el_convert_tbl sim = el_convert_tbl sim' ∧
  typ_el_AC sim = typ_el_AC sim' ∧
  Omega_AC sim = Omega_AC sim' ∧
  AC_mode_power sim = AC_mode_power sim'.

(** The mode selections that stand for the same Fortran selector. *)
Definition same_selection (a b : pyobj) : Prop :=
  a = b ∨
  (a = PyStr "All" ∧ b = PyInt (-2)) ∨ (a = PyInt (-2) ∧ b = PyStr "All").
End RunVocabulary.


(** * Vocabulary of the interpolation grid *)

Section GridVocabulary.
Context {T : Type} {np : NumPy T}.

(** No datum of the grid is a number: the grid has no point, or every
    point of it is outside the mesh. *)
Definition all_nan (m : array2 (element T)) : Prop :=
  Forall (Forall (λ e, np_isnan (data e) = true)) m.
End GridVocabulary.

Section MeshVocabulary.
Context {T : Type} {np : NumPy T} {sc : NumPyScalar T} {Table Tensor : Type}.
Abbreviation Simmo := (Simmo T Table Tensor).
Variable nodes : Table → array2 Z.
Variable coordinates : Table → array2 T.

(** The tables of a mesh: six node numbers for every element, each the
    one-based number of a point, and two coordinates for every point. *)
Definition mesh_tables (sim : Simmo) : Prop :=
  shape2 6 (n_msh_el sim) (nodes (table_nod sim)) ∧
  shape2 2 (n_msh_pts sim) (coordinates (x_arr sim)) ∧
  ∀ i_node i_el number,
    lookup2 (nodes (table_nod sim)) i_node i_el = Some number →
    (1 ≤ number ≤ Z.of_nat (n_msh_pts sim))%Z.

(** The zero-based number of the mesh point at node [i_node] of element
    [i_el], and coordinate [c] of a mesh point. *)
Definition mesh_point (sim : Simmo) (i_el i_node : nat) : option nat :=
  number ← lookup2 (nodes (table_nod sim)) i_node i_el;
  Some (Z.to_nat (number - 1)).
Definition mesh_coordinate (sim : Simmo) (c p : nat) : option T :=
  lookup2 (coordinates (x_arr sim)) c p.

(** Point [6*i_el + i_node] of the dense triangulation holds the
    coordinates of the mesh point at node [i_node] of element [i_el] and
    the field of mode [ival] at that node of that element. *)
Definition dense_entry (sim : Simmo) (ival : nat) (d : dense T)
    (i_el i_node : nat) : Prop :=
  ∃ p x y Ex Ey,
    mesh_point sim i_el i_node = Some p ∧
    mesh_coordinate sim 0 p = Some x ∧
    mesh_coordinate sim 1 p = Some y ∧
    lookup4 (sol1 sim) 0 i_node ival i_el = Some Ex ∧
    lookup4 (sol1 sim) 1 i_node ival i_el = Some Ey ∧
    v_x6p d !! (6 * i_el + i_node) = Some (float64 x) ∧
    v_y6p d !! (6 * i_el + i_node) = Some (float64 y) ∧
    v_Ex6p d !! (6 * i_el + i_node) = Some (complex128 Ex) ∧
    v_Ey6p d !! (6 * i_el + i_node) = Some (complex128 Ey).

(** The four arrays of the dense triangulation have a slot for each of
    the six points of every element. *)
Definition dense_size (sim : Simmo) (d : dense T) : Prop :=
  length (v_x6p d) = 6 * n_msh_el sim ∧
  length (v_y6p d) = 6 * n_msh_el sim ∧
  length (v_Ex6p d) = 6 * n_msh_el sim ∧
  length (v_Ey6p d) = 6 * n_msh_el sim.

(** The state of the loops of [dense_triangulation] at element [i_el] and
    node [i_node], after the triangles of [done] elements were added. *)
Definition dense_upto (sim : Simmo) (ival : nat) (done i_el i_node : nat)
    (s : dense T * nat) : Prop :=
  s.2 = 6 * i_el + i_node ∧
  dense_size sim s.1 ∧
  v_triang6p s.1 = concat (map triangles6p (seq 0 done)) ∧
  ∀ e n, e < i_el ∨ (e = i_el ∧ n < i_node) → n < 6 →
         dense_entry sim ival s.1 e n.

(** Corner [c] of triangle [t]. *)
Definition corner {A} (triangles : list (list A)) (t c : nat) : option A :=
  triangle ← triangles !! t; triangle !! c.

(** The nodes of a six-node element at the corners of its four
    triangles. *)
Definition corners : list (list nat) :=
  [[0; 3; 5]; [1; 4; 3]; [2; 5; 4]; [3; 4; 5]].

(** The corner of triangle [q] of element [i_el] in the dense
    triangulation and in the triangulation on the mesh points. *)
Definition corner6p (i_el q c : nat) : option nat :=
  i_node ← corner corners q c; Some (6 * i_el + i_node).
Definition corner1p (sim : Simmo) (i_el q c : nat) : option Z :=
  i_node ← corner corners q c;
  number ← lookup2 (nodes (table_nod sim)) i_node i_el;
  Some (number - 1)%Z.

(** [v_triang1p] after the triangles of [i_el] elements were added. *)
Definition unique_upto (sim : Simmo) (i_el : nat) (v : list (list Z))
    : Prop :=
  length v = 4 * i_el ∧
  ∀ e q c, e < i_el → q < 4 →
           corner v (4 * e + q) c = corner1p sim e q c.
End MeshVocabulary.


Section SampleVocabulary.
Context {T : Type} {np : NumPy T} {sc : NumPyScalar T}.

(** The state of the loops of [sample_points] at abscissa [ix] and
    ordinate [iy]: the counter, the sizes, and the points set so far. *)
Definition sampled (xs ys : list T) (n_pts_x n_pts_y : nat) (ix iy : nat)
    (s : list T * list T * nat) : Prop :=
  s.2 = ix * n_pts_y + iy ∧
  length s.1.1 = n_pts_x * n_pts_y ∧
  length s.1.2 = n_pts_x * n_pts_y ∧
  ∀ ix' iy' x y,
    ix' < ix ∨ (ix' = ix ∧ iy' < iy) →
    xs !! ix' = Some x → ys !! iy' = Some y →
    s.1.1 !! (ix' * n_pts_y + iy') = Some (float64 x) ∧
    s.1.2 !! (ix' * n_pts_y + iy') = Some (float64 y).
End SampleVocabulary.


(** * Vocabulary of the scripts *)

(** The positions, counted from [start], of the items of a list that
    satisfy [P], in increasing order. *)
Fixpoint positions {A} (P : A → bool) (start : nat) (l : list A) : list nat :=
  match l with
  | [] => []
  | x :: l =>
      if P x then start :: positions P (S start) l
      else positions P (S start) l
  end.

Section ScriptVocabulary.
Context {T : Type} {np : NumPy T} {sc : NumPyScalar T} {Table Tensor : Type}.
Abbreviation Simmo := (Simmo T Table Tensor).

(** The test of the dispersion script for a propagating mode. *)
Definition propagates (x : T) : bool :=
  greater (np_abs (np_real x)) (np_abs (np_imag x)).

(** The numbers of the propagating modes of a simulation. *)
Definition propagating_modes (sim : Simmo) : list nat :=
  positions propagates 0 (Eig_values sim).

(** An entry of [sym_list]: three labels, each 1 or -1. *)
Definition sign (label : Z) : Prop := label = 1%Z ∨ label = (-1)%Z.
Definition sign_labels (labels : list Z) : Prop :=
  ∃ C_2 sigma_y sigma_x,
    labels = [C_2; sigma_y; sigma_x] ∧ sign C_2 ∧ sign sigma_y ∧ sign sigma_x.

(** The name that the dispersion script binds for an entry of
    [sym_list], if any: [sym_A] for [1, 1, 1], [sym_B] for [-1, 1, -1],
    [sym_C] for [1, -1, -1] and [sym_D] for [-1, -1, 1]. *)
Definition symmetry_class (labels : list Z) : option Tut03.handle :=
  match labels with
  | C_2 :: sigma_y :: sigma_x :: _ =>
      if decide (C_2 = 1 ∧ sigma_y = 1 ∧ sigma_x = 1)%Z
      then Some Tut03.sym_A
      else if decide (C_2 = -1 ∧ sigma_y = 1 ∧ sigma_x = -1)%Z
      then Some Tut03.sym_B
      else if decide (C_2 = 1 ∧ sigma_y = -1 ∧ sigma_x = -1)%Z
      then Some Tut03.sym_C
      else if decide (C_2 = -1 ∧ sigma_y = -1 ∧ sigma_x = 1)%Z
      then Some Tut03.sym_D
      else None
  | _ => None
  end.

(** What [mark_mode] does with a session for the labels at its
    position. *)
Definition marked (labels : list Z) (x y : T) (s : Tut03.session T)
    : Tut03.session T :=
  match symmetry_class labels with
  | Some h => Tut03.plot h x y s
  | None => s
  end.

(** The line drawn at position [i] of the loop, if any: the
    frequency of the [i]-th propagating mode with the marker of entry [i]
    of [sym_list]. *)
Definition drawn (sim : Simmo) (sym_list : list (list Z)) (q_ac k_AC : T)
    (i : nat) : option (Tut03.Line2D T) :=
  m ← propagating_modes sim !! i;
  eigenvalue ← Eig_values sim !! m;
  labels ← sym_list !! i;
  h ← symmetry_class labels;
  Some {| Tut03.xdata := np_real (div q_ac k_AC);
          Tut03.ydata := mul (np_real eigenvalue) nano;
          Tut03.fmt := Tut03.marker h |}.

End ScriptVocabulary.


(** * A small waveguide in binary64

    One EM mode on a mesh of two elements, three AC modes on the second
    of them, and a Fortran library that answers with given arrays. *)

Module Example.
Import Binary64.

Definition wguide : Struct unit :=
  {| nb_typ_el := 3;
     nb_typ_el_AC := 2;
     inc_shape := "rectangular";
     linear_element_shapes := ["rectangular"; "slot"];
     curvilinear_element_shapes := ["circular"];
     eta_tensor := tt;
     p_tensor := tt |}.

(** [sol1[x, n, 0, el] = (10*x + n) + el*1j] *)
Definition EM_field : array4 num :=
  map (λ x, map (λ n, [[Complex (of_uint63 (Uint63.of_Z (Z.of_nat (10 * x + n)))) 0;
                        Complex (of_uint63 (Uint63.of_Z (Z.of_nat (10 * x + n)))) 1]])
                (seq 0 6))
      (seq 0 3).

Definition AC_field : array4 num := full4 3 6 3 1 (Complex 1 0).

Definition sim_EM : Simmo num unit unit :=
  {| structure := wguide;
     num_modes := 1;
     n_msh_el := 2;
     n_msh_pts := 9;
     table_nod := tt;
     type_el := tt;
     x_arr := tt;
     sol1 := EM_field;
     el_convert_tbl := ∅;
     typ_el_AC := [];
     n_list := [Real 1; Real 2; Complex 3 1];
     omega_EM := Real 1;
     Omega_AC := [];
     EM_mode_power := [Real 1];
     AC_mode_power := [];
     Eig_values := [Real 2] |}.

(** The same modes with no power in the mode. *)
Definition sim_EM_dark : Simmo num unit unit :=
  {| structure := wguide;
     num_modes := 1;
     n_msh_el := 2;
     n_msh_pts := 9;
     table_nod := tt;
     type_el := tt;
     x_arr := tt;
     sol1 := EM_field;
     el_convert_tbl := ∅;
     typ_el_AC := [];
     n_list := [Real 1; Real 2; Complex 3 1];
     omega_EM := Real 1;
     Omega_AC := [];
     EM_mode_power := [Real 0];
     AC_mode_power := [];
     Eig_values := [Real 2] |}.

Definition sim_AC : Simmo num unit unit :=
  {| structure := wguide;
     num_modes := 3;
     n_msh_el := 1;
     n_msh_pts := 6;
     table_nod := tt;
     type_el := tt;
     x_arr := tt;
     sol1 := AC_field;
     el_convert_tbl := {[ 0 := 1 ]};
     typ_el_AC := [3; 2]%Z;
     n_list := [];
     omega_EM := Real 0;
     Omega_AC := [Real 1; Real 1; Real 1];
     EM_mode_power := [];
     AC_mode_power := [Real 1; Real 1; Real 1];
     Eig_values := [Real 1; Real 2; Real 3] |}.

(** A library that answers the loss call with [alpha] and the two overlap
    calls with [Q_PE] and [Q_MB]. *)
Definition library (alpha : outcome (list num))
    (Q_PE Q_MB : outcome (array3 num)) : Fortran num unit unit :=
  {| run_alpha := λ _, alpha;
     run_overlap := λ c,
       match c with
       | moving_boundary _ _ _ => Q_MB
       | _ => Q_PE
       end |}.

Definition loss : list num := [Complex 2 1; Complex 4 0; Complex 8 3].
Definition Q_one : array3 num := [[[Real 1; Real 1; Real 1]]].
Definition Q_imag : array3 num := [[[Complex 0 1; Complex 0 1; Complex 0 1]]].

Definition NumBAT : Fortran num unit unit :=
  library (Returned loss) (Returned Q_one) (Returned Q_one).

Definition k_AC : num := Real 10000000.
Definition fixed_Q : num := Real 500.

(** The pump field on the AC mesh: element 1 of the EM mesh. *)
Definition trimmed_field : array4 num :=
  map (λ x, map (λ n, [[Complex (of_uint63 (Uint63.of_Z (Z.of_nat (10 * x + n)))) 1]])
                (seq 0 6))
      (seq 0 3).

(** The arguments of the overlap calls for pump mode 0, Stokes mode 0 and
    all AC modes. *)
Definition arguments : overlap_args num unit :=
  overlap_call_args sim_EM sim_EM sim_AC 1 1 (-1)
    trimmed_field trimmed_field [Real 4; Complex 8 6].

(** Interpolated fields on a grid of two by two points inside the mesh,
    the same for every mode: [Ex] vanishes and [Ey] is 0.05 everywhere. *)
Definition lit_0_05 : float := 0x1.999999999999ap-5.
Definition lit_1e_5 : float := 0x1.4f8b588e368f1p-17.
Definition negligible_threshold : num := Real lit_1e_5.

(** The values of an interpolator on a grid inside the mesh: no element
    is masked. *)
Definition on_mesh (a : array2 num) : array2 (element num) :=
  map (map plain) a.

Definition uniform_Ey : Interpolated num :=
  {| n_pts_x := 2;
     n_pts_y := 2;
     m_ReEx := λ _, on_mesh [[Real 0; Real 0]; [Real 0; Real 0]];
     m_ReEy := λ _, on_mesh [[Real lit_0_05; Real lit_0_05];
                             [Real lit_0_05; Real lit_0_05]];
     m_ImEx := λ _, on_mesh [[Real 0; Real 0]; [Real 0; Real 0]];
     m_ImEy := λ _, on_mesh [[Real 0; Real 0]; [Real 0; Real 0]] |}.

(** A component on the same grid with its first point outside the mesh:
    the element there is masked over [datum], the three others hold
    [value]. *)
Definition corner_at (datum value : float) : array2 (element num) :=
  [[{| data := Real datum; mask := true |}; plain (Real value)];
   [plain (Real value); plain (Real value)]].

(** On the mesh [Ex] is 1 and [Ey] vanishes. *)
Definition corner_holding (datum : float) : Interpolated num :=
  {| n_pts_x := 2;
     n_pts_y := 2;
     m_ReEx := λ _, corner_at datum 1;
     m_ReEy := λ _, corner_at datum 0;
     m_ImEx := λ _, corner_at datum 0;
     m_ImEy := λ _, corner_at datum 0 |}.

(** The datum outside the mesh is NaN, as [LinearTriInterpolator] leaves
    it. *)
Definition corner_outside : Interpolated num := corner_holding nan.
End Example.


(** * More example data *)

Module Sample.
Import Binary64.

(** Stokes modes with the field and the powers of [Example.sim_EM], at
    another frequency and in another structure. *)
Definition sim_Stokes_detuned : Simmo num unit unit :=
  {| structure :=
       {| nb_typ_el := 1;
          nb_typ_el_AC := 1;
          inc_shape := "circular";
          linear_element_shapes := [];
          curvilinear_element_shapes := ["circular"];
          eta_tensor := tt;
          p_tensor := tt |};
     num_modes := 1;
     n_msh_el := 2;
     n_msh_pts := 9;
     table_nod := tt;
     type_el := tt;
     x_arr := tt;
     sol1 := Example.EM_field;
     el_convert_tbl := ∅;
     typ_el_AC := [];
     n_list := [];
     omega_EM := Real 0.5;
     Omega_AC := [];
     EM_mode_power := [Real 1];
     AC_mode_power := [];
     Eig_values := [] |}.
(** The acoustic modes of [Example.sim_AC] without an element map, and
    with a map that leaves the EM mesh. *)
Definition sim_AC_unmapped : Simmo num unit unit :=
  {| structure := Example.wguide;
     num_modes := 3;
     n_msh_el := 1;
     n_msh_pts := 6;
     table_nod := tt;
     type_el := tt;
     x_arr := tt;
     sol1 := Example.AC_field;
     el_convert_tbl := ∅;
     typ_el_AC := [3; 2]%Z;
     n_list := [];
     omega_EM := Real 0;
     Omega_AC := [Real 1; Real 1; Real 1];
     EM_mode_power := [];
     AC_mode_power := [Real 1; Real 1; Real 1];
     Eig_values := [Real 1; Real 2; Real 3] |}.

Definition sim_AC_astray : Simmo num unit unit :=
  {| structure := Example.wguide;
     num_modes := 3;
     n_msh_el := 1;
     n_msh_pts := 6;
     table_nod := tt;
     type_el := tt;
     x_arr := tt;
     sol1 := Example.AC_field;
     el_convert_tbl := {[ 0 := 2 ]};
     typ_el_AC := [3; 2]%Z;
     n_list := [];
     omega_EM := Real 0;
     Omega_AC := [Real 1; Real 1; Real 1];
     EM_mode_power := [];
     AC_mode_power := [Real 1; Real 1; Real 1];
     Eig_values := [Real 1; Real 2; Real 3] |}.
(** The EM modes of [Example.sim_EM] with refractive indices for the
    first two of the three material types only, and acoustic modes that
    live in the second type alone. *)
Definition sim_EM_two_indices : Simmo num unit unit :=
  {| structure := Example.wguide;
     num_modes := 1;
     n_msh_el := 2;
     n_msh_pts := 9;
     table_nod := tt;
     type_el := tt;
     x_arr := tt;
     sol1 := Example.EM_field;
     el_convert_tbl := ∅;
     typ_el_AC := [];
     n_list := [Real 1; Real 2];
     omega_EM := Real 1;
     Omega_AC := [];
     EM_mode_power := [Real 1];
     AC_mode_power := [];
     Eig_values := [Real 2] |}.

Definition sim_AC_core : Simmo num unit unit :=
  {| structure := Example.wguide;
     num_modes := 3;
     n_msh_el := 1;
     n_msh_pts := 6;
     table_nod := tt;
     type_el := tt;
     x_arr := tt;
     sol1 := Example.AC_field;
     el_convert_tbl := {[ 0 := 1 ]};
     typ_el_AC := [2]%Z;
     n_list := [];
     omega_EM := Real 0;
     Omega_AC := [Real 1; Real 1; Real 1];
     EM_mode_power := [];
     AC_mode_power := [Real 1; Real 1; Real 1];
     Eig_values := [Real 1; Real 2; Real 3] |}.
(** The EM modes of [Example.sim_EM] in a structure whose shape is in
    neither shape list. *)
Definition sim_EM_slot_ring : Simmo num unit unit :=
  {| structure :=
       {| nb_typ_el := 3;
          nb_typ_el_AC := 2;
          inc_shape := "slot_ring";
          linear_element_shapes := ["rectangular"; "slot"];
          curvilinear_element_shapes := ["circular"];
          eta_tensor := tt;
          p_tensor := tt |};
     num_modes := 1;
     n_msh_el := 2;
     n_msh_pts := 9;
     table_nod := tt;
     type_el := tt;
     x_arr := tt;
     sol1 := Example.EM_field;
     el_convert_tbl := ∅;
     typ_el_AC := [];
     n_list := [Real 1; Real 2; Complex 3 1];
     omega_EM := Real 1;
     Omega_AC := [];
     EM_mode_power := [Real 1];
     AC_mode_power := [];
     Eig_values := [Real 2] |}.

Definition arguments_slot_ring : overlap_args num unit :=
  overlap_call_args sim_EM_slot_ring Example.sim_EM Example.sim_AC 1 1 (-1)
    Example.trimmed_field Example.trimmed_field [Real 4; Complex 8 6].
(** A grid without points: no abscissa, three ordinates. *)
Definition no_point : Interpolated num :=
  {| n_pts_x := 0;
     n_pts_y := 3;
     m_ReEx := λ _, [];
     m_ReEy := λ _, [];
     m_ImEx := λ _, [];
     m_ImEy := λ _, [] |}.
(** A mesh of two six-node triangles on nine points.  A table is either
    the node numbers or the coordinates. *)
Inductive table : Type :=
  | Nodes (a : array2 Z)
  | Coordinates (a : array2 num)
  | NoTable.

Definition nodes (t : table) : array2 Z :=
  match t with Nodes a => a | _ => [] end.
Definition coordinates (t : table) : array2 num :=
  match t with Coordinates a => a | _ => [] end.

(** [table_nod[i_node, i_el]]: the corners, then the mid-side nodes. *)
Definition mesh_nodes : array2 Z :=
  [[1; 3]; [3; 9]; [7; 7]; [2; 6]; [5; 8]; [4; 5]]%Z.

(** The points [(i mod 3, i div 3)*0.5] of a unit square. *)
Definition mesh_points : array2 num :=
  [[Real 0; Real 0.5; Real 1; Real 0; Real 0.5; Real 1;
    Real 0; Real 0.5; Real 1];
   [Real 0; Real 0; Real 0; Real 0.5; Real 0.5; Real 0.5;
    Real 1; Real 1; Real 1]].

(** [sol1[x, n, 0, el] = (10*x + n) + el*1j], as in [Example.EM_field]. *)
Definition sim_mesh : Simmo num table unit :=
  {| structure := Example.wguide;
     num_modes := 1;
     n_msh_el := 2;
     n_msh_pts := 9;
     table_nod := Nodes mesh_nodes;
     type_el := NoTable;
     x_arr := Coordinates mesh_points;
     sol1 := Example.EM_field;
     el_convert_tbl := ∅;
     typ_el_AC := [];
     n_list := [];
     omega_EM := Real 1;
     Omega_AC := [];
     EM_mode_power := [Real 1];
     AC_mode_power := [];
     Eig_values := [Real 2] |}.
(** Acoustic modes of which the second does not propagate. *)
Definition sim_AC_evanescent : Simmo num unit unit :=
  {| structure := Example.wguide;
     num_modes := 3;
     n_msh_el := 1;
     n_msh_pts := 6;
     table_nod := tt;
     type_el := tt;
     x_arr := tt;
     sol1 := Example.AC_field;
     el_convert_tbl := {[ 0 := 1 ]};
     typ_el_AC := [3; 2]%Z;
     n_list := [];
     omega_EM := Real 0;
     Omega_AC := [Real 1; Real 1; Real 1];
     EM_mode_power := [];
     AC_mode_power := [Real 1; Real 1; Real 1];
     Eig_values := [Real 1; Complex 1 2; Real 3] |}.

(** Two Stokes modes on the mesh of [Example.sim_EM], and the value of
    [gain_and_qs] for pump mode 0, Stokes mode 1 and [fixed_Q = 460]. *)
Definition sim_EM_two_modes : Simmo num unit unit :=
  {| structure := Example.wguide;
     num_modes := 2;
     n_msh_el := 2;
     n_msh_pts := 9;
     table_nod := tt;
     type_el := tt;
     x_arr := tt;
     sol1 := map (map (λ modes, modes ++ modes)) Example.EM_field;
     el_convert_tbl := ∅;
     typ_el_AC := [];
     n_list := [];
     omega_EM := Real 1;
     Omega_AC := [];
     EM_mode_power := [Real 1; Real 2];
     AC_mode_power := [];
     Eig_values := [Real 2; Real 1] |}.

Definition Q_two_modes : array3 num :=
  [[[Real 1; Real 1; Real 1]]; [[Real 1; Real 1; Real 1]]].

Definition gains_of_two_modes
    : array3 num * array3 num * array3 num * list num * list num :=
  match snd (gain_and_qs Example.NumBAT Example.sim_EM sim_EM_two_modes
               Example.sim_AC Example.k_AC (PyInt 0) (PyInt 1) (PyStr "All")
               (Some (Real 460)) None) with
  | Ok r => r
  | Raise _ => ([], [], [], [], [])
  end.
End Sample.


(** * Properties *)

(** ** Loops *)

Lemma bind_Ok {A B} (a : A) (f : A → result B) : Ok a ≫= f = f a.
Proof. done. Qed.

Lemma returns_bind {A B} (m : result A) (f : A → result B) P Q :
  returns m P → (∀ a, P a → returns (f a) Q) → returns (m ≫= f) Q.
Proof. intros (a & -> & HP) Hf. exact (Hf a HP). Qed.

Lemma returns_weaken {A} (m : result A) (P Q : A → Prop) :
  returns m P → (∀ a, P a → Q a) → returns m Q.
Proof. intros (a & -> & HP) HPQ. exists a. eauto. Qed.

Lemma for_in_seq_invariant {St} (Inv : nat → St → Prop) body len :
  ∀ start s,
    Inv start s →
    (∀ i s, start ≤ i < start + len → Inv i s → returns (body i s) (Inv (S i))) →
    returns (for_in (seq start len) body s) (Inv (start + len)).
Proof.
  induction len as [|len IH]; intros start s Hs Hbody; simpl.
  - exists s. by rewrite Nat.add_0_r.
  - destruct (Hbody start s) as (s' & -> & Hs'); [lia | done |]. simpl.
    replace (start + S len) with (S start + len) by lia.
    apply IH; [done |]. intros i t Hi. apply Hbody. lia.
Qed.

Lemma getitem_Some {A} (l : list A) i x : l !! i = Some x → getitem l i = Ok x.
Proof. intros H. unfold getitem. by rewrite H. Qed.

(** A loop over [range n] whose body keeps [Inv] runs to its end and
    establishes [Inv n]. *)
Lemma for_in_range_invariant {St} (Inv : nat → St → Prop) body n s :
  Inv 0 s →
  (∀ i s, i < n → Inv i s → returns (body i s) (Inv (S i))) →
  returns (for_in (range n) body s) (Inv n).
Proof.
  intros Hs Hbody. apply (for_in_seq_invariant Inv body n 0 s Hs).
  intros i t Hi. apply Hbody. lia.
Qed.

(** ** Arrays *)

Section ArrayFacts.
Context {T : Type}.
Implicit Types (v w : T) (r : list T) (a : array2 T) (b : array3 T) (c : array4 T).

Lemma shape2_full d0 d1 v : shape2 d0 d1 (full2 d0 d1 v).
Proof.
  split; [apply length_replicate |].
  apply Forall_replicate, length_replicate.
Qed.

Lemma shape3_full d0 d1 d2 v : shape3 d0 d1 d2 (full3 d0 d1 d2 v).
Proof.
  split; [apply length_replicate |].
  apply Forall_replicate, shape2_full.
Qed.

Lemma shape4_full d0 d1 d2 d3 v : shape4 d0 d1 d2 d3 (full4 d0 d1 d2 d3 v).
Proof.
  split; [apply length_replicate |].
  apply Forall_replicate, shape3_full.
Qed.

Lemma shape2_lookup d0 d1 a i j :
  shape2 d0 d1 a → i < d0 → j < d1 → is_Some (lookup2 a i j).
Proof.
  intros [Hlen Hrows] Hi Hj. unfold lookup2.
  destruct (lookup_lt_is_Some_2 a i) as [r Hr]; [lia |].
  rewrite Hr. simpl. apply lookup_lt_is_Some_2.
  rewrite (Forall_lookup_1 _ _ _ _ Hrows Hr). done.
Qed.

Lemma shape3_lookup d0 d1 d2 b i j k :
  shape3 d0 d1 d2 b → i < d0 → j < d1 → k < d2 → is_Some (lookup3 b i j k).
Proof.
  intros [Hlen Hrows] Hi Hj Hk. unfold lookup3.
  destruct (lookup_lt_is_Some_2 b i) as [a Ha]; [lia |].
  rewrite Ha. simpl. eapply shape2_lookup; [|done..].
  exact (Forall_lookup_1 _ _ _ _ Hrows Ha).
Qed.

Lemma shape4_lookup d0 d1 d2 d3 c x n i e :
  shape4 d0 d1 d2 d3 c → x < d0 → n < d1 → i < d2 → e < d3 →
  is_Some (lookup4 c x n i e).
Proof.
  intros [Hlen Hrows] Hx Hn Hi He. unfold lookup4.
  destruct (lookup_lt_is_Some_2 c x) as [b Hb]; [lia |].
  rewrite Hb. simpl. eapply shape3_lookup; [|done..].
  exact (Forall_lookup_1 _ _ _ _ Hrows Hb).
Qed.

Lemma shape2_lookup_lt d0 d1 a i j v :
  shape2 d0 d1 a → lookup2 a i j = Some v → i < d0 ∧ j < d1.
Proof.
  intros [Hlen Hrows]. unfold lookup2.
  destruct (a !! i) as [r|] eqn:Hr; simpl; [|done]. intros Hv.
  pose proof (Forall_lookup_1 _ _ _ _ Hrows Hr) as Hd.
  apply lookup_lt_Some in Hr, Hv. unfold shape1 in Hd. lia.
Qed.

Lemma shape3_lookup_lt d0 d1 d2 b i j k v :
  shape3 d0 d1 d2 b → lookup3 b i j k = Some v → i < d0 ∧ j < d1 ∧ k < d2.
Proof.
  intros [Hlen Hrows]. unfold lookup3.
  destruct (b !! i) as [a|] eqn:Ha; simpl; [|done]. intros Hv.
  pose proof (Forall_lookup_1 _ _ _ _ Hrows Ha) as Hs.
  apply lookup_lt_Some in Ha.
  destruct (shape2_lookup_lt _ _ _ _ _ _ Hs Hv). lia.
Qed.

Lemma shape4_lookup_lt d0 d1 d2 d3 c x n i e v :
  shape4 d0 d1 d2 d3 c → lookup4 c x n i e = Some v →
  x < d0 ∧ n < d1 ∧ i < d2 ∧ e < d3.
Proof.
  intros [Hlen Hrows]. unfold lookup4.
  destruct (c !! x) as [b|] eqn:Hb; simpl; [|done]. intros Hv.
  pose proof (Forall_lookup_1 _ _ _ _ Hrows Hb) as Hs.
  apply lookup_lt_Some in Hb.
  destruct (shape3_lookup_lt _ _ _ _ _ _ _ _ Hs Hv) as (? & ? & ?). lia.
Qed.

Lemma shape2_insert d0 d1 a i j v :
  shape2 d0 d1 a → shape2 d0 d1 (insert2 a i j v).
Proof.
  intros [Hlen Hrows]. unfold insert2. split; [by rewrite length_alter |].
  apply Forall_alter; [done |]. intros r _ Hr.
  unfold shape1 in *. by rewrite length_insert.
Qed.

Lemma shape3_insert d0 d1 d2 b i j k v :
  shape3 d0 d1 d2 b → shape3 d0 d1 d2 (insert3 b i j k v).
Proof.
  intros [Hlen Hrows]. unfold insert3. split; [by rewrite length_alter |].
  apply Forall_alter; [done |]. intros a _ Ha. by apply shape2_insert.
Qed.

Lemma shape4_insert d0 d1 d2 d3 c x n i e v :
  shape4 d0 d1 d2 d3 c → shape4 d0 d1 d2 d3 (insert4 c x n i e v).
Proof.
  intros [Hlen Hrows]. unfold insert4. split; [by rewrite length_alter |].
  apply Forall_alter; [done |]. intros b _ Hb. by apply shape3_insert.
Qed.

Lemma lookup2_insert2_eq a i j v :
  is_Some (lookup2 a i j) → lookup2 (insert2 a i j v) i j = Some v.
Proof.
  unfold lookup2, insert2. rewrite list_lookup_alter_eq.
  destruct (a !! i) as [r|]; simpl; [| by intros [? ?]].
  intros Hj. apply list_lookup_insert_eq. by apply lookup_lt_is_Some_1.
Qed.

Lemma lookup2_insert2_ne a i j i' j' v :
  (i, j) ≠ (i', j') → lookup2 (insert2 a i j v) i' j' = lookup2 a i' j'.
Proof.
  intros Hne. unfold lookup2, insert2.
  destruct (decide (i = i')) as [<-|Hi].
  - rewrite list_lookup_alter_eq. destruct (a !! i) as [r|]; simpl; [|done].
    apply list_lookup_insert_ne. congruence.
  - by rewrite list_lookup_alter_ne.
Qed.

Lemma lookup3_insert3_eq b i j k v :
  is_Some (lookup3 b i j k) → lookup3 (insert3 b i j k v) i j k = Some v.
Proof.
  unfold lookup3, insert3. rewrite list_lookup_alter_eq.
  destruct (b !! i) as [a|]; simpl; [| by intros [? ?]].
  apply lookup2_insert2_eq.
Qed.

Lemma lookup3_insert3_ne b i j k i' j' k' v :
  (i, j, k) ≠ (i', j', k') →
  lookup3 (insert3 b i j k v) i' j' k' = lookup3 b i' j' k'.
Proof.
  intros Hne. unfold lookup3, insert3.
  destruct (decide (i = i')) as [<-|Hi].
  - rewrite list_lookup_alter_eq. destruct (b !! i) as [a|]; simpl; [|done].
    apply lookup2_insert2_ne. congruence.
  - by rewrite list_lookup_alter_ne.
Qed.

Lemma lookup4_insert4_eq c x n i e v :
  is_Some (lookup4 c x n i e) → lookup4 (insert4 c x n i e v) x n i e = Some v.
Proof.
  unfold lookup4, insert4. rewrite list_lookup_alter_eq.
  destruct (c !! x) as [b|]; simpl; [| by intros [? ?]].
  apply lookup3_insert3_eq.
Qed.

Lemma lookup4_insert4_ne c x n i e x' n' i' e' v :
  (x, n, i, e) ≠ (x', n', i', e') →
  lookup4 (insert4 c x n i e v) x' n' i' e' = lookup4 c x' n' i' e'.
Proof.
  intros Hne. unfold lookup4, insert4.
  destruct (decide (x = x')) as [<-|Hx].
  - rewrite list_lookup_alter_eq. destruct (c !! x) as [b|]; simpl; [|done].
    apply lookup3_insert3_ne. congruence.
  - by rewrite list_lookup_alter_ne.
Qed.
End ArrayFacts.

(** ** The field re-indexer *)

Section Trimmed.
Context {T : Type} {np : NumPy T} {Table Tensor : Type}.
Abbreviation Simmo := (Simmo T Table Tensor).

Lemma filled_mono (sim_EM sim_AC : Simmo)
    (D D' : nat → nat → nat → nat → Prop) field :
  filled sim_EM sim_AC D field →
  (∀ x n i e, x < ncomps → n < nnodes → i < num_modes sim_EM →
              e < n_msh_el sim_AC → D' x n i e → D x n i e) →
  filled sim_EM sim_AC D' field.
Proof.
  intros [Hshape Hfield] Hsub. split; [done |].
  intros x n i e new_el HD ?????. apply Hfield; auto.
Qed.

Lemma filled_setitem (sim_EM sim_AC : Simmo) D field x n i e new_el :
  well_shaped_field sim_EM →
  filled sim_EM sim_AC D field →
  x < ncomps → n < nnodes → i < num_modes sim_EM → e < n_msh_el sim_AC →
  el_convert_tbl sim_AC !! e = Some new_el → new_el < n_msh_el sim_EM →
  returns (v ← getitem4 (sol1 sim_EM) x n i new_el;
           setitem4 field x n i e (complex128 v))
          (filled sim_EM sim_AC
             (λ x' n' i' e', D x' n' i' e' ∨ (x', n', i', e') = (x, n, i, e))).
Proof.
  intros Hsrc [Hshape Hfield] Hx Hn Hi He Htbl Hnew.
  destruct (shape4_lookup _ _ _ _ _ x n i new_el Hsrc) as [v Hv]; [done..|].
  destruct (shape4_lookup _ _ _ _ _ x n i e Hshape) as [w Hw]; [done..|].
  unfold getitem4, setitem4. rewrite Hv. simpl. rewrite Hw.
  eexists. split; [done |]. split; [by apply shape4_insert |].
  intros x' n' i' e' new_el' HD Hx' Hn' Hi' He' Htbl'.
  destruct (decide ((x, n, i, e) = (x', n', i', e'))) as [Heq|Hne].
  - injection Heq as <- <- <- <-. rewrite lookup4_insert4_eq by eauto.
    assert (new_el' = new_el) as -> by congruence. by rewrite Hv.
  - rewrite lookup4_insert4_ne by done. apply Hfield; try done.
    destruct HD as [HD|HD]; [done | congruence].
Qed.

(** The loop over the modes of one field, for a fixed element, node and
    component. *)
Lemma filled_modes (sim_EM sim_AC : Simmo) el n x new_el field :
  well_shaped_field sim_EM →
  x < ncomps → n < nnodes → el < n_msh_el sim_AC →
  el_convert_tbl sim_AC !! el = Some new_el → new_el < n_msh_el sim_EM →
  filled sim_EM sim_AC (written el n x 0) field →
  returns (for_in (range (num_modes sim_EM)) (λ ival field,
             v ← getitem4 (sol1 sim_EM) x n ival new_el;
             setitem4 field x n ival el (complex128 v)) field)
          (filled sim_EM sim_AC (written el n (S x) 0)).
Proof.
  intros Hsrc Hx Hn Hel Htbl Hnew Hfield.
  eapply returns_weaken.
  - apply (for_in_range_invariant
             (λ ival, filled sim_EM sim_AC (written el n x ival))); [done |].
    intros ival f Hival Hf. eapply returns_weaken.
    + by apply (filled_setitem sim_EM sim_AC (written el n x ival) f x n ival el new_el).
    + intros f' Hf'. eapply filled_mono; [exact Hf' |].
      unfold written. intros x' n' i' e' _ _ _ _ Hw. simpl.
      destruct (decide ((x', n', i', e') = (x, n, ival, el))) as [|Hne];
        [by right | left].
      assert (¬ (x' = x ∧ n' = n ∧ i' = ival ∧ e' = el))
        by (intros (?&?&?&?); congruence).
      lia.
  - intros f Hf. eapply filled_mono; [exact Hf |].
    unfold written. intros. lia.
Qed.

Lemma trimmed_EM_fields_filled (sim_EM_pump sim_EM_Stokes sim_AC : Simmo) :
  valid_element_map sim_EM_pump sim_AC →
  valid_element_map sim_EM_Stokes sim_AC →
  well_shaped_field sim_EM_pump →
  well_shaped_field sim_EM_Stokes →
  returns (trimmed_EM_fields sim_EM_pump sim_EM_Stokes sim_AC)
    (λ fields,
       filled sim_EM_pump sim_AC (λ _ _ _ _, True) fields.1 ∧
       filled sim_EM_Stokes sim_AC (λ _ _ _ _, True) fields.2).
Proof.
  intros Hmap_p Hmap_s Hsrc_p Hsrc_s. unfold trimmed_EM_fields.
  set (Inv := λ el n x (fields : array4 T * array4 T),
         filled sim_EM_pump sim_AC (written el n x 0) fields.1 ∧
         filled sim_EM_Stokes sim_AC (written el n x 0) fields.2).
  eapply returns_weaken.
  - apply (for_in_range_invariant (λ el, Inv el 0 0)).
    { split; (split; [apply shape4_full |]); unfold written; intros; lia. }
    intros el fields Hel HInv.
    destruct (Hmap_p el Hel) as (new_el & Htbl & Hnew_p).
    destruct (Hmap_s el Hel) as (new_el' & Htbl' & Hnew_s).
    assert (new_el' = new_el) as -> by congruence. clear Htbl'.
    eapply (returns_bind _ _ (eq new_el)).
    { exists new_el. unfold getkey. by rewrite Htbl. }
    intros ? <-. eapply returns_weaken.
    + apply (for_in_range_invariant (λ n, Inv el n 0)); [done |].
      intros n fields' Hn HInv'. eapply returns_weaken.
      * apply (for_in_range_invariant (λ x, Inv el n x)); [done |].
        intros x [pump_field Stokes_field] Hx [Hp Hs]. simpl in Hp, Hs.
        eapply returns_bind; [by apply (filled_modes sim_EM_pump sim_AC el n x new_el) |].
        intros pump_field' Hp'. simpl.
        eapply returns_bind; [by apply (filled_modes sim_EM_Stokes sim_AC el n x new_el) |].
        intros Stokes_field' Hs'. simpl. eexists. split; [done |]. by split.
      * intros [pf sf] [Hp Hs]. simpl in *.
        split; simpl; (eapply filled_mono; [eassumption |]);
          unfold written, ncomps; intros; lia.
    + intros [pf sf] [Hp Hs]. simpl in *.
      split; simpl; (eapply filled_mono; [eassumption |]);
        unfold written, nnodes; intros; lia.
  - intros [pf sf] [Hp Hs]. simpl in *.
    split; simpl; (eapply filled_mono; [eassumption |]);
      unfold written; intros; lia.
Qed.
End Trimmed.

(** ** Element-wise operations *)

Section BroadcastFacts.
Context {T : Type}.

Lemma mapM_returns {A B} (f : A → result B) (P : nat → B → Prop) (l : list A) :
  (∀ i x, l !! i = Some x → returns (f x) (P i)) →
  returns (mapM f l)
    (λ k, length k = length l ∧ ∀ i y, k !! i = Some y → P i y).
Proof.
  revert P. induction l as [|x l IH]; intros P Hf; simpl.
  - exists []. split; [done |]. split; [done |]. intros i y. by destruct i.
  - destruct (Hf 0 x eq_refl) as (y & -> & Hy). simpl.
    destruct (IH (λ i, P (S i))) as (k & -> & Hlen & Hk).
    { intros i x' Hi. by apply Hf. }
    simpl. eexists. split; [done |]. split; [simpl; by rewrite Hlen |].
    intros [|i] z; simpl; [by intros [= <-] | apply Hk].
Qed.

Lemma broadcast_same_length {A B C} (f : A → B → result C) a b :
  length a = length b →
  broadcast f a b = mapM (λ p, f p.1 p.2) (zip a b).
Proof. intros Hlen. unfold broadcast. by rewrite decide_True. Qed.

Lemma broadcast_singleton_l {A B C} (f : A → B → result C) x b :
  broadcast f [x] b = mapM (f x) b.
Proof.
  unfold broadcast. destruct (decide (length [x] = length b)) as [Hlen|]; [|done].
  destruct b as [|y [|y' b]]; try done.
Qed.

Lemma broadcast_returns {A B C} (f : A → B → result C) (P : nat → C → Prop)
    (a : list A) (b : list B) :
  length a = length b →
  (∀ i x y, a !! i = Some x → b !! i = Some y → returns (f x y) (P i)) →
  returns (broadcast f a b)
    (λ c, length c = length a ∧ ∀ i z, c !! i = Some z → P i z).
Proof.
  intros Hlen Hf. rewrite broadcast_same_length by done.
  eapply returns_weaken.
  - apply (mapM_returns _ P). intros i [x y] Hxy.
    apply lookup_zip_with_Some in Hxy as (x' & y' & [= <- <-] & Hx & Hy).
    simpl. by eapply Hf.
  - intros c [Hc HP]. split; [|done].
    rewrite Hc, length_zip. lia.
Qed.

Lemma broadcast1_returns (f : T → T → T) d (a b : list T) :
  shape1 d a → shape1 d b →
  returns (broadcast1 f a b) (λ c, shape1 d c ∧ pointwise1 f a b c).
Proof.
  unfold shape1. intros Ha Hb. eapply returns_weaken.
  - apply (broadcast_returns _ (λ i z, ∀ x y, a !! i = Some x → b !! i = Some y →
                                              z = f x y)); [congruence |].
    intros i x y Hx Hy. eexists. split; [done |]. congruence.
  - intros c [Hc HP]. split; [congruence |]. intros i x y Hx Hy.
    destruct (lookup_lt_is_Some_2 c i) as [z Hz].
    { rewrite Hc. by eapply lookup_lt_Some. }
    rewrite Hz. f_equal. by eapply HP.
Qed.

Lemma broadcast2_returns (f : T → T → T) d0 d1 (a b : array2 T) :
  shape2 d0 d1 a → shape2 d0 d1 b →
  returns (broadcast2 f a b) (λ c, shape2 d0 d1 c ∧ pointwise2 f a b c).
Proof.
  intros [Ha Hra] [Hb Hrb]. eapply returns_weaken.
  - apply (broadcast_returns _ (λ i c, ∀ x y, a !! i = Some x → b !! i = Some y →
                                  shape1 d1 c ∧ pointwise1 f x y c)); [congruence |].
    intros i x y Hx Hy. eapply returns_weaken.
    + apply (broadcast1_returns f d1);
        [exact (Forall_lookup_1 _ _ _ _ Hra Hx) | exact (Forall_lookup_1 _ _ _ _ Hrb Hy)].
    + intros c Hc x' y' Hx' Hy'. congruence.
  - intros c [Hc HP]. split.
    + split; [congruence |]. apply Forall_lookup_2. intros i r Hr.
      destruct (lookup_lt_is_Some_2 a i) as [x Hx];
        [rewrite <- Hc; by eapply lookup_lt_Some |].
      destruct (lookup_lt_is_Some_2 b i) as [y Hy];
        [rewrite Hb, <- Ha, <- Hc; by eapply lookup_lt_Some |].
      by destruct (HP i r Hr x y Hx Hy).
    + intros i j x y. unfold lookup2.
      destruct (a !! i) as [ra|] eqn:Hra'; simpl; [|done].
      destruct (b !! i) as [rb|] eqn:Hrb'; simpl; [|done].
      intros Hx Hy.
      destruct (lookup_lt_is_Some_2 c i) as [rc Hrc];
        [rewrite Hc; by eapply lookup_lt_Some |].
      rewrite Hrc. simpl.
      destruct (HP i rc Hrc ra rb Hra' Hrb') as [_ Hpt]. by eapply Hpt.
Qed.

Lemma broadcast3_returns (f : T → T → T) d0 d1 d2 (a b : array3 T) :
  shape3 d0 d1 d2 a → shape3 d0 d1 d2 b →
  returns (broadcast3 f a b) (λ c, shape3 d0 d1 d2 c ∧ pointwise3 f a b c).
Proof.
  intros [Ha Hra] [Hb Hrb]. eapply returns_weaken.
  - apply (broadcast_returns _ (λ i c, ∀ x y, a !! i = Some x → b !! i = Some y →
                                  shape2 d1 d2 c ∧ pointwise2 f x y c)); [congruence |].
    intros i x y Hx Hy. eapply returns_weaken.
    + apply (broadcast2_returns f d1 d2);
        [exact (Forall_lookup_1 _ _ _ _ Hra Hx) | exact (Forall_lookup_1 _ _ _ _ Hrb Hy)].
    + intros c Hc x' y' Hx' Hy'. congruence.
  - intros c [Hc HP]. split.
    + split; [congruence |]. apply Forall_lookup_2. intros i r Hr.
      destruct (lookup_lt_is_Some_2 a i) as [x Hx];
        [rewrite <- Hc; by eapply lookup_lt_Some |].
      destruct (lookup_lt_is_Some_2 b i) as [y Hy];
        [rewrite Hb, <- Ha, <- Hc; by eapply lookup_lt_Some |].
      by destruct (HP i r Hr x y Hx Hy).
    + intros i j k x y. unfold lookup3.
      destruct (a !! i) as [ra|] eqn:Hra'; simpl; [|done].
      destruct (b !! i) as [rb|] eqn:Hrb'; simpl; [|done].
      intros Hx Hy.
      destruct (lookup_lt_is_Some_2 c i) as [rc Hrc];
        [rewrite Hc; by eapply lookup_lt_Some |].
      rewrite Hrc. simpl.
      destruct (HP i rc Hrc ra rb Hra' Hrb') as [_ Hpt]. by eapply Hpt.
Qed.

Lemma shape2_map (f : T → T) d0 d1 (a : array2 T) :
  shape2 d0 d1 a → shape2 d0 d1 (map2 f a).
Proof.
  intros [Ha Hr]. unfold map2. split; [by rewrite length_map |].
  apply Forall_fmap. eapply Forall_impl; [exact Hr |].
  intros r Hlen. unfold shape1 in *. simpl. by rewrite length_map.
Qed.

Lemma shape3_map (f : T → T) d0 d1 d2 (a : array3 T) :
  shape3 d0 d1 d2 a → shape3 d0 d1 d2 (map3 f a).
Proof.
  intros [Ha Hr]. unfold map3. split; [by rewrite length_map |].
  apply Forall_fmap. eapply Forall_impl; [exact Hr |].
  intros r Hs. simpl. by apply shape2_map.
Qed.

Lemma lookup2_map (f : T → T) (a : array2 T) i j :
  lookup2 (map2 f a) i j = f <$> lookup2 a i j.
Proof.
  unfold lookup2, map2. rewrite list_lookup_fmap.
  destruct (a !! i) as [r|]; simpl; [|done]. apply list_lookup_fmap.
Qed.

Lemma lookup3_map (f : T → T) (a : array3 T) i j k :
  lookup3 (map3 f a) i j k = f <$> lookup3 a i j k.
Proof.
  unfold lookup3, map3. rewrite list_lookup_fmap.
  destruct (a !! i) as [r|]; simpl; [|done]. apply lookup2_map.
Qed.
End BroadcastFacts.

(** ** The gain tensors *)

Section GainFacts.
Context {T : Type} {np : NumPy T} {Table Tensor : Type}.
Abbreviation Simmo := (Simmo T Table Tensor).

(** A vector against an array of rank 3 runs along the last axis. *)
Lemma broadcast3_last_axis (f : T → T → T) d0 d1 d2 (V : list T) (R : array3 T) :
  shape1 d2 V → shape3 d0 d1 d2 R →
  returns (broadcast3 f [[V]] R)
    (λ G, shape3 d0 d1 d2 G ∧
          ∀ i j k v r, V !! k = Some v → lookup3 R i j k = Some r →
                       lookup3 G i j k = Some (f v r)).
Proof.
  intros HV [HR HRr]. unfold broadcast3. rewrite broadcast_singleton_l.
  eapply returns_weaken.
  - apply (mapM_returns _ (λ i c, ∀ y, R !! i = Some y →
             shape2 d1 d2 c ∧
             ∀ j k v r, V !! k = Some v → lookup2 y j k = Some r →
                        lookup2 c j k = Some (f v r))).
    intros i y Hy. unfold broadcast2. rewrite broadcast_singleton_l.
    pose proof (Forall_lookup_1 _ _ _ _ HRr Hy) as [Hylen Hyr].
    eapply returns_weaken.
    + apply (mapM_returns _ (λ j c, ∀ r, y !! j = Some r →
               shape1 d2 c ∧ pointwise1 f V r c)).
      intros j r Hr. eapply returns_weaken.
      * apply (broadcast1_returns f d2); [done |].
        exact (Forall_lookup_1 _ _ _ _ Hyr Hr).
      * intros c Hc r' Hr'. congruence.
    + intros c [Hc HP] y' Hy'. assert (y' = y) as -> by congruence. split.
      * split; [congruence |]. apply Forall_lookup_2. intros j r Hr.
        destruct (lookup_lt_is_Some_2 y j) as [ry Hry];
          [rewrite <- Hc; by eapply lookup_lt_Some |].
        by destruct (HP j r Hr ry Hry).
      * intros j k v r Hv. unfold lookup2.
        destruct (y !! j) as [ry|] eqn:Hry; simpl; [|done]. intros Hr.
        destruct (lookup_lt_is_Some_2 c j) as [rc Hrc];
          [rewrite Hc; by eapply lookup_lt_Some |].
        rewrite Hrc. simpl. destruct (HP j rc Hrc ry Hry) as [_ Hpt].
        by eapply Hpt.
  - intros G [HG HP]. split.
    + split; [congruence |]. apply Forall_lookup_2. intros i c Hc.
      destruct (lookup_lt_is_Some_2 R i) as [y Hy];
        [rewrite <- HG; by eapply lookup_lt_Some |].
      by destruct (HP i c Hc y Hy).
    + intros i j k v r Hv. unfold lookup3.
      destruct (R !! i) as [y|] eqn:Hy; simpl; [|done]. intros Hr.
      destruct (lookup_lt_is_Some_2 G i) as [c Hc];
        [rewrite HG; by eapply lookup_lt_Some |].
      rewrite Hc. simpl. destruct (HP i c Hc y Hy) as [_ Hpt]. by eapply Hpt.
Qed.

Lemma gain_of_returns (sim_EM_pump sim_AC : Simmo) d0 d1 (Q : array3 T) :
  shape3 d0 d1 (num_modes sim_AC) Q →
  length (Omega_AC sim_AC) = num_modes sim_AC →
  returns (gain_of sim_EM_pump sim_AC Q)
    (λ gain, shape3 d0 d1 (num_modes sim_AC) gain ∧
       ∀ i j k q Omega,
         lookup3 Q i j k = Some q → Omega_AC sim_AC !! k = Some Omega →
         lookup3 gain i j k =
           Some (mul (mul (mul two (omega_EM sim_EM_pump)) Omega)
                     (np_real (mul q (np_conj q))))).
Proof.
  intros HQ HOmega. unfold gain_of.
  eapply returns_bind.
  { apply (broadcast3_returns mul d0 d1 (num_modes sim_AC)); [done |].
    by apply shape3_map. }
  intros QQ [HQQ Hpt]. simpl. eapply returns_weaken.
  - apply (broadcast3_last_axis mul d0 d1 (num_modes sim_AC)).
    + unfold shape1. by rewrite length_map.
    + by apply shape3_map.
  - intros gain [Hgain Hval]. split; [done |].
    intros i j k q Omega Hq HOm. apply Hval.
    + by rewrite list_lookup_fmap, HOm.
    + rewrite lookup3_map. erewrite Hpt; [done | done |].
      by rewrite lookup3_map, Hq.
Qed.

Lemma normalised_returns d0 d1 d2 (gain fact : array3 T) :
  shape3 d0 d1 d2 gain → shape3 d0 d1 d2 fact →
  returns (normalised gain fact)
    (λ SBS, shape3 d0 d1 d2 SBS ∧
       ∀ i j k g n, lookup3 gain i j k = Some g → lookup3 fact i j k = Some n →
                    lookup3 SBS i j k = Some (np_real (div g n))).
Proof.
  intros Hgain Hfact. unfold normalised. eapply returns_bind.
  { by apply (broadcast3_returns div d0 d1 d2). }
  intros quotient [Hq Hpt]. simpl. eexists. split; [done |].
  split; [by apply shape3_map |].
  intros i j k g n Hg Hn. rewrite lookup3_map. by erewrite Hpt.
Qed.

Lemma power_products_mono (sim_EM_pump sim_EM_Stokes sim_AC : Simmo) alpha
    (D D' : nat → nat → nat → Prop) fact :
  power_products sim_EM_pump sim_EM_Stokes sim_AC alpha D fact →
  (∀ i j k, i < num_modes sim_EM_Stokes → j < num_modes sim_EM_pump →
            k < num_modes sim_AC → D' i j k → D i j k) →
  power_products sim_EM_pump sim_EM_Stokes sim_AC alpha D' fact.
Proof.
  intros [Hshape Hfact] Hsub. split; [done |].
  intros i j k P1 P2 P3 a HD ???????. eapply Hfact; eauto.
Qed.

Lemma normal_fact_returns (sim_EM_pump sim_EM_Stokes sim_AC : Simmo) alpha :
  powers_cover sim_EM_pump sim_EM_Stokes sim_AC alpha →
  returns (normal_fact sim_EM_pump sim_EM_Stokes sim_AC alpha)
    (power_products sim_EM_pump sim_EM_Stokes sim_AC alpha (λ _ _ _, True)).
Proof.
  intros (HS & HP & HA & Halpha). unfold normal_fact.
  set (Inv := λ i j k,
         power_products sim_EM_pump sim_EM_Stokes sim_AC alpha
                        (normalised_upto i j k)).
  eapply returns_weaken.
  - apply (for_in_range_invariant (λ i, Inv i 0 0)).
    { split; [apply shape3_full |]. unfold normalised_upto. intros. lia. }
    intros i fact Hi Hfact.
    destruct (lookup_lt_is_Some_2 (EM_mode_power sim_EM_Stokes) i) as [P1 HP1];
      [lia |].
    rewrite (getitem_Some _ _ _ HP1). simpl. eapply returns_weaken.
    + apply (for_in_range_invariant (λ j, Inv i j 0)); [done |].
      intros j fact' Hj Hfact'.
      destruct (lookup_lt_is_Some_2 (EM_mode_power sim_EM_pump) j) as [P2 HP2];
        [lia |].
      rewrite (getitem_Some _ _ _ HP2). simpl. eapply returns_weaken.
      * apply (for_in_range_invariant (λ k, Inv i j k)); [done |].
        intros k f Hk [Hshape Hf].
        destruct (lookup_lt_is_Some_2 (AC_mode_power sim_AC) k) as [P3 HP3];
          [lia |].
        destruct (lookup_lt_is_Some_2 alpha k) as [a Ha]; [lia |].
        rewrite (getitem_Some _ _ _ HP3). simpl.
        rewrite (getitem_Some _ _ _ Ha). simpl.
        destruct (shape3_lookup _ _ _ _ i j k Hshape) as [w Hw]; [done..|].
        unfold setitem3. rewrite Hw. eexists. split; [done |].
        split; [by apply shape3_insert |].
        intros i' j' k' P1' P2' P3' a' HD HP1' HP2' HP3' Ha' Hi' Hj' Hk'.
        destruct (decide ((i, j, k) = (i', j', k'))) as [Heq|Hne].
        -- injection Heq as <- <- <-. rewrite lookup3_insert3_eq by eauto.
           congruence.
        -- rewrite lookup3_insert3_ne by done. eapply Hf; eauto.
           assert (¬ (i' = i ∧ j' = j ∧ k' = k))
             by (intros (?&?&?); congruence).
           unfold normalised_upto in *. lia.
      * intros f Hf. eapply power_products_mono; [exact Hf |].
        unfold normalised_upto. intros. lia.
    + intros f Hf. eapply power_products_mono; [exact Hf |].
      unfold normalised_upto. intros. lia.
  - intros f Hf. eapply power_products_mono; [exact Hf |].
    unfold normalised_upto. intros. lia.
Qed.
End GainFacts.

(** ** Logs *)

Section LogFacts.
Context {Call : Type}.
Implicit Types (e : event Call).

Lemma snd_bind {A B} (m : prog Call A) (f : A → prog Call B) :
  snd (m ≫= f) = snd m ≫= (λ a, snd (f a)).
Proof. destruct m as [log [a|err]]; simpl; [|done]. by destruct (f a). Qed.

Lemma fst_bind {A B} (m : prog Call A) (f : A → prog Call B) :
  fst (m ≫= f) =
  fst m ++ match snd m with Ok a => fst (f a) | Raise _ => [] end.
Proof.
  destruct m as [log [a|err]]; simpl; [| by rewrite app_nil_r].
  by destruct (f a).
Qed.

Lemma elem_of_bind_log {A B} (m : prog Call A) (f : A → prog Call B) e :
  e ∈ fst (m ≫= f) → e ∈ fst m ∨ ∃ a, snd m = Ok a ∧ e ∈ fst (f a).
Proof.
  rewrite fst_bind, elem_of_app. intros [He|He]; [by left |].
  destruct (snd m) as [a|err]; [right; eauto | by apply elem_of_nil in He].
Qed.

Lemma elem_of_lift_log {A} (r : result A) e : e ∈ fst (lift (Call:=Call) r) → False.
Proof. simpl. apply not_elem_of_nil. Qed.

Lemma snd_try_call {A} (c : Call) (o : outcome A) msg :
  snd (try_call c o msg) = Ok (assigned o).
Proof. by destruct o. Qed.

Lemma invoke_try_call {A} (c c' : Call) (o : outcome A) msg :
  Invoke c' ∈ fst (try_call c o msg) → c' = c.
Proof.
  destruct o; simpl; intros H;
    repeat (apply elem_of_cons in H as [H|H]);
    try (by apply elem_of_nil in H); congruence.
Qed.

Lemma invoke_print (c : Call) msg : Invoke c ∈ fst (print msg) → False.
Proof.
  simpl. intros H. apply elem_of_cons in H as [H|H];
    [discriminate | by apply elem_of_nil in H].
Qed.

Lemma invoke_print_time (c : Call) : Invoke c ∈ fst print_time → False.
Proof.
  simpl. intros H. apply elem_of_cons in H as [H|H];
    [discriminate | by apply elem_of_nil in H].
Qed.

Lemma invoke_ret {A} (c : Call) (a : A) :
  Invoke c ∈ fst (mret a : prog Call A) → False.
Proof. simpl. apply not_elem_of_nil. Qed.
End LogFacts.

(** ** The Fortran calls of [gain_and_qs] *)

Section CallFacts.
Context {T : Type} {np : NumPy T} {Table Tensor : Type}.
Abbreviation Simmo := (Simmo T Table Tensor).
Abbreviation fortran_call := (fortran_call T Table Tensor).
Variable NumBAT : Fortran T Table Tensor.

Lemma invoke_warn_quadrature (c : fortran_call) (b : bool) routine :
  Invoke c ∈ fst (if b then warn_quadrature routine
                  else mret tt : prog fortran_call unit) → False.
Proof. destruct b; [apply invoke_print | apply invoke_ret]. Qed.

Lemma acoustic_loss_calls (sim_EM_pump sim_AC : Simmo) k_AC fixed_Q c :
  Invoke c ∈ fst (acoustic_loss NumBAT sim_EM_pump sim_AC k_AC fixed_Q) →
  fixed_Q = None ∧ c = loss_call sim_EM_pump sim_AC k_AC.
Proof.
  unfold acoustic_loss, loss_call. destruct fixed_Q as [Q|].
  { intros H. by apply invoke_ret in H. }
  intros H. split; [done |].
  apply elem_of_bind_log in H as [H | (_ & _ & H)];
    [by apply invoke_print in H |].
  apply elem_of_bind_log in H as [H | (alpha & _ & H)].
  - destruct (linear_elements sim_EM_pump).
    + by apply invoke_try_call in H.
    + apply elem_of_bind_log in H as [H | (_ & _ & H)];
        [by apply invoke_warn_quadrature in H | by apply invoke_try_call in H].
  - apply elem_of_bind_log in H as [H | (alpha' & _ & H)];
      [by apply elem_of_lift_log in H |].
    apply elem_of_bind_log in H as [H | (Qf & _ & H)];
      [by apply elem_of_lift_log in H |].
    apply elem_of_bind_log in H as [H | (_ & _ & H)];
      [by apply invoke_print_time in H | by apply invoke_ret in H].
Qed.

Lemma photoelastic_calls (sim_EM_pump sim_AC : Simmo) k_AC args c :
  Invoke c ∈ fst (photoelastic NumBAT sim_EM_pump sim_AC k_AC args) →
  c = photoelastic_call sim_EM_pump sim_AC k_AC args.
Proof.
  unfold photoelastic, photoelastic_call. intros H.
  apply elem_of_bind_log in H as [H | (_ & _ & H)];
    [by apply invoke_print in H |].
  apply elem_of_bind_log in H as [H | (Q_PE & _ & H)].
  - destruct (linear_elements sim_EM_pump).
    + by apply invoke_try_call in H.
    + apply elem_of_bind_log in H as [H | (_ & _ & H)];
        [by apply invoke_warn_quadrature in H | by apply invoke_try_call in H].
  - apply elem_of_bind_log in H as [H | (_ & _ & H)];
      [by apply invoke_print_time in H | by apply invoke_ret in H].
Qed.

Lemma moving_boundary_calls args typ_select_out (c : fortran_call) :
  Invoke c ∈ fst (moving_boundary_calc NumBAT args typ_select_out) →
  c = moving_boundary_call args typ_select_out.
Proof.
  unfold moving_boundary_calc, moving_boundary_call. intros H.
  apply elem_of_bind_log in H as [H | (_ & _ & H)];
    [by apply invoke_print in H |].
  apply elem_of_bind_log in H as [H | (Q_MB & _ & H)];
    [by apply invoke_try_call in H |].
  apply elem_of_bind_log in H as [H | (_ & _ & H)];
    [by apply invoke_print_time in H |].
  apply elem_of_bind_log in H as [H | (_ & _ & H)];
    [by apply invoke_print in H | by apply invoke_ret in H].
Qed.

(** Every Fortran call of a run is one of the three calls, made on the
    re-indexed fields, the relevant permittivities and the converted mode
    selections. *)
Lemma gain_and_qs_calls (sim_EM_pump sim_EM_Stokes sim_AC : Simmo) k_AC
    EM_ival_pump EM_ival_Stokes AC_ival fixed_Q typ_select_out c :
  Invoke c ∈ fst (gain_and_qs NumBAT sim_EM_pump sim_EM_Stokes sim_AC k_AC
                    EM_ival_pump EM_ival_Stokes AC_ival fixed_Q typ_select_out) →
  ∃ pump Stokes AC pump_field Stokes_field eps_effs,
    ival_fortran EM_ival_pump = Ok pump ∧
    ival_fortran EM_ival_Stokes = Ok Stokes ∧
    ival_fortran AC_ival = Ok AC ∧
    trimmed_EM_fields sim_EM_pump sim_EM_Stokes sim_AC
      = Ok (pump_field, Stokes_field) ∧
    relevant_eps_effs sim_EM_pump sim_AC = Ok eps_effs ∧
    let args := overlap_call_args sim_EM_pump sim_EM_Stokes sim_AC
                  pump Stokes AC pump_field Stokes_field eps_effs in
    (fixed_Q = None ∧ c = loss_call sim_EM_pump sim_AC k_AC) ∨
    c = photoelastic_call sim_EM_pump sim_AC k_AC args ∨
    c = moving_boundary_call args typ_select_out.
Proof.
  unfold gain_and_qs. intros H.
  apply elem_of_bind_log in H as [H | (pump & Hpump & H)];
    [by apply elem_of_lift_log in H |].
  apply elem_of_bind_log in H as [H | (Stokes & HStokes & H)];
    [by apply elem_of_lift_log in H |].
  apply elem_of_bind_log in H as [H | (AC & HAC & H)];
    [by apply elem_of_lift_log in H |].
  apply elem_of_bind_log in H as [H | ([pump_field Stokes_field] & Hfields & H)];
    [by apply elem_of_lift_log in H |].
  apply elem_of_bind_log in H as [H | (eps_effs & Heps & H)];
    [by apply elem_of_lift_log in H |].
  exists pump, Stokes, AC, pump_field, Stokes_field, eps_effs.
  do 5 (split; [done |]). simpl.
  apply elem_of_bind_log in H as [H | (_ & _ & H)];
    [by apply invoke_print in H |].
  apply elem_of_bind_log in H as [H | ([alpha Q_factors] & _ & H)];
    [left; by eapply acoustic_loss_calls |].
  apply elem_of_bind_log in H as [H | (Q_PE & _ & H)];
    [right; left; by eapply photoelastic_calls |].
  apply elem_of_bind_log in H as [H | (Q_MB & _ & H)];
    [right; right; by eapply moving_boundary_calls |].
  repeat (apply elem_of_bind_log in H as [H | (? & _ & H)];
          [by apply elem_of_lift_log in H |]).
  by apply invoke_ret in H.
Qed.
End CallFacts.

(** ** The values of [gain_and_qs] *)

Section ResultFacts.
Context {T : Type} {np : NumPy T} {Table Tensor : Type}.
Abbreviation Simmo := (Simmo T Table Tensor).
Abbreviation fortran_call := (fortran_call T Table Tensor).
Variable NumBAT : Fortran T Table Tensor.

Lemma snd_warn_then {A} (b : bool) routine (m : prog fortran_call A) :
  snd (_ ← (if b then warn_quadrature routine else mret tt); m) = snd m.
Proof. rewrite snd_bind. by destruct b. Qed.

Lemma snd_acoustic_loss_None (sim_EM_pump sim_AC : Simmo) k_AC :
  snd (acoustic_loss NumBAT sim_EM_pump sim_AC k_AC None) =
  (alpha ← local "alpha"
             (assigned (run_alpha NumBAT (loss_call sim_EM_pump sim_AC k_AC)));
   Q_factors ← broadcast1 mul
                 (map (mul half) (map (div k_AC) (map np_real alpha)))
                 (full1 (num_modes sim_AC) one);
   mret (map np_real alpha, Q_factors)).
Proof.
  unfold acoustic_loss, loss_call.
  destruct (linear_elements sim_EM_pump);
    [| destruct (curvilinear_unknown sim_EM_pump)];
    (destruct (run_alpha NumBAT _) as [alpha|]; simpl; [|done]);
    by destruct (broadcast1 _ _ _).
Qed.

Lemma snd_acoustic_loss_Some (sim_EM_pump sim_AC : Simmo) k_AC fixed_Q :
  snd (acoustic_loss NumBAT sim_EM_pump sim_AC k_AC (Some fixed_Q)) =
  Ok (map (mul (mul half (div k_AC fixed_Q))) (full1 (num_modes sim_AC) one),
      map (mul fixed_Q) (full1 (num_modes sim_AC) one)).
Proof. done. Qed.

Lemma snd_photoelastic (sim_EM_pump sim_AC : Simmo) k_AC args :
  snd (photoelastic NumBAT sim_EM_pump sim_AC k_AC args) =
  Ok (assigned (run_overlap NumBAT
                  (photoelastic_call sim_EM_pump sim_AC k_AC args))).
Proof.
  unfold photoelastic, photoelastic_call.
  destruct (linear_elements sim_EM_pump);
    [| destruct (curvilinear_unknown sim_EM_pump)];
    by destruct (run_overlap NumBAT _).
Qed.

Lemma snd_moving_boundary_calc args typ_select_out :
  snd (moving_boundary_calc NumBAT args typ_select_out) =
  Ok (assigned (run_overlap NumBAT
                  (moving_boundary_call args typ_select_out))).
Proof.
  unfold moving_boundary_calc, moving_boundary_call.
  by destruct (run_overlap NumBAT _).
Qed.

(** The value of a run, from the values of its steps. *)
Lemma snd_gain_and_qs (sim_EM_pump sim_EM_Stokes sim_AC : Simmo) k_AC
    EM_ival_pump EM_ival_Stokes AC_ival fixed_Q typ_select_out
    pump Stokes AC pump_field Stokes_field eps_effs alpha Q_factors
    Q_PE Q_MB Q gain gain_PE gain_MB fact SBS_gain SBS_gain_PE SBS_gain_MB :
  ival_fortran EM_ival_pump = Ok pump →
  ival_fortran EM_ival_Stokes = Ok Stokes →
  ival_fortran AC_ival = Ok AC →
  trimmed_EM_fields sim_EM_pump sim_EM_Stokes sim_AC
    = Ok (pump_field, Stokes_field) →
  relevant_eps_effs sim_EM_pump sim_AC = Ok eps_effs →
  snd (acoustic_loss NumBAT sim_EM_pump sim_AC k_AC fixed_Q)
    = Ok (alpha, Q_factors) →
  let args := overlap_call_args sim_EM_pump sim_EM_Stokes sim_AC
                pump Stokes AC pump_field Stokes_field eps_effs in
  run_overlap NumBAT (photoelastic_call sim_EM_pump sim_AC k_AC args)
    = Returned Q_PE →
  run_overlap NumBAT (moving_boundary_call args typ_select_out)
    = Returned Q_MB →
  broadcast3 add Q_PE Q_MB = Ok Q →
  gain_of sim_EM_pump sim_AC Q = Ok gain →
  gain_of sim_EM_pump sim_AC Q_PE = Ok gain_PE →
  gain_of sim_EM_pump sim_AC Q_MB = Ok gain_MB →
  normal_fact sim_EM_pump sim_EM_Stokes sim_AC alpha = Ok fact →
  normalised gain fact = Ok SBS_gain →
  normalised gain_PE fact = Ok SBS_gain_PE →
  normalised gain_MB fact = Ok SBS_gain_MB →
  snd (gain_and_qs NumBAT sim_EM_pump sim_EM_Stokes sim_AC k_AC
         EM_ival_pump EM_ival_Stokes AC_ival fixed_Q typ_select_out)
  = Ok (SBS_gain, SBS_gain_PE, SBS_gain_MB, alpha, Q_factors).
Proof.
  intros Hpump HStokes HAC Hfields Heps Hloss args HPE HMB HQ Hgain HgPE HgMB
    Hfact HS HSPE HSMB.
  unfold gain_and_qs.
  rewrite snd_bind; cbn [snd lift]; rewrite Hpump, bind_Ok; cbv beta.
  rewrite snd_bind; cbn [snd lift]; rewrite HStokes, bind_Ok; cbv beta.
  rewrite snd_bind; cbn [snd lift]; rewrite HAC, bind_Ok; cbv beta.
  rewrite snd_bind; cbn [snd lift]; rewrite Hfields, bind_Ok; cbv beta iota.
  rewrite snd_bind; cbn [snd lift]; rewrite Heps, bind_Ok; cbv beta.
  rewrite snd_bind; cbn [snd print]; rewrite bind_Ok; cbv beta.
  rewrite snd_bind, Hloss, bind_Ok; cbv beta iota.
  rewrite snd_bind, snd_photoelastic, bind_Ok; cbv beta.
  rewrite snd_bind, snd_moving_boundary_calc, bind_Ok; cbv beta.
  fold args. rewrite HPE, HMB. cbn [assigned].
  rewrite snd_bind; cbn [snd lift local]; rewrite bind_Ok; cbv beta.
  rewrite snd_bind; cbn [snd lift local]; rewrite bind_Ok; cbv beta.
  rewrite snd_bind; cbn [snd lift]; rewrite HQ, bind_Ok; cbv beta.
  rewrite snd_bind; cbn [snd lift]; rewrite Hgain, bind_Ok; cbv beta.
  rewrite snd_bind; cbn [snd lift]; rewrite HgPE, bind_Ok; cbv beta.
  rewrite snd_bind; cbn [snd lift]; rewrite HgMB, bind_Ok; cbv beta.
  rewrite snd_bind; cbn [snd lift]; rewrite Hfact, bind_Ok; cbv beta.
  rewrite snd_bind; cbn [snd lift]; rewrite HS, bind_Ok; cbv beta.
  rewrite snd_bind; cbn [snd lift]; rewrite HSPE, bind_Ok; cbv beta.
  rewrite snd_bind; cbn [snd lift]; rewrite HSMB, bind_Ok; cbv beta.
  done.
Qed.
End ResultFacts.

(** ** The material mask *)

Section MaskFacts.
Context {T : Type} {np : NumPy T} {Table Tensor : Type}.
Abbreviation Simmo := (Simmo T Table Tensor).

Lemma relevant_eps_effs_returns (sim_EM_pump sim_AC : Simmo) :
  nb_typ_el (structure sim_EM_pump) ≤ length (n_list sim_EM_pump) →
  returns (relevant_eps_effs sim_EM_pump sim_AC)
    (Forall2 (eps_of_type sim_EM_pump) (relevant_types sim_EM_pump sim_AC)).
Proof.
  intros Hcover. unfold relevant_eps_effs, relevant_types.
  apply (for_in_range_invariant (λ t eps_effs,
    Forall2 (eps_of_type sim_EM_pump)
      (filter (λ el_typ, (Z.of_nat el_typ + 1)%Z ∈ typ_el_AC sim_AC) (seq 0 t))
      eps_effs)).
  { simpl. constructor. }
  intros t eps_effs Ht Hinv.
  rewrite seq_S, filter_app. simpl. rewrite filter_cons, filter_nil.
  destruct (decide ((Z.of_nat t + 1)%Z ∈ typ_el_AC sim_AC)) as [Hin|Hout].
  - rewrite bool_decide_eq_true_2 by done.
    destruct (lookup_lt_is_Some_2 (n_list sim_EM_pump) t) as [n Hn]; [lia |].
    rewrite (getitem_Some _ _ _ Hn). eexists. split; [done |].
    apply Forall2_app; [done |]. repeat constructor. by exists n.
  - rewrite bool_decide_eq_false_2 by done. eexists. split; [done |].
    by rewrite app_nil_r.
Qed.
End MaskFacts.

(** ** The assembled gain *)

Section AssemblyFacts.
Context {T : Type} {np : NumPy T} {Table Tensor : Type}.
Abbreviation Simmo := (Simmo T Table Tensor).
Variable NumBAT : Fortran T Table Tensor.

Lemma gain_tensors (sim_EM_pump sim_EM_Stokes sim_AC : Simmo) k_AC
    EM_ival_pump EM_ival_Stokes AC_ival fixed_Q typ_select_out
    args alpha Q_factors Q_PE Q_MB :
  overlap_arguments sim_EM_pump sim_EM_Stokes sim_AC
    EM_ival_pump EM_ival_Stokes AC_ival = Ok args →
  snd (acoustic_loss NumBAT sim_EM_pump sim_AC k_AC fixed_Q)
    = Ok (alpha, Q_factors) →
  run_overlap NumBAT (photoelastic_call sim_EM_pump sim_AC k_AC args)
    = Returned Q_PE →
  run_overlap NumBAT (moving_boundary_call args typ_select_out)
    = Returned Q_MB →
  gain_shape sim_EM_pump sim_EM_Stokes sim_AC Q_PE →
  gain_shape sim_EM_pump sim_EM_Stokes sim_AC Q_MB →
  length (Omega_AC sim_AC) = num_modes sim_AC →
  powers_cover sim_EM_pump sim_EM_Stokes sim_AC alpha →
  ∃ SBS_gain SBS_gain_PE SBS_gain_MB,
    snd (gain_and_qs NumBAT sim_EM_pump sim_EM_Stokes sim_AC k_AC
           EM_ival_pump EM_ival_Stokes AC_ival fixed_Q typ_select_out)
      = Ok (SBS_gain, SBS_gain_PE, SBS_gain_MB, alpha, Q_factors) ∧
    gain_shape sim_EM_pump sim_EM_Stokes sim_AC SBS_gain ∧
    gain_shape sim_EM_pump sim_EM_Stokes sim_AC SBS_gain_PE ∧
    gain_shape sim_EM_pump sim_EM_Stokes sim_AC SBS_gain_MB ∧
    normalised_gains sim_EM_pump sim_EM_Stokes sim_AC alpha Q_PE Q_MB
      SBS_gain SBS_gain_PE SBS_gain_MB.
Proof.
  unfold overlap_arguments, gain_shape.
  intros Hargs Hloss HPE HMB HshPE HshMB HOmega Hpowers.
  destruct (ival_fortran EM_ival_pump) as [pump|] eqn:Hpump; [|done].
  destruct (ival_fortran EM_ival_Stokes) as [Stokes|] eqn:HStokes; [|done].
  destruct (ival_fortran AC_ival) as [AC|] eqn:HAC; [|done].
  destruct (trimmed_EM_fields _ _ _) as [[pump_field Stokes_field]|] eqn:Hfields;
    [|done].
  destruct (relevant_eps_effs _ _) as [eps_effs|] eqn:Heps; [|done].
  injection Hargs as <-.
  destruct (broadcast3_returns add _ _ _ _ _ HshPE HshMB) as (Q & HQ & HshQ & HQpt).
  destruct (gain_of_returns sim_EM_pump sim_AC _ _ Q HshQ HOmega)
    as (gain & Hgain & Hshg & Hg).
  destruct (gain_of_returns sim_EM_pump sim_AC _ _ Q_PE HshPE HOmega)
    as (gain_PE & HgainPE & HshgPE & HgPE).
  destruct (gain_of_returns sim_EM_pump sim_AC _ _ Q_MB HshMB HOmega)
    as (gain_MB & HgainMB & HshgMB & HgMB).
  destruct (normal_fact_returns _ _ _ _ Hpowers) as (fact & Hfact & Hshf & Hf).
  destruct (normalised_returns _ _ _ _ _ Hshg Hshf) as (SBS & HSBS & HshS & HS).
  destruct (normalised_returns _ _ _ _ _ HshgPE Hshf) as (SPE & HSPE & HshSPE & HSP).
  destruct (normalised_returns _ _ _ _ _ HshgMB Hshf) as (SMB & HSMB & HshSMB & HSM).
  exists SBS, SPE, SMB. split; [by eapply snd_gain_and_qs |].
  do 3 (split; [done |]).
  intros i j k q_PE q_MB P1 P2 P3 a Omega HqPE HqMB HP1 HP2 HP3 Ha HOm Q' fact'.
  destruct (shape3_lookup_lt _ _ _ _ _ _ _ _ HshPE HqPE) as (Hi & Hj & Hk).
  assert (lookup3 fact i j k = Some fact') as Hfact'
    by (eapply Hf; eauto).
  unfold gain_value. repeat split.
  - eapply HS; [|done]. eapply Hg; [|done]. by eapply HQpt.
  - eapply HSP; [|done]. by eapply HgPE.
  - eapply HSM; [|done]. by eapply HgMB.
Qed.
End AssemblyFacts.

(** ** Runs of [gain_and_qs], step by step *)

Section RunFacts.
Context {T : Type} {np : NumPy T} {Table Tensor : Type}.
Abbreviation Simmo := (Simmo T Table Tensor).
Abbreviation fortran_call := (fortran_call T Table Tensor).
Variable NumBAT : Fortran T Table Tensor.

Lemma fst_lift_bind {A B} (r : result A) (f : A → prog fortran_call B) :
  fst (lift r ≫= f) = match r with Ok a => fst (f a) | Raise _ => [] end.
Proof. rewrite fst_bind. by destruct r. Qed.

Lemma overlap_arguments_Ok (sim_EM_pump sim_EM_Stokes sim_AC : Simmo)
    EM_ival_pump EM_ival_Stokes AC_ival args :
  overlap_arguments sim_EM_pump sim_EM_Stokes sim_AC
    EM_ival_pump EM_ival_Stokes AC_ival = Ok args →
  ∃ pump Stokes AC pump_field Stokes_field eps_effs,
    ival_fortran EM_ival_pump = Ok pump ∧
    ival_fortran EM_ival_Stokes = Ok Stokes ∧
    ival_fortran AC_ival = Ok AC ∧
    trimmed_EM_fields sim_EM_pump sim_EM_Stokes sim_AC
      = Ok (pump_field, Stokes_field) ∧
    relevant_eps_effs sim_EM_pump sim_AC = Ok eps_effs ∧
    args = overlap_call_args sim_EM_pump sim_EM_Stokes sim_AC
             pump Stokes AC pump_field Stokes_field eps_effs.
Proof.
  unfold overlap_arguments. intros Hargs.
  destruct (ival_fortran EM_ival_pump) as [pump|]; [|done].
  destruct (ival_fortran EM_ival_Stokes) as [Stokes|]; [|done].
  destruct (ival_fortran AC_ival) as [AC|]; [|done].
  destruct (trimmed_EM_fields _ _ _) as [[pump_field Stokes_field]|]; [|done].
  destruct (relevant_eps_effs _ _) as [eps_effs|]; [|done].
  injection Hargs as <-. by exists pump, Stokes, AC, pump_field, Stokes_field, eps_effs.
Qed.

(** The log of a run whose arguments are in order: the three integrals in
    turn, the later ones only when the loss step has a value. *)
Lemma fst_gain_and_qs (sim_EM_pump sim_EM_Stokes sim_AC : Simmo) k_AC
    EM_ival_pump EM_ival_Stokes AC_ival fixed_Q typ_select_out args :
  overlap_arguments sim_EM_pump sim_EM_Stokes sim_AC
    EM_ival_pump EM_ival_Stokes AC_ival = Ok args →
  fst (gain_and_qs NumBAT sim_EM_pump sim_EM_Stokes sim_AC k_AC
         EM_ival_pump EM_ival_Stokes AC_ival fixed_Q typ_select_out) =
  Print " -----------------------------------------------" ::
  fst (acoustic_loss NumBAT sim_EM_pump sim_AC k_AC fixed_Q) ++
  match snd (acoustic_loss NumBAT sim_EM_pump sim_AC k_AC fixed_Q) with
  | Ok _ => fst (photoelastic NumBAT sim_EM_pump sim_AC k_AC args) ++
            fst (moving_boundary_calc NumBAT args typ_select_out)
  | Raise _ => []
  end.
Proof.
  intros Hargs.
  apply overlap_arguments_Ok in Hargs
    as (pump & Stokes & AC & pf & sf & eps & Hp & Hs & Ha & Hf & He & ->).
  unfold gain_and_qs.
  rewrite fst_lift_bind, Hp, fst_lift_bind, Hs, fst_lift_bind, Ha.
  rewrite fst_lift_bind, Hf, fst_lift_bind, He.
  rewrite fst_bind. cbn [fst snd print app]. f_equal.
  rewrite fst_bind. f_equal.
  destruct (snd (acoustic_loss _ _ _ _ _)) as [[alpha Q_factors]|]; [|done].
  rewrite fst_bind, snd_photoelastic. f_equal.
  rewrite fst_bind, snd_moving_boundary_calc.
  rewrite <- (app_nil_r (fst (moving_boundary_calc _ _ _))) at 2. f_equal.
  rewrite fst_lift_bind. destruct (local "Q_PE" _); [|done].
  rewrite fst_lift_bind. destruct (local "Q_MB" _); [|done].
  rewrite fst_lift_bind. destruct (broadcast3 _ _ _); [|done].
  rewrite fst_lift_bind. destruct (gain_of _ _ _); [|done].
  rewrite fst_lift_bind. destruct (gain_of _ _ _); [|done].
  rewrite fst_lift_bind. destruct (gain_of _ _ _); [|done].
  rewrite fst_lift_bind. destruct (normal_fact _ _ _ _); [|done].
  rewrite fst_lift_bind. destruct (normalised _ _); [|done].
  rewrite fst_lift_bind. destruct (normalised _ _); [|done].
  rewrite fst_lift_bind. by destruct (normalised _ _).
Qed.

(** The value of a run: the arguments, the loss, the two overlaps, and
    the tensors computed from them. *)
Lemma snd_gain_and_qs_steps (sim_EM_pump sim_EM_Stokes sim_AC : Simmo) k_AC
    EM_ival_pump EM_ival_Stokes AC_ival fixed_Q typ_select_out :
  ∃ rest,
    snd (gain_and_qs NumBAT sim_EM_pump sim_EM_Stokes sim_AC k_AC
           EM_ival_pump EM_ival_Stokes AC_ival fixed_Q typ_select_out) =
    (args ← overlap_arguments sim_EM_pump sim_EM_Stokes sim_AC
              EM_ival_pump EM_ival_Stokes AC_ival;
     '(alpha, Q_factors) ←
       snd (acoustic_loss NumBAT sim_EM_pump sim_AC k_AC fixed_Q);
     Q_PE ← local "Q_PE"
              (assigned (run_overlap NumBAT
                 (photoelastic_call sim_EM_pump sim_AC k_AC args)));
     Q_MB ← local "Q_MB"
              (assigned (run_overlap NumBAT
                 (moving_boundary_call args typ_select_out)));
     tensors ← rest alpha Q_PE Q_MB;
     mret (tensors, alpha, Q_factors)).
Proof.
  exists (λ alpha Q_PE Q_MB,
    Q ← broadcast3 add Q_PE Q_MB;
    gain ← gain_of sim_EM_pump sim_AC Q;
    gain_PE ← gain_of sim_EM_pump sim_AC Q_PE;
    gain_MB ← gain_of sim_EM_pump sim_AC Q_MB;
    fact ← normal_fact sim_EM_pump sim_EM_Stokes sim_AC alpha;
    SBS_gain ← normalised gain fact;
    SBS_gain_PE ← normalised gain_PE fact;
    SBS_gain_MB ← normalised gain_MB fact;
    mret (SBS_gain, SBS_gain_PE, SBS_gain_MB)).
  unfold gain_and_qs, overlap_arguments.
  rewrite snd_bind; cbn [snd lift].
  destruct (ival_fortran EM_ival_pump) as [pump|]; [|done].
  rewrite !bind_Ok; cbv beta. rewrite snd_bind; cbn [snd lift].
  destruct (ival_fortran EM_ival_Stokes) as [Stokes|]; [|done].
  rewrite !bind_Ok; cbv beta. rewrite snd_bind; cbn [snd lift].
  destruct (ival_fortran AC_ival) as [AC|]; [|done].
  rewrite !bind_Ok; cbv beta. rewrite snd_bind; cbn [snd lift].
  destruct (trimmed_EM_fields _ _ _) as [[pf sf]|]; [|done].
  rewrite !bind_Ok; cbv beta iota. rewrite snd_bind; cbn [snd lift].
  destruct (relevant_eps_effs _ _) as [eps|]; [|done].
  rewrite !bind_Ok; cbv beta.
  rewrite snd_bind; cbn [snd print]; rewrite bind_Ok; cbv beta.
  rewrite snd_bind.
  destruct (snd (acoustic_loss _ _ _ _ _)) as [[alpha Q_factors]|]; [|done].
  rewrite !bind_Ok; cbv beta iota.
  rewrite snd_bind, snd_photoelastic, bind_Ok; cbv beta.
  rewrite snd_bind, snd_moving_boundary_calc, bind_Ok; cbv beta.
  rewrite snd_bind; cbn [snd lift].
  destruct (local "Q_PE" _) as [Q_PE|]; [|done]. rewrite !bind_Ok; cbv beta.
  rewrite snd_bind; cbn [snd lift].
  destruct (local "Q_MB" _) as [Q_MB|]; [|done]. rewrite !bind_Ok; cbv beta.
  rewrite snd_bind; cbn [snd lift].
  destruct (broadcast3 _ _ _) as [Q|]; [|done]. rewrite !bind_Ok; cbv beta.
  rewrite snd_bind; cbn [snd lift].
  destruct (gain_of _ _ Q) as [gain|]; [|done]. rewrite !bind_Ok; cbv beta.
  rewrite snd_bind; cbn [snd lift].
  destruct (gain_of _ _ Q_PE) as [gain_PE|]; [|done]. rewrite !bind_Ok; cbv beta.
  rewrite snd_bind; cbn [snd lift].
  destruct (gain_of _ _ Q_MB) as [gain_MB|]; [|done]. rewrite !bind_Ok; cbv beta.
  rewrite snd_bind; cbn [snd lift].
  destruct (normal_fact _ _ _ _) as [fact|]; [|done]. rewrite !bind_Ok; cbv beta.
  rewrite snd_bind; cbn [snd lift].
  destruct (normalised gain fact) as [S1|]; [|done]. rewrite !bind_Ok; cbv beta.
  rewrite snd_bind; cbn [snd lift].
  destruct (normalised gain_PE fact) as [S2|]; [|done]. rewrite !bind_Ok; cbv beta.
  rewrite snd_bind; cbn [snd lift].
  by destruct (normalised gain_MB fact) as [S3|].
Qed.

(** The loss and the quality factors a run returns are those of its loss
    step. *)
Lemma snd_gain_and_qs_loss (sim_EM_pump sim_EM_Stokes sim_AC : Simmo) k_AC
    EM_ival_pump EM_ival_Stokes AC_ival fixed_Q typ_select_out
    SBS_gain SBS_gain_PE SBS_gain_MB alpha Q_factors :
  snd (gain_and_qs NumBAT sim_EM_pump sim_EM_Stokes sim_AC k_AC
         EM_ival_pump EM_ival_Stokes AC_ival fixed_Q typ_select_out)
    = Ok (SBS_gain, SBS_gain_PE, SBS_gain_MB, alpha, Q_factors) →
  snd (acoustic_loss NumBAT sim_EM_pump sim_AC k_AC fixed_Q)
    = Ok (alpha, Q_factors).
Proof.
  destruct (snd_gain_and_qs_steps sim_EM_pump sim_EM_Stokes sim_AC k_AC
              EM_ival_pump EM_ival_Stokes AC_ival fixed_Q typ_select_out)
    as [rest ->].
  destruct (overlap_arguments _ _ _ _ _ _) as [args|]; [|done].
  rewrite bind_Ok.
  destruct (snd (acoustic_loss _ _ _ _ _)) as [[alpha' Qf']|]; [|done].
  rewrite bind_Ok.
  destruct (local "Q_PE" _) as [Q_PE|]; [|done]. rewrite bind_Ok.
  destruct (local "Q_MB" _) as [Q_MB|]; [|done]. rewrite bind_Ok.
  destruct (rest _ _ _) as [tensors|]; [|done]. rewrite bind_Ok.
  by intros [= _ -> ->].
Qed.

(** A run in which an overlap is left unbound, after a loss step with a
    value, fails on reading it. *)
Lemma snd_gain_and_qs_unbound (sim_EM_pump sim_EM_Stokes sim_AC : Simmo) k_AC
    EM_ival_pump EM_ival_Stokes AC_ival fixed_Q typ_select_out args loss e :
  overlap_arguments sim_EM_pump sim_EM_Stokes sim_AC
    EM_ival_pump EM_ival_Stokes AC_ival = Ok args →
  snd (acoustic_loss NumBAT sim_EM_pump sim_AC k_AC fixed_Q) = Ok loss →
  (Q_PE ← local "Q_PE"
            (assigned (run_overlap NumBAT
               (photoelastic_call sim_EM_pump sim_AC k_AC args)));
   local "Q_MB"
     (assigned (run_overlap NumBAT
        (moving_boundary_call args typ_select_out)))) = Raise e →
  snd (gain_and_qs NumBAT sim_EM_pump sim_EM_Stokes sim_AC k_AC
         EM_ival_pump EM_ival_Stokes AC_ival fixed_Q typ_select_out)
    = Raise e.
Proof.
  intros Hargs Hloss Hunbound.
  destruct (snd_gain_and_qs_steps sim_EM_pump sim_EM_Stokes sim_AC k_AC
              EM_ival_pump EM_ival_Stokes AC_ival fixed_Q typ_select_out)
    as [rest ->].
  rewrite Hargs, bind_Ok, Hloss, bind_Ok. destruct loss as [alpha Qf].
  destruct (local "Q_PE" _) as [Q_PE|]; [| by injection Hunbound as ->].
  rewrite bind_Ok in *.
  destruct (local "Q_MB" _) as [Q_MB|]; [done | by injection Hunbound as ->].
Qed.

Lemma snd_gain_and_qs_no_loss (sim_EM_pump sim_EM_Stokes sim_AC : Simmo) k_AC
    EM_ival_pump EM_ival_Stokes AC_ival fixed_Q typ_select_out args e :
  overlap_arguments sim_EM_pump sim_EM_Stokes sim_AC
    EM_ival_pump EM_ival_Stokes AC_ival = Ok args →
  snd (acoustic_loss NumBAT sim_EM_pump sim_AC k_AC fixed_Q) = Raise e →
  snd (gain_and_qs NumBAT sim_EM_pump sim_EM_Stokes sim_AC k_AC
         EM_ival_pump EM_ival_Stokes AC_ival fixed_Q typ_select_out)
    = Raise e.
Proof.
  intros Hargs Hloss.
  destruct (snd_gain_and_qs_steps sim_EM_pump sim_EM_Stokes sim_AC k_AC
              EM_ival_pump EM_ival_Stokes AC_ival fixed_Q typ_select_out)
    as [rest ->].
  by rewrite Hargs, bind_Ok, Hloss.
Qed.
End RunFacts.

(** ** Interrupted calls *)

Section InterruptFacts.
Context {T : Type} {np : NumPy T} {Table Tensor : Type}.
Abbreviation Simmo := (Simmo T Table Tensor).
Abbreviation fortran_call := (fortran_call T Table Tensor).
Variable NumBAT : Fortran T Table Tensor.

Lemma fst_acoustic_loss_interrupted (sim_EM_pump sim_AC : Simmo) k_AC :
  run_alpha NumBAT (loss_call sim_EM_pump sim_AC k_AC) = KeyboardInterrupt →
  ∃ before,
    fst (acoustic_loss NumBAT sim_EM_pump sim_AC k_AC None) =
    before ++ [Invoke (loss_call sim_EM_pump sim_AC k_AC);
               Print (interrupted "ac_alpha_int")].
Proof.
  unfold acoustic_loss, loss_call.
  destruct (linear_elements sim_EM_pump);
    [| destruct (curvilinear_unknown sim_EM_pump)];
    intros ->; simpl.
  - by eexists [_].
  - by eexists [_; _].
  - by eexists [_].
Qed.

Lemma fst_photoelastic_interrupted (sim_EM_pump sim_AC : Simmo) k_AC args :
  run_overlap NumBAT (photoelastic_call sim_EM_pump sim_AC k_AC args)
    = KeyboardInterrupt →
  ∃ before,
    fst (photoelastic NumBAT sim_EM_pump sim_AC k_AC args) =
    before ++ [Invoke (photoelastic_call sim_EM_pump sim_AC k_AC args);
               Print (interrupted "photoelastic_int")] ++ [PrintTime].
Proof.
  unfold photoelastic, photoelastic_call.
  destruct (linear_elements sim_EM_pump);
    [| destruct (curvilinear_unknown sim_EM_pump)];
    intros ->; simpl.
  - by eexists [_].
  - by eexists [_; _].
  - by eexists [_].
Qed.

Lemma fst_moving_boundary_calc args typ_select_out :
  fst (moving_boundary_calc NumBAT args typ_select_out) =
  [Print "Moving boundary calc";
   Invoke (moving_boundary_call args typ_select_out)] ++
  match run_overlap NumBAT (moving_boundary_call args typ_select_out) with
  | Returned _ => []
  | KeyboardInterrupt => [Print (interrupted "moving_boundary")]
  end ++
  [PrintTime; Print "-----------------------------------------------"].
Proof.
  unfold moving_boundary_calc, moving_boundary_call.
  by destruct (run_overlap NumBAT _).
Qed.

Lemma photoelastic_called (sim_EM_pump sim_AC : Simmo) k_AC args :
  Invoke (photoelastic_call sim_EM_pump sim_AC k_AC args)
    ∈ fst (photoelastic NumBAT sim_EM_pump sim_AC k_AC args).
Proof.
  unfold photoelastic, photoelastic_call.
  destruct (linear_elements sim_EM_pump);
    [| destruct (curvilinear_unknown sim_EM_pump)];
    destruct (run_overlap NumBAT _); simpl; rewrite !elem_of_cons; auto.
Qed.

Lemma moving_boundary_called args typ_select_out :
  Invoke (moving_boundary_call args typ_select_out)
    ∈ fst (moving_boundary_calc NumBAT args typ_select_out).
Proof. rewrite fst_moving_boundary_calc. simpl. rewrite !elem_of_cons. auto. Qed.

(** A run whose arguments are in order and whose loss step has a value
    makes the two overlap calls. *)
Lemma overlap_calls_made (sim_EM_pump sim_EM_Stokes sim_AC : Simmo) k_AC
    EM_ival_pump EM_ival_Stokes AC_ival fixed_Q typ_select_out args loss :
  overlap_arguments sim_EM_pump sim_EM_Stokes sim_AC
    EM_ival_pump EM_ival_Stokes AC_ival = Ok args →
  snd (acoustic_loss NumBAT sim_EM_pump sim_AC k_AC fixed_Q) = Ok loss →
  let run := gain_and_qs NumBAT sim_EM_pump sim_EM_Stokes sim_AC k_AC
               EM_ival_pump EM_ival_Stokes AC_ival fixed_Q typ_select_out in
  Invoke (photoelastic_call sim_EM_pump sim_AC k_AC args) ∈ fst run ∧
  Invoke (moving_boundary_call args typ_select_out) ∈ fst run.
Proof.
  intros Hargs Hloss run. unfold run.
  rewrite (fst_gain_and_qs NumBAT _ _ _ _ _ _ _ _ _ args), Hloss by done.
  rewrite !elem_of_cons, !elem_of_app.
  split; right; right; [left | right];
    [apply photoelastic_called | apply moving_boundary_called].
Qed.

Lemma ival_fortran_form ival v : ival_fortran ival = Ok v → fortran_form ival v.
Proof.
  destruct ival as [s|z]; simpl.
  - destruct (String.eqb_spec s "All") as [->|]; [|done].
    intros [= <-]. by left.
  - intros [= <-]. right. by exists z.
Qed.

Lemma fortran_form_sentinel ival v :
  fortran_form ival v → mode_selection ival →
  v = (-1)%Z ↔ ival = PyStr "All".
Proof.
  intros [[-> ->] | (z & -> & ->)] Hsel; [done |].
  destruct Hsel as [|(z' & [= <-] & Hz)]; [done |].
  split; [lia | done].
Qed.
End InterruptFacts.

Section ReindexFacts.
Context {T : Type} {np : NumPy T} {Table Tensor : Type}.
Abbreviation Simmo := (Simmo T Table Tensor).

Lemma complex_valued_Forall (a : array4 T) :
  Forall (Forall (Forall (Forall (λ v, complex128 v = v)))) a →
  complex_valued a.
Proof.
  intros Ha x n i e v. unfold lookup4, lookup3, lookup2.
  destruct (a !! x) as [b|] eqn:Hb; simpl; [|done].
  destruct (b !! n) as [c|] eqn:Hc; simpl; [|done].
  destruct (c !! i) as [r|] eqn:Hr; simpl; [|done].
  intros Hv.
  pose proof (Forall_lookup_1 _ _ _ _ Ha Hb) as H1.
  pose proof (Forall_lookup_1 _ _ _ _ H1 Hc) as H2.
  pose proof (Forall_lookup_1 _ _ _ _ H2 Hr) as H3.
  exact (Forall_lookup_1 _ _ _ _ H3 Hv).
Qed.

Lemma filled_reindexed (sim_EM sim_AC : Simmo) field :
  valid_element_map sim_EM sim_AC →
  well_shaped_field sim_EM →
  complex_valued (sol1 sim_EM) →
  filled sim_EM sim_AC (λ _ _ _ _, True) field →
  reindexed sim_EM sim_AC field.
Proof.
  intros Hmap Hsrc Hcomplex [Hshape Hfield].
  assert (∀ x n ival el new_el,
    x < ncomps → n < nnodes → ival < num_modes sim_EM →
    el < n_msh_el sim_AC → el_convert_tbl sim_AC !! el = Some new_el →
    ∃ v, lookup4 field x n ival el = Some v ∧
         lookup4 (sol1 sim_EM) x n ival new_el = Some v) as Hentries.
  { intros x n ival el new_el Hx Hn Hival Hel Htbl.
    destruct (Hmap el Hel) as (new_el' & Htbl' & Hnew).
    assert (new_el' = new_el) as -> by congruence.
    destruct (shape4_lookup _ _ _ _ _ x n ival new_el Hsrc) as [v Hv]; [done..|].
    exists v. split; [|done].
    rewrite (Hfield x n ival el new_el) by done.
    rewrite Hv. simpl. f_equal. by eapply Hcomplex. }
  split; [done |]. split; [|done].
  intros x n ival el v Hv.
  destruct (shape4_lookup_lt _ _ _ _ _ _ _ _ _ _ Hshape Hv) as (Hx & Hn & Hi & He).
  destruct (Hmap el He) as (new_el & Htbl & Hnew).
  destruct (Hentries x n ival el new_el) as (w & Hw & Hsrcw); [done..|].
  assert (w = v) as -> by congruence. by eapply Hcomplex.
Qed.
End ReindexFacts.

(** ** The loss and the quality factors *)

Section LossFacts.
Context {T : Type} {np : NumPy T} {Table Tensor : Type}.
Abbreviation Simmo := (Simmo T Table Tensor).
Variable NumBAT : Fortran T Table Tensor.

Lemma map_full1 (f : T → T) d (v : T) : map f (full1 d v) = replicate d (f v).
Proof. unfold full1. induction d as [|d IH]; simpl; [done | by rewrite IH]. Qed.

Lemma acoustic_loss_computed (sim_EM_pump sim_AC : Simmo) k_AC integral :
  run_alpha NumBAT (loss_call sim_EM_pump sim_AC k_AC) = Returned integral →
  length integral = num_modes sim_AC →
  ∃ Q_factors,
    snd (acoustic_loss NumBAT sim_EM_pump sim_AC k_AC None)
      = Ok (map np_real integral, Q_factors) ∧
    length Q_factors = num_modes sim_AC ∧
    ∀ k a, map np_real integral !! k = Some a →
           Q_factors !! k = Some (mul (mul half (div k_AC a)) one).
Proof.
  intros Hrun Hlen. rewrite snd_acoustic_loss_None, Hrun. cbn [assigned local].
  rewrite bind_Ok.
  destruct (broadcast1_returns mul (num_modes sim_AC)
              (map (mul half) (map (div k_AC) (map np_real integral)))
              (full1 (num_modes sim_AC) one))
    as (Qf & -> & HQf & Hpt).
  { unfold shape1. by rewrite !length_map. }
  { unfold shape1, full1. apply length_replicate. }
  exists Qf. split; [done |]. split; [done |].
  intros k a Ha. apply Hpt.
  - do 2 rewrite list_lookup_fmap. by rewrite Ha.
  - unfold full1. apply lookup_replicate_2.
    apply lookup_lt_Some in Ha. rewrite length_map in Ha. lia.
Qed.
End LossFacts.

(** ** The order of [np.sum] *)

Lemma foldl_pointwise {A B} (f g : A → B → A) (l : list B) :
  (∀ a b, f a b = g a b) → ∀ a, foldl f a l = foldl g a l.
Proof.
  intros Hfg. induction l as [|b l IH]; intros a; [done |].
  simpl. by rewrite Hfg, IH.
Qed.

Lemma foldl_seq_shift {A} (f : A → nat → A) (n start : nat) :
  ∀ a, foldl f a (seq (S start) n) = foldl (λ a j, f a (S j)) a (seq start n).
Proof.
  revert start. induction n as [|n IH]; intros start a; [done |].
  simpl. by rewrite IH.
Qed.

Section SummationFacts.
Context {T : Type} {np : NumPy T}.

Lemma summand_after_a_block (x0 x1 x2 x3 x4 x5 x6 x7 : T) (a : list T) j k :
  summand (x0 :: x1 :: x2 :: x3 :: x4 :: x5 :: x6 :: x7 :: a) (8 * S j + k)
  = summand a (8 * j + k).
Proof.
  replace (8 * S j + k) with (S (S (S (S (S (S (S (S (8 * j + k)))))))))
    by lia.
  done.
Qed.

Lemma short_of_a_block (a : list T) :
  length a < 8 →
  block_sum a = foldl add zero a ∧
  ∀ r0 r1 r2 r3 r4 r5 r6 r7,
    unrolled r0 r1 r2 r3 r4 r5 r6 r7 a
    = foldl add (add (add (add r0 r1) (add r2 r3))
                     (add (add r4 r5) (add r6 r7))) a.
Proof.
  intros Hlen.
  do 8 (destruct a as [|? a]; [done |]). simpl in Hlen. lia.
Qed.

(** The unrolled loop keeps the 8 partial sums of the whole blocks. *)
Lemma unrolled_lanes (b : nat) :
  ∀ (a : list T) (r : nat → T),
    length a / 8 = b →
    unrolled (r 0) (r 1) (r 2) (r 3) (r 4) (r 5) (r 6) (r 7) a
    = let R k := foldl (λ acc j, add acc (summand a (8 * j + k))) (r k)
                       (seq 0 b) in
      foldl add (add (add (add (R 0) (R 1)) (add (R 2) (R 3)))
                     (add (add (R 4) (R 5)) (add (R 6) (R 7))))
            (drop (8 * b) a).
Proof.
  induction b as [|b IH]; intros a r Hb.
  - apply Nat.div_small_iff in Hb; [| done].
    rewrite (proj2 (short_of_a_block a Hb)). done.
  - destruct (decide (length a < 8)) as [Hshort|Hlong].
    { rewrite Nat.div_small in Hb by done. done. }
    destruct a as [|x0 [|x1 [|x2 [|x3 [|x4 [|x5 [|x6 [|x7 a]]]]]]]];
      try (simpl in Hlong; lia).
    assert (length a / 8 = b) as Hb'.
    { change (length (x0 :: x1 :: x2 :: x3 :: x4 :: x5 :: x6 :: x7 :: a))
        with (8 + length a) in Hb.
      replace (8 + length a) with (1 * 8 + length a) in Hb by lia.
      rewrite Nat.div_add_l in Hb by done. lia. }
    cbn [unrolled].
    rewrite (IH a (λ k, add (r k)
                          (summand (x0 :: x1 :: x2 :: x3 :: x4 :: x5 :: x6
                                       :: x7 :: a) k)) Hb').
    cbv zeta.
    replace (8 * S b) with (S (S (S (S (S (S (S (S (8 * b)))))))))
      by lia.
    cbn [drop seq foldl].
    rewrite !foldl_seq_shift.
    rewrite !Nat.mul_0_r.
    do 2 f_equal; f_equal; f_equal;
      apply foldl_pointwise; intros acc j;
      by rewrite summand_after_a_block.
Qed.

Lemma partial_sum_after_a_block (x0 x1 x2 x3 x4 x5 x6 x7 : T) (a : list T) k :
  let a8 := x0 :: x1 :: x2 :: x3 :: x4 :: x5 :: x6 :: x7 :: a in
  partial_sum a8 k
  = foldl (λ acc j, add acc (summand a (8 * j + k))) (summand a8 k)
          (seq 0 (length a / 8)).
Proof.
  intros a8. unfold partial_sum.
  change (length a8) with (8 + length a).
  replace (8 + length a) with (1 * 8 + length a) by lia.
  rewrite Nat.div_add_l by done.
  replace (1 + length a / 8 - 1) with (length a / 8) by lia.
  rewrite foldl_seq_shift. apply foldl_pointwise. intros acc j.
  unfold a8. by rewrite summand_after_a_block.
Qed.

Lemma block_sum_total (a : list T) : block_sum a = block_total a.
Proof.
  unfold block_total. destruct (decide (length a < 8)) as [Hshort|Hlong].
  { apply (short_of_a_block a Hshort). }
  destruct a as [|x0 [|x1 [|x2 [|x3 [|x4 [|x5 [|x6 [|x7 a]]]]]]]];
    try (simpl in Hlong; lia).
  cbv zeta. rewrite !partial_sum_after_a_block.
  change (length (x0 :: x1 :: x2 :: x3 :: x4 :: x5 :: x6 :: x7 :: a))
    with (8 + length a).
  replace (8 + length a) with (1 * 8 + length a) by lia.
  rewrite Nat.div_add_l by done.
  replace (8 * (1 + length a / 8))
    with (S (S (S (S (S (S (S (S (8 * (length a / 8))))))))))
    by lia.
  cbn [drop block_sum].
  exact (unrolled_lanes (length a / 8) a
           (summand (x0 :: x1 :: x2 :: x3 :: x4 :: x5 :: x6 :: x7 :: a))
           eq_refl).
Qed.

Lemma pairwise_sum_total (depth : nat) :
  ∀ a : list T, pairwise_sum depth a = halved_total depth a.
Proof.
  induction depth as [|depth IH]; intros a; cbn [pairwise_sum halved_total].
  - rewrite block_sum_total. by destruct (decide _).
  - unfold PW_BLOCKSIZE.
    destruct (decide (length a ≤ 128)); [apply block_sum_total |].
    by rewrite !IH.
Qed.

(** [np.add.reduce] adds in the order of [total]. *)
Lemma np_add_reduce_total (a : list T) : np_add_reduce a = total a.
Proof. unfold np_add_reduce, total. by rewrite pairwise_sum_total. Qed.
End SummationFacts.

(** ** The symmetry scores *)

Lemma forallb_fmap {A B} (p : B → bool) (f : A → B) (l : list A) :
  forallb p (map f l) = forallb (λ x, p (f x)) l.
Proof. induction l as [|x l IH]; [done |]. simpl. by rewrite IH. Qed.

Section GridFacts.
Context {A B : Type}.

Lemma shape2_fmap (f : A → B) d0 d1 (a : array2 A) :
  shape2 d0 d1 (map (map f) a) ↔ shape2 d0 d1 a.
Proof.
  unfold shape2, shape1. rewrite length_map, Forall_fmap. split.
  - intros [Hlen Hrows]. split; [done |].
    eapply Forall_impl; [exact Hrows |]. intros r. simpl.
    by rewrite length_map.
  - intros [Hlen Hrows]. split; [done |].
    eapply Forall_impl; [exact Hrows |]. intros r. simpl.
    by rewrite length_map.
Qed.

Lemma lookup2_fmap (f : A → B) (a : array2 A) i j :
  lookup2 (map (map f) a) i j = f <$> lookup2 a i j.
Proof.
  unfold lookup2. rewrite list_lookup_fmap.
  destruct (a !! i) as [r|]; simpl; [| done]. apply list_lookup_fmap.
Qed.

(** The table of [h] on the grid, rows in turn. *)
Lemma array2_tabulate nx ny (a : array2 A) (h : nat → nat → A) :
  tabulated nx ny (λ _ _, True) h a →
  a = map (λ ix, map (h ix) (seq 0 ny)) (seq 0 nx).
Proof.
  intros [[Hlen Hrows] Ha]. apply list_eq. intros ix.
  rewrite list_lookup_fmap.
  destruct (decide (ix < nx)) as [Hx|Hx].
  - rewrite lookup_seq_lt by done. simpl.
    destruct (lookup_lt_is_Some_2 a ix) as [r Hr]; [lia |]. rewrite Hr.
    f_equal. apply list_eq. intros iy. rewrite list_lookup_fmap.
    pose proof (Forall_lookup_1 _ _ _ _ Hrows Hr) as Hrlen. unfold shape1 in Hrlen.
    destruct (decide (iy < ny)) as [Hy|Hy].
    + rewrite lookup_seq_lt by done. simpl.
      specialize (Ha ix iy I Hx Hy). unfold lookup2 in Ha.
      by rewrite Hr in Ha.
    + rewrite lookup_ge_None_2 by lia.
      by rewrite (lookup_ge_None_2 (seq 0 ny)) by (rewrite length_seq; lia).
  - rewrite lookup_ge_None_2 by lia.
    by rewrite (lookup_ge_None_2 (seq 0 nx)) by (rewrite length_seq; lia).
Qed.

Lemma array2_ext nx ny (a b : array2 A) :
  shape2 nx ny a → shape2 nx ny b →
  (∀ ix iy v, ix < nx → iy < ny → lookup2 a ix iy = Some v →
              lookup2 b ix iy = Some v) →
  a = b.
Proof.
  intros Ha Hb Hab.
  destruct nx as [|nx'].
  { destruct Ha as [Ha _], Hb as [Hb _].
    destruct a, b; done. }
  destruct ny as [|ny'].
  { destruct Ha as [Ha Hra], Hb as [Hb Hrb]. apply list_eq_same_length with (S nx');
      [done | done |].
    intros i x y _ Hx Hy.
    pose proof (Forall_lookup_1 _ _ _ _ Hra Hx) as Hx'.
    pose proof (Forall_lookup_1 _ _ _ _ Hrb Hy) as Hy'.
    unfold shape1 in *. destruct x, y; done. }
  destruct (shape2_lookup _ _ _ 0 0 Ha ltac:(lia) ltac:(lia)) as [v0 _].
  rewrite (array2_tabulate (S nx') (S ny') a
             (λ ix iy, default v0 (lookup2 a ix iy))).
  2: { split; [done |]. intros ix iy _ Hx Hy.
       by destruct (shape2_lookup _ _ _ ix iy Ha Hx Hy) as [v ->]. }
  rewrite (array2_tabulate (S nx') (S ny') b
             (λ ix iy, default v0 (lookup2 a ix iy))); [done |].
  split; [done |]. intros ix iy _ Hx Hy.
  destruct (shape2_lookup _ _ _ ix iy Ha Hx Hy) as [v Hv].
  rewrite Hv. simpl. by apply Hab.
Qed.

Lemma tabulate_concat_map (g : A → B) (h : nat → nat → A) (xs ys : list nat) :
  map g (concat (map (λ ix, map (h ix) ys) xs))
  = concat (map (λ ix, map (λ iy, g (h ix iy)) ys) xs).
Proof.
  induction xs as [|ix xs IH]; [done |].
  rewrite !map_cons, !concat_cons, map_app, IH, map_map. done.
Qed.

Lemma forallb_pointwise (p q : A → bool) (l : list A) :
  (∀ x, p x = q x) → forallb p l = forallb q l.
Proof.
  intros Hpq. induction l as [|x l IH]; [done |]. simpl. by rewrite Hpq, IH.
Qed.

Lemma forallb_tabulate (p : A → bool) (h : nat → nat → A) (xs ys : list nat) :
  forallb p (concat (map (λ ix, map (h ix) ys) xs))
  = forallb (λ ix, forallb (λ iy, p (h ix iy)) ys) xs.
Proof.
  induction xs as [|ix xs IH]; [done |].
  rewrite map_cons, concat_cons, forallb_app, IH, forallb_fmap. done.
Qed.

Lemma existsb_forallb (p : A → bool) (l : list A) :
  existsb (λ x, negb (p x)) l = true → forallb p l = false.
Proof.
  induction l as [|x l IH]; [done |]. simpl.
  destruct (p x); simpl; [exact IH | done].
Qed.
End GridFacts.

Section SymmetryFacts.
Context {T : Type} {np : NumPy T}.

Lemma getitem_ma_entry nx ny (m : array2 (element T)) ix iy :
  shape2 nx ny m → ix < nx → iy < ny →
  getitem_ma m ix iy = Ok (entry m ix iy).
Proof.
  intros Hm Hx Hy. unfold getitem_ma, getitem2, entry.
  by destruct (shape2_lookup _ _ _ ix iy Hm Hx Hy) as [v ->].
Qed.

(** What the loop stores of an element read: its image. *)
Lemma stored_entry (m : array2 (element T)) ix iy :
  stored (entry m ix iy) = image_of (entry m ix iy).
Proof.
  unfold entry. by destruct (lookup2 m ix iy) as [[v [|]]|].
Qed.

Lemma stored_negated_entry (m : array2 (element T)) ix iy :
  stored (negated (entry m ix iy)) = negated_image_of (entry m ix iy).
Proof.
  unfold entry. by destruct (lookup2 m ix iy) as [[v [|]]|].
Qed.

Lemma tabulated_mono nx ny (D D' : nat → nat → Prop) image (a : array2 T) :
  tabulated nx ny D image a →
  (∀ ix iy, ix < nx → iy < ny → D' ix iy → D ix iy) →
  tabulated nx ny D' image a.
Proof.
  intros [Hshape Ha] Hsub. split; [done |].
  intros ix iy HD Hx Hy. apply Ha; [by apply Hsub | done..].
Qed.

Lemma tabulated_setitem nx ny (D D' : nat → nat → Prop) image (a : array2 T)
    ix iy :
  tabulated nx ny D image a → ix < nx → iy < ny →
  (∀ ix' iy', D' ix' iy' → D ix' iy' ∨ (ix', iy') = (ix, iy)) →
  returns (setitem2 a ix iy (image ix iy)) (tabulated nx ny D' image).
Proof.
  intros [Hshape Ha] Hx Hy Hsub. unfold setitem2.
  destruct (shape2_lookup _ _ _ ix iy Hshape Hx Hy) as [w Hw]. rewrite Hw.
  eexists. split; [done |]. split; [by apply shape2_insert |].
  intros ix' iy' HD Hx' Hy'.
  destruct (decide ((ix, iy) = (ix', iy'))) as [[= <- <-]|Hne].
  - apply lookup2_insert2_eq. eauto.
  - rewrite lookup2_insert2_ne by done. apply Ha; [|done..].
    destruct (Hsub _ _ HD) as [|]; [done | congruence].
Qed.

Lemma transformed_returns nx ny (Ex Ey : array2 (element T)) :
  shape2 nx ny Ex → shape2 nx ny Ey →
  returns (transformed nx ny Ex Ey) (images nx ny (λ _ _, True) Ex Ey).
Proof.
  intros HEx HEy. unfold transformed.
  eapply returns_weaken.
  - apply (for_in_range_invariant (λ ix, images nx ny (scanned ix 0) Ex Ey)).
    { repeat split; try apply shape2_full; unfold scanned; intros; lia. }
    intros ix m Hx Hm. eapply returns_weaken.
    + apply (for_in_range_invariant (λ iy, images nx ny (scanned ix iy) Ex Ey));
        [done |].
      intros iy m' Hy (H1 & H2 & H3 & H4 & H5 & H6).
      assert (∀ ix' iy', scanned ix (S iy) ix' iy' →
                scanned ix iy ix' iy' ∨ (ix', iy') = (ix, iy)) as Hstep.
      { unfold scanned. intros ix' iy' H.
        destruct (decide ((ix', iy') = (ix, iy))) as [|Hne]; [by right | left].
        assert (¬ (ix' = ix ∧ iy' = iy)) by (intros [??]; congruence). lia. }
      rewrite (getitem_ma_entry nx ny Ex ix (ny - iy - 1)) by (done || lia).
      rewrite bind_Ok, stored_entry.
      destruct (tabulated_setitem nx ny _ _ (y_mirrored ny Ex) _ ix iy H1 Hx Hy Hstep)
        as (a1 & Ha1 & H1').
      unfold y_mirrored in Ha1 at 1. rewrite Ha1, bind_Ok.
      rewrite (getitem_ma_entry nx ny Ey ix (ny - iy - 1)) by (done || lia).
      rewrite bind_Ok, stored_negated_entry.
      destruct (tabulated_setitem nx ny _ _ (y_mirrored_negated ny Ey) _ ix iy
                  H4 Hx Hy Hstep) as (a4 & Ha4 & H4').
      unfold y_mirrored_negated in Ha4 at 1. rewrite Ha4, bind_Ok.
      rewrite (getitem_ma_entry nx ny Ex (nx - ix - 1) iy) by (done || lia).
      rewrite bind_Ok, stored_negated_entry.
      destruct (tabulated_setitem nx ny _ _ (x_mirrored_negated nx Ex) _ ix iy
                  H2 Hx Hy Hstep) as (a2 & Ha2 & H2').
      unfold x_mirrored_negated in Ha2 at 1. rewrite Ha2, bind_Ok.
      rewrite (getitem_ma_entry nx ny Ey (nx - ix - 1) iy) by (done || lia).
      rewrite bind_Ok, stored_entry.
      destruct (tabulated_setitem nx ny _ _ (x_mirrored nx Ey) _ ix iy
                  H5 Hx Hy Hstep) as (a5 & Ha5 & H5').
      unfold x_mirrored in Ha5 at 1. rewrite Ha5, bind_Ok.
      rewrite (getitem_ma_entry nx ny Ex (nx - ix - 1) (ny - iy - 1))
        by (done || lia).
      rewrite bind_Ok, stored_negated_entry.
      destruct (tabulated_setitem nx ny _ _ (rotated_negated nx ny Ex) _ ix iy
                  H3 Hx Hy Hstep) as (a3 & Ha3 & H3').
      unfold rotated_negated in Ha3 at 1. rewrite Ha3, bind_Ok.
      rewrite (getitem_ma_entry nx ny Ey (nx - ix - 1) (ny - iy - 1))
        by (done || lia).
      rewrite bind_Ok, stored_negated_entry.
      destruct (tabulated_setitem nx ny _ _ (rotated_negated nx ny Ey) _ ix iy
                  H6 Hx Hy Hstep) as (a6 & Ha6 & H6').
      unfold rotated_negated in Ha6 at 1. rewrite Ha6, bind_Ok.
      eexists. split; [done |].
      exact (conj H1' (conj H2' (conj H3' (conj H4' (conj H5' H6'))))).
    + intros m' (H1 & H2 & H3 & H4 & H5 & H6).
      do 5 (split; [eapply tabulated_mono;
                      [eassumption | unfold scanned; intros; lia] |]).
      eapply tabulated_mono; [eassumption | unfold scanned; intros; lia].
  - intros m' (H1 & H2 & H3 & H4 & H5 & H6).
    do 5 (split; [eapply tabulated_mono;
                    [eassumption | unfold scanned; intros; lia] |]).
    eapply tabulated_mono; [eassumption | unfold scanned; intros; lia].
Qed.
End SymmetryFacts.

Section ScoreFacts.
Context {T : Type} {np : NumPy T}.

Lemma lookup2_entry nx ny (m : array2 (element T)) ix iy :
  shape2 nx ny m → ix < nx → iy < ny →
  ∃ e, lookup2 m ix iy = Some e ∧ entry m ix iy = item e.
Proof.
  intros Hm Hx Hy. unfold entry.
  destruct (shape2_lookup _ _ _ ix iy Hm Hx Hy) as [v ->]. by exists v.
Qed.

Lemma mask_entry (m : array2 (element T)) ix iy :
  mask (entry m ix iy) = mask (default masked (lookup2 m ix iy)).
Proof. unfold entry. by destruct (lookup2 m ix iy) as [[v [|]]|]. Qed.

(** The grid as the table of its elements. *)
Lemma grid_tabulate nx ny (m : array2 (element T)) :
  shape2 nx ny m →
  m = map (λ ix, map (λ iy, default masked (lookup2 m ix iy)) (seq 0 ny))
          (seq 0 nx).
Proof.
  intros Hm. apply (array2_tabulate nx ny). split; [done |].
  intros ix iy _ Hx Hy.
  by destruct (shape2_lookup _ _ _ ix iy Hm Hx Hy) as [v ->].
Qed.

Lemma mask_item (e : element T) : mask (item e) = mask e.
Proof. unfold item. by destruct (mask e). Qed.

Lemma outside_forallb nx ny (m : array2 (element T)) :
  shape2 nx ny m → outside nx ny m = forallb mask (concat m).
Proof.
  intros Hm. rewrite (grid_tabulate nx ny m Hm) at 2.
  rewrite forallb_tabulate. unfold outside.
  apply forallb_pointwise. intros ix. apply forallb_pointwise. intros iy.
  apply mask_entry.
Qed.

Lemma discrepancy_returns nx ny (m : array2 (element T)) (a : array2 T) image :
  shape2 nx ny m → tabulated nx ny (λ _ _, True) image a →
  discrepancy m a = Ok (discrepancy_sum nx ny m image).
Proof.
  intros Hm [Ha Himage]. unfold discrepancy.
  assert (shape2 nx ny (map (map plain) a)) as Ha' by by apply shape2_fmap.
  destruct (broadcast2_returns (ma_binary sub) nx ny m _ Hm Ha')
    as (d & -> & Hd & Hpt).
  rewrite bind_Ok. unfold mret, result_ret. f_equal.
  pose (h := λ ix iy,
          ma_abs (ma_binary sub (default masked (lookup2 m ix iy))
                    (plain (image ix iy)))).
  assert (map2 ma_abs d = map (λ ix, map (h ix) (seq 0 ny)) (seq 0 nx)) as ->.
  { apply (array2_tabulate nx ny). split; [by apply shape2_map |].
    intros ix iy _ Hx Hy. rewrite lookup2_map.
    destruct (shape2_lookup _ _ _ ix iy Hm Hx Hy) as [e He].
    rewrite (Hpt ix iy e (plain (image ix iy)) He).
    - unfold h. by rewrite He.
    - rewrite lookup2_fmap, (Himage ix iy I Hx Hy). done. }
  unfold np_sum, discrepancy_sum, outside, grid_sum.
  cbv zeta. rewrite forallb_tabulate, tabulate_concat_map.
  assert (∀ ix iy, mask (h ix iy) = mask (entry m ix iy)) as Hmask.
  { intros ix iy. unfold h, entry.
    by destruct (lookup2 m ix iy) as [[v [|]]|]. }
  assert (∀ ix iy, filled_with_zero (h ix iy) = discrepancy_term m image ix iy)
    as Hterm.
  { intros ix iy. unfold h, discrepancy_term, entry.
    by destruct (lookup2 m ix iy) as [[v [|]]|]. }
  rewrite (forallb_pointwise
             (λ ix, forallb (λ iy, mask (h ix iy)) (seq 0 ny))
             (λ ix, forallb (λ iy, mask (entry m ix iy)) (seq 0 ny))).
  2: { intros ix. apply forallb_pointwise. intros iy. apply Hmask. }
  destruct (forallb _ (seq 0 nx)); [done |].
  rewrite np_add_reduce_total.
  do 3 f_equal. apply map_ext. intros ix. apply map_ext. intros iy.
  apply Hterm.
Qed.

Lemma score_mean nx ny (a b : element T) : score nx ny a b = mean nx ny a b.
Proof.
  unfold score, mean, scalar_binary.
  by destruct (mask a), (mask b).
Qed.

Lemma symmetry_scores_returns nx ny (Ex Ey : array2 (element T)) :
  shape2 nx ny Ex → shape2 nx ny Ey →
  symmetry_scores nx ny Ex Ey
  = Ok (C_2_score nx ny Ex Ey, sigma_y_score nx ny Ex Ey,
        sigma_x_score nx ny Ex Ey).
Proof.
  intros HEx HEy. unfold symmetry_scores.
  destruct (transformed_returns nx ny Ex Ey HEx HEy)
    as (m & -> & H1 & H2 & H3 & H4 & H5 & H6).
  rewrite bind_Ok.
  rewrite (discrepancy_returns nx ny Ex _ _ HEx H1), bind_Ok.
  rewrite (discrepancy_returns nx ny Ey _ _ HEy H4), bind_Ok.
  rewrite (discrepancy_returns nx ny Ex _ _ HEx H2), bind_Ok.
  rewrite (discrepancy_returns nx ny Ey _ _ HEy H5), bind_Ok.
  rewrite (discrepancy_returns nx ny Ex _ _ HEx H3), bind_Ok.
  rewrite (discrepancy_returns nx ny Ey _ _ HEy H6), bind_Ok.
  cbv zeta. by rewrite !score_mean.
Qed.

Lemma complex_field_returns nx ny (m_Re m_Im : array2 (element T)) :
  shape2 nx ny m_Re → shape2 nx ny m_Im →
  returns (complex_field m_Re m_Im)
    (λ m, shape2 nx ny m ∧
          ∀ ix iy re im,
            lookup2 m_Re ix iy = Some re → lookup2 m_Im ix iy = Some im →
            lookup2 m ix iy
            = Some (ma_binary add re (ma_binary mul (plain imag_unit) im))).
Proof.
  intros HRe HIm. unfold complex_field.
  destruct (broadcast2_returns (ma_binary add) nx ny m_Re
              (map2 (ma_binary mul (plain imag_unit)) m_Im) HRe
              (shape2_map _ _ _ _ HIm)) as (m & -> & Hm & Hpt).
  exists m. split; [done |]. split; [done |].
  intros ix iy re im Hre Him. apply Hpt; [done |].
  by rewrite lookup2_map, Him.
Qed.

Lemma zero_if_negligible_shape (grid : Interpolated T) thr
    (m m' : array2 (element T)) :
  shape2 (n_pts_x grid) (n_pts_y grid) m →
  zero_if_negligible grid thr m = Ok m' →
  shape2 (n_pts_x grid) (n_pts_y grid) m'.
Proof.
  intros Hm. unfold zero_if_negligible.
  destruct (np_max _) as [peak|]; [|done]. rewrite bind_Ok.
  intros [= <-]. destruct (holds less peak thr); [apply shape2_full | done].
Qed.

Lemma field_components_shape (grid : Interpolated T) thr ival Ex Ey :
  resampled grid thr ival →
  field_components grid thr ival = Ok (Ex, Ey) →
  shape2 (n_pts_x grid) (n_pts_y grid) Ex ∧
  shape2 (n_pts_x grid) (n_pts_y grid) Ey.
Proof.
  intros (HRx & HIx & HRy & HIy & _). unfold field_components.
  destruct (complex_field_returns _ _ _ _ HRx HIx) as (mx & -> & Hmx & _).
  rewrite bind_Ok.
  destruct (complex_field_returns _ _ _ _ HRy HIy) as (my & -> & Hmy & _).
  rewrite bind_Ok.
  destruct (zero_if_negligible grid thr mx) as [Ex'|] eqn:HEx; [|done].
  rewrite bind_Ok.
  destruct (zero_if_negligible grid thr my) as [Ey'|] eqn:HEy; [|done].
  rewrite bind_Ok. intros [= <- <-].
  split; [exact (zero_if_negligible_shape _ _ _ _ Hmx HEx)
         | exact (zero_if_negligible_shape _ _ _ _ Hmy HEy)].
Qed.

Lemma symmetry_print_labelled (s : element T) (t : T) :
  labelled s t (symmetry_print s t).
Proof.
  unfold labelled, symmetry_print, holds, scalar_abs.
  destruct (mask s); [done |]. simpl. by destruct (greater _ _).
Qed.
End ScoreFacts.

Section ClassifierFacts.
Context {T : Type} {np : NumPy T} {Table Tensor : Type}.
Abbreviation Simmo := (Simmo T Table Tensor).
Variable interpolate : Simmo → nat → Interpolated T.

Lemma symmetries_returns (sim_wguide : Simmo) n_points thr :
  let grid := interpolate sim_wguide n_points in
  (∀ ival, ival < length (Eig_values sim_wguide) → resampled grid thr ival) →
  returns (symmetries interpolate sim_wguide n_points thr)
    (λ sym_list,
       length sym_list = length (Eig_values sim_wguide) ∧
       ∀ ival Ex Ey,
         ival < length (Eig_values sim_wguide) →
         field_components grid thr ival = Ok (Ex, Ey) →
         ∃ labels, sym_list !! ival = Some labels ∧
                   classified (n_pts_x grid) (n_pts_y grid) Ex Ey labels).
Proof.
  intros grid Hgrid. unfold symmetries. fold grid.
  apply (for_in_range_invariant (λ n sym_list,
    length sym_list = n ∧
    ∀ ival Ex Ey, ival < n → field_components grid thr ival = Ok (Ex, Ey) →
      ∃ labels, sym_list !! ival = Some labels ∧
                classified (n_pts_x grid) (n_pts_y grid) Ex Ey labels)).
  { split; [done |]. intros; lia. }
  intros ival sym_list Hival [Hlen Hsym].
  pose proof (Hgrid ival Hival) as Hres.
  destruct Hres as (HRx & HIx & HRy & HIy & [[Ex Ey] Hfields]).
  rewrite Hfields, bind_Ok.
  destruct (field_components_shape grid thr ival Ex Ey) as [HEx HEy];
    [by apply Hgrid | done |].
  rewrite (symmetry_scores_returns _ _ Ex Ey HEx HEy), bind_Ok.
  eexists. split; [done |]. split; [rewrite length_app; simpl; lia |].
  intros i Ex' Ey' Hi Hfields'.
  destruct (decide (i = ival)) as [->|Hne].
  - assert (Ex' = Ex ∧ Ey' = Ey) as [-> ->] by (split; congruence).
    eexists. split.
    { rewrite lookup_app_r by lia. by rewrite Hlen, Nat.sub_diag. }
    simpl. do 3 eexists. split; [done |].
    repeat split; apply symmetry_print_labelled.
  - destruct (Hsym i Ex' Ey') as (labels & Hl & Hc); [lia | done |].
    exists labels. split; [|done]. by apply lookup_app_l_Some.
Qed.
End ClassifierFacts.

(** ** The pairwise sum *)

Section PairwiseFacts.
Context {T : Type} {np : NumPy T}.

(** The bound on the halvings does not show in the sum: the length of
    the array is enough of it. *)
Lemma pairwise_sum_depth (d1 d2 : nat) (a : list T) :
  length a ≤ d1 → length a ≤ d2 → pairwise_sum d1 a = pairwise_sum d2 a.
Proof.
  revert d2 a. induction d1 as [|d1 IH]; intros d2 a H1 H2.
  - assert (a = []) as -> by (destruct a; [done | simpl in H1; lia]).
    by destruct d2.
  - destruct d2 as [|d2].
    { assert (a = []) as -> by (destruct a; [done | simpl in H2; lia]). done. }
    cbn [pairwise_sum].
    destruct (decide (length a ≤ PW_BLOCKSIZE)) as [|Hlong]; [done |].
    unfold PW_BLOCKSIZE in Hlong.
    pose proof (Nat.div_mod_eq (length a) 2) as Hhalf.
    pose proof (Nat.mod_upper_bound (length a) 2) as Hrest.
    pose proof (Nat.mod_upper_bound (length a / 2) 8) as Hblock.
    f_equal; apply IH; rewrite ?length_take, ?length_drop; lia.
Qed.

(** An array longer than [PW_BLOCKSIZE] is added as its two parts. *)
Lemma np_add_reduce_halves (a : list T) :
  PW_BLOCKSIZE < length a →
  let n2 := length a / 2 - (length a / 2) `mod` 8 in
  np_add_reduce a
  = add zero (add (pairwise_sum n2 (take n2 a))
                  (pairwise_sum (length a - n2) (drop n2 a))).
Proof.
  intros Hlong n2. unfold np_add_reduce.
  destruct (length a) as [|n] eqn:Hn; [unfold PW_BLOCKSIZE in Hlong; lia |].
  cbn [pairwise_sum]. rewrite Hn.
  rewrite decide_False by lia. fold n2.
  unfold PW_BLOCKSIZE in Hlong.
  pose proof (Nat.div_mod_eq (S n) 2) as Hhalf.
  pose proof (Nat.mod_upper_bound (S n) 2) as Hrest.
  pose proof (Nat.mod_upper_bound (S n / 2) 8) as Hblock.
  do 2 f_equal; apply pairwise_sum_depth;
    rewrite ?length_take, ?length_drop; subst n2; lia.
Qed.
End PairwiseFacts.

(** Ten tenths add up to 1 in pairs, which adding them in turn misses. *)
Lemma ten_tenths_add_up_to_one :
  np_add_reduce (replicate 10 (tenth (T:=Binary64.num))) = one ∧
  less (foldl add zero (replicate 10 (tenth (T:=Binary64.num)))) one = true.
Proof. split; vm_compute; reflexivity. Qed.

(** ** Grids with points outside the mesh *)

Lemma existsb_fmap {A B} (p : B → bool) (f : A → B) (l : list A) :
  existsb p (map f l) = existsb (λ x, p (f x)) l.
Proof. induction l as [|x l IH]; [done |]. simpl. by rewrite IH. Qed.

Lemma forallb_true {A} (l : list A) : forallb (λ _, true) l = true.
Proof. by induction l. Qed.

Section MeshFacts.
Context {T : Type} {np : NumPy T}.
Implicit Types (m : array2 (element T)) (e : element T).

Lemma same_element_item e e' : same_element e e' → item e = item e'.
Proof.
  destruct e as [v [|]], e' as [v' [|]]; intros [Hmask Hdata];
    unfold item; simpl in *; try done.
  by rewrite (Hdata eq_refl).
Qed.

Lemma same_on_mesh_read_alike m m' : same_on_mesh m m' → read_alike m m'.
Proof.
  unfold same_on_mesh, read_alike.
  induction 1 as [|r r' m m' Hr _ IH]; [done |].
  rewrite !map_cons, IH. f_equal.
  induction Hr as [|e e' r r' He _ IHr]; [done |].
  by rewrite !map_cons, IHr, (same_element_item e e' He).
Qed.

Lemma inside_item e : inside (item e) = inside e.
Proof. by destruct e as [v [|]]. Qed.

Lemma data_item_inside e : inside e = true → data (item e) = data e.
Proof. by destruct e as [v [|]]. Qed.

Lemma mesh_values_item (l : list (element T)) :
  map (λ e, np_abs (data e)) (filter (λ e, inside e) (map item l))
  = map (λ e, np_abs (data e)) (filter (λ e, inside e) l).
Proof.
  induction l as [|e l IH]; [done |].
  rewrite map_cons, !filter_cons, inside_item.
  destruct (decide (inside e)) as [He|He]; [| exact IH].
  rewrite !map_cons, IH. do 2 f_equal. apply data_item_inside.
  by apply Is_true_true.
Qed.

Lemma mesh_peak_same m m' : read_alike m m' → mesh_peak m = mesh_peak m'.
Proof.
  unfold read_alike, mesh_peak. intros Hsame.
  rewrite <- (mesh_values_item (concat m)), <- (mesh_values_item (concat m')).
  by rewrite !concat_map, Hsame.
Qed.

(** The elements that the check selects and does not mask are the
    points inside the mesh. *)
Lemma selected_inside (l : list (element T)) :
  map data (filter (λ e, ¬ mask e)
              (map ma_abs (filter (λ e, ¬ np_isnan (data e)) l)))
  = map (λ e, np_abs (data e)) (filter (λ e, inside e) l).
Proof.
  induction l as [|e l IH]; [done |].
  rewrite (filter_cons (λ e, ¬ np_isnan (data e))),
    (filter_cons (λ e, inside e)).
  destruct e as [v k]. unfold inside. cbn [data mask].
  destruct (np_isnan v) eqn:Hv, k; cbn [negb andb].
  - rewrite !decide_False by (unfold Is_true; tauto). exact IH.
  - rewrite !decide_False by (unfold Is_true; tauto). exact IH.
  - rewrite decide_True by (unfold Is_true; tauto).
    rewrite map_cons, filter_cons. cbn [ma_abs mask data].
    rewrite !decide_False by (unfold Is_true; tauto). exact IH.
  - rewrite !decide_True by (unfold Is_true; tauto).
    rewrite map_cons, filter_cons. cbn [ma_abs mask data].
    rewrite decide_True by (unfold Is_true; tauto).
    rewrite !map_cons, IH. done.
Qed.

Lemma np_max_mesh_peak m peak :
  mesh_peak m = Some peak →
  np_max (map ma_abs (not_nan m)) = Ok (plain peak).
Proof.
  intros Hpeak. unfold np_max, not_nan.
  pose proof (selected_inside (concat m)) as Hvals.
  unfold mesh_peak in Hpeak.
  destruct (map ma_abs (filter _ (concat m))) as [|x xs].
  - simpl in Hvals. by rewrite <- Hvals in Hpeak.
  - rewrite Hvals.
    destruct (map _ (filter _ (concat m))) as [|v l]; [done |].
    by injection Hpeak as ->.
Qed.

Lemma meets_mesh_peak m : meets_mesh m → ∃ peak, mesh_peak m = Some peak.
Proof.
  unfold meets_mesh, mesh_peak. generalize (concat m) as l.
  induction l as [|e l IH]; [done |].
  cbn [existsb]. rewrite filter_cons.
  destruct (inside e) eqn:He.
  - intros _. rewrite decide_True by (unfold Is_true; tauto).
    rewrite map_cons. by eexists.
  - rewrite decide_False by (unfold Is_true; tauto). exact IH.
Qed.

Lemma zero_if_negligible_mesh (grid : Interpolated T) thr m peak :
  mesh_peak m = Some peak →
  zero_if_negligible grid thr m
  = Ok (if less peak thr
        then full2 (n_pts_x grid) (n_pts_y grid) (plain zero)
        else m).
Proof.
  intros Hpeak. unfold zero_if_negligible.
  by rewrite (np_max_mesh_peak m peak Hpeak), bind_Ok.
Qed.

Lemma read_alike_shape nx ny m m' :
  read_alike m m' → shape2 nx ny m → shape2 nx ny m'.
Proof.
  intros Hsame Hm. apply (shape2_fmap item). rewrite <- Hsame.
  by apply shape2_fmap.
Qed.

Lemma read_alike_lookup m m' ix iy :
  read_alike m m' →
  item <$> lookup2 m ix iy = item <$> lookup2 m' ix iy.
Proof. intros Hsame. by rewrite <- !lookup2_fmap, Hsame. Qed.

Lemma read_alike_entry m m' ix iy :
  read_alike m m' → entry m ix iy = entry m' ix iy.
Proof.
  intros Hsame. unfold entry.
  pose proof (read_alike_lookup m m' ix iy Hsame) as Heq.
  destruct (lookup2 m ix iy), (lookup2 m' ix iy); simpl in *;
    unfold item in *; congruence.
Qed.

Lemma discrepancy_sum_same nx ny m m' (image image' : nat → nat → T) :
  (∀ ix iy, entry m ix iy = entry m' ix iy) →
  (∀ ix iy, image ix iy = image' ix iy) →
  discrepancy_sum nx ny m image = discrepancy_sum nx ny m' image'.
Proof.
  intros Hm Himage. unfold discrepancy_sum, outside, grid_sum.
  rewrite (forallb_pointwise _
             (λ ix, forallb (λ iy, mask (entry m' ix iy)) (seq 0 ny))).
  2: { intros ix. apply forallb_pointwise. intros iy. by rewrite Hm. }
  destruct (forallb _ _); [done |].
  do 3 f_equal. apply map_ext. intros ix. apply map_ext. intros iy.
  unfold discrepancy_term. by rewrite Hm, Himage.
Qed.

Lemma scores_same nx ny (Ex Ey Ex' Ey' : array2 (element T)) :
  (∀ ix iy, entry Ex ix iy = entry Ex' ix iy) →
  (∀ ix iy, entry Ey ix iy = entry Ey' ix iy) →
  C_2_score nx ny Ex Ey = C_2_score nx ny Ex' Ey' ∧
  sigma_y_score nx ny Ex Ey = sigma_y_score nx ny Ex' Ey' ∧
  sigma_x_score nx ny Ex Ey = sigma_x_score nx ny Ex' Ey'.
Proof.
  intros HEx HEy. unfold C_2_score, sigma_y_score, sigma_x_score.
  repeat split; f_equal; apply discrepancy_sum_same; try done;
    intros ix iy;
    unfold rotated_negated, y_mirrored, y_mirrored_negated, x_mirrored,
      x_mirrored_negated;
    by rewrite ?HEx, ?HEy.
Qed.

Lemma ma_binary_item (f : T → T → T) (a b a' b' : element T) :
  item a = item a' → item b = item b' →
  item (ma_binary f a b) = item (ma_binary f a' b').
Proof.
  destruct a as [va [|]], a' as [va' [|]], b as [vb [|]], b' as [vb' [|]];
    unfold item, ma_binary, plain, masked; cbn; intros Ha Hb; try done;
    congruence.
Qed.

Lemma complex_field_same nx ny (m_Re m_Im m_Re' m_Im' m : array2 (element T)) :
  shape2 nx ny m_Re → shape2 nx ny m_Im →
  read_alike m_Re m_Re' → read_alike m_Im m_Im' →
  complex_field m_Re m_Im = Ok m →
  ∃ m', complex_field m_Re' m_Im' = Ok m' ∧ read_alike m m' ∧
        shape2 nx ny m ∧ shape2 nx ny m'.
Proof.
  intros HRe HIm HsRe HsIm Hm.
  destruct (complex_field_returns nx ny m_Re m_Im HRe HIm)
    as (m0 & Hm0 & Hshape & Hpt).
  rewrite Hm in Hm0. injection Hm0 as <-.
  destruct (complex_field_returns nx ny m_Re' m_Im'
              (read_alike_shape _ _ _ _ HsRe HRe)
              (read_alike_shape _ _ _ _ HsIm HIm))
    as (m' & -> & Hshape' & Hpt').
  exists m'. split; [done |]. split; [| done].
  unfold read_alike. apply (array2_ext nx ny); [by apply shape2_fmap.. |].
  intros ix iy v Hx Hy. rewrite !lookup2_fmap.
  pose proof (read_alike_lookup _ _ ix iy HsRe) as HeqRe.
  pose proof (read_alike_lookup _ _ ix iy HsIm) as HeqIm.
  destruct (shape2_lookup _ _ _ ix iy HRe Hx Hy) as [re Hre].
  destruct (shape2_lookup _ _ _ ix iy HIm Hx Hy) as [im Him].
  rewrite Hre in HeqRe. rewrite Him in HeqIm.
  destruct (lookup2 m_Re' ix iy) as [re'|] eqn:Hre'; [| done].
  destruct (lookup2 m_Im' ix iy) as [im'|] eqn:Him'; [| done].
  rewrite (Hpt ix iy re im Hre Him), (Hpt' ix iy re' im' Hre' Him').
  simpl in *. intros [= <-]. f_equal.
  apply ma_binary_item; [congruence |].
  apply ma_binary_item; [done | congruence].
Qed.

Lemma outside_extent nx ny m : outside nx ny m = false → 0 < nx ∧ 0 < ny.
Proof.
  unfold outside. destruct nx as [|nx]; [done |].
  destruct ny as [|ny]; [| lia].
  rewrite (forallb_pointwise _ (λ _, true)) by done.
  by rewrite forallb_true.
Qed.

Lemma meets_mesh_not_outside nx ny m :
  shape2 nx ny m → meets_mesh m → outside nx ny m = false.
Proof.
  intros Hm Hmeets. rewrite (outside_forallb nx ny m Hm).
  apply existsb_forallb. unfold meets_mesh in Hmeets.
  revert Hmeets. generalize (concat m) as l.
  induction l as [|e l IH]; [done |]. cbn [existsb].
  unfold inside at 1. destruct (mask e); cbn [negb andb orb]; [exact IH | done].
Qed.

Lemma zeros_not_outside nx ny :
  0 < nx → 0 < ny → outside nx ny (full2 nx ny (plain (zero (T:=T)))) = false.
Proof.
  intros Hx Hy. rewrite (outside_forallb nx ny) by apply shape2_full.
  destruct nx as [|nx]; [lia |]. destruct ny as [|ny]; [lia |]. done.
Qed.

Lemma score_plain nx ny (Ex Ey : array2 (element T)) image_x image_y :
  outside nx ny Ex = false → outside nx ny Ey = false →
  ∃ c, mean nx ny (discrepancy_sum nx ny Ex image_x)
                  (discrepancy_sum nx ny Ey image_y) = plain c.
Proof.
  intros HEx HEy. unfold discrepancy_sum. rewrite HEx, HEy. by eexists.
Qed.

Lemma symmetries_step (grid : Interpolated T) thr ival (l : list (list Z)) s :
  mode_scores grid thr ival = Ok s →
  ('(m_Ex, m_Ey) ← field_components grid thr ival;
   scores ← symmetry_scores (n_pts_x grid) (n_pts_y grid) m_Ex m_Ey;
   mret (l ++ [symmetry_labels scores]))
  = Ok (l ++ [symmetry_labels s]).
Proof.
  unfold mode_scores.
  destruct (field_components grid thr ival) as [[Ex Ey]|]; [| done].
  rewrite !bind_Ok. by intros ->.
Qed.

(** The scores of a mode whose grid meets the mesh, for two
    interpolations that are the same inside the mesh. *)
Lemma mode_scores_on_mesh (grid grid' : Interpolated T) thr ival :
  meets_the_mesh grid ival → same_inside_the_mesh grid grid' ival →
  ∃ m_Ex m_Ey Ex Ey C_2 sigma_y sigma_x,
    complex_field (m_ReEx grid ival) (m_ImEx grid ival) = Ok m_Ex ∧
    complex_field (m_ReEy grid ival) (m_ImEy grid ival) = Ok m_Ey ∧
    field_components grid thr ival = Ok (Ex, Ey) ∧
    checked_on_mesh grid thr m_Ex Ex ∧
    checked_on_mesh grid thr m_Ey Ey ∧
    C_2_score (n_pts_x grid) (n_pts_y grid) Ex Ey = plain C_2 ∧
    sigma_y_score (n_pts_x grid) (n_pts_y grid) Ex Ey = plain sigma_y ∧
    sigma_x_score (n_pts_x grid) (n_pts_y grid) Ex Ey = plain sigma_x ∧
    mode_scores grid thr ival = Ok (plain C_2, plain sigma_y, plain sigma_x) ∧
    mode_scores grid' thr ival = Ok (plain C_2, plain sigma_y, plain sigma_x).
Proof.
  intros (HRx & HIx & HRy & HIy & m_Ex & m_Ey & Hmx & Hmy & Hmeetx & Hmeety)
         (Hnx & Hny & HsRx & HsIx & HsRy & HsIy).
  apply same_on_mesh_read_alike in HsRx, HsIx, HsRy, HsIy.
  set (nx := n_pts_x grid) in *. set (ny := n_pts_y grid) in *.
  destruct (complex_field_same nx ny _ _ _ _ m_Ex HRx HIx HsRx HsIx Hmx)
    as (m_Ex' & Hmx' & Hsx & Hshx & Hshx').
  destruct (complex_field_same nx ny _ _ _ _ m_Ey HRy HIy HsRy HsIy Hmy)
    as (m_Ey' & Hmy' & Hsy & Hshy & Hshy').
  destruct (meets_mesh_peak m_Ex Hmeetx) as [px Hpx].
  destruct (meets_mesh_peak m_Ey Hmeety) as [py Hpy].
  pose proof (meets_mesh_not_outside nx ny m_Ex Hshx Hmeetx) as Houtx.
  pose proof (meets_mesh_not_outside nx ny m_Ey Hshy Hmeety) as Houty.
  destruct (outside_extent nx ny m_Ex Houtx) as [Hposx Hposy].
  pose (Ex := if less px thr then full2 nx ny (plain zero) else m_Ex).
  pose (Ey := if less py thr then full2 nx ny (plain zero) else m_Ey).
  pose (Ex' := if less px thr then full2 nx ny (plain zero) else m_Ex').
  pose (Ey' := if less py thr then full2 nx ny (plain zero) else m_Ey').
  assert (field_components grid thr ival = Ok (Ex, Ey)) as Hfields.
  { unfold field_components. rewrite Hmx, bind_Ok, Hmy, bind_Ok.
    rewrite (zero_if_negligible_mesh grid thr m_Ex px Hpx), bind_Ok.
    by rewrite (zero_if_negligible_mesh grid thr m_Ey py Hpy), bind_Ok. }
  assert (field_components grid' thr ival = Ok (Ex', Ey')) as Hfields'.
  { unfold field_components. rewrite Hmx', bind_Ok, Hmy', bind_Ok.
    rewrite (zero_if_negligible_mesh grid' thr m_Ex' px), bind_Ok
      by by rewrite <- (mesh_peak_same m_Ex m_Ex' Hsx).
    rewrite (zero_if_negligible_mesh grid' thr m_Ey' py), bind_Ok
      by by rewrite <- (mesh_peak_same m_Ey m_Ey' Hsy).
    by rewrite Hnx, Hny. }
  assert (shape2 nx ny Ex ∧ shape2 nx ny Ex' ∧ read_alike Ex Ex' ∧
          outside nx ny Ex = false) as (HEx & HEx' & HsEx & HoEx).
  { unfold Ex, Ex'. destruct (less px thr).
    - repeat split; try apply shape2_full. by apply zeros_not_outside.
    - done. }
  assert (shape2 nx ny Ey ∧ shape2 nx ny Ey' ∧ read_alike Ey Ey' ∧
          outside nx ny Ey = false) as (HEy & HEy' & HsEy & HoEy).
  { unfold Ey, Ey'. destruct (less py thr).
    - repeat split; try apply shape2_full. by apply zeros_not_outside.
    - done. }
  destruct (score_plain nx ny Ex Ey (rotated_negated nx ny Ex)
              (rotated_negated nx ny Ey) HoEx HoEy) as [C_2 HC].
  destruct (score_plain nx ny Ex Ey (y_mirrored ny Ex)
              (y_mirrored_negated ny Ey) HoEx HoEy) as [sigma_y Hy].
  destruct (score_plain nx ny Ex Ey (x_mirrored_negated nx Ex)
              (x_mirrored nx Ey) HoEx HoEy) as [sigma_x Hx].
  destruct (scores_same nx ny Ex Ey Ex' Ey') as (HC' & Hy' & Hx').
  { intros ix iy. by apply read_alike_entry. }
  { intros ix iy. by apply read_alike_entry. }
  exists m_Ex, m_Ey, Ex, Ey, C_2, sigma_y, sigma_x.
  do 3 (split; [done |]).
  split; [by exists px |]. split; [by exists py |].
  do 3 (split; [done |]).
  split.
  - unfold mode_scores. rewrite Hfields, bind_Ok. fold nx ny.
    rewrite (symmetry_scores_returns nx ny Ex Ey HEx HEy).
    unfold C_2_score, sigma_y_score, sigma_x_score in *. by rewrite HC, Hy, Hx.
  - unfold mode_scores. rewrite Hfields', bind_Ok, Hnx, Hny. fold nx ny.
    rewrite (symmetry_scores_returns nx ny Ex' Ey' HEx' HEy').
    rewrite <- HC', <- Hy', <- Hx'.
    unfold C_2_score, sigma_y_score, sigma_x_score in *. by rewrite HC, Hy, Hx.
Qed.
End MeshFacts.

Section MeshClassifierFacts.
Context {T : Type} {np : NumPy T} {Table Tensor : Type}.
Abbreviation Simmo := (Simmo T Table Tensor).

(** The labels of the modes follow their scores. *)
Lemma symmetries_of_scores (interpolate : Simmo → nat → Interpolated T)
    (sim_wguide : Simmo) n_points thr (scores : nat → element T * element T * element T) :
  let grid := interpolate sim_wguide n_points in
  (∀ ival, ival < length (Eig_values sim_wguide) →
           mode_scores grid thr ival = Ok (scores ival)) →
  symmetries interpolate sim_wguide n_points thr
  = Ok (map (λ ival, symmetry_labels (scores ival))
            (seq 0 (length (Eig_values sim_wguide)))).
Proof.
  intros grid Hscores. unfold symmetries. fold grid.
  destruct (for_in_range_invariant
              (λ n sym_list,
                 sym_list = map (λ ival, symmetry_labels (scores ival)) (seq 0 n))
              (λ ival sym_list,
                 '(m_Ex, m_Ey) ← field_components grid thr ival;
                 scores ← symmetry_scores (n_pts_x grid) (n_pts_y grid) m_Ex m_Ey;
                 mret (sym_list ++ [symmetry_labels scores]))
              (length (Eig_values sim_wguide)) []) as (l & Hl & ->);
    [done | | exact Hl].
  intros ival sym_list Hival ->.
  rewrite (symmetries_step grid thr ival _ (scores ival)) by by apply Hscores.
  eexists. split; [done |]. by rewrite seq_S, map_app.
Qed.
End MeshClassifierFacts.

(** * The field re-indexer and the material mask *)

(** C3: for every valid element map, the trimmed pump and Stokes fields
    that [gain_and_qs] builds have shape [3, 6, num_modes, n_msh_el_AC],
    keep complex entries and every mode, and hold at AC element [el] the
    EM field of element [el_convert_tbl[el]], for every component, node
    and mode; they are the fields handed to the overlap calls. *)
Theorem trimmed_fields_follow_element_map {T : Type} {np : NumPy T} {Table Tensor : Type}
    (sim_EM_pump sim_EM_Stokes sim_AC : Simmo T Table Tensor) :
  valid_element_map sim_EM_pump sim_AC →
  valid_element_map sim_EM_Stokes sim_AC →
  well_shaped_field sim_EM_pump →
  well_shaped_field sim_EM_Stokes →
  complex_valued (sol1 sim_EM_pump) →
  complex_valued (sol1 sim_EM_Stokes) →
  ∃ trimmed_EM_pump_field trimmed_EM_Stokes_field,
    trimmed_EM_fields sim_EM_pump sim_EM_Stokes sim_AC
      = Ok (trimmed_EM_pump_field, trimmed_EM_Stokes_field) ∧
    reindexed sim_EM_pump sim_AC trimmed_EM_pump_field ∧
    reindexed sim_EM_Stokes sim_AC trimmed_EM_Stokes_field ∧
    ∀ EM_ival_pump EM_ival_Stokes AC_ival args,
      overlap_arguments sim_EM_pump sim_EM_Stokes sim_AC
        EM_ival_pump EM_ival_Stokes AC_ival = Ok args →
      oa_pump_field args = trimmed_EM_pump_field ∧
      oa_Stokes_field args = trimmed_EM_Stokes_field.
Proof.
  intros Hmap_p Hmap_s Hsrc_p Hsrc_s Hc_p Hc_s.
  destruct (trimmed_EM_fields_filled sim_EM_pump sim_EM_Stokes sim_AC)
    as ([pump_field Stokes_field] & Hrun & Hp & Hs); [done..|].
  exists pump_field, Stokes_field. split; [done |].
  split; [by apply filled_reindexed |]. split; [by apply filled_reindexed |].
  intros EM_ival_pump EM_ival_Stokes AC_ival args Hargs.
  apply overlap_arguments_Ok in Hargs
    as (pump & Stokes & AC & pf & sf & eps & _ & _ & _ & Hf & _ & ->).
  rewrite Hrun in Hf. by injection Hf as <- <-.
Qed.

Lemma example_element_map : valid_element_map Example.sim_EM Example.sim_AC.
Proof.
  intros el Hel. exists 1. simpl in Hel.
  assert (el = 0) as -> by lia. split; [reflexivity | simpl; lia].
Defined.

Lemma example_field_shape : well_shaped_field Example.sim_EM.
Proof. repeat (split || constructor). Defined.

Lemma example_field_complex : complex_valued (sol1 Example.sim_EM).
Proof. apply complex_valued_Forall. repeat constructor. Defined.

Lemma trimmed_fields_follow_element_map_witness :
  ∃ pump_field Stokes_field,
    trimmed_EM_fields Example.sim_EM Example.sim_EM Example.sim_AC
      = Ok (pump_field, Stokes_field) ∧
    reindexed Example.sim_EM Example.sim_AC pump_field ∧
    reindexed Example.sim_EM Example.sim_AC Stokes_field ∧
    ∀ EM_ival_pump EM_ival_Stokes AC_ival args,
      overlap_arguments Example.sim_EM Example.sim_EM Example.sim_AC
        EM_ival_pump EM_ival_Stokes AC_ival = Ok args →
      oa_pump_field args = pump_field ∧ oa_Stokes_field args = Stokes_field.
Proof.
  apply (trimmed_fields_follow_element_map
           Example.sim_EM Example.sim_EM Example.sim_AC);
    auto using example_element_map, example_field_shape, example_field_complex.
Defined.

(** C8: the relevant-permittivity list consists exactly of the squared
    refractive indices [n_list[t]**2] of the material types [t] whose
    one-based number [t+1] is in [typ_el_AC], in the enumeration order of
    the EM domain. *)
Theorem relevant_eps_effs_in_EM_order {T : Type} {np : NumPy T} {Table Tensor : Type}
    (sim_EM_pump sim_AC : Simmo T Table Tensor) :
  nb_typ_el (structure sim_EM_pump) ≤ length (n_list sim_EM_pump) →
  ∃ eps_effs,
    relevant_eps_effs sim_EM_pump sim_AC = Ok eps_effs ∧
    Forall2 (eps_of_type sim_EM_pump)
            (relevant_types sim_EM_pump sim_AC) eps_effs.
Proof. apply relevant_eps_effs_returns. Qed.

Lemma relevant_eps_effs_in_EM_order_witness :
  relevant_types Example.sim_EM Example.sim_AC = [1; 2] ∧
  ∃ eps_effs,
    relevant_eps_effs Example.sim_EM Example.sim_AC = Ok eps_effs ∧
    Forall2 (eps_of_type Example.sim_EM) [1; 2] eps_effs.
Proof.
  split; [reflexivity |].
  apply (relevant_eps_effs_in_EM_order Example.sim_EM Example.sim_AC).
  simpl. lia.
Defined.

Lemma example_arguments :
  overlap_arguments Example.sim_EM Example.sim_EM Example.sim_AC
    (PyInt 0) (PyInt 0) (PyStr "All") = Ok Example.arguments.
Proof. vm_compute. reflexivity. Defined.


(** * The Fortran calls *)

(** C9: the moving-boundary call receives 1, the first entry of the
    relevant-permittivity list, as inner-material selector; as
    outer-material selector it receives 2, the second entry, whenever the
    list has exactly two entries, else the [typ_select_out] of the caller
    when there is one, else the sentinel -1.  The call is made in every
    run whose arguments are in order and whose loss step has a value. *)
Theorem moving_boundary_material_selectors {T : Type} {np : NumPy T} {Table Tensor : Type}
    (NumBAT : Fortran T Table Tensor)
    (sim_EM_pump sim_EM_Stokes sim_AC : Simmo T Table Tensor) (k_AC : T)
    (EM_ival_pump EM_ival_Stokes AC_ival : pyobj)
    (fixed_Q : option T) (typ_select_out : option Z)
    (args : overlap_args T Table) :
  let run := gain_and_qs NumBAT sim_EM_pump sim_EM_Stokes sim_AC k_AC
               EM_ival_pump EM_ival_Stokes AC_ival fixed_Q typ_select_out in
  (∀ inner outer,
     Invoke (moving_boundary args inner outer) ∈ fst run →
     relevant_eps_effs sim_EM_pump sim_AC = Ok (oa_eps_effs args) ∧
     inner = 1%Z ∧
     (length (oa_eps_effs args) = 2 → outer = 2%Z) ∧
     (length (oa_eps_effs args) ≠ 2 →
        ∀ typ, typ_select_out = Some typ → outer = typ) ∧
     (length (oa_eps_effs args) ≠ 2 →
        typ_select_out = None → outer = (-1)%Z)) ∧
  (overlap_arguments sim_EM_pump sim_EM_Stokes sim_AC
     EM_ival_pump EM_ival_Stokes AC_ival = Ok args →
   (∃ loss, snd (acoustic_loss NumBAT sim_EM_pump sim_AC k_AC fixed_Q)
              = Ok loss) →
   ∃ inner outer, Invoke (moving_boundary args inner outer) ∈ fst run).
Proof.
  intros run. split.
  - intros inner outer Hcall. apply gain_and_qs_calls in Hcall
      as (pump & Stokes & AC & pf & sf & eps & _ & _ & _ & _ & Heps & Hc).
    simpl in Hc. destruct Hc as [[_ Hc] | [Hc | Hc]].
    + unfold loss_call in Hc. by destruct (linear_elements sim_EM_pump).
    + unfold photoelastic_call in Hc. by destruct (linear_elements sim_EM_pump).
    + unfold moving_boundary_call in Hc. injection Hc as -> -> ->.
      split; [done |]. split; [done |]. unfold select_out. simpl.
      destruct (decide (length eps = 2)) as [Hlen|Hlen].
      * split; [done |]. split; intros; done.
      * split; [done |]. split; [by intros _ typ -> | by intros _ ->].
  - intros Hargs [loss Hloss]. do 2 eexists.
    by eapply overlap_calls_made.
Qed.

Lemma moving_boundary_material_selectors_witness :
  relevant_eps_effs Example.sim_EM Example.sim_AC
    = Ok (oa_eps_effs Example.arguments) ∧
  (1 = 1)%Z ∧
  (length (oa_eps_effs Example.arguments) = 2 → (2 = 2)%Z) ∧
  (length (oa_eps_effs Example.arguments) ≠ 2 →
     ∀ typ, Some 5%Z = Some typ → 2%Z = typ) ∧
  (length (oa_eps_effs Example.arguments) ≠ 2 →
     Some 5%Z = None → (2 = -1)%Z).
Proof.
  apply (proj1 (moving_boundary_material_selectors Example.NumBAT
                  Example.sim_EM Example.sim_EM Example.sim_AC Example.k_AC
                  (PyInt 0) (PyInt 0) (PyStr "All") None (Some 5%Z)
                  Example.arguments)).
  apply (list_elem_of_lookup_2 _ 8). vm_compute. reflexivity.
Defined.

(** C10: every Fortran call that takes mode selectors receives, for each
    of [EM_ival_pump], [EM_ival_Stokes] and [AC_ival], -1 when the
    argument is the string ['All'] and the index plus one when it is an
    index, and nothing else; for a zero-based index the value is -1
    exactly when the argument is ['All'].  The only calls without
    selectors are the two loss routines; the photoelastic and the
    moving-boundary call are made in every run whose arguments are in
    order and whose loss step has a value. *)
Theorem mode_selectors_are_fortran_indices {T : Type} {np : NumPy T} {Table Tensor : Type}
    (NumBAT : Fortran T Table Tensor)
    (sim_EM_pump sim_EM_Stokes sim_AC : Simmo T Table Tensor) (k_AC : T)
    (EM_ival_pump EM_ival_Stokes AC_ival : pyobj)
    (fixed_Q : option T) (typ_select_out : option Z) :
  let run := gain_and_qs NumBAT sim_EM_pump sim_EM_Stokes sim_AC k_AC
               EM_ival_pump EM_ival_Stokes AC_ival fixed_Q typ_select_out in
  (∀ c, Invoke c ∈ fst run →
     match mode_selectors c with
     | Some (pump, Stokes, AC) =>
         fortran_form EM_ival_pump pump ∧
         fortran_form EM_ival_Stokes Stokes ∧
         fortran_form AC_ival AC ∧
         (mode_selection EM_ival_pump →
            pump = (-1)%Z ↔ EM_ival_pump = PyStr "All") ∧
         (mode_selection EM_ival_Stokes →
            Stokes = (-1)%Z ↔ EM_ival_Stokes = PyStr "All") ∧
         (mode_selection AC_ival → AC = (-1)%Z ↔ AC_ival = PyStr "All")
     | None => is_loss_call c
     end) ∧
  (∀ args loss,
     overlap_arguments sim_EM_pump sim_EM_Stokes sim_AC
       EM_ival_pump EM_ival_Stokes AC_ival = Ok args →
     snd (acoustic_loss NumBAT sim_EM_pump sim_AC k_AC fixed_Q) = Ok loss →
     Invoke (photoelastic_call sim_EM_pump sim_AC k_AC args) ∈ fst run ∧
     Invoke (moving_boundary_call args typ_select_out) ∈ fst run).
Proof.
  intros run. split; [| intros args loss; by apply overlap_calls_made].
  intros c Hcall. apply gain_and_qs_calls in Hcall
    as (pump & Stokes & AC & pf & sf & eps & Hp & Hs & Ha & _ & _ & Hc).
  apply ival_fortran_form in Hp, Hs, Ha.
  assert (fortran_form EM_ival_pump pump ∧
          fortran_form EM_ival_Stokes Stokes ∧
          fortran_form AC_ival AC ∧
          (mode_selection EM_ival_pump →
             pump = (-1)%Z ↔ EM_ival_pump = PyStr "All") ∧
          (mode_selection EM_ival_Stokes →
             Stokes = (-1)%Z ↔ EM_ival_Stokes = PyStr "All") ∧
          (mode_selection AC_ival → AC = (-1)%Z ↔ AC_ival = PyStr "All"))
    as Hsel by (repeat split; (done || by apply fortran_form_sentinel)).
  simpl in Hc. destruct Hc as [[_ ->] | [-> | ->]].
  - unfold loss_call. by destruct (linear_elements sim_EM_pump).
  - unfold photoelastic_call. by destruct (linear_elements sim_EM_pump).
  - done.
Qed.

Lemma mode_selectors_are_fortran_indices_witness :
  fortran_form (PyInt 0) 1 ∧ fortran_form (PyInt 0) 1 ∧
  fortran_form (PyStr "All") (-1) ∧
  (mode_selection (PyInt 0) → 1%Z = (-1)%Z ↔ PyInt 0 = PyStr "All") ∧
  (mode_selection (PyInt 0) → 1%Z = (-1)%Z ↔ PyInt 0 = PyStr "All") ∧
  (mode_selection (PyStr "All") → (-1)%Z = (-1)%Z ↔ PyStr "All" = PyStr "All").
Proof.
  apply (proj1 (mode_selectors_are_fortran_indices Example.NumBAT
                  Example.sim_EM Example.sim_EM Example.sim_AC Example.k_AC
                  (PyInt 0) (PyInt 0) (PyStr "All") None None)
           (photoelastic_int_v2 Example.arguments tt Example.k_AC)).
  apply (list_elem_of_lookup_2 _ 5). vm_compute. reflexivity.
Defined.


(** * The gain assembler *)

Lemma example_shape : gain_shape Example.sim_EM Example.sim_EM Example.sim_AC Example.Q_one.
Proof. repeat (split || constructor). Defined.

(** C1: with [Q = Q_PE + Q_MB], every entry of the returned [SBS_gain],
    [SBS_gain_PE] and [SBS_gain_MB] is the real part of the gain
    [2*omega_EM*Omega_AC*Re(Q*conj(Q))], taken from [Q], [Q_PE] and [Q_MB],
    over [normal_fact[i,j,k] = P_Stokes[i]*P_pump[j]*P_AC[k]*alpha[k]]; and
    [SBS_gain] is not in general the sum of the other two. *)
Theorem SBS_gain_is_normalised_overlap_gain :
  (∀ (T : Type) (np : NumPy T) (Table Tensor : Type)
     (NumBAT : Fortran T Table Tensor)
     (sim_EM_pump sim_EM_Stokes sim_AC : Simmo T Table Tensor) (k_AC : T)
     (EM_ival_pump EM_ival_Stokes AC_ival : pyobj)
     (fixed_Q : option T) (typ_select_out : option Z)
     (args : overlap_args T Table) (alpha Q_factors : list T)
     (Q_PE Q_MB : array3 T),
     overlap_arguments sim_EM_pump sim_EM_Stokes sim_AC
       EM_ival_pump EM_ival_Stokes AC_ival = Ok args →
     snd (acoustic_loss NumBAT sim_EM_pump sim_AC k_AC fixed_Q)
       = Ok (alpha, Q_factors) →
     run_overlap NumBAT (photoelastic_call sim_EM_pump sim_AC k_AC args)
       = Returned Q_PE →
     run_overlap NumBAT (moving_boundary_call args typ_select_out)
       = Returned Q_MB →
     gain_shape sim_EM_pump sim_EM_Stokes sim_AC Q_PE →
     gain_shape sim_EM_pump sim_EM_Stokes sim_AC Q_MB →
     length (Omega_AC sim_AC) = num_modes sim_AC →
     powers_cover sim_EM_pump sim_EM_Stokes sim_AC alpha →
     ∃ SBS_gain SBS_gain_PE SBS_gain_MB,
       snd (gain_and_qs NumBAT sim_EM_pump sim_EM_Stokes sim_AC k_AC
              EM_ival_pump EM_ival_Stokes AC_ival fixed_Q typ_select_out)
         = Ok (SBS_gain, SBS_gain_PE, SBS_gain_MB, alpha, Q_factors) ∧
       gain_shape sim_EM_pump sim_EM_Stokes sim_AC SBS_gain ∧
       gain_shape sim_EM_pump sim_EM_Stokes sim_AC SBS_gain_PE ∧
       gain_shape sim_EM_pump sim_EM_Stokes sim_AC SBS_gain_MB ∧
       normalised_gains sim_EM_pump sim_EM_Stokes sim_AC alpha Q_PE Q_MB
         SBS_gain SBS_gain_PE SBS_gain_MB) ∧
  (snd (gain_and_qs Example.NumBAT
          Example.sim_EM Example.sim_EM Example.sim_AC Example.k_AC
          (PyInt 0) (PyInt 0) (PyStr "All") None None)
     = Ok ([[[Binary64.Real 4; Binary64.Real 2; Binary64.Real 1]]],
           [[[Binary64.Real 1; Binary64.Real 0.5; Binary64.Real 0.25]]],
           [[[Binary64.Real 1; Binary64.Real 0.5; Binary64.Real 0.25]]],
           [Binary64.Real 2; Binary64.Real 4; Binary64.Real 8],
           [Binary64.Real 2500000; Binary64.Real 1250000;
            Binary64.Real 625000]) ∧
   Binary64.Real 4 ≠ add (Binary64.Real 1) (Binary64.Real 1)).
Proof.
  split.
  - intros. by eapply gain_tensors.
  - split; [vm_compute; reflexivity |].
    vm_compute. discriminate.
Qed.

Lemma SBS_gain_is_normalised_overlap_gain_witness :
  ∃ SBS_gain SBS_gain_PE SBS_gain_MB,
    snd (gain_and_qs Example.NumBAT
           Example.sim_EM Example.sim_EM Example.sim_AC Example.k_AC
           (PyInt 0) (PyInt 0) (PyStr "All") (Some Example.fixed_Q) None)
      = Ok (SBS_gain, SBS_gain_PE, SBS_gain_MB,
            replicate 3 (Binary64.Real 10000),
            replicate 3 (Binary64.Real 500)) ∧
    gain_shape Example.sim_EM Example.sim_EM Example.sim_AC SBS_gain ∧
    gain_shape Example.sim_EM Example.sim_EM Example.sim_AC SBS_gain_PE ∧
    gain_shape Example.sim_EM Example.sim_EM Example.sim_AC SBS_gain_MB ∧
    normalised_gains Example.sim_EM Example.sim_EM Example.sim_AC
      (replicate 3 (Binary64.Real 10000)) Example.Q_one Example.Q_one
      SBS_gain SBS_gain_PE SBS_gain_MB.
Proof.
  apply (proj1 SBS_gain_is_normalised_overlap_gain _ _ _ _ Example.NumBAT
           Example.sim_EM Example.sim_EM Example.sim_AC Example.k_AC
           (PyInt 0) (PyInt 0) (PyStr "All") (Some Example.fixed_Q) None
           Example.arguments).
  - exact example_arguments.
  - vm_compute. reflexivity.
  - reflexivity.
  - reflexivity.
  - exact example_shape.
  - exact example_shape.
  - reflexivity.
  - repeat split; simpl; lia.
Defined.

(** C2: with a [fixed_Q] no loss routine is called, [alpha] is
    [0.5*(k_AC/fixed_Q)] and [Q_factors] is [fixed_Q], each times the
    entries of [np.ones(num_modes_AC)]: for [k_AC = 1e7], [fixed_Q = 500]
    and three AC modes, [alpha == [1e4, 1e4, 1e4]] and
    [Q_factors == [500, 500, 500]].  Without a [fixed_Q] the loss routine
    is called, [alpha] is the real part of its integrals and
    [Q_factors[k]] is [0.5*(k_AC/alpha[k])], times one. *)
Theorem fixed_Q_replaces_the_loss_integral :
  (∀ (T : Type) (np : NumPy T) (Table Tensor : Type)
     (NumBAT : Fortran T Table Tensor)
     (sim_EM_pump sim_EM_Stokes sim_AC : Simmo T Table Tensor) (k_AC : T)
     (EM_ival_pump EM_ival_Stokes AC_ival : pyobj)
     (typ_select_out : option Z) (fixed_Q : T),
     let run := gain_and_qs NumBAT sim_EM_pump sim_EM_Stokes sim_AC k_AC
                  EM_ival_pump EM_ival_Stokes AC_ival (Some fixed_Q)
                  typ_select_out in
     (∀ c, Invoke c ∈ fst run → ¬ is_loss_call c) ∧
     snd (acoustic_loss NumBAT sim_EM_pump sim_AC k_AC (Some fixed_Q))
       = Ok (replicate (num_modes sim_AC)
                       (mul (mul half (div k_AC fixed_Q)) one),
             replicate (num_modes sim_AC) (mul fixed_Q one)) ∧
     ∀ SBS_gain SBS_gain_PE SBS_gain_MB alpha Q_factors,
       snd run = Ok (SBS_gain, SBS_gain_PE, SBS_gain_MB, alpha, Q_factors) →
       alpha = replicate (num_modes sim_AC)
                         (mul (mul half (div k_AC fixed_Q)) one) ∧
       Q_factors = replicate (num_modes sim_AC) (mul fixed_Q one)) ∧
  (∀ (T : Type) (np : NumPy T) (Table Tensor : Type)
     (NumBAT : Fortran T Table Tensor)
     (sim_EM_pump sim_EM_Stokes sim_AC : Simmo T Table Tensor) (k_AC : T)
     (EM_ival_pump EM_ival_Stokes AC_ival : pyobj)
     (typ_select_out : option Z)
     (args : overlap_args T Table) (integral : list T),
     let run := gain_and_qs NumBAT sim_EM_pump sim_EM_Stokes sim_AC k_AC
                  EM_ival_pump EM_ival_Stokes AC_ival None typ_select_out in
     overlap_arguments sim_EM_pump sim_EM_Stokes sim_AC
       EM_ival_pump EM_ival_Stokes AC_ival = Ok args →
     run_alpha NumBAT (loss_call sim_EM_pump sim_AC k_AC)
       = Returned integral →
     length integral = num_modes sim_AC →
     Invoke (loss_call sim_EM_pump sim_AC k_AC) ∈ fst run ∧
     (∃ Q_factors,
        snd (acoustic_loss NumBAT sim_EM_pump sim_AC k_AC None)
          = Ok (map np_real integral, Q_factors)) ∧
     ∀ SBS_gain SBS_gain_PE SBS_gain_MB alpha Q_factors,
       snd run = Ok (SBS_gain, SBS_gain_PE, SBS_gain_MB, alpha, Q_factors) →
       alpha = map np_real integral ∧
       length Q_factors = num_modes sim_AC ∧
       ∀ k a, alpha !! k = Some a →
              Q_factors !! k = Some (mul (mul half (div k_AC a)) one)) ∧
  (∃ SBS_gain SBS_gain_PE SBS_gain_MB,
     snd (gain_and_qs Example.NumBAT
            Example.sim_EM Example.sim_EM Example.sim_AC
            (Binary64.Real 10000000)
            (PyInt 0) (PyInt 0) (PyStr "All") (Some (Binary64.Real 500)) None)
       = Ok (SBS_gain, SBS_gain_PE, SBS_gain_MB,
             [Binary64.Real 10000; Binary64.Real 10000; Binary64.Real 10000],
             [Binary64.Real 500; Binary64.Real 500; Binary64.Real 500])).
Proof.
  split; [| split].
  - intros T np Table Tensor NumBAT sim_EM_pump sim_EM_Stokes sim_AC k_AC
      EM_ival_pump EM_ival_Stokes AC_ival typ_select_out fixed_Q run.
    assert (snd (acoustic_loss NumBAT sim_EM_pump sim_AC k_AC (Some fixed_Q))
            = Ok (replicate (num_modes sim_AC)
                            (mul (mul half (div k_AC fixed_Q)) one),
                  replicate (num_modes sim_AC) (mul fixed_Q one))) as Hloss
      by (rewrite snd_acoustic_loss_Some; by rewrite !map_full1).
    split; [| split; [done |]].
    + intros c Hc. apply gain_and_qs_calls in Hc
        as (pump & Stokes & AC & pf & sf & eps & _ & _ & _ & _ & _ & Hc).
      simpl in Hc. destruct Hc as [[? _] | [-> | ->]]; [done | | by intros []].
      unfold photoelastic_call.
      destruct (linear_elements sim_EM_pump); by intros [].
    + intros S1 S2 S3 alpha Qf Hrun. apply snd_gain_and_qs_loss in Hrun.
      rewrite Hloss in Hrun. by injection Hrun as <- <-.
  - intros T np Table Tensor NumBAT sim_EM_pump sim_EM_Stokes sim_AC k_AC
      EM_ival_pump EM_ival_Stokes AC_ival typ_select_out args integral run
      Hargs Hint Hlen.
    destruct (acoustic_loss_computed NumBAT sim_EM_pump sim_AC k_AC integral)
      as (Qf & Hloss & HQf & Hval); [done.. |].
    split; [| split; [by exists Qf |]].
    + unfold run. rewrite (fst_gain_and_qs _ _ _ _ _ _ _ _ _ _ args) by done.
      apply elem_of_cons. right. apply elem_of_app. left.
      unfold acoustic_loss, loss_call in *.
      destruct (linear_elements sim_EM_pump);
        [| destruct (curvilinear_unknown sim_EM_pump)];
        rewrite Hint; simpl; destruct (broadcast1 _ _ _); simpl;
        rewrite !elem_of_cons; auto.
    + intros S1 S2 S3 alpha Qf' Hrun. apply snd_gain_and_qs_loss in Hrun.
      rewrite Hloss in Hrun. by injection Hrun as <- <-.
  - do 3 eexists. vm_compute. reflexivity.
Qed.

Lemma fixed_Q_replaces_the_loss_integral_witness :
  Invoke (loss_call Example.sim_EM Example.sim_AC Example.k_AC)
    ∈ fst (gain_and_qs Example.NumBAT
             Example.sim_EM Example.sim_EM Example.sim_AC Example.k_AC
             (PyInt 0) (PyInt 0) (PyStr "All") None None).
Proof.
  apply (proj1 (proj2 fixed_Q_replaces_the_loss_integral) _ _ _ _
           Example.NumBAT Example.sim_EM Example.sim_EM Example.sim_AC
           Example.k_AC (PyInt 0) (PyInt 0) (PyStr "All") None
           Example.arguments Example.loss).
  - exact example_arguments.
  - reflexivity.
  - reflexivity.
Defined.

(** C6, as the code has it: an interrupt of one of the three Fortran calls
    is caught and logged where the call is made, and the statements after
    the handler run; the interrupted call has assigned nothing, so no
    result is returned: the first later read of [alpha], [Q_PE] or [Q_MB]
    raises [UnboundLocalError].  After an interrupted loss call no other
    call is made; after an interrupted photoelastic call the
    moving-boundary call is still made. *)
Theorem interrupted_call_leaves_its_variable_unbound
    {T : Type} {np : NumPy T} {Table Tensor : Type}
    (NumBAT : Fortran T Table Tensor)
    (sim_EM_pump sim_EM_Stokes sim_AC : Simmo T Table Tensor) (k_AC : T)
    (EM_ival_pump EM_ival_Stokes AC_ival : pyobj)
    (fixed_Q : option T) (typ_select_out : option Z)
    (args : overlap_args T Table) :
  overlap_arguments sim_EM_pump sim_EM_Stokes sim_AC
    EM_ival_pump EM_ival_Stokes AC_ival = Ok args →
  let run := gain_and_qs NumBAT sim_EM_pump sim_EM_Stokes sim_AC k_AC
               EM_ival_pump EM_ival_Stokes AC_ival fixed_Q typ_select_out in
  let loss := loss_call sim_EM_pump sim_AC k_AC in
  let PE := photoelastic_call sim_EM_pump sim_AC k_AC args in
  let MB := moving_boundary_call args typ_select_out in
  (fixed_Q = None → run_alpha NumBAT loss = KeyboardInterrupt →
     snd run = Raise (UnboundLocalError "alpha") ∧
     ∃ before,
       fst run = before ++ [Invoke loss; Print (interrupted "ac_alpha_int")]) ∧
  (∀ alpha Q_factors,
     snd (acoustic_loss NumBAT sim_EM_pump sim_AC k_AC fixed_Q)
       = Ok (alpha, Q_factors) →
     run_overlap NumBAT PE = KeyboardInterrupt →
     snd run = Raise (UnboundLocalError "Q_PE") ∧
     ∃ before after,
       fst run = before ++ [Invoke PE; Print (interrupted "photoelastic_int")]
                        ++ after ∧
       Invoke MB ∈ after) ∧
  (∀ alpha Q_factors Q_PE,
     snd (acoustic_loss NumBAT sim_EM_pump sim_AC k_AC fixed_Q)
       = Ok (alpha, Q_factors) →
     run_overlap NumBAT PE = Returned Q_PE →
     run_overlap NumBAT MB = KeyboardInterrupt →
     snd run = Raise (UnboundLocalError "Q_MB") ∧
     ∃ before after,
       fst run = before ++ [Invoke MB; Print (interrupted "moving_boundary")]
                        ++ after ∧
       ∀ c, Invoke c ∉ after).
Proof.
  intros Hargs run loss PE MB. unfold run. split; [| split].
  - intros -> Hint.
    assert (snd (acoustic_loss NumBAT sim_EM_pump sim_AC k_AC None)
            = Raise (UnboundLocalError "alpha")) as Hloss
      by (rewrite snd_acoustic_loss_None; fold loss; by rewrite Hint).
    split; [by eapply snd_gain_and_qs_no_loss |].
    rewrite (fst_gain_and_qs _ _ _ _ _ _ _ _ _ _ args), Hloss by done.
    destruct (fst_acoustic_loss_interrupted NumBAT sim_EM_pump sim_AC k_AC Hint)
      as [before ->].
    eexists (_ :: before). by rewrite app_nil_r.
  - intros alpha Qf Hloss Hint.
    split.
    { eapply snd_gain_and_qs_unbound; [done.. |]. fold PE. by rewrite Hint. }
    rewrite (fst_gain_and_qs _ _ _ _ _ _ _ _ _ _ args), Hloss by done.
    destruct (fst_photoelastic_interrupted NumBAT sim_EM_pump sim_AC k_AC args Hint)
      as [before ->].
    eexists (_ :: fst (acoustic_loss _ _ _ _ _) ++ before),
            ([PrintTime] ++ fst (moving_boundary_calc NumBAT args typ_select_out)).
    split; [simpl; rewrite <- !app_assoc; reflexivity |].
    rewrite fst_moving_boundary_calc. fold MB. simpl.
    rewrite !elem_of_cons. auto.
  - intros alpha Qf Q_PE Hloss HPE Hint.
    split.
    { eapply snd_gain_and_qs_unbound; [done.. |]. fold PE MB.
      by rewrite HPE, Hint. }
    rewrite (fst_gain_and_qs _ _ _ _ _ _ _ _ _ _ args), Hloss by done.
    rewrite fst_moving_boundary_calc. fold MB. rewrite Hint.
    eexists (_ :: fst (acoustic_loss _ _ _ _ _) ++ fst (photoelastic _ _ _ _ _)
               ++ [Print "Moving boundary calc"]), _.
    split; [simpl; rewrite <- !app_assoc; simpl; reflexivity |].
    intros c Hc. simpl in Hc.
    repeat (apply elem_of_cons in Hc as [Hc|Hc]; [discriminate |]).
    by apply elem_of_nil in Hc.
Qed.

Lemma interrupted_call_leaves_its_variable_unbound_witness :
  snd (gain_and_qs
         (Example.library (Returned Example.loss) KeyboardInterrupt
            (Returned Example.Q_one))
         Example.sim_EM Example.sim_EM Example.sim_AC Example.k_AC
         (PyInt 0) (PyInt 0) (PyStr "All") None None)
    = Raise (UnboundLocalError "Q_PE").
Proof.
  refine (proj1 (proj1 (proj2
    (interrupted_call_leaves_its_variable_unbound
       (Example.library (Returned Example.loss) KeyboardInterrupt
          (Returned Example.Q_one))
       Example.sim_EM Example.sim_EM Example.sim_AC Example.k_AC
       (PyInt 0) (PyInt 0) (PyStr "All") None None Example.arguments
       example_arguments))
    (map np_real Example.loss) _ _ _)).
  - vm_compute. reflexivity.
  - reflexivity.
Defined.

(** C6 as stated fails: with the loss call interrupted, [gain_and_qs]
    returns no result. *)
Lemma interrupted_loss_call_returns_nothing :
  ¬ ∃ result,
      snd (gain_and_qs
             (Example.library KeyboardInterrupt (Returned Example.Q_one)
                (Returned Example.Q_one))
             Example.sim_EM Example.sim_EM Example.sim_AC Example.k_AC
             (PyInt 0) (PyInt 0) (PyStr "All") None None)
        = Ok result.
Proof. intros [result H]. vm_compute in H. discriminate. Qed.

(** C7, as the code has it: a zero among the mode powers or in [alpha] is
    not detected.  No error is raised; the entry of [normal_fact] is the
    product with the zero factor, the division is performed and its real
    part is returned in the three gain tensors. *)
Theorem zero_power_is_divided_by {T : Type} {np : NumPy T} {Table Tensor : Type}
    (NumBAT : Fortran T Table Tensor)
    (sim_EM_pump sim_EM_Stokes sim_AC : Simmo T Table Tensor) (k_AC : T)
    (EM_ival_pump EM_ival_Stokes AC_ival : pyobj)
    (fixed_Q : option T) (typ_select_out : option Z)
    (args : overlap_args T Table) (alpha Q_factors : list T)
    (Q_PE Q_MB : array3 T) (i j k : nat) (q_PE q_MB P1 P2 P3 a Omega : T) :
  overlap_arguments sim_EM_pump sim_EM_Stokes sim_AC
    EM_ival_pump EM_ival_Stokes AC_ival = Ok args →
  snd (acoustic_loss NumBAT sim_EM_pump sim_AC k_AC fixed_Q)
    = Ok (alpha, Q_factors) →
  run_overlap NumBAT (photoelastic_call sim_EM_pump sim_AC k_AC args)
    = Returned Q_PE →
  run_overlap NumBAT (moving_boundary_call args typ_select_out)
    = Returned Q_MB →
  gain_shape sim_EM_pump sim_EM_Stokes sim_AC Q_PE →
  gain_shape sim_EM_pump sim_EM_Stokes sim_AC Q_MB →
  length (Omega_AC sim_AC) = num_modes sim_AC →
  powers_cover sim_EM_pump sim_EM_Stokes sim_AC alpha →
  lookup3 Q_PE i j k = Some q_PE →
  lookup3 Q_MB i j k = Some q_MB →
  EM_mode_power sim_EM_Stokes !! i = Some P1 →
  EM_mode_power sim_EM_pump !! j = Some P2 →
  AC_mode_power sim_AC !! k = Some P3 →
  alpha !! k = Some a →
  Omega_AC sim_AC !! k = Some Omega →
  P1 = zero ∨ P2 = zero ∨ P3 = zero ∨ a = zero →
  ∃ SBS_gain SBS_gain_PE SBS_gain_MB,
    snd (gain_and_qs NumBAT sim_EM_pump sim_EM_Stokes sim_AC k_AC
           EM_ival_pump EM_ival_Stokes AC_ival fixed_Q typ_select_out)
      = Ok (SBS_gain, SBS_gain_PE, SBS_gain_MB, alpha, Q_factors) ∧
    let fact := normal_value P1 P2 P3 a in
    lookup3 SBS_gain i j k
      = Some (np_real (div (gain_value sim_EM_pump Omega (add q_PE q_MB)) fact)) ∧
    lookup3 SBS_gain_PE i j k
      = Some (np_real (div (gain_value sim_EM_pump Omega q_PE) fact)) ∧
    lookup3 SBS_gain_MB i j k
      = Some (np_real (div (gain_value sim_EM_pump Omega q_MB) fact)).
Proof.
  intros Hargs Hloss HPE HMB HshPE HshMB HOmega Hpowers
    HqPE HqMB HP1 HP2 HP3 Ha HOm _.
  destruct (gain_tensors NumBAT sim_EM_pump sim_EM_Stokes sim_AC k_AC
              EM_ival_pump EM_ival_Stokes AC_ival fixed_Q typ_select_out
              args alpha Q_factors Q_PE Q_MB)
    as (S1 & S2 & S3 & Hrun & _ & _ & _ & Hgains); [done.. |].
  exists S1, S2, S3. split; [done |]. by eapply Hgains.
Qed.

Lemma zero_power_is_divided_by_witness :
  ∃ SBS_gain SBS_gain_PE SBS_gain_MB,
    snd (gain_and_qs Example.NumBAT
           Example.sim_EM Example.sim_EM_dark Example.sim_AC Example.k_AC
           (PyInt 0) (PyInt 0) (PyStr "All") (Some Example.fixed_Q) None)
      = Ok (SBS_gain, SBS_gain_PE, SBS_gain_MB,
            replicate 3 (Binary64.Real 10000),
            replicate 3 (Binary64.Real 500)) ∧
    let fact := normal_value (Binary64.Real 0) (Binary64.Real 1)
                  (Binary64.Real 1) (Binary64.Real 10000) in
    lookup3 SBS_gain 0 0 0
      = Some (np_real (div (gain_value Example.sim_EM (Binary64.Real 1)
                              (add (Binary64.Real 1) (Binary64.Real 1))) fact)) ∧
    lookup3 SBS_gain_PE 0 0 0
      = Some (np_real (div (gain_value Example.sim_EM (Binary64.Real 1)
                              (Binary64.Real 1)) fact)) ∧
    lookup3 SBS_gain_MB 0 0 0
      = Some (np_real (div (gain_value Example.sim_EM (Binary64.Real 1)
                              (Binary64.Real 1)) fact)).
Proof.
  apply (zero_power_is_divided_by Example.NumBAT
           Example.sim_EM Example.sim_EM_dark Example.sim_AC Example.k_AC
           (PyInt 0) (PyInt 0) (PyStr "All") (Some Example.fixed_Q) None
           Example.arguments (replicate 3 (Binary64.Real 10000))
           (replicate 3 (Binary64.Real 500)) Example.Q_one Example.Q_one
           0 0 0).
  - vm_compute. reflexivity.
  - vm_compute. reflexivity.
  - reflexivity.
  - reflexivity.
  - repeat (split || constructor).
  - repeat (split || constructor).
  - reflexivity.
  - repeat split; simpl; lia.
  - reflexivity.
  - reflexivity.
  - reflexivity.
  - reflexivity.
  - reflexivity.
  - reflexivity.
  - reflexivity.
  - by left.
Defined.

(** C7 as stated fails: a Stokes mode without power raises no error, and
    the gain tensors come back filled with infinities. *)
Lemma zero_power_returns_infinities :
  snd (gain_and_qs Example.NumBAT
         Example.sim_EM Example.sim_EM_dark Example.sim_AC Example.k_AC
         (PyInt 0) (PyInt 0) (PyStr "All") (Some Example.fixed_Q) None)
  = Ok ([[[Binary64.Real infinity; Binary64.Real infinity;
           Binary64.Real infinity]]],
        [[[Binary64.Real infinity; Binary64.Real infinity;
           Binary64.Real infinity]]],
        [[[Binary64.Real infinity; Binary64.Real infinity;
           Binary64.Real infinity]]],
        [Binary64.Real 10000; Binary64.Real 10000; Binary64.Real 10000],
        [Binary64.Real 500; Binary64.Real 500; Binary64.Real 500]).
Proof. vm_compute. reflexivity. Qed.


(** * The symmetry classifier *)

(** C4, as the code has it: for every mode, each of the three scores is
    the sum over the grid of the absolute differences of [Ex] and of [Ey]
    against their images, divided by [n_pts_x*n_pts_y].  The y-mirror
    compares [Ex[ix,iy]] with [Ex[ix,Ny-1-iy]] and [Ey[ix,iy]] with
    [-Ey[ix,Ny-1-iy]], the x-mirror [Ex[ix,iy]] with [-Ex[Nx-1-ix,iy]]
    and [Ey[ix,iy]] with [Ey[Nx-1-ix,iy]], the rotation each component
    with the negative of its value at [(Nx-1-ix, Ny-1-iy)].  The fields
    are masked arrays: a grid point outside the mesh adds nothing to a
    sum, and the image taken from such a point is 0.  A score is
    labelled -1 when its absolute value is greater than the threshold
    (0.1 for the mirrors, 0.2 for the rotation) and +1 otherwise, also
    when it equals the threshold; the entry of the mode is
    [C_2 label, y-mirror label, x-mirror label]. *)
Theorem symmetry_labels_of_the_modes {T : Type} {np : NumPy T} {Table Tensor : Type}
    (interpolate : Simmo T Table Tensor → nat → Interpolated T)
    (sim_wguide : Simmo T Table Tensor) (n_points : nat)
    (negligible_threshold : T) :
  let grid := interpolate sim_wguide n_points in
  (∀ ival, ival < length (Eig_values sim_wguide) →
           resampled grid negligible_threshold ival) →
  ∃ sym_list,
    symmetries interpolate sim_wguide n_points negligible_threshold
      = Ok sym_list ∧
    length sym_list = length (Eig_values sim_wguide) ∧
    ∀ ival Ex Ey,
      ival < length (Eig_values sim_wguide) →
      field_components grid negligible_threshold ival = Ok (Ex, Ey) →
      ∃ labels,
        sym_list !! ival = Some labels ∧
        classified (n_pts_x grid) (n_pts_y grid) Ex Ey labels.
Proof. intros grid Hgrid. by apply symmetries_returns. Qed.

Lemma symmetry_labels_of_the_modes_witness :
  ∃ sym_list,
    symmetries (λ _ _, Example.uniform_Ey) Example.sim_EM 10
      Example.negligible_threshold = Ok sym_list ∧
    length sym_list = 1 ∧
    ∀ ival Ex Ey,
      ival < 1 →
      field_components Example.uniform_Ey Example.negligible_threshold ival
        = Ok (Ex, Ey) →
      ∃ labels, sym_list !! ival = Some labels ∧ classified 2 2 Ex Ey labels.
Proof.
  apply (symmetry_labels_of_the_modes (λ _ _, Example.uniform_Ey)
           Example.sim_EM 10 Example.negligible_threshold).
  intros ival _. repeat split; try (repeat constructor).
  eexists. vm_compute. reflexivity.
Defined.

(** C4 as stated fails on the threshold: the y-mirror score of a uniform
    [Ey = 0.05] is 0.1, which is not below the threshold 0.1, and its
    label is +1. *)
Lemma score_on_the_threshold_is_labelled_symmetric :
  ∃ Ex Ey,
    field_components Example.uniform_Ey Example.negligible_threshold 0
      = Ok (Ex, Ey) ∧
    sigma_y_score 2 2 Ex Ey = plain tenth ∧
    holds less (sigma_y_score 2 2 Ex Ey) tenth = false ∧
    symmetries (λ _ _, Example.uniform_Ey) Example.sim_EM 10
      Example.negligible_threshold = Ok [[1; 1; 1]%Z].
Proof. do 2 eexists. repeat split; vm_compute; reflexivity. Qed.

(** C5: the grid points outside the mesh are left out of the
    negligible-magnitude check and of the sums.  When every component of
    every mode has a grid point inside the mesh, [symmetries] returns;
    the check of a component is decided by the greatest magnitude over
    the points inside the mesh; the three scores of a mode are numbers,
    the sums of [C_2_score], [sigma_y_score] and [sigma_x_score], to
    which a point outside the mesh adds nothing; and the scores and the
    labels are the same for an interpolation that holds other data at
    the points outside the mesh. *)
Theorem points_outside_the_mesh_are_left_out
    {T : Type} {np : NumPy T} {Table Tensor : Type}
    (interpolate interpolate' : Simmo T Table Tensor → nat → Interpolated T)
    (sim_wguide : Simmo T Table Tensor) (n_points : nat)
    (negligible_threshold : T) :
  let grid := interpolate sim_wguide n_points in
  let grid' := interpolate' sim_wguide n_points in
  (∀ ival, ival < length (Eig_values sim_wguide) →
           meets_the_mesh grid ival ∧ same_inside_the_mesh grid grid' ival) →
  ∃ sym_list,
    symmetries interpolate sim_wguide n_points negligible_threshold
      = Ok sym_list ∧
    symmetries interpolate' sim_wguide n_points negligible_threshold
      = Ok sym_list ∧
    ∀ ival,
      ival < length (Eig_values sim_wguide) →
      ∃ m_Ex m_Ey Ex Ey C_2 sigma_y sigma_x,
        complex_field (m_ReEx grid ival) (m_ImEx grid ival) = Ok m_Ex ∧
        complex_field (m_ReEy grid ival) (m_ImEy grid ival) = Ok m_Ey ∧
        field_components grid negligible_threshold ival = Ok (Ex, Ey) ∧
        checked_on_mesh grid negligible_threshold m_Ex Ex ∧
        checked_on_mesh grid negligible_threshold m_Ey Ey ∧
        C_2_score (n_pts_x grid) (n_pts_y grid) Ex Ey = plain C_2 ∧
        sigma_y_score (n_pts_x grid) (n_pts_y grid) Ex Ey = plain sigma_y ∧
        sigma_x_score (n_pts_x grid) (n_pts_y grid) Ex Ey = plain sigma_x ∧
        mode_scores grid negligible_threshold ival
          = Ok (plain C_2, plain sigma_y, plain sigma_x) ∧
        mode_scores grid' negligible_threshold ival
          = Ok (plain C_2, plain sigma_y, plain sigma_x) ∧
        sym_list !! ival
          = Some (symmetry_labels (plain C_2, plain sigma_y, plain sigma_x)).
Proof.
  intros grid grid' Hgrid.
  pose (scores := λ ival,
          match mode_scores grid negligible_threshold ival with
          | Ok s => s
          | Raise _ => (masked, masked, masked)
          end).
  assert (∀ ival, ival < length (Eig_values sim_wguide) →
            mode_scores grid negligible_threshold ival = Ok (scores ival) ∧
            mode_scores grid' negligible_threshold ival = Ok (scores ival))
    as Hscores.
  { intros ival Hival. destruct (Hgrid ival Hival) as [Hmeets Hsame].
    destruct (mode_scores_on_mesh grid grid' negligible_threshold ival
                Hmeets Hsame)
      as (? & ? & ? & ? & ? & ? & ? & _ & _ & _ & _ & _ & _ & _ & _ & H & H').
    unfold scores. by rewrite H, H'. }
  eexists. split; [| split].
  - apply (symmetries_of_scores interpolate sim_wguide n_points
             negligible_threshold scores).
    intros ival Hival. by apply Hscores.
  - apply (symmetries_of_scores interpolate' sim_wguide n_points
             negligible_threshold scores).
    intros ival Hival. by apply Hscores.
  - intros ival Hival. destruct (Hgrid ival Hival) as [Hmeets Hsame].
    destruct (mode_scores_on_mesh grid grid' negligible_threshold ival
                Hmeets Hsame)
      as (m_Ex & m_Ey & Ex & Ey & C_2 & sigma_y & sigma_x & H1 & H2 & H3 & H4
          & H5 & H6 & H7 & H8 & H9 & H10).
    exists m_Ex, m_Ey, Ex, Ey, C_2, sigma_y, sigma_x.
    do 10 (split; [done |]).
    rewrite list_lookup_fmap, lookup_seq_lt by done. simpl.
    unfold scores. by rewrite H9.
Qed.

Lemma points_outside_the_mesh_are_left_out_witness :
  ∃ sym_list,
    symmetries (λ _ _, Example.corner_outside) Example.sim_EM 10
      Example.negligible_threshold = Ok sym_list ∧
    symmetries (λ _ _, Example.corner_holding 7) Example.sim_EM 10
      Example.negligible_threshold = Ok sym_list ∧
    ∀ ival,
      ival < length (Eig_values Example.sim_EM) →
      ∃ m_Ex m_Ey Ex Ey C_2 sigma_y sigma_x,
        complex_field (m_ReEx Example.corner_outside ival)
          (m_ImEx Example.corner_outside ival) = Ok m_Ex ∧
        complex_field (m_ReEy Example.corner_outside ival)
          (m_ImEy Example.corner_outside ival) = Ok m_Ey ∧
        field_components Example.corner_outside Example.negligible_threshold
          ival = Ok (Ex, Ey) ∧
        checked_on_mesh Example.corner_outside Example.negligible_threshold
          m_Ex Ex ∧
        checked_on_mesh Example.corner_outside Example.negligible_threshold
          m_Ey Ey ∧
        C_2_score 2 2 Ex Ey = plain C_2 ∧
        sigma_y_score 2 2 Ex Ey = plain sigma_y ∧
        sigma_x_score 2 2 Ex Ey = plain sigma_x ∧
        mode_scores Example.corner_outside Example.negligible_threshold ival
          = Ok (plain C_2, plain sigma_y, plain sigma_x) ∧
        mode_scores (Example.corner_holding 7) Example.negligible_threshold
          ival = Ok (plain C_2, plain sigma_y, plain sigma_x) ∧
        sym_list !! ival
          = Some (symmetry_labels (plain C_2, plain sigma_y, plain sigma_x)).
Proof.
  apply (points_outside_the_mesh_are_left_out
           (λ _ _, Example.corner_outside) (λ _ _, Example.corner_holding 7)
           Example.sim_EM 10 Example.negligible_threshold).
  intros ival _. split.
  - repeat split; try (repeat constructor).
    do 2 eexists. repeat split; vm_compute; reflexivity.
  - repeat split; repeat constructor; done.
Defined.

(** The grid of the witness: its point [(0, 0)] is outside the mesh, [Ex]
    is 1 and [Ey] vanishes on the three other points.  The scores are
    [C_2 = 5/4], [sigma_y = 1/4] and [sigma_x = 5/4], and every label is
    -1. *)
Lemma scores_beside_a_point_outside_the_mesh :
  mode_scores Example.corner_outside Example.negligible_threshold 0
    = Ok (plain (Binary64.Real 1.25), plain (Binary64.Real 0.25),
          plain (Binary64.Real 1.25)) ∧
  symmetries (λ _ _, Example.corner_outside) Example.sim_EM 10
    Example.negligible_threshold = Ok [[-1; -1; -1]%Z].
Proof. split; vm_compute; reflexivity. Qed.

(** * Further properties of [gain_and_qs] *)

(** ** Errors in the arguments *)

Section ArgumentFacts.
Context {T : Type} {np : NumPy T} {Table Tensor : Type}.
Abbreviation Simmo := (Simmo T Table Tensor).
Abbreviation fortran_call := (fortran_call T Table Tensor).
Variable NumBAT : Fortran T Table Tensor.

Lemma gain_and_qs_arguments_raise (sim_EM_pump sim_EM_Stokes sim_AC : Simmo)
    k_AC EM_ival_pump EM_ival_Stokes AC_ival fixed_Q typ_select_out e :
  overlap_arguments sim_EM_pump sim_EM_Stokes sim_AC
    EM_ival_pump EM_ival_Stokes AC_ival = Raise e →
  gain_and_qs NumBAT sim_EM_pump sim_EM_Stokes sim_AC k_AC
    EM_ival_pump EM_ival_Stokes AC_ival fixed_Q typ_select_out
  = ([], Raise e).
Proof.
  unfold overlap_arguments, gain_and_qs. intros Hargs.
  destruct (ival_fortran EM_ival_pump) as [pump|]; [| by injection Hargs as ->].
  destruct (ival_fortran EM_ival_Stokes) as [Stokes|];
    [| by injection Hargs as ->].
  destruct (ival_fortran AC_ival) as [AC|]; [| by injection Hargs as ->].
  destruct (trimmed_EM_fields _ _ _) as [[pf sf]|]; [| by injection Hargs as ->].
  destruct (relevant_eps_effs _ _) as [eps|]; [done | by injection Hargs as ->].
Qed.

Lemma ival_fortran_raises ival e : ival_fortran ival = Raise e → e = TypeError.
Proof.
  destruct ival as [s|z]; simpl; [|done].
  destruct (String.eqb s "All"); [done | by intros [= <-]].
Qed.

Lemma ival_fortran_other_string s :
  s ≠ "All" → ival_fortran (PyStr s) = Raise TypeError.
Proof. intros Hs. simpl. by destruct (String.eqb_spec s "All"). Qed.

Lemma overlap_arguments_TypeError (sim_EM_pump sim_EM_Stokes sim_AC : Simmo)
    EM_ival_pump EM_ival_Stokes AC_ival s :
  s ≠ "All" →
  EM_ival_pump = PyStr s ∨ EM_ival_Stokes = PyStr s ∨ AC_ival = PyStr s →
  overlap_arguments sim_EM_pump sim_EM_Stokes sim_AC
    EM_ival_pump EM_ival_Stokes AC_ival = Raise TypeError.
Proof.
  intros Hs Hsel. unfold overlap_arguments.
  destruct (ival_fortran EM_ival_pump) as [pump|e] eqn:Hp;
    [| by rewrite (ival_fortran_raises _ _ Hp)].
  destruct (ival_fortran EM_ival_Stokes) as [Stokes|e] eqn:HS;
    [| by rewrite (ival_fortran_raises _ _ HS)].
  destruct (ival_fortran AC_ival) as [AC|e] eqn:HA;
    [| by rewrite (ival_fortran_raises _ _ HA)].
  destruct Hsel as [-> | [-> | ->]];
    by rewrite ival_fortran_other_string in *.
Qed.
End ArgumentFacts.

(** X1: an error in the arguments of [gain_and_qs] (a mode selection that
    cannot be converted, an element map or an index list that cannot be
    read) is raised before anything is printed and before any Fortran
    routine is called; a selection that is a string other than ['All']
    raises [TypeError]. *)
Theorem argument_errors_precede_all_output
    {T : Type} {np : NumPy T} {Table Tensor : Type}
    (NumBAT : Fortran T Table Tensor)
    (sim_EM_pump sim_EM_Stokes sim_AC : Simmo T Table Tensor) (k_AC : T)
    (EM_ival_pump EM_ival_Stokes AC_ival : pyobj)
    (fixed_Q : option T) (typ_select_out : option Z) :
  let run := gain_and_qs NumBAT sim_EM_pump sim_EM_Stokes sim_AC k_AC
               EM_ival_pump EM_ival_Stokes AC_ival fixed_Q typ_select_out in
  (∀ e, overlap_arguments sim_EM_pump sim_EM_Stokes sim_AC
          EM_ival_pump EM_ival_Stokes AC_ival = Raise e →
        run = ([], Raise e)) ∧
  (∀ s, s ≠ "All" →
        EM_ival_pump = PyStr s ∨ EM_ival_Stokes = PyStr s ∨ AC_ival = PyStr s →
        run = ([], Raise TypeError)).
Proof.
  intros run. split.
  - intros e. apply gain_and_qs_arguments_raise.
  - intros s Hs Hsel. apply gain_and_qs_arguments_raise.
    by eapply overlap_arguments_TypeError.
Qed.

Lemma argument_errors_precede_all_output_witness :
  gain_and_qs Example.NumBAT Example.sim_EM Example.sim_EM Example.sim_AC
    Example.k_AC (PyInt 0) (PyStr "all") (PyStr "All") None None
  = ([], Raise TypeError).
Proof.
  apply (proj2 (argument_errors_precede_all_output Example.NumBAT
                  Example.sim_EM Example.sim_EM Example.sim_AC Example.k_AC
                  (PyInt 0) (PyStr "all") (PyStr "All") None None) "all").
  - discriminate.
  - right. left. reflexivity.
Defined.

(** ** Mode selections *)

Lemma same_selection_ival_fortran (a b : pyobj) :
  same_selection a b → ival_fortran a = ival_fortran b.
Proof. by intros [-> | [[-> ->] | [-> ->]]]. Qed.

Lemma ival_fortran_same_selection (a b : pyobj) va vb :
  ival_fortran a = Ok va → ival_fortran b = Ok vb →
  va = vb ↔ same_selection a b.
Proof.
  intros Ha Hb. split.
  - intros <-. unfold same_selection.
    destruct a as [s|z], b as [s'|z']; simpl in Ha, Hb.
    + destruct (String.eqb_spec s "All") as [->|]; [|done].
      destruct (String.eqb_spec s' "All") as [->|]; [|done]. by left.
    + destruct (String.eqb_spec s "All") as [->|]; [|done].
      injection Ha as <-. injection Hb as Hb.
      assert (z' = (-2)%Z) as -> by lia. right. by left.
    + destruct (String.eqb_spec s' "All") as [->|]; [|done].
      injection Hb as <-. injection Ha as Ha.
      assert (z = (-2)%Z) as -> by lia. right. by right.
    + injection Ha as <-. injection Hb as Hb.
      assert (z' = z) as -> by lia. by left.
  - intros Hsame. apply same_selection_ival_fortran in Hsame.
    rewrite Hsame in Ha. congruence.
Qed.

(** X7: the Fortran selector of a mode selection is -1 for ['All'] and the
    index plus one for an index, so the index -2 gets the selector of
    ['All']: two selections have the same selector exactly when they are
    equal or are ['All'] and -2, and a run with -2 in place of ['All'] is
    the same run, with the same log and the same result. *)
Theorem index_minus_two_selects_all_modes
    {T : Type} {np : NumPy T} {Table Tensor : Type}
    (NumBAT : Fortran T Table Tensor)
    (sim_EM_pump sim_EM_Stokes sim_AC : Simmo T Table Tensor) (k_AC : T)
    (EM_ival_pump EM_ival_Stokes AC_ival : pyobj)
    (EM_ival_pump' EM_ival_Stokes' AC_ival' : pyobj)
    (fixed_Q : option T) (typ_select_out : option Z) :
  (∀ pump pump', ival_fortran EM_ival_pump = Ok pump →
                 ival_fortran EM_ival_pump' = Ok pump' →
                 pump = pump' ↔ same_selection EM_ival_pump EM_ival_pump') ∧
  (same_selection EM_ival_pump EM_ival_pump' →
   same_selection EM_ival_Stokes EM_ival_Stokes' →
   same_selection AC_ival AC_ival' →
   gain_and_qs NumBAT sim_EM_pump sim_EM_Stokes sim_AC k_AC
     EM_ival_pump EM_ival_Stokes AC_ival fixed_Q typ_select_out
   = gain_and_qs NumBAT sim_EM_pump sim_EM_Stokes sim_AC k_AC
       EM_ival_pump' EM_ival_Stokes' AC_ival' fixed_Q typ_select_out).
Proof.
  split; [intros pump pump'; apply ival_fortran_same_selection |].
  intros Hp HS HA. unfold gain_and_qs.
  by rewrite (same_selection_ival_fortran _ _ Hp),
    (same_selection_ival_fortran _ _ HS), (same_selection_ival_fortran _ _ HA).
Qed.

Lemma index_minus_two_selects_all_modes_witness :
  gain_and_qs Example.NumBAT Example.sim_EM Example.sim_EM Example.sim_AC
    Example.k_AC (PyInt 0) (PyInt 0) (PyInt (-2)) None None
  = gain_and_qs Example.NumBAT Example.sim_EM Example.sim_EM Example.sim_AC
      Example.k_AC (PyInt 0) (PyInt 0) (PyStr "All") None None.
Proof.
  apply (proj2 (index_minus_two_selects_all_modes Example.NumBAT
                  Example.sim_EM Example.sim_EM Example.sim_AC Example.k_AC
                  (PyInt 0) (PyInt 0) (PyInt (-2))
                  (PyInt 0) (PyInt 0) (PyStr "All") None None)).
  - left. reflexivity.
  - left. reflexivity.
  - right. right. split; reflexivity.
Defined.

(** ** What a run reads of its arguments *)

(** X5: a run of [gain_and_qs] depends on the Stokes simulation only
    through its number of modes, its field and its mode powers; on the
    pump simulation only through its material types, the shape lists, its
    number of modes, field, refractive indices, frequency and mode powers;
    on the acoustic simulation only through its mesh, element map,
    tensors, modes, frequencies and mode powers.  In particular the
    frequency and the structure of the Stokes simulation and the mesh of
    the pump simulation are never read. *)
Theorem gain_and_qs_reads {T : Type} {np : NumPy T} {Table Tensor : Type}
    (NumBAT : Fortran T Table Tensor)
    (sim_EM_pump sim_EM_Stokes sim_AC : Simmo T Table Tensor)
    (sim_EM_pump' sim_EM_Stokes' sim_AC' : Simmo T Table Tensor) (k_AC : T)
    (EM_ival_pump EM_ival_Stokes AC_ival : pyobj)
    (fixed_Q : option T) (typ_select_out : option Z) :
  same_pump_data sim_EM_pump sim_EM_pump' →
  same_Stokes_data sim_EM_Stokes sim_EM_Stokes' →
  same_AC_data sim_AC sim_AC' →
  gain_and_qs NumBAT sim_EM_pump sim_EM_Stokes sim_AC k_AC
    EM_ival_pump EM_ival_Stokes AC_ival fixed_Q typ_select_out
  = gain_and_qs NumBAT sim_EM_pump' sim_EM_Stokes' sim_AC' k_AC
      EM_ival_pump EM_ival_Stokes AC_ival fixed_Q typ_select_out.
Proof.
  intros (Hp1 & Hp2 & Hp3 & Hp4 & Hp5 & Hp6 & Hp7 & Hp8 & Hp9)
    (HS1 & HS2 & HS3)
    (HA1 & HA2 & HA3 & HA4 & HA5 & HA6 & HA7 & HA8 & HA9 & HA10 & HA11 & HA12
       & HA13 & HA14).
  unfold gain_and_qs, trimmed_EM_fields, relevant_eps_effs, acoustic_loss,
    photoelastic, moving_boundary_calc, overlap_call_args, alpha_call_args,
    gain_of, normal_fact, linear_elements, curvilinear_unknown.
  by rewrite Hp1, Hp2, Hp3, Hp4, Hp5, Hp6, Hp7, Hp8, Hp9, HS1, HS2, HS3,
    HA1, HA2, HA3, HA4, HA5, HA6, HA7, HA8, HA9, HA10, HA11, HA12, HA13, HA14.
Qed.

Lemma gain_and_qs_reads_witness :
  gain_and_qs Example.NumBAT Example.sim_EM Example.sim_EM Example.sim_AC
    Example.k_AC (PyInt 0) (PyInt 0) (PyStr "All") None None
  = gain_and_qs Example.NumBAT Example.sim_EM Sample.sim_Stokes_detuned
      Example.sim_AC Example.k_AC (PyInt 0) (PyInt 0) (PyStr "All") None None.
Proof.
  apply (gain_and_qs_reads Example.NumBAT
           Example.sim_EM Example.sim_EM Example.sim_AC
           Example.sim_EM Sample.sim_Stokes_detuned Example.sim_AC).
  - repeat split.
  - repeat split.
  - repeat split.
Defined.

(** ** The order of the Fortran calls *)

Section BroadcastCases.
Context {T : Type}.

Lemma mapM_Ok {A B} (g : A → B) (l : list A) :
  mapM (λ x, Ok (g x)) l = Ok (map g l).
Proof. induction l as [|x l IH]; simpl; [done | by rewrite IH]. Qed.

Lemma broadcast1_compatible (f : T → T → T) (a b : list T) :
  length a = length b ∨ length a = 1 ∨ length b = 1 →
  ∃ c, broadcast1 f a b = Ok c.
Proof.
  intros Hlen. unfold broadcast1, broadcast.
  destruct (decide (length a = length b)) as [Heq|Hne].
  { rewrite (mapM_Ok (λ p, f p.1 p.2)). eauto. }
  destruct Hlen as [Heq | [Ha | Hb]]; [done | |].
  - destruct a as [|x [|x' a]]; simpl in Ha; try lia.
    rewrite (mapM_Ok (f x)). eauto.
  - destruct b as [|y [|y' b]]; simpl in Hb; try lia.
    destruct a as [|x [|x' a]]; rewrite ?(mapM_Ok (λ x, f x y)),
      ?(mapM_Ok (f x)); eauto.
Qed.

Lemma broadcast1_mismatch (f : T → T → T) (a b : list T) :
  length a ≠ length b → length a ≠ 1 → length b ≠ 1 →
  broadcast1 f a b = Raise ValueError.
Proof.
  intros Hne Ha Hb. unfold broadcast1, broadcast.
  destruct (decide (length a = length b)); [done |].
  destruct a as [|x [|x' a]]; simpl in Ha; try lia;
    destruct b as [|y [|y' b]]; simpl in Hb; try lia; done.
Qed.
End BroadcastCases.

Section CallOrder.
Context {T : Type} {np : NumPy T} {Table Tensor : Type}.
Abbreviation Simmo := (Simmo T Table Tensor).
Abbreviation fortran_call := (fortran_call T Table Tensor).
Variable NumBAT : Fortran T Table Tensor.

Lemma calls_app {Call} (l k : list (event Call)) :
  calls (l ++ k) = calls l ++ calls k.
Proof. apply omap_app. Qed.

Lemma calls_acoustic_loss (sim_EM_pump sim_AC : Simmo) k_AC fixed_Q :
  calls (fst (acoustic_loss NumBAT sim_EM_pump sim_AC k_AC fixed_Q)) =
  match fixed_Q with
  | None => [loss_call sim_EM_pump sim_AC k_AC]
  | Some _ => []
  end.
Proof.
  unfold acoustic_loss, loss_call. destruct fixed_Q as [Q|]; [done |].
  destruct (linear_elements sim_EM_pump);
    [| destruct (curvilinear_unknown sim_EM_pump)];
    (destruct (run_alpha NumBAT _) as [alpha|]; simpl; [|done]);
    by destruct (broadcast1 _ _ _).
Qed.

Lemma calls_photoelastic (sim_EM_pump sim_AC : Simmo) k_AC args :
  calls (fst (photoelastic NumBAT sim_EM_pump sim_AC k_AC args)) =
  [photoelastic_call sim_EM_pump sim_AC k_AC args].
Proof.
  unfold photoelastic, photoelastic_call.
  destruct (linear_elements sim_EM_pump);
    [| destruct (curvilinear_unknown sim_EM_pump)];
    by destruct (run_overlap NumBAT _).
Qed.

Lemma calls_moving_boundary_calc args typ_select_out :
  calls (fst (moving_boundary_calc NumBAT args typ_select_out)) =
  [moving_boundary_call args typ_select_out].
Proof.
  rewrite fst_moving_boundary_calc. by destruct (run_overlap NumBAT _).
Qed.

(** The calls of a run whose arguments are in order. *)
Lemma calls_gain_and_qs (sim_EM_pump sim_EM_Stokes sim_AC : Simmo) k_AC
    EM_ival_pump EM_ival_Stokes AC_ival fixed_Q typ_select_out args :
  overlap_arguments sim_EM_pump sim_EM_Stokes sim_AC
    EM_ival_pump EM_ival_Stokes AC_ival = Ok args →
  calls (fst (gain_and_qs NumBAT sim_EM_pump sim_EM_Stokes sim_AC k_AC
                EM_ival_pump EM_ival_Stokes AC_ival fixed_Q typ_select_out)) =
  match fixed_Q with
  | None => [loss_call sim_EM_pump sim_AC k_AC]
  | Some _ => []
  end ++
  match snd (acoustic_loss NumBAT sim_EM_pump sim_AC k_AC fixed_Q) with
  | Ok _ => [photoelastic_call sim_EM_pump sim_AC k_AC args;
             moving_boundary_call args typ_select_out]
  | Raise _ => []
  end.
Proof.
  intros Hargs. rewrite (fst_gain_and_qs NumBAT _ _ _ _ _ _ _ _ _ args) by done.
  change (Print ?m :: ?l) with ([Print m] ++ l).
  rewrite !calls_app, calls_acoustic_loss. simpl. f_equal.
  destruct (snd (acoustic_loss _ _ _ _ _)); [|done].
  by rewrite calls_app, calls_photoelastic, calls_moving_boundary_calc.
Qed.

(** The loss step without a fixed Q, by the answer of the library. *)
Lemma snd_acoustic_loss_returned (sim_EM_pump sim_AC : Simmo) k_AC integral :
  run_alpha NumBAT (loss_call sim_EM_pump sim_AC k_AC) = Returned integral →
  length integral = num_modes sim_AC ∨ length integral = 1
    ∨ num_modes sim_AC = 1 →
  ∃ Q_factors,
    snd (acoustic_loss NumBAT sim_EM_pump sim_AC k_AC None)
      = Ok (map np_real integral, Q_factors).
Proof.
  intros Hrun Hlen. rewrite snd_acoustic_loss_None, Hrun. cbn [assigned local].
  rewrite bind_Ok.
  destruct (broadcast1_compatible mul
              (map (mul half) (map (div k_AC) (map np_real integral)))
              (full1 (num_modes sim_AC) one)) as [Qf ->]; [| by exists Qf].
  unfold full1. by rewrite !length_map, length_replicate.
Qed.

Lemma snd_acoustic_loss_mismatch (sim_EM_pump sim_AC : Simmo) k_AC integral :
  run_alpha NumBAT (loss_call sim_EM_pump sim_AC k_AC) = Returned integral →
  length integral ≠ num_modes sim_AC → length integral ≠ 1 →
  num_modes sim_AC ≠ 1 →
  snd (acoustic_loss NumBAT sim_EM_pump sim_AC k_AC None) = Raise ValueError.
Proof.
  intros Hrun Hne Hi Hn. rewrite snd_acoustic_loss_None, Hrun.
  cbn [assigned local]. rewrite bind_Ok.
  rewrite broadcast1_mismatch; [done | ..];
    unfold full1; by rewrite ?length_map, ?length_replicate.
Qed.

Lemma snd_acoustic_loss_interrupted (sim_EM_pump sim_AC : Simmo) k_AC :
  run_alpha NumBAT (loss_call sim_EM_pump sim_AC k_AC) = KeyboardInterrupt →
  snd (acoustic_loss NumBAT sim_EM_pump sim_AC k_AC None)
    = Raise (UnboundLocalError "alpha").
Proof. intros Hrun. by rewrite snd_acoustic_loss_None, Hrun. Qed.
End CallOrder.

(** X3: a run of [gain_and_qs] whose arguments are in order calls the
    Fortran routines in the order loss, photoelastic, moving boundary, each
    once.  With a [fixed_Q] the calls are the two overlap calls; without
    one and with a loss vector that fits the number of acoustic modes they
    are all three; after an interrupted loss call they are the loss call
    alone.  What the overlap calls answer, or whether they are interrupted,
    makes no difference to the calls made. *)
Theorem integrals_are_called_in_turn
    {T : Type} {np : NumPy T} {Table Tensor : Type}
    (NumBAT : Fortran T Table Tensor)
    (sim_EM_pump sim_EM_Stokes sim_AC : Simmo T Table Tensor) (k_AC : T)
    (EM_ival_pump EM_ival_Stokes AC_ival : pyobj)
    (fixed_Q : option T) (typ_select_out : option Z)
    (args : overlap_args T Table) :
  overlap_arguments sim_EM_pump sim_EM_Stokes sim_AC
    EM_ival_pump EM_ival_Stokes AC_ival = Ok args →
  let run := gain_and_qs NumBAT sim_EM_pump sim_EM_Stokes sim_AC k_AC
               EM_ival_pump EM_ival_Stokes AC_ival fixed_Q typ_select_out in
  let loss := loss_call sim_EM_pump sim_AC k_AC in
  let PE := photoelastic_call sim_EM_pump sim_AC k_AC args in
  let MB := moving_boundary_call args typ_select_out in
  (is_Some fixed_Q → calls (fst run) = [PE; MB]) ∧
  (∀ integral,
     fixed_Q = None → run_alpha NumBAT loss = Returned integral →
     length integral = num_modes sim_AC ∨ length integral = 1
       ∨ num_modes sim_AC = 1 →
     calls (fst run) = [loss; PE; MB]) ∧
  (fixed_Q = None → run_alpha NumBAT loss = KeyboardInterrupt →
   calls (fst run) = [loss]).
Proof.
  intros Hargs run loss PE MB. unfold run.
  rewrite (calls_gain_and_qs NumBAT _ _ _ _ _ _ _ _ _ args Hargs).
  split; [| split].
  - by intros [Q ->].
  - intros integral -> Hrun Hlen.
    by destruct (snd_acoustic_loss_returned NumBAT sim_EM_pump sim_AC k_AC
                   integral Hrun Hlen) as [Qf ->].
  - intros -> Hrun. by rewrite snd_acoustic_loss_interrupted.
Qed.

Lemma integrals_are_called_in_turn_witness :
  calls (fst (gain_and_qs Example.NumBAT
                Example.sim_EM Example.sim_EM Example.sim_AC Example.k_AC
                (PyInt 0) (PyInt 0) (PyStr "All") None None))
  = [loss_call Example.sim_EM Example.sim_AC Example.k_AC;
     photoelastic_call Example.sim_EM Example.sim_AC Example.k_AC
       Example.arguments;
     moving_boundary_call Example.arguments None].
Proof.
  apply (proj1 (proj2 (integrals_are_called_in_turn Example.NumBAT
                  Example.sim_EM Example.sim_EM Example.sim_AC Example.k_AC
                  (PyInt 0) (PyInt 0) (PyStr "All") None None
                  Example.arguments example_arguments)) Example.loss).
  - reflexivity.
  - reflexivity.
  - left. reflexivity.
Defined.

(** X8: the product with [np.ones(num_modes_AC)] checks the length of the
    loss vector.  When the loss routine answers with a vector whose length
    is neither the number of acoustic modes nor one (and there is more
    than one acoustic mode), the run raises [ValueError] at [Q_factors],
    and neither overlap routine is called. *)
Theorem loss_vector_length_is_checked
    {T : Type} {np : NumPy T} {Table Tensor : Type}
    (NumBAT : Fortran T Table Tensor)
    (sim_EM_pump sim_EM_Stokes sim_AC : Simmo T Table Tensor) (k_AC : T)
    (EM_ival_pump EM_ival_Stokes AC_ival : pyobj)
    (typ_select_out : option Z)
    (args : overlap_args T Table) (integral : list T) :
  overlap_arguments sim_EM_pump sim_EM_Stokes sim_AC
    EM_ival_pump EM_ival_Stokes AC_ival = Ok args →
  run_alpha NumBAT (loss_call sim_EM_pump sim_AC k_AC) = Returned integral →
  length integral ≠ num_modes sim_AC →
  length integral ≠ 1 →
  num_modes sim_AC ≠ 1 →
  let run := gain_and_qs NumBAT sim_EM_pump sim_EM_Stokes sim_AC k_AC
               EM_ival_pump EM_ival_Stokes AC_ival None typ_select_out in
  snd run = Raise ValueError ∧
  calls (fst run) = [loss_call sim_EM_pump sim_AC k_AC].
Proof.
  intros Hargs Hrun Hne Hi Hn run.
  pose proof (snd_acoustic_loss_mismatch NumBAT sim_EM_pump sim_AC k_AC
                integral Hrun Hne Hi Hn) as Hloss.
  split.
  - by eapply snd_gain_and_qs_no_loss.
  - unfold run. rewrite (calls_gain_and_qs NumBAT _ _ _ _ _ _ _ _ _ args Hargs).
    by rewrite Hloss.
Qed.

Lemma loss_vector_length_is_checked_witness :
  let run := gain_and_qs
               (Example.library (Returned [Binary64.Real 2; Binary64.Real 4])
                  (Returned Example.Q_one) (Returned Example.Q_one))
               Example.sim_EM Example.sim_EM Example.sim_AC Example.k_AC
               (PyInt 0) (PyInt 0) (PyStr "All") None None in
  snd run = Raise ValueError ∧
  calls (fst run) = [loss_call Example.sim_EM Example.sim_AC Example.k_AC].
Proof.
  apply (loss_vector_length_is_checked
           (Example.library (Returned [Binary64.Real 2; Binary64.Real 4])
              (Returned Example.Q_one) (Returned Example.Q_one))
           Example.sim_EM Example.sim_EM Example.sim_AC Example.k_AC
           (PyInt 0) (PyInt 0) (PyStr "All") None Example.arguments
           [Binary64.Real 2; Binary64.Real 4] example_arguments).
  - reflexivity.
  - simpl. lia.
  - simpl. lia.
  - simpl. lia.
Defined.

(** ** The element map *)

Section ElementFaults.
Context {T : Type} {np : NumPy T} {Table Tensor : Type}.
Abbreviation Simmo := (Simmo T Table Tensor).
Variables sim_EM_pump sim_EM_Stokes sim_AC : Simmo.

Lemma for_in_app {St} (l k : list nat) (body : nat → St → result St) s :
  for_in (l ++ k) body s = for_in l body s ≫= for_in k body.
Proof.
  revert s. induction l as [|i l IH]; intros s; simpl; [done |].
  destruct (body i s) as [s'|e]; simpl; [apply IH | done].
Qed.

Lemma for_in_cons_raise {St} i (l : list nat) (body : nat → St → result St)
    s e :
  body i s = Raise e → for_in (i :: l) body s = Raise e.
Proof. intros H. simpl. by rewrite H. Qed.

Lemma seq_split n k : k < n → seq 0 n = seq 0 k ++ k :: seq (S k) (n - S k).
Proof.
  intros Hk. assert (∃ m, n = k + S m) as [m ->] by (exists (n - S k); lia).
  rewrite seq_app. simpl. do 3 f_equal. lia.
Qed.

Lemma readable_spec (sim : Simmo) new_el :
  readable sim new_el = true ↔ num_modes sim = 0 ∨ new_el < n_msh_el sim.
Proof. unfold readable. apply bool_decide_eq_true. Qed.

Lemma filled_modes_readable (sim_EM : Simmo) el n x new_el field :
  well_shaped_field sim_EM →
  x < ncomps → n < nnodes → el < n_msh_el sim_AC →
  el_convert_tbl sim_AC !! el = Some new_el →
  readable sim_EM new_el = true →
  filled sim_EM sim_AC (written el n x 0) field →
  returns (for_in (range (num_modes sim_EM)) (λ ival field,
             v ← getitem4 (sol1 sim_EM) x n ival new_el;
             setitem4 field x n ival el (complex128 v)) field)
          (filled sim_EM sim_AC (written el n (S x) 0)).
Proof.
  intros Hsrc Hx Hn Hel Htbl Hread Hfield.
  apply readable_spec in Hread as [Hnone | Hin]; [| by apply filled_modes].
  assert (range (num_modes sim_EM) = []) as -> by (by rewrite Hnone).
  exists field. split; [done |].
  eapply filled_mono; [exact Hfield |]. intros; lia.
Qed.

(** An unreadable element fails the loop over the modes at mode 0. *)
Lemma modes_unreadable (sim_EM : Simmo) el n x new_el field :
  well_shaped_field sim_EM →
  readable sim_EM new_el = false →
  for_in (range (num_modes sim_EM)) (λ ival field,
    v ← getitem4 (sol1 sim_EM) x n ival new_el;
    setitem4 field x n ival el (complex128 v)) field
  = Raise IndexError.
Proof.
  intros Hsrc Hread.
  assert (num_modes sim_EM ≠ 0 ∧ ¬ new_el < n_msh_el sim_EM) as [Hmodes Hout].
  { destruct (decide (num_modes sim_EM = 0 ∨ new_el < n_msh_el sim_EM))
      as [Hyes|Hno]; [| tauto].
    apply readable_spec in Hyes. congruence. }
  destruct (num_modes sim_EM) as [|k] eqn:Hk; [done |].
  apply for_in_cons_raise. unfold getitem4.
  destruct (lookup4 (sol1 sim_EM) x n 0 new_el) as [v|] eqn:Hv; [|done].
  apply (shape4_lookup_lt _ _ _ _ _ _ _ _ _ _ Hsrc) in Hv. lia.
Qed.

Abbreviation trimmed_upto :=
  (trimmed_upto sim_EM_pump sim_EM_Stokes sim_AC).

Lemma trim_element_returns el new_el fields :
  well_shaped_field sim_EM_pump →
  well_shaped_field sim_EM_Stokes →
  el < n_msh_el sim_AC →
  el_convert_tbl sim_AC !! el = Some new_el →
  readable sim_EM_pump new_el = true →
  readable sim_EM_Stokes new_el = true →
  trimmed_upto el fields →
  returns (trim_element sim_EM_pump sim_EM_Stokes sim_AC el fields)
          (trimmed_upto (S el)).
Proof.
  intros pump_shape Stokes_shape Hel Htbl Hrp HrS HInv.
  unfold trim_element, getkey.
  rewrite Htbl, bind_Ok.
  set (Inv := λ n x (fields : array4 T * array4 T),
         filled sim_EM_pump sim_AC (written el n x 0) fields.1 ∧
         filled sim_EM_Stokes sim_AC (written el n x 0) fields.2).
  eapply returns_weaken.
  - apply (for_in_range_invariant (λ n, Inv n 0)); [done |].
    intros n fields' Hn HInv'. eapply returns_weaken.
    + apply (for_in_range_invariant (λ x, Inv n x)); [done |].
      intros x [pump_field Stokes_field] Hx [Hp Hs]. simpl in Hp, Hs.
      eapply returns_bind;
        [by apply (filled_modes_readable sim_EM_pump el n x new_el) |].
      intros pump_field' Hp'. simpl.
      eapply returns_bind;
        [by apply (filled_modes_readable sim_EM_Stokes el n x new_el) |].
      intros Stokes_field' Hs'. simpl. eexists. split; [done |]. by split.
    + intros [pf sf] [Hp Hs]. simpl in *.
      split; simpl; (eapply filled_mono; [eassumption |]);
        unfold written, ncomps; intros; lia.
  - intros [pf sf] [Hp Hs]. simpl in *.
    split; simpl; (eapply filled_mono; [eassumption |]);
      unfold written, nnodes; intros; lia.
Qed.

Lemma trim_element_raises el fields e :
  well_shaped_field sim_EM_pump →
  well_shaped_field sim_EM_Stokes →
  el < n_msh_el sim_AC →
  element_fault sim_EM_pump sim_EM_Stokes sim_AC el = Some e →
  trimmed_upto el fields →
  trim_element sim_EM_pump sim_EM_Stokes sim_AC el fields = Raise e.
Proof.
  intros pump_shape Stokes_shape Hel Hfault [Hp Hs].
  unfold element_fault in Hfault.
  unfold trim_element, getkey.
  destruct (el_convert_tbl sim_AC !! el) as [new_el|] eqn:Htbl;
    [| by injection Hfault as <-].
  rewrite bind_Ok. destruct fields as [pf sf]. simpl in Hp, Hs.
  change (range nnodes) with (0 :: seq 1 5). apply for_in_cons_raise.
  change (range ncomps) with (0 :: seq 1 2). apply for_in_cons_raise.
  destruct (readable sim_EM_pump new_el) eqn:Hrp; simpl in Hfault.
  - destruct (readable sim_EM_Stokes new_el) eqn:HrS; [done |].
    injection Hfault as <-.
    destruct (filled_modes_readable sim_EM_pump el 0 0 new_el pf)
      as (pf' & -> & _); [done | unfold ncomps; lia | unfold nnodes; lia
                          | done.. |].
    rewrite bind_Ok. by rewrite (modes_unreadable sim_EM_Stokes).
  - injection Hfault as <-. by rewrite (modes_unreadable sim_EM_pump).
Qed.

Lemma trimmed_prefix k :
  well_shaped_field sim_EM_pump →
  well_shaped_field sim_EM_Stokes →
  k ≤ n_msh_el sim_AC →
  (∀ el, el < k →
         element_fault sim_EM_pump sim_EM_Stokes sim_AC el = None) →
  returns (for_in (seq 0 k)
             (trim_element sim_EM_pump sim_EM_Stokes sim_AC)
             (full4 ncomps nnodes (num_modes sim_EM_pump) (n_msh_el sim_AC)
                (complex128 zero),
              full4 ncomps nnodes (num_modes sim_EM_Stokes) (n_msh_el sim_AC)
                (complex128 zero)))
          (trimmed_upto k).
Proof.
  intros pump_shape Stokes_shape Hk Hfine.
  apply (for_in_seq_invariant trimmed_upto _ k 0).
  { split; (split; [apply shape4_full |]); unfold written; intros; lia. }
  intros el fields Hel HInv.
  pose proof (Hfine el ltac:(lia)) as Hnone. unfold element_fault in Hnone.
  destruct (el_convert_tbl sim_AC !! el) as [new_el|] eqn:Htbl; [|done].
  destruct (readable sim_EM_pump new_el) eqn:Hrp; [|done].
  destruct (readable sim_EM_Stokes new_el) eqn:HrS; [|done].
  apply (trim_element_returns el new_el); [done | done | lia | done..].
Qed.

Lemma head_omap_None {A B} (f : A → option B) (l : list A) :
  head (omap f l) = None ↔ ∀ x, x ∈ l → f x = None.
Proof.
  induction l as [|x l IH]; simpl.
  - split; [intros _ x Hx; by apply elem_of_nil in Hx | done].
  - destruct (f x) as [y|] eqn:Hy; simpl.
    + split; [done |]. intros H. specialize (H x ltac:(left)). congruence.
    + rewrite IH. split.
      * intros H z Hz. apply elem_of_cons in Hz as [->|Hz]; auto.
      * intros H z Hz. apply H. by right.
Qed.

Lemma head_omap_seq_Some {B} (f : nat → option B) n y :
  head (omap f (seq 0 n)) = Some y →
  ∃ k, k < n ∧ f k = Some y ∧ ∀ i, i < k → f i = None.
Proof.
  assert (∀ start,
    head (omap f (seq start n)) = Some y →
    ∃ k, start ≤ k < start + n ∧ f k = Some y ∧
         ∀ i, start ≤ i < k → f i = None) as Hgen.
  { induction n as [|n IH]; intros start; simpl; [done |].
    destruct (f start) as [z|] eqn:Hz; simpl.
    - intros [= ->]. exists start. split; [lia |]. split; [done |].
      intros; lia.
    - intros H. destruct (IH (S start) H) as (k & Hk & Hfk & Hbefore).
      exists k. split; [lia |]. split; [done |].
      intros i Hi. destruct (decide (i = start)) as [->|]; [done |].
      apply Hbefore. lia. }
  intros H. destruct (Hgen 0 H) as (k & Hk & Hfk & Hbefore).
  exists k. split; [lia |]. split; [done |]. intros i Hi. apply Hbefore. lia.
Qed.

Lemma trimmed_EM_fields_faultless :
  well_shaped_field sim_EM_pump →
  well_shaped_field sim_EM_Stokes →
  first_fault sim_EM_pump sim_EM_Stokes sim_AC = None →
  ∃ fields, trimmed_EM_fields sim_EM_pump sim_EM_Stokes sim_AC = Ok fields.
Proof.
  intros pump_shape Stokes_shape Hnone. unfold first_fault in Hnone.
  rewrite head_omap_None in Hnone.
  destruct (trimmed_prefix (n_msh_el sim_AC)) as (fields & Hrun & _);
    [done | done | done | | by exists fields].
  intros el Hel. apply Hnone, elem_of_seq. lia.
Qed.

Lemma trimmed_EM_fields_fault e :
  well_shaped_field sim_EM_pump →
  well_shaped_field sim_EM_Stokes →
  first_fault sim_EM_pump sim_EM_Stokes sim_AC = Some e →
  trimmed_EM_fields sim_EM_pump sim_EM_Stokes sim_AC = Raise e.
Proof.
  intros pump_shape Stokes_shape Hfault. unfold first_fault in Hfault.
  apply head_omap_seq_Some in Hfault as (el & Hel & Hfault & Hbefore).
  destruct (trimmed_prefix el) as (fields & Hrun & HInv);
    [done | done | lia | done |].
  change (trimmed_EM_fields sim_EM_pump sim_EM_Stokes sim_AC)
    with (for_in (range (n_msh_el sim_AC))
            (trim_element sim_EM_pump sim_EM_Stokes sim_AC)
            (full4 ncomps nnodes (num_modes sim_EM_pump) (n_msh_el sim_AC)
               (complex128 zero),
             full4 ncomps nnodes (num_modes sim_EM_Stokes) (n_msh_el sim_AC)
               (complex128 zero))).
  unfold range. rewrite (seq_split _ el Hel), for_in_app, Hrun, bind_Ok.
  apply for_in_cons_raise. by apply trim_element_raises.
Qed.
End ElementFaults.

(** X2: the loop that re-indexes the EM fields fails at the first element
    of the AC mesh that it cannot serve, with [KeyError] when the element
    has no entry in [el_convert_tbl] and with [IndexError] when its entry
    is outside the mesh of an EM field that has a mode; when there is no
    such element it succeeds.  The failure ends the run of [gain_and_qs]
    before anything is printed or called. *)
Theorem first_faulty_element_decides_the_exception
    {T : Type} {np : NumPy T} {Table Tensor : Type}
    (NumBAT : Fortran T Table Tensor)
    (sim_EM_pump sim_EM_Stokes sim_AC : Simmo T Table Tensor) (k_AC : T)
    (EM_ival_pump EM_ival_Stokes AC_ival : pyobj)
    (fixed_Q : option T) (typ_select_out : option Z) :
  well_shaped_field sim_EM_pump →
  well_shaped_field sim_EM_Stokes →
  (first_fault sim_EM_pump sim_EM_Stokes sim_AC = None →
   ∃ fields, trimmed_EM_fields sim_EM_pump sim_EM_Stokes sim_AC = Ok fields) ∧
  (∀ e, first_fault sim_EM_pump sim_EM_Stokes sim_AC = Some e →
     trimmed_EM_fields sim_EM_pump sim_EM_Stokes sim_AC = Raise e ∧
     (is_Some (mode_selectors_of EM_ival_pump EM_ival_Stokes AC_ival) →
      gain_and_qs NumBAT sim_EM_pump sim_EM_Stokes sim_AC k_AC
        EM_ival_pump EM_ival_Stokes AC_ival fixed_Q typ_select_out
      = ([], Raise e))).
Proof.
  intros Hp HS. split; [by apply trimmed_EM_fields_faultless |].
  intros e Hfault.
  pose proof (trimmed_EM_fields_fault _ _ _ e Hp HS Hfault) as Hraise.
  split; [done |]. intros [sel Hsel]. unfold mode_selectors_of in Hsel.
  apply gain_and_qs_arguments_raise. unfold overlap_arguments.
  destruct (ival_fortran EM_ival_pump) as [pump|]; [|done].
  destruct (ival_fortran EM_ival_Stokes) as [Stokes|]; [|done].
  destruct (ival_fortran AC_ival) as [AC|]; [|done].
  by rewrite Hraise.
Qed.

Lemma first_faulty_element_decides_the_exception_witness :
  first_fault Example.sim_EM Example.sim_EM Sample.sim_AC_unmapped
    = Some KeyError ∧
  first_fault Example.sim_EM Example.sim_EM Sample.sim_AC_astray
    = Some IndexError ∧
  gain_and_qs Example.NumBAT Example.sim_EM Example.sim_EM
    Sample.sim_AC_unmapped Example.k_AC
    (PyInt 0) (PyInt 0) (PyStr "All") None None = ([], Raise KeyError) ∧
  gain_and_qs Example.NumBAT Example.sim_EM Example.sim_EM
    Sample.sim_AC_astray Example.k_AC
    (PyInt 0) (PyInt 0) (PyStr "All") None None = ([], Raise IndexError).
Proof.
  split; [reflexivity |]. split; [reflexivity |]. split.
  - apply (proj2 (first_faulty_element_decides_the_exception Example.NumBAT
                    Example.sim_EM Example.sim_EM Sample.sim_AC_unmapped
                    Example.k_AC (PyInt 0) (PyInt 0) (PyStr "All") None None
                    example_field_shape example_field_shape) KeyError).
    + reflexivity.
    + by eexists.
  - apply (proj2 (first_faulty_element_decides_the_exception Example.NumBAT
                    Example.sim_EM Example.sim_EM Sample.sim_AC_astray
                    Example.k_AC (PyInt 0) (PyInt 0) (PyStr "All") None None
                    example_field_shape example_field_shape) IndexError).
    + reflexivity.
    + by eexists.
Defined.

(** ** The refractive indices that are read *)

Section MaskCases.
Context {T : Type} {np : NumPy T} {Table Tensor : Type}.
Abbreviation Simmo := (Simmo T Table Tensor).

Lemma relevant_eps_effs_loop (sim_EM_pump sim_AC : Simmo) len :
  ∀ start acc,
    let types := filter (λ el_typ, (Z.of_nat el_typ + 1)%Z ∈ typ_el_AC sim_AC)
                        (seq start len) in
    let run := for_in (seq start len) (λ el_typ eps_effs,
                 if bool_decide ((Z.of_nat el_typ + 1)%Z ∈ typ_el_AC sim_AC)
                 then n ← getitem (n_list sim_EM_pump) el_typ;
                      mret (eps_effs ++ [pow2 n])
                 else mret eps_effs) acc in
    (Forall (λ el_typ, el_typ < length (n_list sim_EM_pump)) types →
     ∃ eps_effs, run = Ok (acc ++ eps_effs) ∧
                 Forall2 (eps_of_type sim_EM_pump) types eps_effs) ∧
    (Exists (λ el_typ, length (n_list sim_EM_pump) ≤ el_typ) types →
     run = Raise IndexError).
Proof.
  induction len as [|len IH]; intros start acc; simpl.
  { split.
    - intros _. exists []. split; [by rewrite app_nil_r | constructor].
    - rewrite filter_nil. intros H. by apply Exists_nil in H. }
  rewrite filter_cons.
  destruct (decide ((Z.of_nat start + 1)%Z ∈ typ_el_AC sim_AC)) as [Hin|Hout].
  - rewrite bool_decide_eq_true_2 by done.
    destruct (n_list sim_EM_pump !! start) as [n|] eqn:Hn.
    + rewrite (getitem_Some _ _ _ Hn), !bind_Ok.
      destruct (IH (S start) (acc ++ [pow2 n])) as [IHok IHerr]. split.
      * intros Hall. apply Forall_cons in Hall as [_ Hall].
        destruct (IHok Hall) as (eps & -> & Heps).
        exists (pow2 n :: eps). split; [by rewrite <- app_assoc |].
        constructor; [by exists n | done].
      * intros Hex. apply Exists_cons in Hex as [Hhere|Hlater];
          [| by apply IHerr].
        apply lookup_lt_Some in Hn. lia.
    + unfold getitem. rewrite Hn. simpl. split; [| done].
      intros Hall. apply Forall_cons in Hall as [Hlt _].
      apply lookup_ge_None in Hn. lia.
  - rewrite bool_decide_eq_false_2 by done. rewrite bind_Ok.
    apply IH.
Qed.
End MaskCases.

(** X6: [relevant_eps_effs] reads [n_list] only at the material types
    whose one-based number is in [typ_el_AC].  When [n_list] has an entry
    for each of them the list of squared indices is built, however short
    [n_list] is otherwise; when it lacks one the loop raises
    [IndexError]. *)
Theorem relevant_eps_effs_reads_relevant_types
    {T : Type} {np : NumPy T} {Table Tensor : Type}
    (sim_EM_pump sim_AC : Simmo T Table Tensor) :
  (Forall (λ el_typ, el_typ < length (n_list sim_EM_pump))
          (relevant_types sim_EM_pump sim_AC) →
   ∃ eps_effs,
     relevant_eps_effs sim_EM_pump sim_AC = Ok eps_effs ∧
     Forall2 (eps_of_type sim_EM_pump)
             (relevant_types sim_EM_pump sim_AC) eps_effs) ∧
  (Exists (λ el_typ, length (n_list sim_EM_pump) ≤ el_typ)
          (relevant_types sim_EM_pump sim_AC) →
   relevant_eps_effs sim_EM_pump sim_AC = Raise IndexError).
Proof.
  exact (relevant_eps_effs_loop sim_EM_pump sim_AC
           (nb_typ_el (structure sim_EM_pump)) 0 []).
Qed.

Lemma relevant_eps_effs_reads_relevant_types_witness :
  (∃ eps_effs,
     relevant_eps_effs Sample.sim_EM_two_indices Sample.sim_AC_core
       = Ok eps_effs ∧
     Forall2 (eps_of_type Sample.sim_EM_two_indices)
             (relevant_types Sample.sim_EM_two_indices Sample.sim_AC_core)
             eps_effs) ∧
  relevant_eps_effs Sample.sim_EM_two_indices Example.sim_AC
    = Raise IndexError.
Proof.
  split.
  - apply (proj1 (relevant_eps_effs_reads_relevant_types
                    Sample.sim_EM_two_indices Sample.sim_AC_core)).
    repeat constructor.
  - apply (proj2 (relevant_eps_effs_reads_relevant_types
                    Sample.sim_EM_two_indices Example.sim_AC)).
    apply Exists_cons_tl, Exists_cons_hd. simpl. lia.
Defined.

(** ** The choice of the routines *)

Section RoutineChoice.
Context {T : Type} {np : NumPy T} {Table Tensor : Type}.
Abbreviation Simmo := (Simmo T Table Tensor).
Abbreviation fortran_call := (fortran_call T Table Tensor).
Variable NumBAT : Fortran T Table Tensor.

Ltac log_cases :=
  rewrite ?elem_of_app, ?elem_of_cons, ?elem_of_nil;
  cbv [quadrature_warning interrupted String.append];
  intuition (discriminate || congruence).

Lemma warning_in_acoustic_loss (sim_EM_pump sim_AC : Simmo) k_AC fixed_Q :
  Print (quadrature_warning "ac_alpha_int")
    ∈ fst (acoustic_loss NumBAT sim_EM_pump sim_AC k_AC fixed_Q) ↔
  fixed_Q = None ∧ linear_elements sim_EM_pump = false
    ∧ curvilinear_unknown sim_EM_pump = true.
Proof.
  unfold acoustic_loss. destruct fixed_Q as [Q|]; [simpl; log_cases |].
  destruct (linear_elements sim_EM_pump);
    [| destruct (curvilinear_unknown sim_EM_pump)];
    (destruct (run_alpha NumBAT _) as [alpha|]; simpl;
       [destruct (broadcast1 _ _ _); simpl |]); log_cases.
Qed.

Lemma other_warning_in_acoustic_loss (sim_EM_pump sim_AC : Simmo) k_AC fixed_Q :
  Print (quadrature_warning "photoelastic_int")
    ∉ fst (acoustic_loss NumBAT sim_EM_pump sim_AC k_AC fixed_Q).
Proof.
  unfold acoustic_loss. destruct fixed_Q as [Q|]; [simpl; log_cases |].
  destruct (linear_elements sim_EM_pump);
    [| destruct (curvilinear_unknown sim_EM_pump)];
    (destruct (run_alpha NumBAT _) as [alpha|]; simpl;
       [destruct (broadcast1 _ _ _); simpl |]); log_cases.
Qed.

Lemma warning_in_photoelastic (sim_EM_pump sim_AC : Simmo) k_AC args :
  Print (quadrature_warning "photoelastic_int")
    ∈ fst (photoelastic NumBAT sim_EM_pump sim_AC k_AC args) ↔
  linear_elements sim_EM_pump = false ∧ curvilinear_unknown sim_EM_pump = true.
Proof.
  unfold photoelastic.
  destruct (linear_elements sim_EM_pump);
    [| destruct (curvilinear_unknown sim_EM_pump)];
    destruct (run_overlap NumBAT _); simpl; log_cases.
Qed.

Lemma other_warning_in_photoelastic (sim_EM_pump sim_AC : Simmo) k_AC args :
  Print (quadrature_warning "ac_alpha_int")
    ∉ fst (photoelastic NumBAT sim_EM_pump sim_AC k_AC args).
Proof.
  unfold photoelastic.
  destruct (linear_elements sim_EM_pump);
    [| destruct (curvilinear_unknown sim_EM_pump)];
    destruct (run_overlap NumBAT _); simpl; log_cases.
Qed.

Lemma warning_in_moving_boundary_calc args typ_select_out routine :
  Print (quadrature_warning routine)
    ∉ fst (moving_boundary_calc NumBAT args typ_select_out).
Proof.
  rewrite fst_moving_boundary_calc.
  destruct (run_overlap NumBAT _); simpl; log_cases.
Qed.

Lemma shape_lists (sim_EM_pump : Simmo) :
  (linear_elements sim_EM_pump = false ∧
   curvilinear_unknown sim_EM_pump = true) ↔
  ((inc_shape (structure sim_EM_pump)
      ∉ linear_element_shapes (structure sim_EM_pump)) ∧
   (inc_shape (structure sim_EM_pump)
      ∉ curvilinear_element_shapes (structure sim_EM_pump))).
Proof.
  unfold linear_elements, curvilinear_unknown.
  by rewrite bool_decide_eq_false, bool_decide_eq_true.
Qed.
End RoutineChoice.

(** X4: the shape lists of the pump structure choose the routines.  Every
    loss or photoelastic call of a run is the routine for linear elements
    when [inc_shape] is in [linear_element_shapes], and the quadrature
    routine otherwise, also for a shape in [curvilinear_element_shapes].
    The slow-quadrature warning of a step is printed exactly when the
    step runs and the shape is in neither list; the moving-boundary step
    never prints one. *)
Theorem shape_lists_choose_the_routines
    {T : Type} {np : NumPy T} {Table Tensor : Type}
    (NumBAT : Fortran T Table Tensor)
    (sim_EM_pump sim_EM_Stokes sim_AC : Simmo T Table Tensor) (k_AC : T)
    (EM_ival_pump EM_ival_Stokes AC_ival : pyobj)
    (fixed_Q : option T) (typ_select_out : option Z)
    (args : overlap_args T Table) :
  overlap_arguments sim_EM_pump sim_EM_Stokes sim_AC
    EM_ival_pump EM_ival_Stokes AC_ival = Ok args →
  let run := gain_and_qs NumBAT sim_EM_pump sim_EM_Stokes sim_AC k_AC
               EM_ival_pump EM_ival_Stokes AC_ival fixed_Q typ_select_out in
  let shape := inc_shape (structure sim_EM_pump) in
  let linear := linear_element_shapes (structure sim_EM_pump) in
  let curvilinear := curvilinear_element_shapes (structure sim_EM_pump) in
  (∀ c, Invoke c ∈ fst run →
        (for_linear_elements c → shape ∈ linear) ∧
        (by_quadrature c → shape ∉ linear)) ∧
  (Print (quadrature_warning "ac_alpha_int") ∈ fst run ↔
   (fixed_Q = None ∧ (shape ∉ linear) ∧ (shape ∉ curvilinear))) ∧
  (∀ loss,
     snd (acoustic_loss NumBAT sim_EM_pump sim_AC k_AC fixed_Q) = Ok loss →
     Print (quadrature_warning "photoelastic_int") ∈ fst run ↔
     ((shape ∉ linear) ∧ (shape ∉ curvilinear))).
Proof.
  intros Hargs run shape linear curvilinear. split; [| split].
  - intros c Hc. apply gain_and_qs_calls in Hc
      as (pump & Stokes & AC & pf & sf & eps & _ & _ & _ & _ & _ & Hc).
    simpl in Hc. unfold loss_call, photoelastic_call, moving_boundary_call in Hc.
    unfold shape, linear.
    destruct (linear_elements sim_EM_pump) eqn:Hlin;
      unfold linear_elements in Hlin;
      [apply bool_decide_eq_true in Hlin | apply bool_decide_eq_false in Hlin];
      destruct Hc as [[_ ->] | [-> | ->]]; simpl; tauto.
  - unfold run. rewrite (fst_gain_and_qs NumBAT _ _ _ _ _ _ _ _ _ args Hargs).
    rewrite elem_of_cons, elem_of_app.
    unfold shape, linear, curvilinear. rewrite <- shape_lists.
    rewrite <- warning_in_acoustic_loss. split.
    + intros [Hfirst | [Hloss | Hrest]]; [discriminate | done |].
      destruct (snd (acoustic_loss _ _ _ _ _)); [| by apply elem_of_nil in Hrest].
      apply elem_of_app in Hrest as [HPE | HMB].
      * by apply other_warning_in_photoelastic in HPE.
      * by apply warning_in_moving_boundary_calc in HMB.
    + intros Hloss. right. by left.
  - intros loss Hloss. unfold run.
    rewrite (fst_gain_and_qs NumBAT _ _ _ _ _ _ _ _ _ args Hargs), Hloss.
    rewrite elem_of_cons, !elem_of_app.
    unfold shape, linear, curvilinear. rewrite <- shape_lists.
    rewrite <- (warning_in_photoelastic NumBAT sim_EM_pump sim_AC k_AC args).
    split.
    + intros [Hfirst | [Hl | [HPE | HMB]]]; [discriminate | | done |].
      * by apply other_warning_in_acoustic_loss in Hl.
      * by apply warning_in_moving_boundary_calc in HMB.
    + intros HPE. right. right. by left.
Qed.

Lemma shape_lists_choose_the_routines_witness :
  let run := gain_and_qs Example.NumBAT Sample.sim_EM_slot_ring
               Example.sim_EM Example.sim_AC Example.k_AC
               (PyInt 0) (PyInt 0) (PyStr "All") None None in
  Print (quadrature_warning "ac_alpha_int") ∈ fst run ∧
  Print (quadrature_warning "photoelastic_int") ∈ fst run.
Proof.
  pose proof (shape_lists_choose_the_routines Example.NumBAT
                Sample.sim_EM_slot_ring Example.sim_EM Example.sim_AC
                Example.k_AC (PyInt 0) (PyInt 0) (PyStr "All") None None
                Sample.arguments_slot_ring eq_refl) as (_ & Hloss & HPE).
  split.
  - apply Hloss. split; [reflexivity |].
    split; apply (bool_decide_unpack _); vm_compute; exact I.
  - apply (HPE (map np_real Example.loss,
                [Binary64.Real 2500000; Binary64.Real 1250000;
                 Binary64.Real 625000])); [reflexivity |].
    split; apply (bool_decide_unpack _); vm_compute; exact I.
Defined.

(** * Further properties of [symmetries] *)

(** ** Grids without a point in the mesh *)

Section EmptyGrids.
Context {T : Type} {np : NumPy T}.

Lemma filter_not_nan_nil (r : list (element T)) :
  Forall (λ e, np_isnan (data e) = true) r →
  filter (λ e, ¬ np_isnan (data e)) r = [].
Proof.
  induction 1 as [|e r He _ IH]; [done |].
  rewrite filter_cons, IH. destruct (decide _) as [Hno|]; [|done].
  by rewrite He in Hno.
Qed.

Lemma not_nan_all_nan (m : array2 (element T)) : all_nan m → not_nan m = [].
Proof.
  unfold not_nan. induction 1 as [|r m Hr _ IH]; [done |].
  simpl. by rewrite filter_app, IH, filter_not_nan_nil.
Qed.

Lemma all_nan_empty d0 d1 (m : array2 (element T)) :
  shape2 d0 d1 m → d0 * d1 = 0 → all_nan m.
Proof.
  intros [Hlen Hrows] Hzero. unfold all_nan.
  destruct d0 as [|d0].
  { destruct m; [constructor | done]. }
  assert (d1 = 0) as -> by nia.
  eapply Forall_impl; [exact Hrows |]. intros r Hr. unfold shape1 in Hr.
  destruct r; [constructor | done].
Qed.

Lemma zero_if_negligible_all_nan (grid : Interpolated T) thr
    (m : array2 (element T)) :
  all_nan m → zero_if_negligible grid thr m = Raise ValueError.
Proof.
  intros Hm. unfold zero_if_negligible. by rewrite (not_nan_all_nan m Hm).
Qed.

Lemma zero_if_negligible_cases (grid : Interpolated T) thr
    (m : array2 (element T)) :
  zero_if_negligible grid thr m = Raise ValueError ∨
  ∃ m', zero_if_negligible grid thr m = Ok m'.
Proof.
  unfold zero_if_negligible, np_max.
  destruct (map ma_abs (not_nan m)) as [|v l]; [by left | right].
  destruct (map data _); rewrite bind_Ok; by eexists.
Qed.

Lemma field_components_all_nan (grid : Interpolated T) thr ival m_Ex m_Ey :
  complex_field (m_ReEx grid ival) (m_ImEx grid ival) = Ok m_Ex →
  complex_field (m_ReEy grid ival) (m_ImEy grid ival) = Ok m_Ey →
  all_nan m_Ex ∨ all_nan m_Ey →
  field_components grid thr ival = Raise ValueError.
Proof.
  unfold field_components. intros -> -> Hnan.
  rewrite !bind_Ok.
  destruct (zero_if_negligible_cases grid thr m_Ex) as [-> | [m' Hm']];
    [done |].
  destruct Hnan as [HEx | HEy].
  - by rewrite (zero_if_negligible_all_nan grid _ m_Ex HEx).
  - rewrite Hm', bind_Ok.
    by rewrite (zero_if_negligible_all_nan grid _ m_Ey HEy).
Qed.
End EmptyGrids.

(** X9: [symmetries] needs a grid point inside the mesh for each
    component.  When the interpolation grid of the first mode has no
    point ([n_pts_x*n_pts_y = 0]), or when a component is NaN at every
    point, [np.max] of the empty selection raises [ValueError]; a
    simulation without modes gets the empty list whatever the grid. *)
Theorem grid_without_a_point_in_the_mesh_raises
    {T : Type} {np : NumPy T} {Table Tensor : Type}
    (interpolate : Simmo T Table Tensor → nat → Interpolated T)
    (sim_wguide : Simmo T Table Tensor) (n_points : nat)
    (negligible_threshold : T) :
  let grid := interpolate sim_wguide n_points in
  (Eig_values sim_wguide = [] →
   symmetries interpolate sim_wguide n_points negligible_threshold = Ok []) ∧
  (∀ m_Ex m_Ey,
     Eig_values sim_wguide ≠ [] →
     complex_field (m_ReEx grid 0) (m_ImEx grid 0) = Ok m_Ex →
     complex_field (m_ReEy grid 0) (m_ImEy grid 0) = Ok m_Ey →
     all_nan m_Ex ∨ all_nan m_Ey →
     symmetries interpolate sim_wguide n_points negligible_threshold
       = Raise ValueError) ∧
  (∀ m, shape2 (n_pts_x grid) (n_pts_y grid) m →
        n_pts_x grid * n_pts_y grid = 0 → all_nan m).
Proof.
  intros grid. split; [| split].
  - intros Hnone. unfold symmetries. by rewrite Hnone.
  - intros m_Ex m_Ey Hmodes HEx HEy Hnan. unfold symmetries. fold grid.
    destruct (Eig_values sim_wguide) as [|v vs]; [done |].
    change (range (length (v :: vs))) with (0 :: seq 1 (length vs)).
    apply for_in_cons_raise.
    by rewrite (field_components_all_nan grid _ 0 m_Ex m_Ey).
  - intros m. apply all_nan_empty.
Qed.

Lemma grid_without_a_point_in_the_mesh_raises_witness :
  symmetries (λ _ _, Sample.no_point) Example.sim_EM 10
    Example.negligible_threshold = Raise ValueError.
Proof.
  apply (proj1 (proj2 (grid_without_a_point_in_the_mesh_raises
                  (λ _ _, Sample.no_point) Example.sim_EM 10
                  Example.negligible_threshold)) [] []).
  - discriminate.
  - reflexivity.
  - reflexivity.
  - left. constructor.
Defined.

(** ** The sample points and the grid *)

Lemma for_each_invariant {A St} (Inv : nat → St → Prop) (l : list A)
    (body : A → St → result St) s :
  Inv 0 s →
  (∀ i x s, l !! i = Some x → Inv i s → returns (body x s) (Inv (S i))) →
  returns (for_each l body s) (Inv (length l)).
Proof.
  revert Inv s. induction l as [|x l IH]; intros Inv s Hs Hbody; simpl.
  - by exists s.
  - destruct (Hbody 0 x s eq_refl Hs) as (s' & -> & Hs'). rewrite bind_Ok.
    apply (IH (λ i, Inv (S i))); [done |].
    intros i y t Hy. by apply (Hbody (S i)).
Qed.

Section SampleFacts.
Context {T : Type} {np : NumPy T} {sc : NumPyScalar T}.

Lemma setitem1_Ok (a : list T) i v :
  i < length a → setitem1 a i v = Ok (<[i:=v]> a).
Proof.
  intros Hi. unfold setitem1.
  by destruct (lookup_lt_is_Some_2 a i Hi) as [w ->].
Qed.

Lemma sample_row (xs ys : list T) n_pts_x n_pts_y ix x s :
  length xs = n_pts_x → length ys = n_pts_y →
  xs !! ix = Some x →
  sampled xs ys n_pts_x n_pts_y ix 0 s →
  returns (for_each ys (λ y '(v_x, v_y, i),
             v_x ← setitem1 v_x i (float64 x);
             v_y ← setitem1 v_y i (float64 y);
             mret (v_x, v_y, S i)) s)
          (sampled xs ys n_pts_x n_pts_y (S ix) 0).
Proof.
  intros Hxs Hys Hx Hs.
  pose proof (lookup_lt_Some _ _ _ Hx) as Hix.
  eapply returns_weaken.
  - apply (for_each_invariant (sampled xs ys n_pts_x n_pts_y ix)); [done |].
    intros iy y [[v_x v_y] i] Hy (Hi & Hlx & Hly & Hpts).
    simpl in Hi, Hlx, Hly, Hpts. cbv beta iota.
    pose proof (lookup_lt_Some _ _ _ Hy) as Hiy.
    assert (i < n_pts_x * n_pts_y) as Hroom by nia.
    rewrite (setitem1_Ok v_x) by lia. rewrite bind_Ok. cbv beta.
    rewrite (setitem1_Ok v_y) by lia. rewrite bind_Ok. cbv beta.
    eexists. split; [done |]. unfold sampled. cbn [fst snd].
    split; [lia |]. rewrite !length_insert. do 2 (split; [done |]).
    intros ix' iy' x' y' Hbefore Hx' Hy'.
    pose proof (lookup_lt_Some _ _ _ Hy') as Hiy'.
    destruct (decide (ix' = ix ∧ iy' = iy)) as [[-> ->]|Hne].
    + assert (x' = x) as -> by congruence.
      assert (y' = y) as -> by congruence.
      rewrite <- Hi. split; apply list_lookup_insert_eq; lia.
    + assert (ix' * n_pts_y + iy' < i) as Hlt by nia.
      rewrite !list_lookup_insert_ne by lia.
      apply Hpts; [lia | done..].
  - intros [[v_x v_y] i] (Hi & Hlx & Hly & Hpts).
    unfold sampled. cbn [fst snd] in *.
    split; [lia |]. do 2 (split; [done |]).
    intros ix' iy' x' y' Hbefore Hx' Hy'.
    pose proof (lookup_lt_Some _ _ _ Hy') as Hiy'.
    apply Hpts; [lia | done..].
Qed.

Lemma sample_points_returns (xs ys : list T) n_pts_x n_pts_y :
  length xs = n_pts_x → length ys = n_pts_y →
  returns (sample_points xs ys n_pts_x n_pts_y)
    (λ v, length v.1 = n_pts_x * n_pts_y ∧
          length v.2 = n_pts_x * n_pts_y ∧
          ∀ ix iy x y, xs !! ix = Some x → ys !! iy = Some y →
            v.1 !! (ix * n_pts_y + iy) = Some (float64 x) ∧
            v.2 !! (ix * n_pts_y + iy) = Some (float64 y)).
Proof.
  intros Hxs Hys. unfold sample_points.
  eapply returns_bind.
  - apply (for_each_invariant (λ ix, sampled xs ys n_pts_x n_pts_y ix 0)).
    { unfold sampled, full1. cbn [fst snd]. rewrite length_replicate.
      split; [lia |]. do 2 (split; [done |]). intros; lia. }
    intros ix x s Hx Hs. by apply sample_row.
  - intros [[v_x v_y] i] (Hi & Hlx & Hly & Hpts). cbn [fst snd] in *.
    eexists. split; [done |]. cbn [fst snd]. do 2 (split; [done |]).
    intros ix iy x y Hx Hy. apply Hpts; [| done..].
    apply lookup_lt_Some in Hx. lia.
Qed.

Lemma reshape_returns (n0 n1 : nat) (a : list T) :
  length a = n0 * n1 →
  ∃ m, reshape n0 n1 a = Ok m ∧ shape2 n0 n1 m ∧
       ∀ i j, i < n0 → j < n1 → lookup2 m i j = a !! (i * n1 + j).
Proof.
  intros Hlen. unfold reshape. rewrite decide_True by done.
  eexists. split; [done |]. split.
  - split; [by rewrite length_map, length_seq |].
    apply Forall_forall. intros r Hr.
    apply list_elem_of_fmap in Hr as (i & -> & Hi).
    apply elem_of_seq in Hi. unfold shape1.
    rewrite length_take, length_drop. nia.
  - intros i j Hi Hj. unfold lookup2.
    rewrite list_lookup_fmap, lookup_seq_lt by done. simpl.
    by rewrite lookup_take_lt, lookup_drop by done.
Qed.
End SampleFacts.

(** X10: the sample points run through [ys] for each abscissa of [xs] in
    turn, and the reshaped array of interpolated values has the same
    order: entry [ix, iy] of a field on the grid is the value of the
    interpolator at the point [(xs[ix], ys[iy])], so the first axis of
    the grid is x and the second is y. *)
Theorem grid_entry_is_the_value_at_its_sample_point
    {T : Type} {np : NumPy T} {sc : NumPyScalar T}
    (f : T → T → T) (xs ys : list T) (n_pts_x n_pts_y : nat) :
  length xs = n_pts_x → length ys = n_pts_y →
  ∃ v_x v_y m,
    sample_points xs ys n_pts_x n_pts_y = Ok (v_x, v_y) ∧
    length v_x = n_pts_x * n_pts_y ∧
    length v_y = n_pts_x * n_pts_y ∧
    on_grid f v_x v_y n_pts_x n_pts_y = Ok m ∧
    shape2 n_pts_x n_pts_y m ∧
    ∀ ix iy x y, xs !! ix = Some x → ys !! iy = Some y →
      v_x !! (ix * n_pts_y + iy) = Some (float64 x) ∧
      v_y !! (ix * n_pts_y + iy) = Some (float64 y) ∧
      lookup2 m ix iy = Some (f (float64 x) (float64 y)).
Proof.
  intros Hxs Hys.
  destruct (sample_points_returns xs ys n_pts_x n_pts_y Hxs Hys)
    as ([v_x v_y] & Hrun & Hlx & Hly & Hpts). simpl in *.
  destruct (reshape_returns n_pts_x n_pts_y (zip_with f v_x v_y))
    as (m & Hm & Hshape & Hentries).
  { rewrite length_zip_with. lia. }
  exists v_x, v_y, m. do 5 (split; [done |]).
  intros ix iy x y Hx Hy. destruct (Hpts ix iy x y Hx Hy) as [Hvx Hvy].
  do 2 (split; [done |]).
  apply lookup_lt_Some in Hx as Hix. apply lookup_lt_Some in Hy as Hiy.
  rewrite Hentries by lia. rewrite lookup_zip_with, Hvx, Hvy. done.
Qed.

Lemma grid_entry_is_the_value_at_its_sample_point_witness :
  ∃ v_x v_y m,
    sample_points [Binary64.Real 0; Binary64.Real 1]
      [Binary64.Real 2; Binary64.Real 3; Binary64.Real 4] 2 3 = Ok (v_x, v_y) ∧
    length v_x = 2 * 3 ∧
    length v_y = 2 * 3 ∧
    on_grid add v_x v_y 2 3 = Ok m ∧
    shape2 2 3 m ∧
    ∀ ix iy x y,
      [Binary64.Real 0; Binary64.Real 1] !! ix = Some x →
      [Binary64.Real 2; Binary64.Real 3; Binary64.Real 4] !! iy = Some y →
      v_x !! (ix * 3 + iy) = Some (float64 x) ∧
      v_y !! (ix * 3 + iy) = Some (float64 y) ∧
      lookup2 m ix iy = Some (add (float64 x) (float64 y)).
Proof.
  apply (grid_entry_is_the_value_at_its_sample_point add
           [Binary64.Real 0; Binary64.Real 1]
           [Binary64.Real 2; Binary64.Real 3; Binary64.Real 4] 2 3).
  - reflexivity.
  - reflexivity.
Defined.

(** ** The two triangulations *)

Lemma concat_blocks_length {A} (f : nat → list A) n :
  (∀ e, length (f e) = 4) → length (concat (map f (seq 0 n))) = 4 * n.
Proof.
  intros Hf. induction n as [|n IH]; [done |].
  rewrite seq_S, map_app, concat_app, length_app, IH. simpl.
  rewrite length_app, Hf. simpl. lia.
Qed.

Lemma concat_blocks_lookup {A} (f : nat → list A) n e q :
  (∀ e, length (f e) = 4) → e < n → q < 4 →
  concat (map f (seq 0 n)) !! (4 * e + q) = f e !! q.
Proof.
  intros Hf. induction n as [|n IH]; intros He Hq; [lia |].
  rewrite seq_S, map_app, concat_app. simpl. rewrite app_nil_r.
  destruct (decide (e = n)) as [->|Hne].
  - rewrite lookup_app_r by (rewrite concat_blocks_length by done; lia).
    rewrite concat_blocks_length by done. f_equal. lia.
  - rewrite lookup_app_l by (rewrite concat_blocks_length by done; lia).
    apply IH; lia.
Qed.

Section TriangulationFacts.
Context {T : Type} {np : NumPy T} {sc : NumPyScalar T} {Table Tensor : Type}.
Abbreviation Simmo := (Simmo T Table Tensor).
Variable nodes : Table → array2 Z.
Variable coordinates : Table → array2 T.
Variable sim : Simmo.
Variable ival : nat.

Lemma node_index_Ok i_el i_node :
  mesh_tables nodes coordinates sim →
  i_el < n_msh_el sim → i_node < 6 →
  ∃ number,
    lookup2 (nodes (table_nod sim)) i_node i_el = Some number ∧
    node_index nodes sim i_el i_node = Ok (number - 1)%Z ∧
    (1 ≤ number ≤ Z.of_nat (n_msh_pts sim))%Z.
Proof.
  intros (Hnodes & _ & Hvalid) Hel Hnode.
  destruct (shape2_lookup _ _ _ i_node i_el Hnodes) as [number Hnumber];
    [done.. |].
  exists number. split; [done |]. split; [| by eapply Hvalid].
  unfold node_index, getitem2. by rewrite Hnumber.
Qed.

Lemma coordinate_Ok (i_ex : Z) c :
  mesh_tables nodes coordinates sim →
  c < 2 → (0 ≤ i_ex < Z.of_nat (n_msh_pts sim))%Z →
  ∃ v, mesh_coordinate coordinates sim c (Z.to_nat i_ex) = Some v ∧
       coordinate coordinates sim i_ex c = Ok v.
Proof.
  intros (_ & Hcoords & _) Hc Hex.
  destruct (shape2_lookup _ _ _ c (Z.to_nat i_ex) Hcoords) as [v Hv];
    [done | lia |].
  exists v. split; [done |].
  unfold coordinate, getitem_int, getitem. unfold lookup2 in Hv.
  destruct (coordinates (x_arr sim) !! c) as [row|]; [| done].
  simpl in Hv. rewrite bind_Ok. rewrite decide_True by lia. by rewrite Hv.
Qed.

Lemma dense_node_step done i_el i_node (d : dense T) i :
  mesh_tables nodes coordinates sim →
  well_shaped_field sim → ival < num_modes sim →
  i_el < n_msh_el sim → i_node < 6 →
  dense_upto nodes coordinates sim ival done i_el i_node (d, i) →
  returns
    (i_ex ← node_index nodes sim i_el i_node;
     x ← coordinate coordinates sim i_ex 0;
     x6p ← setitem1 (v_x6p d) i (float64 x);
     y ← coordinate coordinates sim i_ex 1;
     y6p ← setitem1 (v_y6p d) i (float64 y);
     Ex ← getitem4 (sol1 sim) 0 i_node ival i_el;
     Ex6p ← setitem1 (v_Ex6p d) i (complex128 Ex);
     Ey ← getitem4 (sol1 sim) 1 i_node ival i_el;
     Ey6p ← setitem1 (v_Ey6p d) i (complex128 Ey);
     mret ({| v_x6p := x6p; v_y6p := y6p; v_Ex6p := Ex6p; v_Ey6p := Ey6p;
              v_triang6p := v_triang6p d |}, S i))
    (dense_upto nodes coordinates sim ival done i_el (S i_node)).
Proof.
  intros Hmesh Hshape Hival Hel Hnode (Hi & Hsize & Htri & Hentries).
  cbn [fst snd] in Hi, Hsize, Htri, Hentries.
  destruct Hsize as (Hlx & Hly & HlEx & HlEy).
  destruct (node_index_Ok i_el i_node Hmesh Hel Hnode)
    as (number & Hnumber & -> & Hvalid).
  rewrite bind_Ok. cbv beta.
  destruct (coordinate_Ok (number - 1) 0 Hmesh) as (x & Hx & ->);
    [lia | lia |].
  rewrite bind_Ok. cbv beta.
  rewrite (setitem1_Ok (v_x6p d)) by lia. rewrite bind_Ok. cbv beta.
  destruct (coordinate_Ok (number - 1) 1 Hmesh) as (y & Hy & ->);
    [lia | lia |].
  rewrite bind_Ok. cbv beta.
  rewrite (setitem1_Ok (v_y6p d)) by lia. rewrite bind_Ok. cbv beta.
  destruct (shape4_lookup _ _ _ _ _ 0 i_node ival i_el Hshape) as [Ex HEx];
    [unfold ncomps; lia | done.. |].
  destruct (shape4_lookup _ _ _ _ _ 1 i_node ival i_el Hshape) as [Ey HEy];
    [unfold ncomps; lia | done.. |].
  unfold getitem4. rewrite HEx, HEy. rewrite bind_Ok. cbv beta.
  rewrite (setitem1_Ok (v_Ex6p d)) by lia. rewrite bind_Ok. cbv beta.
  rewrite bind_Ok. cbv beta.
  rewrite (setitem1_Ok (v_Ey6p d)) by lia. rewrite bind_Ok. cbv beta.
  eexists. split; [done |]. unfold dense_upto, dense_size. cbn [fst snd].
  cbn [v_x6p v_y6p v_Ex6p v_Ey6p v_triang6p].
  split; [lia |]. split; [by rewrite !length_insert |]. split; [done |].
  intros e n Hbefore Hn.
  destruct (decide (e = i_el ∧ n = i_node)) as [[-> ->]|Hne].
  - exists (Z.to_nat (number - 1)), x, y, Ex, Ey.
    unfold mesh_point. rewrite Hnumber. cbn [mbind option_bind].
    cbn [v_x6p v_y6p v_Ex6p v_Ey6p].
    do 5 (split; [done |]). rewrite <- Hi.
    repeat split; apply list_lookup_insert_eq; lia.
  - destruct (Hentries e n) as (p & x' & y' & Ex' & Ey' & H1 & H2 & H3 & H4
                                  & H5 & H6 & H7 & H8 & H9); [lia | done |].
    exists p, x', y', Ex', Ey'. do 5 (split; [done |]).
    cbn [v_x6p v_y6p v_Ex6p v_Ey6p].
    rewrite !list_lookup_insert_ne by lia. done.
Qed.

Lemma triangles6p_length i_el : length (triangles6p i_el) = 4.
Proof. done. Qed.

Lemma dense_triangulation_returns :
  mesh_tables nodes coordinates sim →
  well_shaped_field sim → ival < num_modes sim →
  returns (dense_triangulation nodes coordinates sim ival)
    (λ d, dense_size sim d ∧
          v_triang6p d
            = concat (map triangles6p (seq 0 (n_msh_el sim))) ∧
          ∀ i_el i_node, i_el < n_msh_el sim → i_node < 6 →
            dense_entry nodes coordinates sim ival d i_el i_node).
Proof.
  intros Hmesh Hshape Hival. unfold dense_triangulation.
  eapply returns_bind.
  - apply (for_in_range_invariant
             (λ i_el, dense_upto nodes coordinates sim ival i_el i_el 0)).
    { unfold dense_upto, dense_size, full1. cbn [fst snd v_x6p v_y6p v_Ex6p
        v_Ey6p v_triang6p]. rewrite !length_replicate.
      split; [lia |]. split; [done |]. split; [done |]. intros; lia. }
    intros i_el [d i] Hel (Hi & Hsize & Htri & Hentries).
    cbn [fst snd] in Hi, Hsize, Htri, Hentries. cbv beta iota.
    eapply returns_weaken.
    + apply (for_in_range_invariant
               (λ i_node, dense_upto nodes coordinates sim ival
                            (S i_el) i_el i_node)).
      { unfold dense_upto. cbn [fst snd v_x6p v_y6p v_Ex6p v_Ey6p
          v_triang6p].
        split; [lia |]. split; [done |]. split.
        - rewrite Htri, seq_S, map_app, concat_app.
          cbn [map concat]. by rewrite app_nil_r.
        - intros e n Hbefore Hn. apply Hentries; [lia | done]. }
      intros i_node [d' i'] Hnode HInv. cbv beta iota.
      by apply dense_node_step.
    + intros [d' i'] (Hi' & Hsize' & Htri' & Hentries').
      cbn [fst snd] in Hi', Hsize', Htri', Hentries'.
      unfold dense_upto. cbn [fst snd].
      split; [lia |]. do 2 (split; [done |]).
      intros e n Hbefore Hn. apply Hentries'; [lia | done].
  - intros [d i] (Hi & Hsize & Htri & Hentries).
    cbn [fst snd] in Hi, Hsize, Htri, Hentries.
    eexists. split; [done |]. do 2 (split; [done |]).
    intros i_el i_node Hel Hnode. apply Hentries; [lia | done].
Qed.

Lemma corner_dense (d : dense T) i_el q c :
  v_triang6p d = concat (map triangles6p (seq 0 (n_msh_el sim))) →
  i_el < n_msh_el sim → q < 4 →
  corner (v_triang6p d) (4 * i_el + q) c = corner6p i_el q c.
Proof.
  intros -> Hel Hq. unfold corner, corner6p.
  rewrite (concat_blocks_lookup triangles6p) by done.
  do 4 (destruct q as [|q]; [by do 3 (destruct c as [|c]; [done |]) |]).
  lia.
Qed.

Lemma triangle1p_Ok i_el a b c :
  mesh_tables nodes coordinates sim →
  i_el < n_msh_el sim → a < 6 → b < 6 → c < 6 →
  ∃ p q r,
    lookup2 (nodes (table_nod sim)) a i_el = Some p ∧
    lookup2 (nodes (table_nod sim)) b i_el = Some q ∧
    lookup2 (nodes (table_nod sim)) c i_el = Some r ∧
    triangle1p nodes sim i_el a b c = Ok [p - 1; q - 1; r - 1]%Z.
Proof.
  intros Hmesh Hel Ha Hb Hc. unfold triangle1p.
  destruct (node_index_Ok i_el a Hmesh Hel Ha) as (p & Hp & -> & _).
  destruct (node_index_Ok i_el b Hmesh Hel Hb) as (q & Hq & -> & _).
  destruct (node_index_Ok i_el c Hmesh Hel Hc) as (r & Hr & -> & _).
  by exists p, q, r.
Qed.

Lemma unique_triangulation_returns :
  mesh_tables nodes coordinates sim →
  returns (unique_triangulation nodes sim)
          (unique_upto nodes sim (n_msh_el sim)).
Proof.
  intros Hmesh. unfold unique_triangulation.
  apply (for_in_range_invariant (unique_upto nodes sim)).
  { split; [done |]. intros; lia. }
  intros i_el v Hel [Hlen Hcorners].
  destruct (triangle1p_Ok i_el 0 3 5 Hmesh Hel)
    as (a0 & a1 & a2 & Ha0 & Ha1 & Ha2 & ->); [lia.. |].
  destruct (triangle1p_Ok i_el 1 4 3 Hmesh Hel)
    as (b0 & b1 & b2 & Hb0 & Hb1 & Hb2 & ->); [lia.. |].
  destruct (triangle1p_Ok i_el 2 5 4 Hmesh Hel)
    as (c0 & c1 & c2 & Hc0 & Hc1 & Hc2 & ->); [lia.. |].
  destruct (triangle1p_Ok i_el 3 4 5 Hmesh Hel)
    as (d0 & d1 & d2 & Hd0 & Hd1 & Hd2 & ->); [lia.. |].
  assert (b2 = a1) as -> by congruence.
  assert (d0 = a1) as -> by congruence.
  assert (c1 = a2) as -> by congruence.
  assert (d2 = a2) as -> by congruence.
  assert (c2 = b1) as -> by congruence.
  assert (d1 = b1) as -> by congruence.
  rewrite !bind_Ok. eexists. split; [done |]. split.
  { rewrite length_app. simpl. lia. }
  intros e q c He Hq. unfold corner.
  destruct (decide (e = i_el)) as [->|Hne].
  - rewrite lookup_app_r by lia.
    replace (4 * i_el + q - length v) with q by lia.
    unfold corner1p, corner, corners.
    do 4 (destruct q as [|q];
          [do 3 (destruct c as [|c];
                 [cbn [lookup list_lookup mbind option_bind];
                  by rewrite ?Ha0, ?Ha1, ?Ha2, ?Hb0, ?Hb1, ?Hb2,
                    ?Hc0, ?Hc1, ?Hc2, ?Hd0, ?Hd1, ?Hd2 |]);
           done |]).
    lia.
  - rewrite lookup_app_l by lia. apply Hcorners; lia.
Qed.
End TriangulationFacts.

(** X11: the dense triangulation gives every element six points of its
    own.  For a mesh with valid tables it is built without an error;
    point [6*i_el + i_node] holds the coordinates of the mesh point at
    node [i_node] of element [i_el] and the field of the mode at that
    node of that element; there are four triangles for every element, and
    a triangle of element [i_el] has its three corners among the six
    points of [i_el], so no point is shared between two elements. *)
Theorem dense_triangulation_keeps_the_elements_apart
    {T : Type} {np : NumPy T} {sc : NumPyScalar T} {Table Tensor : Type}
    (nodes : Table → array2 Z) (coordinates : Table → array2 T)
    (sim_wguide : Simmo T Table Tensor) (ival : nat) :
  mesh_tables nodes coordinates sim_wguide →
  well_shaped_field sim_wguide →
  ival < num_modes sim_wguide →
  ∃ d,
    dense_triangulation nodes coordinates sim_wguide ival = Ok d ∧
    dense_size sim_wguide d ∧
    length (v_triang6p d) = 4 * n_msh_el sim_wguide ∧
    (∀ i_el q triangle,
       i_el < n_msh_el sim_wguide → q < 4 →
       v_triang6p d !! (4 * i_el + q) = Some triangle →
       length triangle = 3 ∧
       Forall (λ p, 6 * i_el ≤ p < 6 * i_el + 6) triangle) ∧
    (∀ i_el i_node,
       i_el < n_msh_el sim_wguide → i_node < 6 →
       dense_entry nodes coordinates sim_wguide ival d i_el i_node).
Proof.
  intros Hmesh Hshape Hival.
  destruct (dense_triangulation_returns nodes coordinates sim_wguide ival
              Hmesh Hshape Hival) as (d & Hrun & Hsize & Htri & Hentries).
  exists d. do 2 (split; [done |]). split; [| split; [| done]].
  - rewrite Htri. by apply concat_blocks_length.
  - intros i_el q triangle Hel Hq. rewrite Htri.
    rewrite (concat_blocks_lookup triangles6p) by done.
    do 4 (destruct q as [|q];
          [intros [= <-]; split; [done |]; repeat constructor; lia |]).
    lia.
Qed.

Lemma Sample_mesh_tables :
  mesh_tables Sample.nodes Sample.coordinates Sample.sim_mesh.
Proof.
  split; [repeat (split || constructor) |].
  split; [repeat (split || constructor) |].
  intros i_node i_el number. simpl. unfold lookup2, Sample.mesh_nodes.
  do 6 (destruct i_node as [|i_node];
        [do 2 (destruct i_el as [|i_el]; [intros [= <-]; lia |]); done |]).
  done.
Defined.

Lemma Sample_mesh_field : well_shaped_field Sample.sim_mesh.
Proof. repeat (split || constructor). Defined.

Lemma dense_triangulation_keeps_the_elements_apart_witness :
  ∃ d,
    dense_triangulation Sample.nodes Sample.coordinates Sample.sim_mesh 0
      = Ok d ∧
    dense_size Sample.sim_mesh d ∧
    length (v_triang6p d) = 4 * 2 ∧
    (∀ i_el q triangle,
       i_el < 2 → q < 4 →
       v_triang6p d !! (4 * i_el + q) = Some triangle →
       length triangle = 3 ∧
       Forall (λ p, 6 * i_el ≤ p < 6 * i_el + 6) triangle) ∧
    (∀ i_el i_node,
       i_el < 2 → i_node < 6 →
       dense_entry Sample.nodes Sample.coordinates Sample.sim_mesh 0 d
         i_el i_node).
Proof.
  apply (dense_triangulation_keeps_the_elements_apart
           Sample.nodes Sample.coordinates Sample.sim_mesh 0).
  - exact Sample_mesh_tables.
  - exact Sample_mesh_field.
  - simpl. lia.
Defined.

(** X12: the triangulation on the mesh points, which serves the triangle
    finder, and the dense triangulation, which carries the values, have
    the same triangles in the same order: for a mesh with valid tables
    both are built, with the same number of triangles, and each corner of
    each triangle of the dense one lies at the coordinates of the
    corresponding corner of the other, which is a point of the mesh. *)
Theorem triangulations_have_the_same_triangles
    {T : Type} {np : NumPy T} {sc : NumPyScalar T} {Table Tensor : Type}
    (nodes : Table → array2 Z) (coordinates : Table → array2 T)
    (sim_wguide : Simmo T Table Tensor) (ival : nat) :
  mesh_tables nodes coordinates sim_wguide →
  well_shaped_field sim_wguide →
  ival < num_modes sim_wguide →
  ∃ d v_triang1p,
    dense_triangulation nodes coordinates sim_wguide ival = Ok d ∧
    unique_triangulation nodes sim_wguide = Ok v_triang1p ∧
    length v_triang1p = length (v_triang6p d) ∧
    ∀ i_el q c p6,
      i_el < n_msh_el sim_wguide → q < 4 →
      corner (v_triang6p d) (4 * i_el + q) c = Some p6 →
      ∃ p1 x y,
        corner v_triang1p (4 * i_el + q) c = Some p1 ∧
        (0 ≤ p1 < Z.of_nat (n_msh_pts sim_wguide))%Z ∧
        mesh_coordinate coordinates sim_wguide 0 (Z.to_nat p1) = Some x ∧
        mesh_coordinate coordinates sim_wguide 1 (Z.to_nat p1) = Some y ∧
        v_x6p d !! p6 = Some (float64 x) ∧
        v_y6p d !! p6 = Some (float64 y).
Proof.
  intros Hmesh Hshape Hival.
  destruct (dense_triangulation_returns nodes coordinates sim_wguide ival
              Hmesh Hshape Hival) as (d & Hrun & Hsize & Htri & Hentries).
  destruct (unique_triangulation_returns nodes coordinates sim_wguide Hmesh)
    as (v & Hv & Hlen & Hcorners).
  exists d, v. do 2 (split; [done |]). split.
  { rewrite Hlen, Htri. by rewrite concat_blocks_length. }
  intros i_el q c p6 Hel Hq.
  rewrite (corner_dense sim_wguide d i_el q c Htri Hel Hq).
  rewrite (Hcorners i_el q c Hel Hq). unfold corner6p, corner1p.
  destruct (corner corners q c) as [i_node|] eqn:Hnode; [| done].
  simpl. intros [= <-].
  assert (i_node < 6) as Hi.
  { unfold corner, corners in Hnode.
    do 4 (destruct q as [|q];
          [do 3 (destruct c as [|c]; [injection Hnode as <-; lia |]);
           done |]).
    lia. }
  destruct (Hentries i_el i_node Hel Hi)
    as (p & x & y & Ex & Ey & Hp & Hx & Hy & _ & _ & Hvx & Hvy & _).
  unfold mesh_point in Hp.
  destruct (lookup2 (nodes (table_nod sim_wguide)) i_node i_el)
    as [number|] eqn:Hnumber; [| done].
  simpl in Hp. injection Hp as <-.
  destruct Hmesh as (_ & _ & Hvalid).
  pose proof (Hvalid _ _ _ Hnumber) as Hrange.
  exists (number - 1)%Z, x, y. simpl.
  split; [done |]. split; [lia |]. done.
Qed.

Lemma triangulations_have_the_same_triangles_witness :
  ∃ d v_triang1p,
    dense_triangulation Sample.nodes Sample.coordinates Sample.sim_mesh 0
      = Ok d ∧
    unique_triangulation Sample.nodes Sample.sim_mesh = Ok v_triang1p ∧
    length v_triang1p = length (v_triang6p d) ∧
    ∀ i_el q c p6,
      i_el < 2 → q < 4 →
      corner (v_triang6p d) (4 * i_el + q) c = Some p6 →
      ∃ p1 x y,
        corner v_triang1p (4 * i_el + q) c = Some p1 ∧
        (0 ≤ p1 < 9)%Z ∧
        mesh_coordinate Sample.coordinates Sample.sim_mesh 0 (Z.to_nat p1)
          = Some x ∧
        mesh_coordinate Sample.coordinates Sample.sim_mesh 1 (Z.to_nat p1)
          = Some y ∧
        v_x6p d !! p6 = Some (float64 x) ∧
        v_y6p d !! p6 = Some (float64 y).
Proof.
  apply (triangulations_have_the_same_triangles
           Sample.nodes Sample.coordinates Sample.sim_mesh 0).
  - exact Sample_mesh_tables.
  - exact Sample_mesh_field.
  - simpl. lia.
Defined.

(** * The scripts *)

(** ** Loops that are known to have returned *)

Lemma for_in_seq_Ok {St} (Inv : nat → St → Prop) body len :
  ∀ start (s s' : St),
    Inv start s →
    (∀ i t t', start ≤ i < start + len → Inv i t → body i t = Ok t' →
               Inv (S i) t') →
    for_in (seq start len) body s = Ok s' →
    Inv (start + len) s'.
Proof.
  induction len as [|len IH]; intros start s s' Hs Hbody; simpl.
  - intros [= <-]. by rewrite Nat.add_0_r.
  - destruct (body start s) as [t|e] eqn:Ht; [| done]. rewrite bind_Ok.
    replace (start + S len) with (S start + len) by lia.
    apply IH.
    + apply (Hbody start s t); [lia | done..].
    + intros i u u' Hi. apply Hbody. lia.
Qed.

(** ** The entries of [sym_list] *)

Section LabelFacts.
Context {T : Type} {np : NumPy T} {Table Tensor : Type}.
Abbreviation Simmo := (Simmo T Table Tensor).
Variable interpolate : Simmo → nat → Interpolated T.

Lemma symmetry_print_sign (s : element T) (t : T) :
  sign (symmetry_print s t).
Proof. unfold sign, symmetry_print. destruct (holds _ _ _); auto. Qed.

Lemma symmetry_labels_sign (scores : element T * element T * element T) :
  sign_labels (symmetry_labels scores).
Proof.
  destruct scores as [[C_2 sigma_y] sigma_x]. do 3 eexists.
  split; [reflexivity |]. repeat split; apply symmetry_print_sign.
Qed.

Lemma symmetries_rows (sim_wguide : Simmo) n_points thr sym_list :
  symmetries interpolate sim_wguide n_points thr = Ok sym_list →
  length sym_list = length (Eig_values sim_wguide) ∧
  Forall sign_labels sym_list.
Proof.
  unfold symmetries, range. intros Hrun.
  apply (for_in_seq_Ok
           (λ n (l : list (list Z)), length l = n ∧ Forall sign_labels l)
           _ _ 0 [] sym_list) in Hrun; [done | by split |].
  intros ival l l' _ [Hlen Hall].
  destruct (field_components _ _ _) as [[m_Ex m_Ey]|]; [| done].
  rewrite bind_Ok.
  destruct (symmetry_scores _ _ _ _) as [scores|]; [| done].
  rewrite bind_Ok. intros [= <-]. split.
  - rewrite length_app. simpl. lia.
  - apply Forall_app. split; [done |].
    repeat constructor. apply symmetry_labels_sign.
Qed.
End LabelFacts.

(** ** Positions in a filtered list *)

Section PositionFacts.
Context {A : Type} (P : A → bool).

Lemma positions_lower (l : list A) :
  ∀ start i m, positions P start l !! i = Some m → start + i ≤ m.
Proof.
  induction l as [|x l IH]; intros start i m; simpl; [done |].
  destruct (P x).
  - destruct i as [|i]; simpl.
    + intros [= <-]. lia.
    + intros H. apply IH in H. lia.
  - intros H. apply IH in H. lia.
Qed.

Lemma positions_filter (l : list A) :
  ∀ start i,
    filter (λ x, P x) l !! i
    = (m ← positions P start l !! i; l !! (m - start)).
Proof.
  induction l as [|x l IH]; intros start i; simpl; [done |].
  rewrite filter_cons. destruct (P x) eqn:HP.
  - rewrite decide_True by done. destruct i as [|i]; simpl.
    + by rewrite Nat.sub_diag.
    + rewrite (IH (S start) i).
      destruct (positions P (S start) l !! i) as [m|] eqn:Hm; [| done].
      simpl. apply positions_lower in Hm.
      replace (m - start) with (S (m - S start)) by lia. done.
  - rewrite decide_False by (unfold Is_true; auto). rewrite (IH (S start) i).
    destruct (positions P (S start) l !! i) as [m|] eqn:Hm; [| done].
    simpl. apply positions_lower in Hm.
    replace (m - start) with (S (m - S start)) by lia. done.
Qed.

Lemma length_positions (l : list A) :
  ∀ start, length (positions P start l) = length (filter (λ x, P x) l).
Proof.
  induction l as [|x l IH]; intros start; simpl; [done |].
  rewrite filter_cons. destruct (P x) eqn:HP.
  - rewrite decide_True by done. simpl. by rewrite IH.
  - rewrite decide_False by (unfold Is_true; auto). apply IH.
Qed.

Lemma positions_exact (l : list A) :
  ∀ start i m,
    positions P start l !! i = Some m →
    m = start + i ↔
    ∀ j x, j < m - start → l !! j = Some x → P x = true.
Proof.
  induction l as [|x l IH]; intros start i m; simpl; [done |].
  destruct (P x) eqn:HP.
  - destruct i as [|i]; simpl.
    + intros [= <-]. split; [intros _ j y Hj; lia | lia].
    + intros Hm. pose proof (positions_lower _ _ _ _ Hm) as Hlow.
      rewrite <- Nat.add_succ_comm. rewrite (IH (S start) i m Hm). split.
      * intros Hall j y Hj. destruct j as [|j]; simpl.
        -- by intros [= <-].
        -- apply Hall. lia.
      * intros Hall j y Hj Hy. apply (Hall (S j)); [lia | done].
  - intros Hm. pose proof (positions_lower _ _ _ _ Hm) as Hlow. split.
    + lia.
    + intros Hall. specialize (Hall 0 x ltac:(lia) eq_refl). congruence.
Qed.
End PositionFacts.

(** ** The dispersion script *)

Section DispersionFacts.
Context {T : Type} {np : NumPy T} {sc : NumPyScalar T} {Table Tensor : Type}.
Abbreviation Simmo := (Simmo T Table Tensor).

Lemma mark_mode_marked (sym_list : list (list Z)) (prop : list T)
    q_ac k_AC i labels frequency (s : Tut03.session T) :
  sym_list !! i = Some labels → sign_labels labels →
  prop !! i = Some frequency →
  Tut03.mark_mode sym_list prop q_ac k_AC i s
  = Ok (marked labels (np_real (div q_ac k_AC)) (mul frequency nano) s).
Proof.
  intros Hrow (a & b & c & -> & Ha & Hb & Hc) Hf.
  unfold Tut03.mark_mode, Tut03.labels_are, Tut03.label_is.
  rewrite (getitem_Some _ _ _ Hf), (getitem_Some _ _ _ Hrow).
  destruct Ha as [-> | ->], Hb as [-> | ->], Hc as [-> | ->]; reflexivity.
Qed.

Lemma lines_marked labels x y (s : Tut03.session T) :
  Tut03.lines (marked labels x y s) =
  Tut03.lines s ++
  match symmetry_class labels with
  | Some h => [{| Tut03.xdata := x; Tut03.ydata := y;
                  Tut03.fmt := Tut03.marker h |}]
  | None => []
  end.
Proof.
  unfold marked. destruct (symmetry_class labels); [done |].
  by rewrite app_nil_r.
Qed.

Lemma prop_AC_modes_filter (sim : Simmo) :
  Tut03.prop_AC_modes sim
  = map np_real (filter (λ x, propagates x) (Eig_values sim)).
Proof. reflexivity. Qed.

Lemma prop_AC_modes_lookup (sim : Simmo) i :
  Tut03.prop_AC_modes sim !! i
  = (m ← propagating_modes sim !! i;
     eigenvalue ← Eig_values sim !! m;
     Some (np_real eigenvalue)).
Proof.
  rewrite prop_AC_modes_filter. unfold propagating_modes.
  rewrite list_lookup_fmap.
  rewrite (positions_filter propagates (Eig_values sim) 0 i).
  destruct (positions propagates 0 (Eig_values sim) !! i) as [m|]; [| done].
  simpl. rewrite Nat.sub_0_r. by destruct (Eig_values sim !! m).
Qed.

Lemma length_prop_AC_modes (sim : Simmo) :
  length (Tut03.prop_AC_modes sim) = length (propagating_modes sim).
Proof.
  rewrite prop_AC_modes_filter. unfold propagating_modes.
  by rewrite length_map, (length_positions propagates).
Qed.

Lemma length_propagating_modes (sim : Simmo) :
  length (propagating_modes sim) ≤ length (Eig_values sim).
Proof.
  unfold propagating_modes. rewrite (length_positions propagates).
  apply length_filter.
Qed.

(** The loop over the propagating modes, for labels of [symmetries]. *)
Lemma marks_of_a_wavevector (sim : Simmo) sym_list q_ac k_AC
    (s : Tut03.session T) :
  length sym_list = length (Eig_values sim) →
  Forall sign_labels sym_list →
  returns (for_in (range (length (Tut03.prop_AC_modes sim)))
             (Tut03.mark_mode sym_list (Tut03.prop_AC_modes sim) q_ac k_AC) s)
    (λ s', Tut03.lines s' =
           Tut03.lines s ++
           omap (drawn sim sym_list q_ac k_AC)
                (seq 0 (length (propagating_modes sim)))).
Proof.
  intros Hlen Hsigns. rewrite <- length_prop_AC_modes.
  apply (for_in_range_invariant
           (λ n s', Tut03.lines s' =
                    Tut03.lines s ++
                    omap (drawn sim sym_list q_ac k_AC) (seq 0 n))).
  { by rewrite app_nil_r. }
  intros i t Hi Hlines.
  destruct (lookup_lt_is_Some_2 (Tut03.prop_AC_modes sim) i Hi)
    as [frequency Hf].
  pose proof (length_propagating_modes sim) as Hkept.
  rewrite length_prop_AC_modes in Hi.
  destruct (lookup_lt_is_Some_2 sym_list i) as [labels Hrow]; [lia |].
  pose proof (Forall_lookup_1 _ _ _ _ Hsigns Hrow) as Hsign.
  rewrite (mark_mode_marked sym_list _ q_ac k_AC i labels frequency t)
    by done.
  eexists. split; [done |]. rewrite lines_marked.
  rewrite Hlines, seq_S, omap_app, <- app_assoc. f_equal. f_equal.
  simpl. unfold drawn. rewrite prop_AC_modes_lookup in Hf.
  destruct (propagating_modes sim !! i) as [m|]; [| done]. simpl in *.
  destruct (Eig_values sim !! m) as [eigenvalue|]; [| done]. simpl in *.
  injection Hf as <-. rewrite Hrow. simpl.
  by destruct (symmetry_class labels).
Qed.
End DispersionFacts.

(** X13: in the loop of the dispersion script over the propagating
    modes of a wavevector (lines 65 to 77), the frequencies and the
    symmetry labels meet by position: the line drawn at position [i] has
    the frequency of the [i]-th propagating mode and the marker of entry
    [i] of [sym_list], the labels of mode [i].  The [i]-th propagating
    mode is a mode [m ≥ i], and it is mode [i] itself only when every
    mode before it propagates; after a mode that does not propagate, a
    frequency is drawn with the labels of an earlier mode.  The loop
    itself never fails once [symmetries] has returned. *)
Theorem frequencies_meet_the_labels_by_position
    {T : Type} {np : NumPy T} {sc : NumPyScalar T} {Table Tensor : Type}
    (interpolate : Simmo T Table Tensor → nat → Interpolated T)
    (sim_AC_wguide : Simmo T Table Tensor)
    (k_AC q_ac : T) (s : Tut03.session T)
    (sym_list : list (list Z)) :
  symmetries interpolate sim_AC_wguide 10 ten_micro = Ok sym_list →
  (∃ s',
     Tut03.mark_modes interpolate sim_AC_wguide q_ac k_AC s = Ok s' ∧
     Tut03.lines s' =
       Tut03.lines s ++
       omap (drawn sim_AC_wguide sym_list q_ac k_AC)
            (seq 0 (length (propagating_modes sim_AC_wguide)))) ∧
  (∀ i m,
     propagating_modes sim_AC_wguide !! i = Some m →
     i ≤ m ∧
     (∃ eigenvalue, Eig_values sim_AC_wguide !! m = Some eigenvalue ∧
                    Tut03.prop_AC_modes sim_AC_wguide !! i
                      = Some (np_real eigenvalue)) ∧
     (m = i ↔ ∀ j eigenvalue,
                j < m → Eig_values sim_AC_wguide !! j = Some eigenvalue →
                propagates eigenvalue = true)).
Proof.
  set (sim := sim_AC_wguide). intros Hsym. split.
  - destruct (symmetries_rows interpolate sim 10 ten_micro sym_list Hsym)
      as [Hlen Hsigns].
    destruct (marks_of_a_wavevector sim sym_list q_ac k_AC s Hlen Hsigns)
      as (t & Hloop & Hlines).
    unfold Tut03.mark_modes. fold sim. rewrite Hsym, bind_Ok.
    rewrite Hloop. by eexists.
  - intros i m Hm. unfold propagating_modes in Hm.
    pose proof (positions_lower propagates _ _ _ _ Hm) as Hlow.
    pose proof (positions_exact propagates _ _ _ _ Hm) as Hexact.
    rewrite Nat.sub_0_r in Hexact. split; [lia |]. split; [| done].
    assert (is_Some (Tut03.prop_AC_modes sim !! i)) as [f Hf].
    { apply lookup_lt_is_Some_2. rewrite length_prop_AC_modes.
      unfold propagating_modes. by apply lookup_lt_Some in Hm. }
    rewrite Hf. rewrite prop_AC_modes_lookup in Hf.
    unfold propagating_modes in Hf. rewrite Hm in Hf. simpl in Hf.
    destruct (Eig_values sim !! m) as [eigenvalue|]; [| done].
    injection Hf as <-. by exists eigenvalue.
Qed.

Lemma frequencies_meet_the_labels_by_position_witness :
  ∃ s',
    Tut03.mark_modes (λ _ _, Example.uniform_Ey) Sample.sim_AC_evanescent
      (Binary64.Real 1) (Binary64.Real 4) Tut03.blank = Ok s' ∧
    Tut03.lines s' =
      Tut03.lines (Tut03.blank (T:=Binary64.num)) ++
      omap (drawn Sample.sim_AC_evanescent
              [[1; 1; 1]; [1; 1; 1]; [1; 1; 1]]%Z
              (Binary64.Real 1) (Binary64.Real 4))
           (seq 0 (length (propagating_modes Sample.sim_AC_evanescent))).
Proof.
  refine (proj1 (frequencies_meet_the_labels_by_position
                   (λ _ _, Example.uniform_Ey) Sample.sim_AC_evanescent
                   (Binary64.Real 4) (Binary64.Real 1) Tut03.blank
                   [[1; 1; 1]; [1; 1; 1]; [1; 1; 1]]%Z _)).
  vm_compute. reflexivity.
Defined.

(** X14: every entry of the list that [symmetries] returns holds three
    labels, each 1 or -1, and the dispersion script draws a mode exactly
    when the three labels multiply to 1: as class A, B, C or D for the
    entries [1,1,1], [-1,1,-1], [1,-1,-1] and [-1,-1,1], once; for the
    four other entries it draws nothing and binds no name. *)
Theorem modes_are_drawn_when_their_labels_multiply_to_one
    {T : Type} {np : NumPy T} {sc : NumPyScalar T} {Table Tensor : Type}
    (interpolate : Simmo T Table Tensor → nat → Interpolated T)
    (sim_wguide : Simmo T Table Tensor) (n_points : nat)
    (negligible_threshold : T) (sym_list : list (list Z)) :
  symmetries interpolate sim_wguide n_points negligible_threshold
    = Ok sym_list →
  length sym_list = length (Eig_values sim_wguide) ∧
  ∀ i labels,
    sym_list !! i = Some labels →
    ∃ C_2 sigma_y sigma_x,
      labels = [C_2; sigma_y; sigma_x] ∧
      sign C_2 ∧ sign sigma_y ∧ sign sigma_x ∧
      (is_Some (symmetry_class labels) ↔ (C_2 * sigma_y * sigma_x = 1)%Z) ∧
      ∀ prop_AC_modes q_ac k_AC frequency (s : Tut03.session T),
        prop_AC_modes !! i = Some frequency →
        Tut03.mark_mode sym_list prop_AC_modes q_ac k_AC i s
        = Ok (marked labels (np_real (div q_ac k_AC))
                (mul frequency nano) s).
Proof.
  intros Hsym.
  destruct (symmetries_rows interpolate sim_wguide _ _ sym_list Hsym)
    as [Hlen Hsigns].
  split; [done |]. intros i labels Hrow.
  pose proof (Forall_lookup_1 _ _ _ _ Hsigns Hrow) as Hsign.
  destruct Hsign as (a & b & c & -> & Ha & Hb & Hc).
  exists a, b, c. do 4 (split; [done |]). split.
  - destruct Ha as [-> | ->], Hb as [-> | ->], Hc as [-> | ->];
      (split; [intros [h Hh]; by vm_compute in Hh | intros Hp; try done;
               by eexists]).
  - intros prop q_ac k_AC frequency s Hf.
    apply mark_mode_marked; [done | | done]. by exists a, b, c.
Qed.

Lemma modes_are_drawn_when_their_labels_multiply_to_one_witness :
  length [[1; 1; 1]; [1; 1; 1]; [1; 1; 1]]%Z
    = length (Eig_values Sample.sim_AC_evanescent) ∧
  ∀ i labels,
    [[1; 1; 1]; [1; 1; 1]; [1; 1; 1]]%Z !! i = Some labels →
    ∃ C_2 sigma_y sigma_x,
      labels = [C_2; sigma_y; sigma_x] ∧
      sign C_2 ∧ sign sigma_y ∧ sign sigma_x ∧
      (is_Some (symmetry_class labels) ↔ (C_2 * sigma_y * sigma_x = 1)%Z) ∧
      ∀ prop_AC_modes q_ac k_AC frequency (s : Tut03.session Binary64.num),
        prop_AC_modes !! i = Some frequency →
        Tut03.mark_mode [[1; 1; 1]; [1; 1; 1]; [1; 1; 1]]%Z
          prop_AC_modes q_ac k_AC i s
        = Ok (marked labels (np_real (div q_ac k_AC))
                (mul frequency nano) s).
Proof.
  apply (modes_are_drawn_when_their_labels_multiply_to_one
           (λ _ _, Example.uniform_Ey) Sample.sim_AC_evanescent 10
           Example.negligible_threshold).
  vm_compute. reflexivity.
Defined.

(** ** The script of the inter-modal gain *)

(** X16: the script [simo-lit_08] binds six names to the value of
    [gain_and_qs], which is a tuple of five.  Whatever the simulations
    and the library are, the statement never completes: when the call
    returns, after its Fortran calls, the assignment raises [ValueError];
    when the call raises, so does the statement. *)
Theorem six_names_for_five_values
    {T : Type} {np : NumPy T} {Table Tensor : Type}
    (NumBAT : Fortran T Table Tensor)
    (sim_EM_pump sim_EM_Stokes sim_AC : Simmo T Table Tensor)
    (k_AC set_q_factor : T) :
  let statement := Lit08.gains NumBAT sim_EM_pump sim_EM_Stokes sim_AC
                     k_AC set_q_factor in
  let run := gain_and_qs NumBAT sim_EM_pump sim_EM_Stokes sim_AC k_AC
               (PyInt 0) (PyInt 1) (PyStr "All") (Some set_q_factor) None in
  (∀ values, snd statement ≠ Ok values) ∧
  (∀ r, snd run = Ok r → snd statement = Raise ValueError) ∧
  (∀ e, snd run = Raise e → snd statement = Raise e) ∧
  fst statement = fst run ∧
  (∀ c, Invoke c ∈ fst statement → ¬ is_loss_call c).
Proof.
  intros statement run.
  assert (snd statement
          = match snd run with
            | Ok _ => Raise ValueError
            | Raise e => Raise e
            end) as Hsnd.
  { unfold statement, Lit08.gains, Lit08.EM_ival_pump, Lit08.EM_ival_Stokes,
      Lit08.AC_ival. fold run. rewrite snd_bind.
    destruct (snd run) as [[[[[S1 S2] S3] alpha] Qf]|e]; done. }
  assert (fst statement = fst run) as Hfst.
  { unfold statement, Lit08.gains, Lit08.EM_ival_pump, Lit08.EM_ival_Stokes,
      Lit08.AC_ival. fold run. rewrite fst_bind.
    destruct (snd run); simpl; by rewrite app_nil_r. }
  split; [| split; [| split; [| split]]].
  - intros values. rewrite Hsnd. by destruct (snd run).
  - intros r Hr. by rewrite Hsnd, Hr.
  - intros e He. by rewrite Hsnd, He.
  - done.
  - intros c. rewrite Hfst. unfold run. intros Hc.
    apply gain_and_qs_calls in Hc
      as (pump & Stokes & AC & pf & sf & eps & _ & _ & _ & _ & _ & Hc).
    simpl in Hc. destruct Hc as [[? _] | [-> | ->]]; [done | | by intros []].
    unfold photoelastic_call.
    destruct (linear_elements sim_EM_pump); by intros [].
Qed.

Lemma six_names_for_five_values_witness :
  snd (Lit08.gains Example.NumBAT Example.sim_EM Sample.sim_EM_two_modes
         Example.sim_AC Example.k_AC (Binary64.Real 460))
  = Raise ValueError.
Proof.
  apply (proj1 (proj2 (six_names_for_five_values Example.NumBAT
                  Example.sim_EM Sample.sim_EM_two_modes Example.sim_AC
                  Example.k_AC (Binary64.Real 460)))
           (Sample.gains_of_two_modes)).
  vm_compute. reflexivity.
Defined.
